(** * BytecodeLayouts: the layout-string interpreter of the Swift runtime

    A shallow embedding of [stdlib/public/runtime/BytecodeLayouts.cpp]:
    the value-witness drivers (destroy, initWithCopy, initWithTake,
    assignWithCopy), the reference-kind primitives and enum handlers they
    dispatch to, the enum tag entry points and the resilience-resolution
    pass, followed by the properties checked against the specification.

    Conventions of the model.
    - LP64, little endian: [uint64_t], [size_t], [uintptr_t], [intptr_t] and
      pointers are 8 bytes, [unsigned] and [uint32_t] are 4 bytes. Every
      machine integer is a [Z] and its wrap-around is written out with
      [u64], [u32], [u8].
    - Value storage is a flat byte-addressed [Memory]; the layout string is
      an immutable list of bytes with the address it is loaded at.
    - The runtime functions the interpreter calls (reference counting, value
      witnesses, metadata accessors) are not part of the file: every call is
      recorded as an [Event] in the trace of the [World] and its effect on
      storage is a parameter of the [Runtime].
    - [SWIFT_OBJC_INTEROP] is on and [SWIFT_PTRAUTH] is off.
    - A cursor into a value is a 64-bit integer and wraps. An address is a
      [Z], and the sum of an address and a cursor is taken in [Z]: it is the
      pointer of the code as long as it stays below [2 ^ 64].
    - An [assert] of the code is not in a definition: the entry points that
      end in [assert(addrOffset == metadata->vw_size())] return the state
      their driver ends in, and it is for a theorem to state that the
      cursor ends at [vw_size].
    - Undefined behaviour (a read past the layout string, a call through a
      null table entry, [swift_unreachable]) is [None]. *)

From Stdlib Require Import ZArith List Lia Bool FunctionalExtensionality.
Import ListNotations.
Open Scope Z_scope.

(** ** Machine integers *)

Definition wrap (bits x : Z) : Z := x mod 2 ^ bits.
Definition u8 : Z -> Z := wrap 8.
Definition u32 : Z -> Z := wrap 32.
Definition u64 : Z -> Z := wrap 64.

(** [(intptr_t)(int32_t)x]: the low 32 bits of [x], sign extended. *)
Definition sext32 (x : Z) : Z :=
  let y := u32 x in if y <? 2 ^ 31 then y else y - 2 ^ 32.

(** ** Value storage *)

Definition Memory := Z -> Z.

Definition update (m : Memory) (a v : Z) : Memory :=
  fun x => if x =? a then v else m x.

(** [n] bytes at [a], little endian, zero extended. *)
Fixpoint loadLE (m : Memory) (a : Z) (n : nat) : Z :=
  match n with
  | O => 0
  | S k => u8 (m a) + 256 * loadLE m (a + 1) k
  end.

(** The low [n] bytes of [v] stored at [a], little endian. *)
Fixpoint storeLE (m : Memory) (a : Z) (n : nat) (v : Z) : Memory :=
  match n with
  | O => m
  | S k => storeLE (update m a (u8 v)) (a + 1) k (v / 256)
  end.

(** [memcpy(dest, src, n)]: the source bytes are those before the call. *)
Definition memcpy (m : Memory) (dest src n : Z) : Memory :=
  fun x => if (dest <=? x) && (x <? dest + n) then m (src + (x - dest)) else m x.

(** [readTagBytes]: 1, 2, 4 or 8 bytes, anything else is unreachable. The
    parameter is a [uint8_t]. *)
Definition readTagBytes (m : Memory) (addr byteCount : Z) : option Z :=
  match u8 byteCount with
  | 1 => Some (loadLE m addr 1)
  | 2 => Some (loadLE m addr 2)
  | 4 => Some (loadLE m addr 4)
  | 8 => Some (loadLE m addr 8)
  | _ => None
  end.

(** ** Layout strings *)

Class LayoutString := {
  lsBase : Z;            (* the address the string is loaded at *)
  lsBytes : list Z       (* its bytes *)
}.

Fixpoint bytesLE (l : list Z) : Z :=
  match l with
  | [] => 0
  | b :: r => u8 b + 256 * bytesLE r
  end.

(** [n] bytes of the string at offset [pos]; reading outside it is undefined. *)
Definition readAt (bs : list Z) (pos : Z) (n : nat) : option Z :=
  if (0 <=? pos) && (pos + Z.of_nat n <=? Z.of_nat (length bs))
  then Some (bytesLE (firstn n (skipn (Z.to_nat pos) bs)))
  else None.

(** ** The runtime the interpreter calls into *)

(** One constructor per runtime function called; pointers and addresses are
    the arguments of the call. *)
Inductive Event : Type :=
| swift_errorRelease (object : Z)
| swift_errorRetain (object : Z)
| swift_release (object : Z)
| swift_retain (object : Z)
| swift_unownedRelease (object : Z)
| swift_unownedRetain (object : Z)
| swift_weakDestroy (ref : Z)
| swift_weakCopyInit (dest src : Z)
| swift_weakCopyAssign (dest src : Z)
| swift_unknownObjectRelease (object : Z)
| swift_unknownObjectRetain (object : Z)
| swift_unknownObjectUnownedDestroy (ref : Z)
| swift_unknownObjectUnownedCopyInit (dest src : Z)
| swift_unknownObjectUnownedCopyAssign (dest src : Z)
| swift_unknownObjectWeakDestroy (ref : Z)
| swift_unknownObjectWeakCopyInit (dest src : Z)
| swift_unknownObjectWeakTakeInit (dest src : Z)
| swift_unknownObjectWeakCopyAssign (dest src : Z)
| swift_bridgeObjectRelease (object : Z)
| swift_bridgeObjectRetain (object : Z)
| Block_release (object : Z)
| Block_copy (object : Z)
| objc_release (object : Z)
| objc_retain (object : Z)
| vw_destroy (type object : Z)
| vw_initializeWithCopy (type dest src : Z)
| vw_initializeWithTake (type dest src : Z)
| vw_assignWithCopy (type dest src : Z)
| vw_initializeBufferWithCopyOfBuffer (type dest src : Z)
| vw_storeEnumTagSinglePayload (type enum whichCase emptyCases : Z).

Record World := {
  mem : Memory;
  trace : list Event     (* most recent call first *)
}.

(** ABI constants, metadata queries and the results of runtime functions.
    Metadata records and functions are known by their addresses. *)
Class Runtime := {
  layoutStringHeaderSize : Z;
  NumWords_ValueBuffer : Z;
  _swift_abi_SwiftSpareBitsMask : Z;
  _swift_abi_ObjCReservedBitsMask : Z;
  getLayoutString : Z -> LayoutString;
  getGenericArgs : Z -> Z;
  vw_size : Z -> Z;
  vw_getNumExtraInhabitants : Z -> Z;
  isBitwiseTakable : Z -> bool;
  isValueInline : Z -> bool;
  (* a [MetadataAccessor] called on a generic-argument vector *)
  callMetadataAccessor : Z -> Z -> Z;
  (* a [GetEnumTagFn] called on the address of a value *)
  callGetEnumTagFn : Z -> Z -> Memory -> Z;
  vw_getEnumTagSinglePayload : Z -> Z -> Z -> Memory -> Z;
  (* the pointer [_Block_copy] returns *)
  Block_copy_result : Z -> Memory -> Z;
  (* what a call does to value storage *)
  effect : Event -> Memory -> Memory
}.

(** Storage after the calls of a trace (most recent first) ran on [m]. *)
Definition replay {RT : Runtime} (es : list Event) (m : Memory) : Memory :=
  fold_right effect m es.

(** ** The interpreter state and its monad *)

(** [reader] is the position of a [LayoutStringReader1] (an offset into the
    layout string), [addrOffset] the cursor into the value. *)
Record State := {
  reader : Z;
  addrOffset : Z;
  world : World
}.

Definition M (A : Type) : Type := State -> option (A * State).

Definition ret {A} (a : A) : M A := fun s => Some (a, s).
Definition bind {A B} (c : M A) (f : A -> M B) : M B :=
  fun s => match c s with
           | Some (a, s') => f a s'
           | None => None
           end.
Definition fail {A} : M A := fun _ => None.
Definition lift {A} (o : option A) : M A :=
  fun s => match o with Some a => Some (a, s) | None => None end.

Declare Scope interp_scope.
Delimit Scope interp_scope with interp.
Notation "x <- c1 ;; c2" := (bind c1 (fun x => c2))
  (at level 61, c1 at next level, right associativity) : interp_scope.
Notation "c1 ;; c2" := (bind c1 (fun _ => c2))
  (at level 61, right associativity) : interp_scope.
Open Scope interp_scope.

Definition getAddrOffset : M Z := fun s => Some (addrOffset s, s).
Definition setAddrOffset (o : Z) : M unit :=
  fun s => Some (tt, {| reader := reader s; addrOffset := o; world := world s |}).
Definition getReader : M Z := fun s => Some (reader s, s).
Definition setReader (r : Z) : M unit :=
  fun s => Some (tt, {| reader := r; addrOffset := addrOffset s; world := world s |}).
Definition getMem : M Memory := fun s => Some (mem (world s), s).
(** A store of the interpreter itself. *)
Definition putMem (m : Memory) : M unit :=
  fun s => Some (tt, {| reader := reader s; addrOffset := addrOffset s;
                        world := {| mem := m; trace := trace (world s) |} |}).

(** [addrOffset += n] on a [uintptr_t]. *)
Definition advance (n : Z) : M unit :=
  o <- getAddrOffset ;; setAddrOffset (u64 (o + n)).

(** [memcpy(dest, src, n)] in value storage. *)
Definition copyBytes (dest src n : Z) : M unit :=
  m <- getMem ;; putMem (memcpy m dest src n).

(** [memcpy(dest, &object, n)]: [object] is a local of [n] bytes. *)
Definition storeBytes (dest : Z) (n : nat) (object : Z) : M unit :=
  m <- getMem ;; putMem (storeLE m dest n object).

(** ** Readers, primitives and drivers

    The C++ handlers are overloaded on the number of values they work on.
    Here the overload on one value ([addr]) carries the suffix [1] and the
    overload on two ([dest], [src]) the suffix [2]. A driver loop takes the
    fuel that bounds its iterations; the dispatch tables take the driver
    their multi-payload entries are instantiated with. *)

Section Interpreter.

Context {RT : Runtime}.
(** The layout string being executed, [metadata->getLayoutString()]. *)
Context {ls : LayoutString}.

(** A call into the runtime: recorded, and applied to storage. *)
Definition call (e : Event) : M unit :=
  fun s => Some (tt, {| reader := reader s; addrOffset := addrOffset s;
                        world := {| mem := effect e (mem (world s));
                                    trace := e :: trace (world s) |} |}).

(** *** [LayoutStringReader1]

    Modelled from the spec: the stateful reader of [BytecodeLayouts.h].
    [readBytes<T>] copies [sizeof(T)] bytes at the current position and
    advances, [peekBytes<T>(k)] reads at a forward offset without advancing,
    [skip(n)] advances, [getAbsolute] is the address of the current byte and
    [modify(f)] runs [f] on a copy of the reader and keeps the position [f]
    leaves it at. *)

Definition readBytes (n : nat) : M Z :=
  fun s => match readAt (lsBytes) (reader s) n with
           | Some v => Some (v, {| reader := reader s + Z.of_nat n;
                                   addrOffset := addrOffset s; world := world s |})
           | None => None
           end.

Definition peekBytes (n : nat) (peekOffset : Z) : M Z :=
  fun s => match readAt (lsBytes) (reader s + peekOffset) n with
           | Some v => Some (v, s)
           | None => None
           end.

Definition skip (n : Z) : M unit :=
  r <- getReader ;; setReader (r + n).

Definition getAbsolute : M Z :=
  r <- getReader ;; ret (lsBase + r).

Definition modify {A} (f : M A) : M A := f.

(** [readRelativeFunctionPointer]: the address of the field plus the signed
    32-bit offset stored in it (the field is read as an [intptr_t]). *)
Definition readRelativeFunctionPointer : M Z :=
  absolute <- getAbsolute ;;
  relativeOffset <- readBytes 8 ;;
  ret (u64 (absolute + sext32 relativeOffset)).

Definition getResilientTypeMetadata (metadata : Z) : M Z :=
  fn <- readRelativeFunctionPointer ;;
  ret (callMetadataAccessor fn (getGenericArgs metadata)).

(** [readTagBytes] on the storage of the moment. *)
Definition readTag (addr byteCount : Z) : M Z :=
  m <- getMem ;; lift (readTagBytes m addr byteCount).

(** [*(uintptr_t * )(addr)]. *)
Definition loadWord (addr : Z) : M Z :=
  m <- getMem ;; ret (loadLE m addr 8).

Definition getExistentialTypeMetadata (object : Z) : M Z :=
  loadWord (object + 8 * NumWords_ValueBuffer).

Definition DestrFnBranchless : Type := Z -> Z -> M unit.
Definition InitFn : Type := Z -> Z -> Z -> M unit.

(** [x & ~_swift_abi_SwiftSpareBitsMask] *)
Definition maskSpareBits (x : Z) : Z :=
  Z.land x (Z.lnot (_swift_abi_SwiftSpareBitsMask)).

(** [x & _swift_abi_ObjCReservedBitsMask], as a condition *)
Definition hasReservedBits (x : Z) : bool :=
  negb (Z.land x (_swift_abi_ObjCReservedBitsMask) =? 0).

(** *** Destroy *)

Definition handleEnd1 : DestrFnBranchless := fun _ _ => ret tt.

Definition errorDestroyBranchless : DestrFnBranchless := fun metadata addr =>
  off <- getAddrOffset ;;
  error <- loadWord (addr + off) ;;
  advance 8 ;;
  call (swift_errorRelease error).

Definition nativeStrongDestroyBranchless : DestrFnBranchless := fun metadata addr =>
  off <- getAddrOffset ;;
  raw <- loadWord (addr + off) ;;
  let object := maskSpareBits raw in
  advance 8 ;;
  call (swift_release object).

Definition unownedDestroyBranchless : DestrFnBranchless := fun metadata addr =>
  off <- getAddrOffset ;;
  raw <- loadWord (addr + off) ;;
  let object := maskSpareBits raw in
  advance 8 ;;
  call (swift_unownedRelease object).

Definition weakDestroyBranchless : DestrFnBranchless := fun metadata addr =>
  off <- getAddrOffset ;;
  let object := addr + off in
  advance 8 ;;
  call (swift_weakDestroy object).

Definition unknownDestroyBranchless : DestrFnBranchless := fun metadata addr =>
  off <- getAddrOffset ;;
  object <- loadWord (addr + off) ;;
  advance 8 ;;
  call (swift_unknownObjectRelease object).

Definition unknownUnownedDestroyBranchless : DestrFnBranchless := fun metadata addr =>
  off <- getAddrOffset ;;
  let object := addr + off in
  advance 8 ;;
  call (swift_unknownObjectUnownedDestroy object).

Definition unknownWeakDestroyBranchless : DestrFnBranchless := fun metadata addr =>
  off <- getAddrOffset ;;
  let object := addr + off in
  advance 8 ;;
  call (swift_unknownObjectWeakDestroy object).

Definition bridgeDestroyBranchless : DestrFnBranchless := fun metadata addr =>
  off <- getAddrOffset ;;
  object <- loadWord (addr + off) ;;
  advance 8 ;;
  call (swift_bridgeObjectRelease object).

(** The fields of a [SinglePayloadEnumSimple] instruction word. *)
Definition extraTagBytesPatternOf (byteCountsAndOffset : Z) : Z :=
  u8 (Z.shiftr byteCountsAndOffset 62).
Definition xiTagBytesPatternOf (byteCountsAndOffset : Z) : Z :=
  Z.land (u8 (Z.shiftr byteCountsAndOffset 59)) 7.
Definition xiTagBytesOffsetOf (byteCountsAndOffset : Z) : Z :=
  Z.land byteCountsAndOffset (2 ^ 32 - 1).

Definition singlePayloadEnumSimpleBranchless1 : DestrFnBranchless := fun metadata addr =>
  modify (
    byteCountsAndOffset <- readBytes 8 ;;
    payloadSize <- readBytes 8 ;;
    zeroTagValue <- readBytes 8 ;;
    xiTagValues <- readBytes 8 ;;
    refCountBytes <- readBytes 8 ;;
    skip_ <- readBytes 8 ;;
    let extraTagBytesPattern := extraTagBytesPatternOf byteCountsAndOffset in
    let xiTagBytesPattern := xiTagBytesPatternOf byteCountsAndOffset in
    let xiTagBytesOffset := xiTagBytesOffsetOf byteCountsAndOffset in
    off <- getAddrOffset ;;
    xiTagBytesPattern <-
      (if extraTagBytesPattern =? 0 then ret xiTagBytesPattern else
         let extraTagBytes := Z.shiftl 1 (extraTagBytesPattern - 1) in
         tagBytes <- readTag (addr + off + payloadSize) extraTagBytes ;;
         ret (if tagBytes =? 0 then xiTagBytesPattern else 0)) ;;
    payloadCase <-
      (if xiTagBytesPattern =? 0 then ret false else
         let xiTagBytes := Z.shiftl 1 (xiTagBytesPattern - 1) in
         raw <- readTag (addr + off + xiTagBytesOffset) xiTagBytes ;;
         let tagBytes := u64 (raw - zeroTagValue) in
         ret (xiTagValues <=? tagBytes)) ;;
    if payloadCase : bool then ret tt else
    skip refCountBytes ;;
    advance skip_).

Definition singlePayloadEnumFNBranchless1 : DestrFnBranchless := fun metadata addr =>
  modify (
    getEnumTag <- readRelativeFunctionPointer ;;
    off <- getAddrOffset ;;
    m <- getMem ;;
    let enumTag := u32 (callGetEnumTagFn getEnumTag (addr + off) m) in
    if enumTag =? 0 then skip (8 * 2) else
    refCountBytes <- readBytes 8 ;;
    skip_ <- readBytes 8 ;;
    skip refCountBytes ;;
    advance skip_).

Definition singlePayloadEnumFNResolvedBranchless1 : DestrFnBranchless := fun metadata addr =>
  modify (
    getEnumTag <- readBytes 8 ;;
    refCountBytes <- readBytes 8 ;;
    skip_ <- readBytes 8 ;;
    off <- getAddrOffset ;;
    m <- getMem ;;
    let enumTag := u32 (callGetEnumTagFn getEnumTag (addr + off) m) in
    if negb (enumTag =? 0) then
      skip refCountBytes ;;
      advance skip_
    else ret tt).

Definition singlePayloadEnumGenericBranchless1 : DestrFnBranchless := fun metadata addr =>
  modify (
    tagBytesAndOffset <- readBytes 8 ;;
    payloadSize <- readBytes 8 ;;
    xiType <- readBytes 8 ;;
    numEmptyCases <- readBytes 4 ;;
    refCountBytes <- readBytes 8 ;;
    skip_ <- readBytes 8 ;;
    let extraTagBytesPattern := extraTagBytesPatternOf tagBytesAndOffset in
    let xiTagBytesOffset := xiTagBytesOffsetOf tagBytesAndOffset in
    off <- getAddrOffset ;;
    xiType <-
      (if extraTagBytesPattern =? 0 then ret xiType else
         let extraTagBytes := Z.shiftl 1 (extraTagBytesPattern - 1) in
         tagBytes <- readTag (addr + off + payloadSize) extraTagBytes ;;
         ret (if tagBytes =? 0 then xiType else 0)) ;;
    m <- getMem ;;
    let payloadCase :=
      if xiType =? 0 then false else
        let tag := u32 (vw_getEnumTagSinglePayload xiType
                          (addr + off + xiTagBytesOffset) numEmptyCases m) in
        tag =? 0 in
    if payloadCase then ret tt else
    skip refCountBytes ;;
    advance skip_).

(** Run [f] on a reader of its own ([nestedReader]) and a cursor of its own
    ([nestedAddrOffset]); the storage and trace are shared. The result is
    the nested cursor [f] ends at. *)
Definition withNested (nestedReader nestedAddrOffset : Z) (f : M unit) : M Z :=
  fun s =>
    match f {| reader := nestedReader; addrOffset := nestedAddrOffset;
               world := world s |} with
    | Some (_, s') => Some (addrOffset s', {| reader := reader s;
                                              addrOffset := addrOffset s;
                                              world := world s' |})
    | None => None
    end.

(** [nestedReader.peekBytes<size_t>(k)] *)
Definition peekNested (nestedReader k : Z) : M Z :=
  lift (readAt (lsBytes) (nestedReader + k) 8).

(** The tail of the three multi-payload handlers on one value, once the
    header is read and the tag is known. *)
Definition multiPayloadDispatch1 (HandlerFn : DestrFnBranchless) (metadata addr : Z)
  (enumTag numPayloads enumSize nestedReader nestedAddrOffset : Z) : M unit :=
  if enumTag <? numPayloads then
    advance enumSize ;;
    refCountOffset <- peekNested nestedReader (u64 (enumTag * 8)) ;;
    let nestedReader := nestedReader + u64 (u64 (numPayloads * 8) + refCountOffset) in
    _ <- withNested nestedReader nestedAddrOffset (HandlerFn metadata addr) ;;
    ret tt
  else
    advance enumSize.

Definition multiPayloadEnumFNBranchless1 (HandlerFn : DestrFnBranchless)
  : DestrFnBranchless := fun metadata addr =>
  getEnumTag <- readRelativeFunctionPointer ;;
  numPayloads <- readBytes 8 ;;
  refCountBytes <- readBytes 8 ;;
  enumSize <- readBytes 8 ;;
  nestedReader <- getReader ;;
  nestedAddrOffset <- getAddrOffset ;;
  m <- getMem ;;
  let enumTag := u32 (callGetEnumTagFn getEnumTag (addr + nestedAddrOffset) m) in
  skip (u64 (refCountBytes + u64 (numPayloads * 8))) ;;
  multiPayloadDispatch1 HandlerFn metadata addr
    enumTag numPayloads enumSize nestedReader nestedAddrOffset.

Definition multiPayloadEnumFNResolvedBranchless1 (HandlerFn : DestrFnBranchless)
  : DestrFnBranchless := fun metadata addr =>
  getEnumTag <- readBytes 8 ;;
  numPayloads <- readBytes 8 ;;
  refCountBytes <- readBytes 8 ;;
  enumSize <- readBytes 8 ;;
  nestedReader <- getReader ;;
  nestedAddrOffset <- getAddrOffset ;;
  m <- getMem ;;
  let enumTag := u32 (callGetEnumTagFn getEnumTag (addr + nestedAddrOffset) m) in
  skip (u64 (refCountBytes + u64 (numPayloads * 8))) ;;
  multiPayloadDispatch1 HandlerFn metadata addr
    enumTag numPayloads enumSize nestedReader nestedAddrOffset.

Definition multiPayloadEnumGenericBranchless1 (HandlerFn : DestrFnBranchless)
  : DestrFnBranchless := fun metadata addr =>
  tagBytes <- readBytes 8 ;;
  numPayloads <- readBytes 8 ;;
  refCountBytes <- readBytes 8 ;;
  enumSize <- readBytes 8 ;;
  nestedReader <- getReader ;;
  nestedAddrOffset <- getAddrOffset ;;
  let tagBytesOffset := u64 (enumSize - tagBytes) in
  enumTag <- readTag (addr + nestedAddrOffset + tagBytesOffset) tagBytes ;;
  skip (u64 (refCountBytes + u64 (numPayloads * 8))) ;;
  multiPayloadDispatch1 HandlerFn metadata addr
    enumTag numPayloads enumSize nestedReader nestedAddrOffset.

Definition blockDestroyBranchless : DestrFnBranchless := fun metadata addr =>
  off <- getAddrOffset ;;
  (* the address of the field itself is what is passed *)
  let object := addr + off in
  advance 8 ;;
  call (Block_release object).

Definition objcStrongDestroyBranchless : DestrFnBranchless := fun metadata addr =>
  off <- getAddrOffset ;;
  object <- loadWord (addr + off) ;;
  advance 8 ;;
  if hasReservedBits object then ret tt else
  let object := maskSpareBits object in
  call (objc_release object).

Definition metatypeDestroyBranchless : DestrFnBranchless := fun metadata addr =>
  type <- readBytes 8 ;;
  off <- getAddrOffset ;;
  let object := addr + off in
  advance (vw_size type) ;;
  call (vw_destroy type object).

Definition existentialDestroyBranchless : DestrFnBranchless := fun metadata addr =>
  off <- getAddrOffset ;;
  let object := addr + off in
  type <- getExistentialTypeMetadata object ;;
  advance (8 * NumWords_ValueBuffer) ;;
  if isValueInline type then
    call (vw_destroy type object)
  else
    box <- loadWord object ;;
    call (swift_release box).

Definition resilientDestroyBranchless : DestrFnBranchless := fun metadata addr =>
  type <- getResilientTypeMetadata metadata ;;
  off <- getAddrOffset ;;
  let object := addr + off in
  advance (vw_size type) ;;
  call (vw_destroy type object).

(** The table takes the driver its multi-payload entries are instantiated
    with; a null or missing entry is [None]. *)
Definition destroyTableBranchless (handleRefCountsDestroy : DestrFnBranchless)
  (tag : Z) : option DestrFnBranchless :=
  match tag with
  | 0 => Some handleEnd1
  | 1 => Some errorDestroyBranchless
  | 2 => Some nativeStrongDestroyBranchless
  | 3 => Some unownedDestroyBranchless
  | 4 => Some weakDestroyBranchless
  | 5 => Some unknownDestroyBranchless
  | 6 => Some unknownUnownedDestroyBranchless
  | 7 => Some unknownWeakDestroyBranchless
  | 8 => Some bridgeDestroyBranchless
  | 9 => Some blockDestroyBranchless
  | 10 => Some objcStrongDestroyBranchless
  | 11 => None (* Custom *)
  | 12 => Some metatypeDestroyBranchless
  | 13 => None (* Generic *)
  | 14 => Some existentialDestroyBranchless
  | 15 => Some resilientDestroyBranchless
  | 16 => Some singlePayloadEnumSimpleBranchless1
  | 17 => Some singlePayloadEnumFNBranchless1
  | 18 => Some singlePayloadEnumFNResolvedBranchless1
  | 19 => Some singlePayloadEnumGenericBranchless1
  | 20 => Some (multiPayloadEnumFNBranchless1 handleRefCountsDestroy)
  | 21 => Some (multiPayloadEnumFNResolvedBranchless1 handleRefCountsDestroy)
  | 22 => Some (multiPayloadEnumGenericBranchless1 handleRefCountsDestroy)
  | _ => None
  end.

(** [tag & ~(0xFFULL << 56)] and [tag >> 56] of an instruction word *)
Definition offsetOf (tag : Z) : Z := Z.land tag (Z.lnot (Z.shiftl 255 56)).
Definition kindOf (tag : Z) : Z := Z.shiftr tag 56.

Fixpoint handleRefCountsDestroy (fuel : nat) (metadata addr : Z) : M unit :=
  match fuel with
  | O => fail
  | S fuel' =>
      tag <- readBytes 8 ;;
      advance (offsetOf tag) ;;
      let tag := kindOf tag in
      if tag =? 0 then ret tt else
      handler <- lift (destroyTableBranchless (handleRefCountsDestroy fuel') tag) ;;
      handler metadata addr ;;
      handleRefCountsDestroy fuel' metadata addr
  end.


(** *** Copy-initialise *)

Definition handleEnd2 : InitFn := fun _ _ _ => ret tt.

Definition errorRetainBranchless : InitFn := fun metadata dest src =>
  _addrOffset <- getAddrOffset ;;
  object <- loadWord (src + _addrOffset) ;;
  storeBytes (dest + _addrOffset) 8 object ;;
  setAddrOffset (u64 (_addrOffset + 8)) ;;
  call (swift_errorRetain object).

Definition nativeStrongRetainBranchless : InitFn := fun metadata dest src =>
  _addrOffset <- getAddrOffset ;;
  object <- loadWord (src + _addrOffset) ;;
  storeBytes (dest + _addrOffset) 8 object ;;
  let object := maskSpareBits object in
  setAddrOffset (u64 (_addrOffset + 8)) ;;
  call (swift_retain object).

Definition unownedRetainBranchless : InitFn := fun metadata dest src =>
  _addrOffset <- getAddrOffset ;;
  object <- loadWord (src + _addrOffset) ;;
  storeBytes (dest + _addrOffset) 8 object ;;
  let object := maskSpareBits object in
  setAddrOffset (u64 (_addrOffset + 8)) ;;
  call (swift_unownedRetain object).

Definition weakCopyInitBranchless : InitFn := fun metadata dest src =>
  _addrOffset <- getAddrOffset ;;
  let destObject := dest + _addrOffset in
  let srcObject := src + _addrOffset in
  setAddrOffset (u64 (_addrOffset + 8)) ;;
  call (swift_weakCopyInit destObject srcObject).

Definition unknownRetainBranchless : InitFn := fun metadata dest src =>
  _addrOffset <- getAddrOffset ;;
  object <- loadWord (src + _addrOffset) ;;
  storeBytes (dest + _addrOffset) 8 object ;;
  setAddrOffset (u64 (_addrOffset + 8)) ;;
  call (swift_unknownObjectRetain object).

Definition unknownUnownedCopyInitBranchless : InitFn := fun metadata dest src =>
  _addrOffset <- getAddrOffset ;;
  let objectDest := dest + _addrOffset in
  let objectSrc := src + _addrOffset in
  setAddrOffset (u64 (_addrOffset + 8)) ;;
  call (swift_unknownObjectUnownedCopyInit objectDest objectSrc).

Definition unknownWeakCopyInitBranchless : InitFn := fun metadata dest src =>
  _addrOffset <- getAddrOffset ;;
  let destObject := dest + _addrOffset in
  let srcObject := src + _addrOffset in
  setAddrOffset (u64 (_addrOffset + 8)) ;;
  call (swift_unknownObjectWeakCopyInit destObject srcObject).

Definition bridgeRetainBranchless : InitFn := fun metadata dest src =>
  _addrOffset <- getAddrOffset ;;
  object <- loadWord (src + _addrOffset) ;;
  storeBytes (dest + _addrOffset) 8 object ;;
  setAddrOffset (u64 (_addrOffset + 8)) ;;
  call (swift_bridgeObjectRetain object).

Definition blockCopyBranchless : InitFn := fun metadata dest src =>
  _addrOffset <- getAddrOffset ;;
  object <- loadWord (src + _addrOffset) ;;
  m <- getMem ;;
  call (Block_copy object) ;;
  let copy := Block_copy_result object m in
  storeBytes (dest + _addrOffset) 8 copy ;;
  setAddrOffset (u64 (_addrOffset + 8)).

Definition objcStrongRetainBranchless : InitFn := fun metadata dest src =>
  _addrOffset <- getAddrOffset ;;
  object <- loadWord (src + _addrOffset) ;;
  storeBytes (dest + _addrOffset) 8 object ;;
  setAddrOffset (u64 (_addrOffset + 8)) ;;
  if hasReservedBits object then ret tt else
  let object := maskSpareBits object in
  call (objc_retain object).

Definition metatypeInitWithCopyBranchless : InitFn := fun metadata dest src =>
  _addrOffset <- getAddrOffset ;;
  type <- readBytes 8 ;;
  let destObject := dest + _addrOffset in
  let srcObject := src + _addrOffset in
  setAddrOffset (u64 (_addrOffset + vw_size type)) ;;
  call (vw_initializeWithCopy type destObject srcObject).

Definition existentialInitWithCopyBranchless : InitFn := fun metadata dest src =>
  _addrOffset <- getAddrOffset ;;
  type <- getExistentialTypeMetadata (src + _addrOffset) ;;
  let destObject := dest + _addrOffset in
  let srcObject := src + _addrOffset in
  setAddrOffset (u64 (_addrOffset + 8 * NumWords_ValueBuffer)) ;;
  call (vw_initializeBufferWithCopyOfBuffer type destObject srcObject).

Definition resilientInitWithCopyBranchless : InitFn := fun metadata dest src =>
  _addrOffset <- getAddrOffset ;;
  type <- getResilientTypeMetadata metadata ;;
  let destObject := dest + _addrOffset in
  let srcObject := src + _addrOffset in
  setAddrOffset (u64 (_addrOffset + vw_size type)) ;;
  call (vw_initializeWithCopy type destObject srcObject).

(** *** The enum handlers shared by copy-initialise and take-initialise *)

Definition singlePayloadEnumSimpleBranchless2 : InitFn := fun metadata dest src =>
  modify (
    byteCountsAndOffset <- readBytes 8 ;;
    payloadSize <- readBytes 8 ;;
    zeroTagValue <- readBytes 8 ;;
    xiTagValues <- readBytes 8 ;;
    refCountBytes <- readBytes 8 ;;
    skip_ <- readBytes 8 ;;
    let extraTagBytesPattern := extraTagBytesPatternOf byteCountsAndOffset in
    let xiTagBytesPattern := xiTagBytesPatternOf byteCountsAndOffset in
    let xiTagBytesOffset := xiTagBytesOffsetOf byteCountsAndOffset in
    off <- getAddrOffset ;;
    xiTagBytesPattern <-
      (if extraTagBytesPattern =? 0 then ret xiTagBytesPattern else
         let extraTagBytes := Z.shiftl 1 (extraTagBytesPattern - 1) in
         tagBytes <- readTag (src + off + payloadSize) extraTagBytes ;;
         ret (if tagBytes =? 0 then xiTagBytesPattern else 0)) ;;
    payloadCase <-
      (if xiTagBytesPattern =? 0 then ret false else
         let xiTagBytes := Z.shiftl 1 (xiTagBytesPattern - 1) in
         raw <- readTag (src + off + xiTagBytesOffset) xiTagBytes ;;
         let tagBytes := u64 (raw - zeroTagValue) in
         ret (xiTagValues <=? tagBytes)) ;;
    if payloadCase : bool then ret tt else
    copyBytes (dest + off) (src + off) skip_ ;;
    skip refCountBytes ;;
    advance skip_).

Definition singlePayloadEnumFNBranchless2 : InitFn := fun metadata dest src =>
  modify (
    getEnumTag <- readRelativeFunctionPointer ;;
    off <- getAddrOffset ;;
    m <- getMem ;;
    let enumTag := u32 (callGetEnumTagFn getEnumTag (src + off) m) in
    if enumTag =? 0 then skip (8 * 2) else
    refCountBytes <- readBytes 8 ;;
    skip_ <- readBytes 8 ;;
    skip refCountBytes ;;
    copyBytes (dest + off) (src + off) skip_ ;;
    advance skip_).

Definition singlePayloadEnumFNResolvedBranchless2 : InitFn := fun metadata dest src =>
  modify (
    getEnumTag <- readBytes 8 ;;
    refCountBytes <- readBytes 8 ;;
    skip_ <- readBytes 8 ;;
    off <- getAddrOffset ;;
    m <- getMem ;;
    let enumTag := u32 (callGetEnumTagFn getEnumTag (src + off) m) in
    if negb (enumTag =? 0) then
      skip refCountBytes ;;
      copyBytes (dest + off) (src + off) skip_ ;;
      advance skip_
    else ret tt).

Definition singlePayloadEnumGenericBranchless2 : InitFn := fun metadata dest src =>
  modify (
    tagBytesAndOffset <- readBytes 8 ;;
    payloadSize <- readBytes 8 ;;
    xiType <- readBytes 8 ;;
    numEmptyCases <- readBytes 4 ;;
    refCountBytes <- readBytes 8 ;;
    skip_ <- readBytes 8 ;;
    let extraTagBytesPattern := extraTagBytesPatternOf tagBytesAndOffset in
    let xiTagBytesOffset := xiTagBytesOffsetOf tagBytesAndOffset in
    off <- getAddrOffset ;;
    xiType <-
      (if extraTagBytesPattern =? 0 then ret xiType else
         let extraTagBytes := Z.shiftl 1 (extraTagBytesPattern - 1) in
         tagBytes <- readTag (src + off + payloadSize) extraTagBytes ;;
         ret (if tagBytes =? 0 then xiType else 0)) ;;
    m <- getMem ;;
    let payloadCase :=
      if xiType =? 0 then false else
        let tag := u32 (vw_getEnumTagSinglePayload xiType
                          (src + off + xiTagBytesOffset) numEmptyCases m) in
        tag =? 0 in
    if payloadCase then ret tt else
    skip refCountBytes ;;
    copyBytes (dest + off) (src + off) skip_ ;;
    advance skip_).

(** The tail of the three multi-payload handlers on two values, once the
    header is read and the tag is known. *)
Definition multiPayloadDispatch2 (HandlerFn : InitFn) (metadata dest src : Z)
  (enumTag numPayloads enumSize nestedReader nestedAddrOffset : Z) : M unit :=
  if enumTag <? numPayloads then
    advance enumSize ;;
    refCountOffset <- peekNested nestedReader (u64 (enumTag * 8)) ;;
    let nestedReader := nestedReader + u64 (u64 (numPayloads * 8) + refCountOffset) in
    nestedAddrOffset <- withNested nestedReader nestedAddrOffset
                          (HandlerFn metadata dest src) ;;
    off <- getAddrOffset ;;
    let trailingBytes := u64 (off - nestedAddrOffset) in
    if trailingBytes =? 0 then ret tt else
    copyBytes (dest + nestedAddrOffset) (src + nestedAddrOffset) trailingBytes
  else
    off <- getAddrOffset ;;
    copyBytes (dest + off) (src + off) enumSize ;;
    advance enumSize.

Definition multiPayloadEnumFNBranchless2 (HandlerFn : InitFn) : InitFn :=
  fun metadata dest src =>
  getEnumTag <- readRelativeFunctionPointer ;;
  numPayloads <- readBytes 8 ;;
  refCountBytes <- readBytes 8 ;;
  enumSize <- readBytes 8 ;;
  nestedReader <- getReader ;;
  nestedAddrOffset <- getAddrOffset ;;
  m <- getMem ;;
  let enumTag := u32 (callGetEnumTagFn getEnumTag (src + nestedAddrOffset) m) in
  skip (u64 (refCountBytes + u64 (numPayloads * 8))) ;;
  multiPayloadDispatch2 HandlerFn metadata dest src
    enumTag numPayloads enumSize nestedReader nestedAddrOffset.

Definition multiPayloadEnumFNResolvedBranchless2 (HandlerFn : InitFn) : InitFn :=
  fun metadata dest src =>
  getEnumTag <- readBytes 8 ;;
  numPayloads <- readBytes 8 ;;
  refCountBytes <- readBytes 8 ;;
  enumSize <- readBytes 8 ;;
  nestedReader <- getReader ;;
  nestedAddrOffset <- getAddrOffset ;;
  m <- getMem ;;
  let enumTag := u32 (callGetEnumTagFn getEnumTag (src + nestedAddrOffset) m) in
  skip (u64 (refCountBytes + u64 (numPayloads * 8))) ;;
  multiPayloadDispatch2 HandlerFn metadata dest src
    enumTag numPayloads enumSize nestedReader nestedAddrOffset.

Definition multiPayloadEnumGenericBranchless2 (HandlerFn : InitFn) : InitFn :=
  fun metadata dest src =>
  tagBytes <- readBytes 8 ;;
  numPayloads <- readBytes 8 ;;
  refCountBytes <- readBytes 8 ;;
  enumSize <- readBytes 8 ;;
  nestedReader <- getReader ;;
  nestedAddrOffset <- getAddrOffset ;;
  let tagBytesOffset := u64 (enumSize - tagBytes) in
  enumTag <- readTag (src + nestedAddrOffset + tagBytesOffset) tagBytes ;;
  skip (u64 (refCountBytes + u64 (numPayloads * 8))) ;;
  multiPayloadDispatch2 HandlerFn metadata dest src
    enumTag numPayloads enumSize nestedReader nestedAddrOffset.

Definition initWithCopyTable (handleRefCountsInitWithCopy : InitFn)
  (tag : Z) : option InitFn :=
  match tag with
  | 0 => Some handleEnd2
  | 1 => Some errorRetainBranchless
  | 2 => Some nativeStrongRetainBranchless
  | 3 => Some unownedRetainBranchless
  | 4 => Some weakCopyInitBranchless
  | 5 => Some unknownRetainBranchless
  | 6 => Some unknownUnownedCopyInitBranchless
  | 7 => Some unknownWeakCopyInitBranchless
  | 8 => Some bridgeRetainBranchless
  | 9 => Some blockCopyBranchless
  | 10 => Some objcStrongRetainBranchless
  | 11 => None (* Custom *)
  | 12 => Some metatypeInitWithCopyBranchless
  | 13 => None (* Generic *)
  | 14 => Some existentialInitWithCopyBranchless
  | 15 => Some resilientInitWithCopyBranchless
  | 16 => Some singlePayloadEnumSimpleBranchless2
  | 17 => Some singlePayloadEnumFNBranchless2
  | 18 => Some singlePayloadEnumFNResolvedBranchless2
  | 19 => Some singlePayloadEnumGenericBranchless2
  | 20 => Some (multiPayloadEnumFNBranchless2 handleRefCountsInitWithCopy)
  | 21 => Some (multiPayloadEnumFNResolvedBranchless2 handleRefCountsInitWithCopy)
  | 22 => Some (multiPayloadEnumGenericBranchless2 handleRefCountsInitWithCopy)
  | _ => None
  end.

Fixpoint handleRefCountsInitWithCopy (fuel : nat) (metadata dest src : Z) : M unit :=
  match fuel with
  | O => fail
  | S fuel' =>
      _addrOffset <- getAddrOffset ;;
      tag <- readBytes 8 ;;
      let offset := offsetOf tag in
      (if offset =? 0 then ret tt
       else copyBytes (dest + _addrOffset) (src + _addrOffset) offset) ;;
      setAddrOffset (u64 (_addrOffset + offset)) ;;
      let tag := kindOf tag in
      if tag =? 0 then ret tt else
      handler <- lift (initWithCopyTable (handleRefCountsInitWithCopy fuel') tag) ;;
      handler metadata dest src ;;
      handleRefCountsInitWithCopy fuel' metadata dest src
  end.


(** *** Take-initialise *)

Definition unknownWeakInitWithTake : InitFn := fun metadata dest src =>
  off <- getAddrOffset ;;
  let destObject := dest + off in
  let srcObject := src + off in
  advance 8 ;;
  call (swift_unknownObjectWeakTakeInit destObject srcObject).

Definition metatypeInitWithTake : InitFn := fun metadata dest src =>
  _addrOffset <- getAddrOffset ;;
  type <- readBytes 8 ;;
  let destObject := dest + _addrOffset in
  let srcObject := src + _addrOffset in
  setAddrOffset (u64 (_addrOffset + vw_size type)) ;;
  call (vw_initializeWithTake type destObject srcObject).

Definition existentialInitWithTake : InitFn := fun metadata dest src =>
  _addrOffset <- getAddrOffset ;;
  type <- getExistentialTypeMetadata (src + _addrOffset) ;;
  let destObject := dest + _addrOffset in
  let srcObject := src + _addrOffset in
  setAddrOffset (u64 (_addrOffset + 8 * NumWords_ValueBuffer)) ;;
  if isValueInline type then
    call (vw_initializeWithTake type destObject srcObject)
  else
    copyBytes destObject srcObject 8.

Definition resilientInitWithTake : InitFn := fun metadata dest src =>
  _addrOffset <- getAddrOffset ;;
  type <- getResilientTypeMetadata metadata ;;
  let destObject := dest + _addrOffset in
  let srcObject := src + _addrOffset in
  setAddrOffset (u64 (_addrOffset + vw_size type)) ;;
  call (vw_initializeWithTake type destObject srcObject).

(** The only table whose null entries are tested before the call:
    [Some None] is a null entry, [None] an index past the table. *)
Definition initWithTakeTable (handleRefCountsInitWithTake : InitFn)
  (tag : Z) : option (option InitFn) :=
  match tag with
  | 0 => Some (Some handleEnd2)
  | 1 => Some None
  | 2 => Some None
  | 3 => Some None
  | 4 => Some None
  | 5 => Some None
  | 6 => Some None
  | 7 => Some (Some unknownWeakInitWithTake)
  | 8 => Some (Some bridgeRetainBranchless)
  | 9 => Some None
  | 10 => Some None
  | 11 => Some None (* Custom *)
  | 12 => Some (Some metatypeInitWithTake)
  | 13 => Some None (* Generic *)
  | 14 => Some (Some existentialInitWithTake)
  | 15 => Some (Some resilientInitWithTake)
  | 16 => Some (Some singlePayloadEnumSimpleBranchless2)
  | 17 => Some (Some singlePayloadEnumFNBranchless2)
  | 18 => Some (Some singlePayloadEnumFNResolvedBranchless2)
  | 19 => Some (Some singlePayloadEnumGenericBranchless2)
  | 20 => Some (Some (multiPayloadEnumFNBranchless2 handleRefCountsInitWithTake))
  | 21 => Some (Some (multiPayloadEnumFNResolvedBranchless2 handleRefCountsInitWithTake))
  | 22 => Some (Some (multiPayloadEnumGenericBranchless2 handleRefCountsInitWithTake))
  | _ => None
  end.

Fixpoint handleRefCountsInitWithTake (fuel : nat) (metadata dest src : Z) : M unit :=
  match fuel with
  | O => fail
  | S fuel' =>
      _addrOffset <- getAddrOffset ;;
      tag <- readBytes 8 ;;
      let offset := offsetOf tag in
      (if offset =? 0 then ret tt
       else copyBytes (dest + _addrOffset) (src + _addrOffset) offset) ;;
      let _addrOffset := u64 (_addrOffset + offset) in
      let tag := kindOf tag in
      if tag =? 0 then setAddrOffset _addrOffset else
      entry <- lift (initWithTakeTable (handleRefCountsInitWithTake fuel') tag) ;;
      match entry with
      | Some handler =>
          setAddrOffset _addrOffset ;;
          handler metadata dest src
      | None =>
          copyBytes (dest + _addrOffset) (src + _addrOffset) 8 ;;
          setAddrOffset (u64 (_addrOffset + 8))
      end ;;
      handleRefCountsInitWithTake fuel' metadata dest src
  end.

(** *** Copy-assign *)

Definition errorAssignWithCopy : InitFn := fun metadata dest src =>
  _addrOffset <- getAddrOffset ;;
  destObject <- loadWord (dest + _addrOffset) ;;
  srcObject <- loadWord (src + _addrOffset) ;;
  storeBytes (dest + _addrOffset) 8 srcObject ;;
  setAddrOffset (u64 (_addrOffset + 8)) ;;
  call (swift_errorRelease destObject) ;;
  call (swift_errorRetain srcObject).

Definition nativeStrongAssignWithCopy : InitFn := fun metadata dest src =>
  _addrOffset <- getAddrOffset ;;
  destObject <- loadWord (dest + _addrOffset) ;;
  srcObject <- loadWord (src + _addrOffset) ;;
  storeBytes (dest + _addrOffset) 8 srcObject ;;
  let srcObject := maskSpareBits srcObject in
  let destObject := maskSpareBits destObject in
  setAddrOffset (u64 (_addrOffset + 8)) ;;
  call (swift_release destObject) ;;
  call (swift_retain srcObject).

Definition unownedAssignWithCopy : InitFn := fun metadata dest src =>
  _addrOffset <- getAddrOffset ;;
  destObject <- loadWord (dest + _addrOffset) ;;
  srcObject <- loadWord (src + _addrOffset) ;;
  storeBytes (dest + _addrOffset) 8 srcObject ;;
  let destObject := maskSpareBits destObject in
  let srcObject := maskSpareBits srcObject in
  setAddrOffset (u64 (_addrOffset + 8)) ;;
  call (swift_unownedRelease destObject) ;;
  call (swift_unownedRetain srcObject).

Definition weakAssignWithCopy : InitFn := fun metadata dest src =>
  _addrOffset <- getAddrOffset ;;
  let destObject := dest + _addrOffset in
  let srcObject := src + _addrOffset in
  setAddrOffset (u64 (_addrOffset + 8)) ;;
  call (swift_weakCopyAssign destObject srcObject).

Definition unknownAssignWithCopy : InitFn := fun metadata dest src =>
  _addrOffset <- getAddrOffset ;;
  destObject <- loadWord (dest + _addrOffset) ;;
  srcObject <- loadWord (src + _addrOffset) ;;
  storeBytes (dest + _addrOffset) 8 srcObject ;;
  setAddrOffset (u64 (_addrOffset + 8)) ;;
  call (swift_unknownObjectRelease destObject) ;;
  call (swift_unknownObjectRetain srcObject).

Definition unknownUnownedAssignWithCopy : InitFn := fun metadata dest src =>
  _addrOffset <- getAddrOffset ;;
  let objectDest := dest + _addrOffset in
  let objectSrc := src + _addrOffset in
  setAddrOffset (u64 (_addrOffset + 8)) ;;
  call (swift_unknownObjectUnownedCopyAssign objectDest objectSrc).

Definition unknownWeakAssignWithCopy : InitFn := fun metadata dest src =>
  _addrOffset <- getAddrOffset ;;
  let destObject := dest + _addrOffset in
  let srcObject := src + _addrOffset in
  setAddrOffset (u64 (_addrOffset + 8)) ;;
  call (swift_unknownObjectWeakCopyAssign destObject srcObject).

Definition bridgeAssignWithCopy : InitFn := fun metadata dest src =>
  _addrOffset <- getAddrOffset ;;
  destObject <- loadWord (dest + _addrOffset) ;;
  srcObject <- loadWord (src + _addrOffset) ;;
  storeBytes (dest + _addrOffset) 8 srcObject ;;
  setAddrOffset (u64 (_addrOffset + 8)) ;;
  call (swift_bridgeObjectRelease destObject) ;;
  call (swift_bridgeObjectRetain srcObject).

Definition blockAssignWithCopy : InitFn := fun metadata dest src =>
  _addrOffset <- getAddrOffset ;;
  destObject <- loadWord (dest + _addrOffset) ;;
  call (Block_release destObject) ;;
  srcObject <- loadWord (src + _addrOffset) ;;
  m <- getMem ;;
  call (Block_copy srcObject) ;;
  let copy := Block_copy_result srcObject m in
  storeBytes (dest + _addrOffset) 8 copy ;;
  setAddrOffset (u64 (_addrOffset + 8)).

Definition objcStrongAssignWithCopy : InitFn := fun metadata dest src =>
  _addrOffset <- getAddrOffset ;;
  destObject <- loadWord (dest + _addrOffset) ;;
  srcObject <- loadWord (src + _addrOffset) ;;
  storeBytes (dest + _addrOffset) 8 srcObject ;;
  setAddrOffset (u64 (_addrOffset + 8)) ;;
  (if negb (hasReservedBits destObject) then
     let destObject := maskSpareBits destObject in
     call (objc_release destObject)
   else ret tt) ;;
  (if negb (hasReservedBits srcObject) then
     let srcObject := maskSpareBits srcObject in
     call (objc_retain srcObject)
   else ret tt).

Definition metatypeAssignWithCopy : InitFn := fun metadata dest src =>
  _addrOffset <- getAddrOffset ;;
  type <- readBytes 8 ;;
  let destObject := dest + _addrOffset in
  let srcObject := src + _addrOffset in
  setAddrOffset (u64 (_addrOffset + vw_size type)) ;;
  call (vw_assignWithCopy type destObject srcObject).

Definition existentialAssignWithCopy : InitFn := fun metadata dest src =>
  _addrOffset <- getAddrOffset ;;
  type <- getExistentialTypeMetadata (src + _addrOffset) ;;
  let destObject := dest + _addrOffset in
  let srcObject := src + _addrOffset in
  setAddrOffset (u64 (_addrOffset + 8 * NumWords_ValueBuffer)) ;;
  if isValueInline type then
    call (vw_assignWithCopy type destObject srcObject)
  else
    destBox <- loadWord destObject ;;
    call (swift_release destBox) ;;
    copyBytes destObject srcObject 8 ;;
    srcBox <- loadWord srcObject ;;
    call (swift_retain srcBox).

Definition resilientAssignWithCopy : InitFn := fun metadata dest src =>
  _addrOffset <- getAddrOffset ;;
  type <- getResilientTypeMetadata metadata ;;
  let destObject := dest + _addrOffset in
  let srcObject := src + _addrOffset in
  setAddrOffset (u64 (_addrOffset + vw_size type)) ;;
  call (vw_assignWithCopy type destObject srcObject).

Definition handleSingleRefCountDestroy (fuel : nat) : DestrFnBranchless :=
  fun metadata addr =>
  tag <- readBytes 8 ;;
  advance (offsetOf tag) ;;
  let tag := kindOf tag in
  if tag =? 0 then ret tt else
  handler <- lift (destroyTableBranchless (handleRefCountsDestroy fuel) tag) ;;
  handler metadata addr.

Definition handleSingleRefCountInitWithCopy (fuel : nat) : InitFn :=
  fun metadata dest src =>
  tag <- readBytes 8 ;;
  advance (offsetOf tag) ;;
  let tag := kindOf tag in
  if tag =? 0 then ret tt else
  handler <- lift (initWithCopyTable (handleRefCountsInitWithCopy fuel) tag) ;;
  handler metadata dest src.

(** [while (reader.layoutStr < end) body] *)
Fixpoint whileReaderBelow (fuel : nat) (end_ : Z) (body : M unit) : M unit :=
  match fuel with
  | O => fail
  | S fuel' =>
      r <- getReader ;;
      if r <? end_ then body ;; whileReaderBelow fuel' end_ body else ret tt
  end.

(** The tail of the four single-payload copy-assign handlers, once the
    header is read and it is known which of the two values holds a payload. *)
Definition singlePayloadAssignDispatch (fuel : nat) (metadata dest src : Z)
  (srcPayload destPayload : bool) (refCountBytes skip_ : Z) : M unit :=
  if srcPayload && destPayload then ret tt
  else if srcPayload then
    r <- getReader ;;
    let end_ := r + refCountBytes in
    whileReaderBelow fuel end_ (handleSingleRefCountInitWithCopy fuel metadata dest src)
  else
    (if destPayload then
       r <- getReader ;;
       let end_ := r + refCountBytes in
       addrOffset_ <- getAddrOffset ;;
       (* the loop runs on [nestedAddrOffset], a copy of the cursor *)
       whileReaderBelow fuel end_ (handleSingleRefCountDestroy fuel metadata dest) ;;
       setAddrOffset addrOffset_
     else skip refCountBytes) ;;
    off <- getAddrOffset ;;
    copyBytes (dest + off) (src + off) skip_ ;;
    advance skip_.


Definition singlePayloadEnumSimpleAssignWithCopy (fuel : nat) : InitFn :=
  fun metadata dest src =>
  modify (
    byteCountsAndOffset <- readBytes 8 ;;
    payloadSize <- readBytes 8 ;;
    zeroTagValue <- readBytes 8 ;;
    xiTagValues <- readBytes 8 ;;
    refCountBytes <- readBytes 8 ;;
    skip_ <- readBytes 8 ;;
    let extraTagBytesPattern := extraTagBytesPatternOf byteCountsAndOffset in
    let xiTagBytesPattern := xiTagBytesPatternOf byteCountsAndOffset in
    let xiTagBytesOffset := xiTagBytesOffsetOf byteCountsAndOffset in
    off <- getAddrOffset ;;
    tags <-
      (if extraTagBytesPattern =? 0 then ret (0, 0) else
         let extraTagBytes := Z.shiftl 1 (extraTagBytesPattern - 1) in
         srcTagBytes <- readTag (src + off + payloadSize) extraTagBytes ;;
         destTagBytes <- readTag (dest + off + payloadSize) extraTagBytes ;;
         ret (srcTagBytes, destTagBytes)) ;;
    tags <-
      (if xiTagBytesPattern =? 0 then ret tags else
         let xiTagBytes := Z.shiftl 1 (xiTagBytesPattern - 1) in
         srcTagBytes <-
           (if negb (fst tags =? 0) then ret 0 else
              raw <- readTag (src + off + xiTagBytesOffset) xiTagBytes ;;
              ret (u64 (raw - zeroTagValue))) ;;
         destTagBytes <-
           (if negb (snd tags =? 0) then ret 0 else
              raw <- readTag (dest + off + xiTagBytesOffset) xiTagBytes ;;
              ret (u64 (raw - zeroTagValue))) ;;
         ret (srcTagBytes, destTagBytes)) ;;
    let (srcTagBytes, destTagBytes) := tags : Z * Z in
    singlePayloadAssignDispatch fuel metadata dest src
      (xiTagValues <=? srcTagBytes) (xiTagValues <=? destTagBytes)
      refCountBytes skip_).

Definition singlePayloadEnumFNAssignWithCopy (fuel : nat) : InitFn :=
  fun metadata dest src =>
  modify (
    getEnumTag <- readRelativeFunctionPointer ;;
    refCountBytes <- readBytes 8 ;;
    skip_ <- readBytes 8 ;;
    off <- getAddrOffset ;;
    m <- getMem ;;
    let srcTag := u32 (callGetEnumTagFn getEnumTag (src + off) m) in
    let destTag := u32 (callGetEnumTagFn getEnumTag (dest + off) m) in
    singlePayloadAssignDispatch fuel metadata dest src
      (srcTag =? 0) (destTag =? 0) refCountBytes skip_).

Definition singlePayloadEnumFNResolvedAssignWithCopy (fuel : nat) : InitFn :=
  fun metadata dest src =>
  modify (
    getEnumTag <- readBytes 8 ;;
    refCountBytes <- readBytes 8 ;;
    skip_ <- readBytes 8 ;;
    off <- getAddrOffset ;;
    m <- getMem ;;
    let srcTag := u32 (callGetEnumTagFn getEnumTag (src + off) m) in
    let destTag := u32 (callGetEnumTagFn getEnumTag (dest + off) m) in
    singlePayloadAssignDispatch fuel metadata dest src
      (srcTag =? 0) (destTag =? 0) refCountBytes skip_).

Definition singlePayloadEnumGenericAssignWithCopy (fuel : nat) : InitFn :=
  fun metadata dest src =>
  modify (
    tagBytesAndOffset <- readBytes 8 ;;
    payloadSize <- readBytes 8 ;;
    xiType <- readBytes 8 ;;
    numEmptyCases <- readBytes 4 ;;
    refCountBytes <- readBytes 8 ;;
    skip_ <- readBytes 8 ;;
    let extraTagBytesPattern := extraTagBytesPatternOf tagBytesAndOffset in
    let xiTagBytesOffset := xiTagBytesOffsetOf tagBytesAndOffset in
    off <- getAddrOffset ;;
    tags <-
      (if extraTagBytesPattern =? 0 then ret (0, 0) else
         let extraTagBytes := Z.shiftl 1 (extraTagBytesPattern - 1) in
         srcTag <- readTag (src + off + payloadSize) extraTagBytes ;;
         destTag <- readTag (dest + off + payloadSize) extraTagBytes ;;
         ret (srcTag, destTag)) ;;
    m <- getMem ;;
    let (srcTag, destTag) := tags : Z * Z in
    let srcTag :=
      if negb (xiType =? 0) && (srcTag =? 0)
      then u32 (vw_getEnumTagSinglePayload xiType
                  (src + off + xiTagBytesOffset) numEmptyCases m)
      else srcTag in
    let destTag :=
      if negb (xiType =? 0) && (destTag =? 0)
      then u32 (vw_getEnumTagSinglePayload xiType
                  (dest + off + xiTagBytesOffset) numEmptyCases m)
      else destTag in
    singlePayloadAssignDispatch fuel metadata dest src
      (srcTag =? 0) (destTag =? 0) refCountBytes skip_).

(** The tail of the three multi-payload copy-assign handlers, once the
    header is read and the two tags are known. *)
Definition multiPayloadAssignDispatch (fuel : nat) (metadata dest src : Z)
  (srcTag destTag numPayloads enumSize nestedReader nestedAddrOffset : Z) : M unit :=
  if (srcTag <? numPayloads) && (destTag <? numPayloads) then
    advance enumSize ;;
    srcRefCountOffset <- peekNested nestedReader (u64 (srcTag * 8)) ;;
    destRefCountOffset <- peekNested nestedReader (u64 (destTag * 8)) ;;
    let nestedReaderDest := nestedReader + u64 (u64 (numPayloads * 8) + destRefCountOffset) in
    let nestedReader := nestedReader + u64 (u64 (numPayloads * 8) + srcRefCountOffset) in
    _ <- withNested nestedReaderDest nestedAddrOffset
           (handleRefCountsDestroy fuel metadata dest) ;;
    nestedAddrOffset <- withNested nestedReader nestedAddrOffset
                          (handleRefCountsInitWithCopy fuel metadata dest src) ;;
    off <- getAddrOffset ;;
    let trailingBytes := u64 (off - nestedAddrOffset) in
    if trailingBytes =? 0 then ret tt else
    copyBytes (dest + nestedAddrOffset) (src + nestedAddrOffset) trailingBytes
  else if srcTag <? numPayloads then
    advance enumSize ;;
    refCountOffset <- peekNested nestedReader (u64 (srcTag * 8)) ;;
    let nestedReader := nestedReader + u64 (u64 (numPayloads * 8) + refCountOffset) in
    nestedAddrOffset <- withNested nestedReader nestedAddrOffset
                          (handleRefCountsInitWithCopy fuel metadata dest src) ;;
    off <- getAddrOffset ;;
    let trailingBytes := u64 (off - nestedAddrOffset) in
    if trailingBytes =? 0 then ret tt else
    copyBytes (dest + nestedAddrOffset) (src + nestedAddrOffset) trailingBytes
  else
    (if destTag <? numPayloads then
       refCountOffset <- peekNested nestedReader (u64 (destTag * 8)) ;;
       let nestedReader := nestedReader + u64 (u64 (numPayloads * 8) + refCountOffset) in
       _ <- withNested nestedReader nestedAddrOffset
              (handleRefCountsDestroy fuel metadata dest) ;;
       ret tt
     else ret tt) ;;
    off <- getAddrOffset ;;
    copyBytes (dest + off) (src + off) enumSize ;;
    advance enumSize.

Definition multiPayloadEnumFNAssignWithCopy (fuel : nat) : InitFn :=
  fun metadata dest src =>
  getEnumTag <- readRelativeFunctionPointer ;;
  numPayloads <- readBytes 8 ;;
  refCountBytes <- readBytes 8 ;;
  enumSize <- readBytes 8 ;;
  nestedReader <- getReader ;;
  nestedAddrOffset <- getAddrOffset ;;
  m <- getMem ;;
  let srcTag := u32 (callGetEnumTagFn getEnumTag (src + nestedAddrOffset) m) in
  let destTag := u32 (callGetEnumTagFn getEnumTag (dest + nestedAddrOffset) m) in
  skip (u64 (refCountBytes + u64 (numPayloads * 8))) ;;
  multiPayloadAssignDispatch fuel metadata dest src
    srcTag destTag numPayloads enumSize nestedReader nestedAddrOffset.

Definition multiPayloadEnumFNResolvedAssignWithCopy (fuel : nat) : InitFn :=
  fun metadata dest src =>
  getEnumTag <- readBytes 8 ;;
  numPayloads <- readBytes 8 ;;
  refCountBytes <- readBytes 8 ;;
  enumSize <- readBytes 8 ;;
  nestedReader <- getReader ;;
  nestedAddrOffset <- getAddrOffset ;;
  m <- getMem ;;
  let srcTag := u32 (callGetEnumTagFn getEnumTag (src + nestedAddrOffset) m) in
  let destTag := u32 (callGetEnumTagFn getEnumTag (dest + nestedAddrOffset) m) in
  skip (u64 (refCountBytes + u64 (numPayloads * 8))) ;;
  multiPayloadAssignDispatch fuel metadata dest src
    srcTag destTag numPayloads enumSize nestedReader nestedAddrOffset.

Definition multiPayloadEnumGenericAssignWithCopy (fuel : nat) : InitFn :=
  fun metadata dest src =>
  tagBytes <- readBytes 8 ;;
  numPayloads <- readBytes 8 ;;
  refCountBytes <- readBytes 8 ;;
  enumSize <- readBytes 8 ;;
  nestedReader <- getReader ;;
  nestedAddrOffset <- getAddrOffset ;;
  let tagBytesOffset := u64 (enumSize - tagBytes) in
  srcTag <- readTag (src + nestedAddrOffset + tagBytesOffset) tagBytes ;;
  destTag <- readTag (dest + nestedAddrOffset + tagBytesOffset) tagBytes ;;
  skip (u64 (refCountBytes + u64 (numPayloads * 8))) ;;
  multiPayloadAssignDispatch fuel metadata dest src
    srcTag destTag numPayloads enumSize nestedReader nestedAddrOffset.

(** The copy-assign handlers call the destroy and copy-initialise drivers
    themselves; [fuel] bounds those and the handlers' own loops. *)
Definition assignWithCopyTable (fuel : nat) (tag : Z) : option InitFn :=
  match tag with
  | 0 => Some handleEnd2
  | 1 => Some errorAssignWithCopy
  | 2 => Some nativeStrongAssignWithCopy
  | 3 => Some unownedAssignWithCopy
  | 4 => Some weakAssignWithCopy
  | 5 => Some unknownAssignWithCopy
  | 6 => Some unknownUnownedAssignWithCopy
  | 7 => Some unknownWeakAssignWithCopy
  | 8 => Some bridgeAssignWithCopy
  | 9 => Some blockAssignWithCopy
  | 10 => Some objcStrongAssignWithCopy
  | 11 => None (* Custom *)
  | 12 => Some metatypeAssignWithCopy
  | 13 => None (* Generic *)
  | 14 => Some existentialAssignWithCopy
  | 15 => Some resilientAssignWithCopy
  | 16 => Some (singlePayloadEnumSimpleAssignWithCopy fuel)
  | 17 => Some (singlePayloadEnumFNAssignWithCopy fuel)
  | 18 => Some (singlePayloadEnumFNResolvedAssignWithCopy fuel)
  | 19 => Some (singlePayloadEnumGenericAssignWithCopy fuel)
  | 20 => Some (multiPayloadEnumFNAssignWithCopy fuel)
  | 21 => Some (multiPayloadEnumFNResolvedAssignWithCopy fuel)
  | 22 => Some (multiPayloadEnumGenericAssignWithCopy fuel)
  | _ => None
  end.

Fixpoint handleRefCountsAssignWithCopy (fuel : nat) (metadata dest src : Z) : M unit :=
  match fuel with
  | O => fail
  | S fuel' =>
      _addrOffset <- getAddrOffset ;;
      tag <- readBytes 8 ;;
      let offset := offsetOf tag in
      (if offset =? 0 then ret tt
       else copyBytes (dest + _addrOffset) (src + _addrOffset) offset) ;;
      setAddrOffset (u64 (_addrOffset + offset)) ;;
      let tag := kindOf tag in
      if tag =? 0 then ret tt else
      handler <- lift (assignWithCopyTable fuel' tag) ;;
      handler metadata dest src ;;
      handleRefCountsAssignWithCopy fuel' metadata dest src
  end.

End Interpreter.

(** ** The value-witness entry points

    Each driver starts a reader behind the header of the type's layout string
    with the cursor at 0. The result is the state the driver loop ends in:
    the [addrOffset] the entry point asserts on, and the world. The
    [assert(addrOffset == metadata->vw_size())] that ends
    [swift_generic_initWithCopy], [swift_generic_initWithTake] and
    [swift_generic_assignWithCopy] is not checked here: where the cursor ends
    elsewhere these definitions still return, as the code does when it is
    built without assertions. *)

Section EntryPoints.

Context {RT : Runtime}.

Definition start (addrOffset_ : Z) (w : World) : State :=
  {| reader := layoutStringHeaderSize; addrOffset := addrOffset_; world := w |}.

Definition run (c : M unit) (s : State) : option State :=
  match c s with
  | Some (_, s') => Some s'
  | None => None
  end.

Definition swift_generic_destroy (fuel : nat) (address metadata : Z) (w : World)
  : option State :=
  let layoutStr := getLayoutString metadata in
  run (handleRefCountsDestroy (ls := layoutStr) fuel metadata address) (start 0 w).

(** [for (size_t i = 0; i < count; i++)], [n] iterations left. *)
Fixpoint arrayLoop (n : nat) (i : Z) (stride : Z) (body : M unit) (w : World)
  : option World :=
  match n with
  | O => Some w
  | S n' =>
      match run body (start (u64 (i * stride)) w) with
      | Some s => arrayLoop n' (i + 1) stride body (world s)
      | None => None
      end
  end.

Definition swift_generic_arrayDestroy (fuel : nat) (address count stride metadata : Z)
  (w : World) : option World :=
  let layoutStr := getLayoutString metadata in
  arrayLoop (Z.to_nat count) 0 stride
    (handleRefCountsDestroy (ls := layoutStr) fuel metadata address) w.

Definition swift_generic_initWithCopy (fuel : nat) (dest src metadata : Z) (w : World)
  : option State :=
  let layoutStr := getLayoutString metadata in
  run (handleRefCountsInitWithCopy (ls := layoutStr) fuel metadata dest src) (start 0 w).

Definition swift_generic_arrayInitWithCopy (fuel : nat)
  (dest src count stride metadata : Z) (w : World) : option World :=
  let layoutStr := getLayoutString metadata in
  arrayLoop (Z.to_nat count) 0 stride
    (handleRefCountsInitWithCopy (ls := layoutStr) fuel metadata dest src) w.

(** On a bitwise-takable type the layout string is not read: the cursor of
    the result is the size copied and the reader has not moved. *)
Definition swift_generic_initWithTake (fuel : nat) (dest src metadata : Z) (w : World)
  : option State :=
  if isBitwiseTakable metadata then
    let size := vw_size metadata in
    Some {| reader := layoutStringHeaderSize; addrOffset := size;
            world := {| mem := memcpy (mem w) dest src size; trace := trace w |} |}
  else
    let layoutStr := getLayoutString metadata in
    run (handleRefCountsInitWithTake (ls := layoutStr) fuel metadata dest src) (start 0 w).

Definition swift_generic_assignWithCopy (fuel : nat) (dest src metadata : Z) (w : World)
  : option State :=
  let layoutStr := getLayoutString metadata in
  run (handleRefCountsAssignWithCopy (ls := layoutStr) fuel metadata dest src) (start 0 w).

Definition swift_generic_arrayAssignWithCopy (fuel : nat)
  (dest src count stride metadata : Z) (w : World) : option World :=
  let layoutStr := getLayoutString metadata in
  arrayLoop (Z.to_nat count) 0 stride
    (handleRefCountsAssignWithCopy (ls := layoutStr) fuel metadata dest src) w.

Definition swift_generic_assignWithTake (fuel : nat) (dest src metadata : Z) (w : World)
  : option State :=
  match swift_generic_destroy fuel dest metadata w with
  | Some s => swift_generic_initWithTake fuel dest src metadata (world s)
  | None => None
  end.

End EntryPoints.

(** ** Enum tag entry points *)

(** Modelled from the spec: [loadEnumElement] and [storeEnumElement] of
    [EnumImpl.h], which is not among the sources. A store writes the
    [uint32_t] value little endian into the first [min(size, 4)] bytes and
    zero-fills the rest of the [size] bytes; a load reads the first
    [min(size, 4)] bytes, little endian, zero extended. *)
Fixpoint fillZero (m : Memory) (a : Z) (n : nat) : Memory :=
  match n with
  | O => m
  | S k => fillZero (update m a 0) (a + 1) k
  end.

Definition loadEnumElement (m : Memory) (src size : Z) : Z :=
  loadLE m src (Z.to_nat (Z.min size 4)).

Definition storeEnumElement (m : Memory) (dst value size : Z) : Memory :=
  let m' := storeLE m dst (Z.to_nat (Z.min size 4)) (u32 value) in
  fillZero m' (dst + 4) (Z.to_nat (size - 4)).

Section EnumTags.

Context {RT : Runtime}.
Context {ls : LayoutString}.

(** [storeEnumElement] on the storage of the moment. *)
Definition storeElement (dst value size : Z) : M unit :=
  m <- getMem ;; putMem (storeEnumElement m dst value size).

(** [handleSinglePayloadEnumSimpleTag<T>]. For [extraTagBytesPattern = 0] the
    C expression [1 << (extraTagBytesPattern - 1)] shifts by -1; the model
    gives [numExtraTagBytes] the value 0 there, which is what [Z.shiftl]
    yields and what the truncation to [uint8_t] leaves. *)
Definition handleSinglePayloadEnumSimpleTag {T}
  (extraTagBytesHandler : Z -> Z -> Z -> M (option T))
  (xiHandler : Z -> Z -> Z -> Z -> Z -> Z -> M T) : M T :=
  byteCountsAndOffset <- readBytes 8 ;;
  let extraTagBytesPattern := extraTagBytesPatternOf byteCountsAndOffset in
  let xiTagBytesPattern := xiTagBytesPatternOf byteCountsAndOffset in
  let xiTagBytesOffset := xiTagBytesOffsetOf byteCountsAndOffset in
  let numExtraTagBytes := u8 (Z.shiftl 1 (extraTagBytesPattern - 1)) in
  payloadSize <- readBytes 8 ;;
  zeroTagValue <- readBytes 8 ;;
  payloadNumExtraInhabitants <- readBytes 8 ;;
  result <-
    (if extraTagBytesPattern =? 0 then ret None
     else extraTagBytesHandler payloadNumExtraInhabitants payloadSize numExtraTagBytes) ;;
  match result with
  | Some r => ret r
  | None => xiHandler payloadNumExtraInhabitants zeroTagValue xiTagBytesPattern
              xiTagBytesOffset payloadSize numExtraTagBytes
  end.

(** The case index an empty case beyond the extra inhabitants is read back
    from: the extra tag bytes hold its high part when the payload is shorter
    than four bytes. *)
Definition caseIndexOfExtraTag (m : Memory) (addr tagBytes payloadSize
  payloadNumExtraInhabitants : Z) : Z :=
  let caseIndexFromExtraTagBits :=
    if 4 <=? payloadSize then 0
    else u32 (u64 (Z.shiftl (u64 (tagBytes - 1)) (u64 (payloadSize * 8)))) in
  let caseIndexFromValue := loadEnumElement m addr payloadSize in
  let noPayloadIndex :=
    u32 (Z.lor caseIndexFromExtraTagBits caseIndexFromValue + payloadNumExtraInhabitants) in
  u32 (noPayloadIndex + 1).

Definition swift_enumSimple_getEnumTag_body (addr : Z) : M Z :=
  let extraTagBytesHandler := fun payloadNumExtraInhabitants payloadSize numExtraTagBytes =>
    tagBytes <- readTag (addr + payloadSize) numExtraTagBytes ;;
    m <- getMem ;;
    if negb (tagBytes =? 0) then
      ret (Some (caseIndexOfExtraTag m addr tagBytes payloadSize payloadNumExtraInhabitants))
    else ret None in
  let xihandler := fun payloadNumExtraInhabitants zeroTagValue xiTagBytesPattern
                       xiTagBytesOffset payloadSize (numExtraTagBytes : Z) =>
    if negb (xiTagBytesPattern =? 0) then
      let xiTagBytes := Z.shiftl 1 (xiTagBytesPattern - 1) in
      raw <- readTag (addr + xiTagBytesOffset) xiTagBytes ;;
      let tagBytes := u64 (raw - zeroTagValue) in
      if tagBytes <? payloadNumExtraInhabitants then ret (u32 (tagBytes + 1))
      else ret 0
    else ret 0 in
  handleSinglePayloadEnumSimpleTag extraTagBytesHandler xihandler.

(** How an empty case beyond the extra inhabitants is split between the
    payload area and the extra tag bytes. *)
Definition splitCaseIndex (tag payloadNumExtraInhabitants payloadSize : Z) : Z * Z :=
  let noPayloadIndex := u32 (tag - 1) in
  let caseIndex := u32 (noPayloadIndex - payloadNumExtraInhabitants) in
  if 4 <=? payloadSize then (caseIndex, 1)
  else
    let payloadBits := u32 (payloadSize * 8) in
    let extraTagIndex := u32 (1 + Z.shiftr caseIndex payloadBits) in
    let payloadIndex := Z.land caseIndex (u32 (u32 (Z.shiftl 1 payloadBits) - 1)) in
    (payloadIndex, extraTagIndex).

(** The stores of both [extraTagBytesHandler]s of the inject entry points. *)
Definition storeExtraTagCase (addr tag payloadNumExtraInhabitants payloadSize
  numExtraTagBytes : Z) : M unit :=
  let (payloadIndex, extraTagIndex) :=
    splitCaseIndex tag payloadNumExtraInhabitants payloadSize in
  (if negb (payloadSize =? 0) then storeElement addr payloadIndex payloadSize
   else ret tt) ;;
  (if negb (numExtraTagBytes =? 0)
   then storeElement (addr + payloadSize) extraTagIndex numExtraTagBytes
   else ret tt).

Definition swift_enumSimple_destructiveInjectEnumTag_body (addr tag : Z) : M bool :=
  let extraTagBytesHandler := fun payloadNumExtraInhabitants payloadSize numExtraTagBytes =>
    if tag <=? payloadNumExtraInhabitants then ret None else
    storeExtraTagCase addr tag payloadNumExtraInhabitants payloadSize numExtraTagBytes ;;
    ret (Some true) in
  let xihandler := fun payloadNumExtraInhabitants zeroTagValue xiTagBytesPattern
                       xiTagBytesOffset payloadSize numExtraTagBytes =>
    if negb (xiTagBytesPattern =? 0) then
      let xiTagBytes := Z.shiftl 1 (xiTagBytesPattern - 1) in
      if tag <=? payloadNumExtraInhabitants then
        (if negb (numExtraTagBytes =? 0)
         then storeElement (addr + payloadSize) 0 numExtraTagBytes
         else ret tt) ;;
        if tag =? 0 then ret true else
        storeElement (addr + xiTagBytesOffset) (u64 (u32 (tag - 1) + zeroTagValue))
          xiTagBytes ;;
        ret true
      else ret true
    else ret true in
  handleSinglePayloadEnumSimpleTag extraTagBytesHandler xihandler.

Definition swift_enumFn_getEnumTag_body (addr : Z) : M Z :=
  getEnumTag <- readRelativeFunctionPointer ;;
  m <- getMem ;;
  ret (u32 (callGetEnumTagFn getEnumTag addr m)).

Definition swift_multiPayloadEnumGeneric_getEnumTag_body (addr : Z) : M Z :=
  tagBytes <- readBytes 8 ;;
  numPayloads <- readBytes 8 ;;
  skip 8 ;;
  enumSize <- readBytes 8 ;;
  let payloadSize := u64 (enumSize - tagBytes) in
  raw <- readTag (addr + payloadSize) tagBytes ;;
  let enumTag := u32 raw in
  if enumTag <? numPayloads then ret enumTag else
  m <- getMem ;;
  let payloadValue := loadEnumElement m addr payloadSize in
  if 4 <=? payloadSize then ret (u32 (numPayloads + payloadValue))
  else
    let numPayloadBits := u32 (payloadSize * 8) in
    ret (u32 (Z.lor payloadValue
                (u64 (Z.shiftl (u64 (enumTag - numPayloads)) numPayloadBits))
              + numPayloads)).

Definition swift_multiPayloadEnumGeneric_destructiveInjectEnumTag_body
  (addr tag : Z) : M unit :=
  numTagBytes <- readBytes 8 ;;
  numPayloads <- readBytes 8 ;;
  skip 8 ;;
  enumSize <- readBytes 8 ;;
  let payloadSize := u64 (enumSize - numTagBytes) in
  if tag <? numPayloads then
    let tagBytes := addr + payloadSize in
    storeElement tagBytes tag numTagBytes
  else
    let whichEmptyCase := u32 (tag - numPayloads) in
    let (whichTag, whichPayloadValue) :=
      if 4 <=? payloadSize then (u32 numPayloads, whichEmptyCase)
      else
        let numPayloadBits := u32 (payloadSize * 8) in
        (u32 (numPayloads + Z.shiftr whichEmptyCase numPayloadBits),
         Z.land whichEmptyCase (u32 (u32 (Z.shiftl 1 numPayloadBits) - 1))) in
    let tagBytes := addr + payloadSize in
    storeElement tagBytes whichTag numTagBytes ;;
    storeElement addr whichPayloadValue payloadSize.

(** [handleSinglePayloadEnumGenericTag<T>]; [numEmptyCases] is read only
    when the extra-tag handler did not answer. *)
Definition handleSinglePayloadEnumGenericTag {T}
  (extraTagBytesHandler : Z -> Z -> Z -> M (option T))
  (xiHandler : Z -> Z -> Z -> Z -> Z -> M T) : M T :=
  tagBytesAndOffset <- readBytes 8 ;;
  let extraTagBytesPattern := extraTagBytesPatternOf tagBytesAndOffset in
  let xiTagBytesOffset := xiTagBytesOffsetOf tagBytesAndOffset in
  let numExtraTagBytes := u8 (Z.shiftl 1 (extraTagBytesPattern - 1)) in
  payloadSize <- readBytes 8 ;;
  xiType <- readBytes 8 ;;
  result <-
    (if extraTagBytesPattern =? 0 then ret None
     else extraTagBytesHandler xiType payloadSize numExtraTagBytes) ;;
  match result with
  | Some r => ret r
  | None =>
      numEmptyCases <- readBytes 4 ;;
      xiHandler xiType xiTagBytesOffset numEmptyCases payloadSize numExtraTagBytes
  end.

(** [xiType ? xiType->vw_getNumExtraInhabitants() : 0] *)
Definition numExtraInhabitantsOf (xiType : Z) : Z :=
  if xiType =? 0 then 0 else u32 (vw_getNumExtraInhabitants xiType).

Definition swift_singlePayloadEnumGeneric_getEnumTag_body (addr : Z) : M Z :=
  let extraTagBytesHandler := fun xiType payloadSize numExtraTagBytes =>
    tagBytes <- readTag (addr + payloadSize) numExtraTagBytes ;;
    m <- getMem ;;
    if negb (tagBytes =? 0) then
      let payloadNumExtraInhabitants := numExtraInhabitantsOf xiType in
      ret (Some (caseIndexOfExtraTag m addr tagBytes payloadSize payloadNumExtraInhabitants))
    else ret None in
  let xihandler := fun xiType xiTagBytesOffset numEmptyCases
                       (payloadSize numExtraTagBytes : Z) =>
    m <- getMem ;;
    if negb (xiType =? 0) then
      ret (u32 (vw_getEnumTagSinglePayload xiType (addr + xiTagBytesOffset)
                  numEmptyCases m))
    else ret 0 in
  handleSinglePayloadEnumGenericTag extraTagBytesHandler xihandler.

Definition swift_singlePayloadEnumGeneric_destructiveInjectEnumTag_body
  (addr tag : Z) : M bool :=
  let extraTagBytesHandler := fun xiType payloadSize numExtraTagBytes =>
    let payloadNumExtraInhabitants := numExtraInhabitantsOf xiType in
    if tag <=? payloadNumExtraInhabitants then ret None else
    storeExtraTagCase addr tag payloadNumExtraInhabitants payloadSize numExtraTagBytes ;;
    ret (Some true) in
  let xihandler := fun xiType xiTagBytesOffset numEmptyCases payloadSize numExtraTagBytes =>
    let payloadNumExtraInhabitants := numExtraInhabitantsOf xiType in
    if tag <=? payloadNumExtraInhabitants then
      (if negb (numExtraTagBytes =? 0)
       then storeElement (addr + payloadSize) 0 numExtraTagBytes
       else ret tt) ;;
      if tag =? 0 then ret true else
      (* [xiType] is dereferenced here *)
      (if xiType =? 0 then fail else ret tt) ;;
      call (vw_storeEnumTagSinglePayload xiType (addr + xiTagBytesOffset)
                 tag numEmptyCases) ;;
      ret true
    else ret true in
  handleSinglePayloadEnumGenericTag extraTagBytesHandler xihandler.

End EnumTags.

Section TagEntryPoints.

Context {RT : Runtime}.

(** [LayoutStringReader reader{metadata->getLayoutString(),
    layoutStringHeaderSize + sizeof(uint64_t)}]: the reader of a tag entry
    point starts behind the first instruction word. *)
Definition tagReader (w : World) : State :=
  {| reader := layoutStringHeaderSize + 8; addrOffset := 0; world := w |}.

Definition swift_singletonEnum_getEnumTag (address metadata : Z) (m : Memory)
  : option Z := Some 0.

Definition swift_singletonEnum_destructiveInjectEnumTag (address tag metadata : Z)
  (w : World) : option World := Some w.

Definition swift_enumSimple_getEnumTag (address metadata : Z) (m : Memory) : option Z :=
  option_map fst
    (swift_enumSimple_getEnumTag_body (ls := getLayoutString metadata) address
       (tagReader {| mem := m; trace := [] |})).

Definition swift_enumSimple_destructiveInjectEnumTag (address tag metadata : Z)
  (w : World) : option World :=
  option_map (fun r => world (snd r))
    (swift_enumSimple_destructiveInjectEnumTag_body (ls := getLayoutString metadata)
       address tag (tagReader w)).

Definition swift_enumFn_getEnumTag (address metadata : Z) (m : Memory) : option Z :=
  option_map fst
    (swift_enumFn_getEnumTag_body (ls := getLayoutString metadata) address
       (tagReader {| mem := m; trace := [] |})).

Definition swift_multiPayloadEnumGeneric_getEnumTag (address metadata : Z) (m : Memory)
  : option Z :=
  option_map fst
    (swift_multiPayloadEnumGeneric_getEnumTag_body (ls := getLayoutString metadata) address
       (tagReader {| mem := m; trace := [] |})).

Definition swift_multiPayloadEnumGeneric_destructiveInjectEnumTag
  (address tag metadata : Z) (w : World) : option World :=
  option_map (fun r => world (snd r))
    (swift_multiPayloadEnumGeneric_destructiveInjectEnumTag_body
       (ls := getLayoutString metadata) address tag (tagReader w)).

Definition swift_singlePayloadEnumGeneric_getEnumTag (address metadata : Z) (m : Memory)
  : option Z :=
  option_map fst
    (swift_singlePayloadEnumGeneric_getEnumTag_body (ls := getLayoutString metadata)
       address (tagReader {| mem := m; trace := [] |})).

Definition swift_singlePayloadEnumGeneric_destructiveInjectEnumTag
  (address tag metadata : Z) (w : World) : option World :=
  option_map (fun r => world (snd r))
    (swift_singlePayloadEnumGeneric_destructiveInjectEnumTag_body
       (ls := getLayoutString metadata) address tag (tagReader w)).

End TagEntryPoints.

(** ** Resilience resolution *)

Section Resolve.

Context {RT : Runtime}.
(** The buffer [fieldLayoutStr] points into. A [fieldLayoutStr] is an offset
    into it; the string written to, [layoutStr], is storage of its own,
    addressed from its first byte. *)
Variable field : LayoutString.

(** Modelled from the spec: [LayoutStringWriter::writeBytes] of
    [BytecodeLayouts.h] stores the bytes of a value at [layoutStr + offset]
    and advances the offset; here for the two 8-byte values the pass writes
    one after the other. *)
Definition writeTwoWords (layoutStr : Memory) (offset v1 v2 : Z) : Memory :=
  storeLE (storeLE layoutStr offset 8 v1) (offset + 8) 8 v2.

(** [reader.readBytes<T>()] of the positional [LayoutStringReader]
    [{fieldLayoutStr, offset}] *)
Definition fieldRead (fieldLayoutStr offset : Z) (n : nat) : option Z :=
  readAt (@lsBytes field) (fieldLayoutStr + offset) n.

(** [readRelativeFunctionPointer] on that reader *)
Definition fieldRelativePointer (fieldLayoutStr offset : Z) : option Z :=
  match fieldRead fieldLayoutStr offset 8 with
  | Some relativeOffset =>
      Some (u64 (@lsBase field + fieldLayoutStr + offset + sext32 relativeOffset))
  | None => None
  end.

(** The [for] loop over the cases of a [MultiPayloadEnumFN]: [n] cases left,
    the reader at [offset]. The result is the offset behind the table. *)
Fixpoint resolveCases (resolve : Memory -> Z -> Z -> option Memory) (n : nat)
  (fieldLayoutStr offset casesBeginOffset fieldCasesBeginOffset : Z)
  (layoutStr : Memory) : option (Z * Memory) :=
  match n with
  | O => Some (offset, layoutStr)
  | S n' =>
      match fieldRead fieldLayoutStr offset 8 with
      | Some caseOffset =>
          let caseLayoutString := fieldCasesBeginOffset + caseOffset in
          match resolve layoutStr (u64 (casesBeginOffset + caseOffset)) caseLayoutString with
          | Some layoutStr' =>
              resolveCases resolve n' fieldLayoutStr (offset + 8)
                casesBeginOffset fieldCasesBeginOffset layoutStr'
          | None => None
          end
      | None => None
      end
  end.

(** The [while (true)] loop of [swift_resolve_resilientAccessors] with the
    reader at [offset]; one unit of fuel per iteration. *)
Fixpoint resolveLoop (fuel : nat) (layoutStr : Memory)
  (layoutStrOffset fieldLayoutStr fieldType offset : Z) : option Memory :=
  match fuel with
  | O => None
  | S fuel' =>
      let continue := resolveLoop fuel' layoutStr layoutStrOffset fieldLayoutStr fieldType in
      let currentOffset := u64 (offset + layoutStringHeaderSize) in
      match fieldRead fieldLayoutStr offset 8 with
      | None => None
      | Some word =>
          let tag := kindOf word in
          let size := offsetOf word in
          let offset := offset + 8 in
          let writerOffset :=
            u64 (layoutStrOffset + currentOffset - layoutStringHeaderSize) in
          match tag with
          | 0 (* End *) => Some layoutStr
          | 15 (* Resilient *) =>
              match fieldRelativePointer fieldLayoutStr offset with
              | Some fn =>
                  let type := callMetadataAccessor fn (getGenericArgs fieldType) in
                  let tagAndOffset := Z.lor (Z.shiftl 12 56) size in
                  resolveLoop fuel' (writeTwoWords layoutStr writerOffset tagAndOffset type)
                    layoutStrOffset fieldLayoutStr fieldType (offset + 8)
              | None => None
              end
          | 12 (* Metatype *) => continue (u64 (offset + 8))
          | 16 (* SinglePayloadEnumSimple *) => continue (u64 (offset + (2 * 8 + 4 * 8)))
          | 17 (* SinglePayloadEnumFN *) =>
              match fieldRelativePointer fieldLayoutStr offset with
              | Some getEnumTag =>
                  let tagAndOffset := Z.lor (Z.shiftl 18 56) size in
                  resolveLoop fuel' (writeTwoWords layoutStr writerOffset tagAndOffset getEnumTag)
                    layoutStrOffset fieldLayoutStr fieldType (u64 (offset + 8 + 2 * 8))
              | None => None
              end
          | 18 (* SinglePayloadEnumFNResolved *) => continue (u64 (offset + 3 * 8))
          | 19 (* SinglePayloadEnumGeneric *) =>
              let offset := u64 (offset + (8 + 8 + 8 + 8 + 4)) in
              match fieldRead fieldLayoutStr offset 8 with
              | Some refCountBytes => continue (u64 (offset + 8 + u64 (8 + refCountBytes)))
              | None => None
              end
          | 20 (* MultiPayloadEnumFN *) =>
              match fieldRelativePointer fieldLayoutStr offset,
                    fieldRead fieldLayoutStr (offset + 8) 8,
                    fieldRead fieldLayoutStr (offset + 16) 8 with
              | Some getEnumTag, Some numCases, Some refCountBytes =>
                  let tagAndOffset := Z.lor (Z.shiftl 21 56) size in
                  let layoutStr := writeTwoWords layoutStr writerOffset tagAndOffset getEnumTag in
                  (* behind the function pointer, the two counts and the enum size *)
                  let offset := u64 (offset + 24 + 8) in
                  let casesBeginOffset := u64 (layoutStrOffset + offset + u64 (numCases * 8)) in
                  let fieldCasesBeginOffset := fieldLayoutStr + u64 (numCases * 8) + offset in
                  match resolveCases
                          (fun l o f => resolveLoop fuel' l o f fieldType 0)
                          (Z.to_nat numCases) fieldLayoutStr offset
                          casesBeginOffset fieldCasesBeginOffset layoutStr with
                  | Some (offset, layoutStr) =>
                      resolveLoop fuel' layoutStr layoutStrOffset fieldLayoutStr fieldType
                        (u64 (offset + refCountBytes))
                  | None => None
                  end
              | _, _, _ => None
              end
          | 21 (* MultiPayloadEnumFNResolved *) =>
              match fieldRead fieldLayoutStr (u64 (offset + 8)) 8,
                    fieldRead fieldLayoutStr (u64 (offset + 8) + 8) 8 with
              | Some numCases, Some refCountBytes =>
                  continue (u64 (u64 (offset + 8) + 16
                                 + u64 (u64 (8 + u64 (numCases * 8)) + refCountBytes)))
              | _, _ => None
              end
          | 22 (* MultiPayloadEnumGeneric *) =>
              match fieldRead fieldLayoutStr (u64 (offset + 8)) 8,
                    fieldRead fieldLayoutStr (u64 (offset + 8) + 8) 8 with
              | Some numPayloads, Some refCountBytes =>
                  continue (u64 (u64 (offset + 8) + 16
                                 + u64 (u64 (8 * u64 (numPayloads + 1)) + refCountBytes)))
              | _, _ => None
              end
          | _ => continue offset
          end
      end
  end.

Definition swift_resolve_resilientAccessors (fuel : nat) (layoutStr : Memory)
  (layoutStrOffset fieldLayoutStr fieldType : Z) : option Memory :=
  resolveLoop fuel layoutStr layoutStrOffset fieldLayoutStr fieldType 0.

End Resolve.

(** * Properties *)

(** ** Little-endian encoding, used to write down concrete layout strings *)

Fixpoint encodeLE (n : nat) (v : Z) : list Z :=
  match n with
  | O => []
  | S k => u8 v :: encodeLE k (v / 256)
  end.

(** An instruction word: the kind in the top byte, the offset below. *)
Definition instr (kind offset : Z) : list Z :=
  encodeLE 8 (Z.lor (Z.shiftl kind 56) offset).

(** ** Running the monad *)

Lemma bind_Some {A B} (c : M A) (f : A -> M B) s b s' :
  bind c f s = Some (b, s') ->
  exists a s1, c s = Some (a, s1) /\ f a s1 = Some (b, s').
Proof.
  unfold bind. destruct (c s) as [[a s1]|]; [|discriminate].
  intros H. exists a, s1. auto.
Qed.

Lemma bind_eq {A B} (c : M A) (f : A -> M B) s a s1 :
  c s = Some (a, s1) -> bind c f s = f a s1.
Proof. unfold bind. intros ->. reflexivity. Qed.

(** ** Take-initialise of a bitwise-takable type *)

Section TakeBitwise.

Context {RT : Runtime}.

(** C5. On a type whose value witnesses report bitwise-takable,
    [swift_generic_initWithTake] returns for every amount of fuel and every
    layout string: the storage is that of [memcpy(dest, src, size)], each
    destination byte being the original source byte, the reader has not left
    its start and no runtime function was called. *)
Theorem initWithTake_bitwise_takable_is_memcpy :
  forall (fuel : nat) (dest src metadata : Z) (w : World),
    isBitwiseTakable metadata = true ->
    exists s,
      swift_generic_initWithTake fuel dest src metadata w = Some s
      /\ mem (world s) = memcpy (mem w) dest src (vw_size metadata)
      /\ (forall i, 0 <= i < vw_size metadata ->
                    mem (world s) (dest + i) = mem w (src + i))
      /\ trace (world s) = trace w
      /\ reader s = layoutStringHeaderSize.
Proof.
  intros fuel dest src metadata w Htakable.
  unfold swift_generic_initWithTake. rewrite Htakable.
  eexists. split; [reflexivity|]. cbn.
  repeat split.
  intros i Hi. unfold memcpy.
  replace (dest + i - dest) with i by lia.
  destruct (dest <=? dest + i) eqn:E1; [|apply Z.leb_gt in E1; lia].
  destruct (dest + i <? dest + vw_size metadata) eqn:E2;
    [reflexivity | apply Z.ltb_ge in E2; lia].
Qed.

End TakeBitwise.

(** ** Spare bits and reserved bits *)

(** Unfold the monad under a handler and reduce the projections of the
    states built on the way. *)
Ltac run_handler :=
  cbv beta iota zeta delta
    [modify bind ret lift fail call advance skip loadWord storeBytes copyBytes
     getAddrOffset setAddrOffset getReader setReader getMem putMem readBytes readTag
     peekNested getAbsolute readRelativeFunctionPointer getResilientTypeMetadata
     getExistentialTypeMetadata] in *;
  cbn [reader addrOffset world mem trace] in *;
  change (Z.of_nat 8) with 8 in *; change (Z.of_nat 4) with 4 in *.

(** Bring [a + p + q] with literal [p], [q] to [a + r]. *)
Ltac norm_pos :=
  repeat match goal with
         | |- context [?a + Zpos ?p + Zpos ?q] =>
             let r := eval cbv in (Zpos p + Zpos q) in
             replace (a + Zpos p + Zpos q) with (a + r) by lia
         | H : context [?a + Zpos ?p + Zpos ?q] |- _ =>
             let r := eval cbv in (Zpos p + Zpos q) in
             replace (a + Zpos p + Zpos q) with (a + r) in H by lia
         end.

(** Rewrite with the reads of the layout string that are known. *)
Ltac use_reads :=
  repeat match goal with
         | H : readAt _ ?p ?n = _ |- context [readAt _ ?p ?n] => rewrite H
         | H : readAt _ ?p ?n = _, H' : context [readAt _ ?p ?n] |- _ => rewrite H in H'
         end.

Section ReferenceBits.

Context {RT : Runtime}.
Context {ls : LayoutString}.

(** The handlers by themselves, from any state. An [ObjCStrong] word with a
    reserved bit set causes no runtime call on destroy, copy-initialise or
    copy-assign (on copy-assign, separately for the destination word and the
    source word); otherwise the word with the spare bits cleared goes to
    [objc_release] / [objc_retain]. [NativeStrong] and [Unowned] words
    always go to their release / retain function with the spare bits
    cleared. On copy-assign the release of the destination word is recorded
    before the retain of the source word. *)
Lemma reference_handlers_test_and_mask :
  forall (metadata addr dest src : Z) (s : State),
    let m := mem (world s) in
    let t := trace (world s) in
    let word := loadLE m (addr + addrOffset s) 8 in
    let destWord := loadLE m (dest + addrOffset s) 8 in
    let srcWord := loadLE m (src + addrOffset s) 8 in
    let calls (c : M unit) (es : list Event) :=
      exists s', c s = Some (tt, s') /\ trace (world s') = es ++ t in
    (hasReservedBits word = (negb (Z.land word (_swift_abi_ObjCReservedBitsMask) =? 0)))
    /\ (maskSpareBits word = Z.land word (Z.lnot (_swift_abi_SwiftSpareBitsMask)))
    /\ calls (objcStrongDestroyBranchless metadata addr)
         (if hasReservedBits word then [] else [objc_release (maskSpareBits word)])
    /\ calls (objcStrongRetainBranchless metadata dest src)
         (if hasReservedBits srcWord then [] else [objc_retain (maskSpareBits srcWord)])
    /\ calls (objcStrongAssignWithCopy metadata dest src)
         ((if hasReservedBits srcWord then [] else [objc_retain (maskSpareBits srcWord)])
          ++ (if hasReservedBits destWord then []
              else [objc_release (maskSpareBits destWord)]))
    /\ calls (nativeStrongDestroyBranchless metadata addr)
         [swift_release (maskSpareBits word)]
    /\ calls (nativeStrongRetainBranchless metadata dest src)
         [swift_retain (maskSpareBits srcWord)]
    /\ calls (nativeStrongAssignWithCopy metadata dest src)
         [swift_retain (maskSpareBits srcWord); swift_release (maskSpareBits destWord)]
    /\ calls (unownedDestroyBranchless metadata addr)
         [swift_unownedRelease (maskSpareBits word)]
    /\ calls (unownedRetainBranchless metadata dest src)
         [swift_unownedRetain (maskSpareBits srcWord)]
    /\ calls (unownedAssignWithCopy metadata dest src)
         [swift_unownedRetain (maskSpareBits srcWord);
          swift_unownedRelease (maskSpareBits destWord)].
Proof.
  intros metadata addr dest src s m t word destWord srcWord calls.
  subst calls m t word destWord srcWord. cbv beta.
  repeat apply conj; [reflexivity | reflexivity | ..].
  - unfold objcStrongDestroyBranchless. run_handler.
    destruct (hasReservedBits _); run_handler; eexists; split; reflexivity.
  - unfold objcStrongRetainBranchless. run_handler.
    destruct (hasReservedBits _); run_handler; eexists; split; reflexivity.
  - unfold objcStrongAssignWithCopy. run_handler.
    destruct (hasReservedBits (loadLE _ (dest + _) _));
      destruct (hasReservedBits (loadLE _ (src + _) _));
      run_handler; eexists; split; reflexivity.
  - unfold nativeStrongDestroyBranchless. run_handler. eexists; split; reflexivity.
  - unfold nativeStrongRetainBranchless. run_handler. eexists; split; reflexivity.
  - unfold nativeStrongAssignWithCopy. run_handler. eexists; split; reflexivity.
  - unfold unownedDestroyBranchless. run_handler. eexists; split; reflexivity.
  - unfold unownedRetainBranchless. run_handler. eexists; split; reflexivity.
  - unfold unownedAssignWithCopy. run_handler. eexists; split; reflexivity.
Qed.

End ReferenceBits.

(** ** Destroy stores nothing *)

Section DestroyFrame.

Context {RT : Runtime}.
Context {ls : LayoutString}.

(** The runtime functions that give a reference or a value up. *)
Definition releaseFlavored (e : Event) : bool :=
  match e with
  | swift_errorRelease _ | swift_release _ | swift_unownedRelease _
  | swift_weakDestroy _ | swift_unknownObjectRelease _
  | swift_unknownObjectUnownedDestroy _ | swift_unknownObjectWeakDestroy _
  | swift_bridgeObjectRelease _ | Block_release _ | objc_release _
  | vw_destroy _ _ => true
  | _ => false
  end.

(** A computation all of whose changes to storage are those of the runtime
    calls it makes, which are release-flavored: the calls it adds to the
    trace, replayed on the storage it started from, give the storage it ends
    with. *)
Definition storesNothing {A} (c : M A) : Prop :=
  forall s a s', c s = Some (a, s') ->
    exists es, trace (world s') = es ++ trace (world s)
               /\ mem (world s') = replay es (mem (world s))
               /\ Forall (fun e => releaseFlavored e = true) es.

Lemma replay_app es2 es1 m : replay (es2 ++ es1) m = replay es2 (replay es1 m).
Proof. unfold replay. apply fold_right_app. Qed.

Lemma storesNothing_pure {A} (c : M A) :
  (forall s a s', c s = Some (a, s') -> world s' = world s) -> storesNothing c.
Proof.
  intros H s a s' E. apply H in E. exists []. rewrite E. repeat split. constructor.
Qed.

Lemma storesNothing_bind {A B} (c : M A) (f : A -> M B) :
  storesNothing c -> (forall a, storesNothing (f a)) -> storesNothing (bind c f).
Proof.
  intros Hc Hf s b s' E.
  apply bind_Some in E. destruct E as (a & s1 & E1 & E2).
  apply Hc in E1. apply Hf in E2.
  destruct E1 as (es1 & T1 & M1 & F1). destruct E2 as (es2 & T2 & M2 & F2).
  exists (es2 ++ es1). rewrite T2, T1, M2, M1, replay_app, app_assoc.
  repeat split. apply Forall_app. split; assumption.
Qed.

Lemma storesNothing_ret {A} (a : A) : storesNothing (ret a).
Proof. apply storesNothing_pure. intros s x s' E. inversion E. reflexivity. Qed.

Lemma storesNothing_fail {A} : storesNothing (@fail A).
Proof. intros s a s' E. discriminate. Qed.

Lemma storesNothing_lift {A} (o : option A) : storesNothing (lift o).
Proof.
  apply storesNothing_pure. intros s x s' E. unfold lift in E.
  destruct o; inversion E. reflexivity.
Qed.

Lemma storesNothing_getAddrOffset : storesNothing getAddrOffset.
Proof. apply storesNothing_pure. intros s x s' E. inversion E. reflexivity. Qed.

Lemma storesNothing_setAddrOffset o : storesNothing (setAddrOffset o).
Proof. apply storesNothing_pure. intros s x s' E. inversion E. reflexivity. Qed.

Lemma storesNothing_getReader : storesNothing getReader.
Proof. apply storesNothing_pure. intros s x s' E. inversion E. reflexivity. Qed.

Lemma storesNothing_setReader r : storesNothing (setReader r).
Proof. apply storesNothing_pure. intros s x s' E. inversion E. reflexivity. Qed.

Lemma storesNothing_getMem : storesNothing getMem.
Proof. apply storesNothing_pure. intros s x s' E. inversion E. reflexivity. Qed.

Lemma storesNothing_readBytes n : storesNothing (readBytes n).
Proof.
  apply storesNothing_pure. intros s x s' E. unfold readBytes in E.
  destruct (readAt _ _ _); inversion E. reflexivity.
Qed.

Lemma storesNothing_call e : releaseFlavored e = true -> storesNothing (call e).
Proof.
  intros He s x s' E. inversion E. exists [e]. cbn. repeat split.
  constructor; [exact He | constructor].
Qed.

Lemma storesNothing_withNested r o (f : M unit) :
  storesNothing f -> storesNothing (withNested r o f).
Proof.
  intros Hf s x s' E. unfold withNested in E.
  destruct (f _) as [[u s1]|] eqn:Ef; inversion E; subst. cbn.
  apply Hf in Ef. exact Ef.
Qed.

Lemma storesNothing_bind_lift {A B} (o : option A) (f : A -> M B) :
  (forall a, o = Some a -> storesNothing (f a)) -> storesNothing (bind (lift o) f).
Proof.
  intros H s b s' E. destruct o as [a|]; [|discriminate].
  exact (H a eq_refl s b s' E).
Qed.

Ltac frame_step :=
  match goal with
  | |- storesNothing (bind (lift _) _) => apply storesNothing_bind_lift; intros ? ?
  | |- storesNothing (bind _ _) => apply storesNothing_bind; [|intros]
  | |- storesNothing (ret _) => apply storesNothing_ret
  | |- storesNothing fail => apply storesNothing_fail
  | |- storesNothing (lift _) => apply storesNothing_lift
  | |- storesNothing getAddrOffset => apply storesNothing_getAddrOffset
  | |- storesNothing (setAddrOffset _) => apply storesNothing_setAddrOffset
  | |- storesNothing getReader => apply storesNothing_getReader
  | |- storesNothing (setReader _) => apply storesNothing_setReader
  | |- storesNothing getMem => apply storesNothing_getMem
  | |- storesNothing (readBytes _) => apply storesNothing_readBytes
  | |- storesNothing (call _) => apply storesNothing_call; reflexivity
  | |- storesNothing (withNested _ _ _) => apply storesNothing_withNested
  | |- storesNothing (if ?b then _ else _) => destruct b
  | |- storesNothing (let (_, _) := ?p in _) => destruct p
  | |- storesNothing (match ?o with Some _ => _ | None => _ end) => destruct o
  | H : forall metadata addr, storesNothing (?h metadata addr)
    |- storesNothing (?h _ _) => apply H
  end.

Ltac frame :=
  repeat first
    [ frame_step
    | progress unfold modify, advance, skip, loadWord, readTag, peekNested, getAbsolute,
        getExistentialTypeMetadata, getResilientTypeMetadata, readRelativeFunctionPointer ].

Lemma storesNothing_multiPayloadDispatch1 (HandlerFn : DestrFnBranchless)
  metadata addr enumTag numPayloads enumSize nestedReader nestedAddrOffset :
  (forall metadata addr, storesNothing (HandlerFn metadata addr)) ->
  storesNothing (multiPayloadDispatch1 HandlerFn metadata addr
                   enumTag numPayloads enumSize nestedReader nestedAddrOffset).
Proof. intros H. unfold multiPayloadDispatch1. frame. Qed.

(** Every entry of the destroy table stores nothing, provided the driver its
    multi-payload entries run does not. *)
Lemma storesNothing_destroyTable (rec : DestrFnBranchless) tag handler metadata addr :
  (forall metadata addr, storesNothing (rec metadata addr)) ->
  destroyTableBranchless rec tag = Some handler ->
  storesNothing (handler metadata addr).
Proof.
  intros Hrec Htable.
  assert (Hmulti := fun t p e r o =>
    storesNothing_multiPayloadDispatch1 rec metadata addr t p e r o Hrec).
  unfold destroyTableBranchless in Htable.
  repeat match type of Htable with
         | match ?t with _ => _ end = _ => destruct t; try discriminate
         end;
  inversion Htable; subst handler;
  unfold handleEnd1, errorDestroyBranchless, nativeStrongDestroyBranchless,
    unownedDestroyBranchless, weakDestroyBranchless, unknownDestroyBranchless,
    unknownUnownedDestroyBranchless, unknownWeakDestroyBranchless,
    bridgeDestroyBranchless, blockDestroyBranchless, objcStrongDestroyBranchless,
    metatypeDestroyBranchless, existentialDestroyBranchless, resilientDestroyBranchless,
    singlePayloadEnumSimpleBranchless1, singlePayloadEnumFNBranchless1,
    singlePayloadEnumFNResolvedBranchless1, singlePayloadEnumGenericBranchless1,
    multiPayloadEnumFNBranchless1, multiPayloadEnumFNResolvedBranchless1,
    multiPayloadEnumGenericBranchless1;
  frame; try apply Hmulti.
Qed.

Lemma storesNothing_handleRefCountsDestroy fuel :
  forall metadata addr, storesNothing (handleRefCountsDestroy fuel metadata addr).
Proof.
  induction fuel as [|fuel IH]; intros metadata addr; cbn [handleRefCountsDestroy].
  - apply storesNothing_fail.
  - frame. eapply storesNothing_destroyTable; [exact IH | eassumption].
Qed.

End DestroyFrame.

(** The storage after a destroy, in terms of the storage before it. *)
Definition onlyRuntimeEffects {RT : Runtime} (before after : World) : Prop :=
  exists es, trace after = es ++ trace before
             /\ mem after = replay es (mem before)
             /\ Forall (fun e => releaseFlavored e = true) es
             /\ ((forall e m, effect e m = m) -> mem after = mem before).

Lemma replay_identity {RT : Runtime} es m :
  (forall e m, effect e m = m) -> replay es m = m.
Proof.
  intros H. induction es as [|e es IH]; cbn; [reflexivity|].
  rewrite H. exact IH.
Qed.

Lemma onlyRuntimeEffects_refl {RT : Runtime} w : onlyRuntimeEffects w w.
Proof. exists []. repeat split. constructor. Qed.

Lemma onlyRuntimeEffects_trans {RT : Runtime} w1 w2 w3 :
  onlyRuntimeEffects w1 w2 -> onlyRuntimeEffects w2 w3 -> onlyRuntimeEffects w1 w3.
Proof.
  intros (es1 & T1 & M1 & F1 & _) (es2 & T2 & M2 & F2 & _).
  exists (es2 ++ es1). rewrite T2, T1, M2, M1, replay_app, app_assoc.
  repeat split.
  - apply Forall_app. split; assumption.
  - intros H. rewrite <- replay_app. apply replay_identity, H.
Qed.

Lemma storesNothing_run {RT : Runtime} (c : M unit) s s' :
  storesNothing c -> run c s = Some s' -> onlyRuntimeEffects (world s) (world s').
Proof.
  intros Hc Hrun. unfold run in Hrun.
  destruct (c s) as [[u s1]|] eqn:E; inversion Hrun; subst s1.
  apply Hc in E. destruct E as (es & T & Hm & F). exists es. repeat split; try assumption.
  intros H. rewrite Hm. apply replay_identity, H.
Qed.

Lemma storesNothing_arrayLoop {RT : Runtime} (body : M unit) stride n :
  storesNothing body ->
  forall i w w', arrayLoop n i stride body w = Some w' -> onlyRuntimeEffects w w'.
Proof.
  intros Hbody. induction n as [|n IH]; intros i w w' E; cbn in E.
  - inversion E. apply onlyRuntimeEffects_refl.
  - destruct (run body _) as [s|] eqn:Erun; [|discriminate].
    apply (storesNothing_run _ _ _ Hbody) in Erun. cbn in Erun.
    eapply onlyRuntimeEffects_trans; [exact Erun | eapply IH; exact E].
Qed.

Section DestroyFrameTheorem.

Context {RT : Runtime}.

(** C10. [swift_generic_destroy] and [swift_generic_arrayDestroy] contain no
    store of their own, on any layout string and value: when they return,
    the calls added to the trace are release-flavored and, replayed on the
    storage before, give the storage after; with runtime functions that
    leave storage alone every byte is unchanged. *)
Theorem destroy_stores_nothing :
  forall (fuel : nat) (address count stride metadata : Z) (w : World),
    (forall s, swift_generic_destroy fuel address metadata w = Some s ->
               onlyRuntimeEffects w (world s))
    /\ (forall w', swift_generic_arrayDestroy fuel address count stride metadata w = Some w' ->
                   onlyRuntimeEffects w w').
Proof.
  intros fuel address count stride metadata w. split.
  - intros s E. unfold swift_generic_destroy in E.
    apply storesNothing_run in E; [exact E|].
    apply storesNothing_handleRefCountsDestroy.
  - intros w' E. unfold swift_generic_arrayDestroy in E.
    eapply storesNothing_arrayLoop; [|exact E].
    apply storesNothing_handleRefCountsDestroy.
Qed.

End DestroyFrameTheorem.

(** ** Example runtime *)

(** A runtime for concrete runs: x86-64 masks, a 16-byte layout string header,
    three-word value buffers, runtime calls that leave storage alone. Every
    metadata record has the layout string [bytes] and a size of 8. A
    [GetEnumTagFn] answers with the first byte of the value; the XI type
    keeps the empty case [k] of a one-byte payload as the byte [239 + k]. *)
Definition exampleRuntime (bytes : list Z) (takable : bool) : Runtime := {|
  layoutStringHeaderSize := 16;
  NumWords_ValueBuffer := 3;
  _swift_abi_SwiftSpareBitsMask := 0xF000000000000006;
  _swift_abi_ObjCReservedBitsMask := 0x8000000000000001;
  getLayoutString := fun _ => {| lsBase := 4096; lsBytes := bytes |};
  getGenericArgs := fun _ => 0;
  vw_size := fun _ => 8;
  vw_getNumExtraInhabitants := fun _ => 16;
  isBitwiseTakable := fun _ => takable;
  isValueInline := fun _ => true;
  callMetadataAccessor := fun fn _ => fn;
  callGetEnumTagFn := fun _ addr m => u8 (m addr);
  vw_getEnumTagSinglePayload := fun _ addr _ m =>
    if 240 <=? u8 (m addr) then u8 (m addr) - 239 else 0;
  Block_copy_result := fun object _ => object;
  effect := fun e m =>
    match e with
    | vw_storeEnumTagSinglePayload _ enum whichCase _ => update m enum (239 + whichCase)
    | _ => m
    end
|}.

(** The 16 header bytes of an example layout string. *)
Definition exampleHeader : list Z := repeat 0 16.

(** Storage holding the 8-byte word [v] at [a] and zeros elsewhere. *)
Definition wordAt (a v : Z) : Memory := storeLE (fun _ => 0) a 8 v.

Definition emptyWorld (m : Memory) : World := {| mem := m; trace := [] |}.

(** [(NativeStrong, 0) (End, 8)]: one strong reference in a 16-byte value. *)
Definition oneStrongReference : list Z :=
  exampleHeader ++ instr 2 0 ++ instr 0 8.

(** [(Bridge, 0) (End, 0)]: one bridge-object reference. *)
Definition oneBridgeReference : list Z :=
  exampleHeader ++ instr 8 0 ++ instr 0 0.

(** What a run leaves behind, without the storage: cursor and trace. *)
Definition outcome (r : option State) : option (Z * list Event) :=
  option_map (fun s => (addrOffset s, trace (world s))) r.

Example destroy_oneStrongReference :
  outcome (swift_generic_destroy (RT := exampleRuntime oneStrongReference false)
             2 1000 0 (emptyWorld (wordAt 1000 0x7001)))
  = Some (16, [swift_release 0x7001]).
Proof. vm_compute. reflexivity. Qed.

Lemma initWithTake_bitwise_takable_witness :
  exists s,
    swift_generic_initWithTake (RT := exampleRuntime oneStrongReference true)
      0 2000 1000 0 (emptyWorld (wordAt 1000 0x7001)) = Some s
    /\ mem (world s) = memcpy (wordAt 1000 0x7001) 2000 1000 8
    /\ (forall i, 0 <= i < 8 -> mem (world s) (2000 + i) = wordAt 1000 0x7001 (1000 + i))
    /\ trace (world s) = []
    /\ reader s = 16.
Proof.
  exact (initWithTake_bitwise_takable_is_memcpy
           (RT := exampleRuntime oneStrongReference true)
           0%nat 2000 1000 0 (emptyWorld (wordAt 1000 0x7001)) eq_refl).
Defined.

Lemma destroy_stores_nothing_witness :
  exists s,
    swift_generic_destroy (RT := exampleRuntime oneStrongReference false)
      2 1000 0 (emptyWorld (wordAt 1000 0x7001)) = Some s
    /\ onlyRuntimeEffects (RT := exampleRuntime oneStrongReference false)
         (emptyWorld (wordAt 1000 0x7001)) (world s).
Proof.
  destruct (swift_generic_destroy (RT := exampleRuntime oneStrongReference false)
              2 1000 0 (emptyWorld (wordAt 1000 0x7001))) as [s|] eqn:E.
  - exists s. split; [reflexivity|].
    exact (proj1 (destroy_stores_nothing (RT := exampleRuntime oneStrongReference false)
                    2%nat 1000 0 0 0 (emptyWorld (wordAt 1000 0x7001))) s E).
  - exfalso. apply (f_equal outcome) in E. vm_compute in E. discriminate.
Defined.

(** C3 (the code at the failing input). Take-initialise of a value with one
    [Bridge] field, on a type that is not bitwise-takable: the take table
    holds the copy primitive for [Bridge], so the bridge object is retained,
    exactly as copy-initialise does. *)
Theorem initWithTake_retains_bridge_object :
  outcome (swift_generic_initWithTake (RT := exampleRuntime oneBridgeReference false)
             2 2000 1000 0 (emptyWorld (wordAt 1000 0x7001)))
    = Some (8, [swift_bridgeObjectRetain 0x7001])
  /\ outcome (swift_generic_initWithCopy (RT := exampleRuntime oneBridgeReference false)
                2 2000 1000 0 (emptyWorld (wordAt 1000 0x7001)))
     = Some (8, [swift_bridgeObjectRetain 0x7001])
  /\ forall {RT : Runtime} {ls : LayoutString} rec,
       initWithTakeTable rec 8 = Some (Some bridgeRetainBranchless).
Proof. split; [|split]; [vm_compute; reflexivity | vm_compute; reflexivity | reflexivity]. Qed.

(** ** Single-payload enum handlers *)

(** The four families of single-payload instructions. *)
Inductive SinglePayloadFamily : Type :=
| SimpleFamily | FNFamily | FNResolvedFamily | GenericFamily.

Section SinglePayload.

Context {RT : Runtime} {ls : LayoutString}.

Definition singlePayloadDestroyHandler (k : SinglePayloadFamily) : DestrFnBranchless :=
  match k with
  | SimpleFamily => singlePayloadEnumSimpleBranchless1
  | FNFamily => singlePayloadEnumFNBranchless1
  | FNResolvedFamily => singlePayloadEnumFNResolvedBranchless1
  | GenericFamily => singlePayloadEnumGenericBranchless1
  end.

(** The tag of the enum value at [addr], read with the header the reader
    stands on: for the simple, function and generic families the computation
    of the tag entry point of that family; for a resolved function pointer,
    the call through it. *)
Definition extractedTag (k : SinglePayloadFamily) (addr : Z) : M Z :=
  match k with
  | SimpleFamily => swift_enumSimple_getEnumTag_body addr
  | FNFamily => swift_enumFn_getEnumTag_body addr
  | FNResolvedFamily =>
      getEnumTag <- readBytes 8 ;;
      m <- getMem ;;
      ret (u32 (callGetEnumTagFn getEnumTag addr m))
  | GenericFamily => swift_singlePayloadEnumGeneric_getEnumTag_body addr
  end.

(** Bytes of header behind the instruction word, and where in it
    [refCountBytes] and [skip] are. *)
Definition headerBytes (k : SinglePayloadFamily) : Z :=
  match k with
  | SimpleFamily => 48 | FNFamily => 24 | FNResolvedFamily => 24 | GenericFamily => 44
  end.
Definition refCountBytesAt (k : SinglePayloadFamily) : Z :=
  match k with
  | SimpleFamily => 32 | FNFamily => 8 | FNResolvedFamily => 8 | GenericFamily => 28
  end.
Definition skipAt (k : SinglePayloadFamily) : Z :=
  match k with
  | SimpleFamily => 40 | FNFamily => 16 | FNResolvedFamily => 16 | GenericFamily => 36
  end.

(** The instruction has a field to look for extra inhabitants in. *)
Definition hasXIField (k : SinglePayloadFamily) (s : State) : Prop :=
  match k with
  | SimpleFamily =>
      exists w, readAt lsBytes (reader s) 8 = Some w /\ xiTagBytesPatternOf w <> 0
  | GenericFamily =>
      exists xiType, readAt lsBytes (reader s + 16) 8 = Some xiType /\ xiType <> 0
  | _ => True
  end.

(** The tag does not come out of 32-bit wrap-around: the extra tag bytes of
    the value are absent or zero and the count of XI tag values fits 32
    bits. *)
Definition tagNotWrapped (k : SinglePayloadFamily) (addr : Z) (s : State) : Prop :=
  match k with
  | SimpleFamily | GenericFamily =>
      exists w payloadSize,
        readAt lsBytes (reader s) 8 = Some w
        /\ readAt lsBytes (reader s + 8) 8 = Some payloadSize
        /\ (extraTagBytesPatternOf w = 0
            \/ readTagBytes (mem (world s)) (addr + payloadSize)
                 (Z.shiftl 1 (extraTagBytesPatternOf w - 1)) = Some 0)
        /\ (k = SimpleFamily ->
            exists n, readAt lsBytes (reader s + 24) 8 = Some n /\ n < 2 ^ 32)
  | _ => True
  end.

(** The two ways a single-payload handler returns. On the payload path the
    reader stands on the nested sub-stream, which the driver loop goes on to
    execute; on the empty path it stands behind it and the cursor has moved
    by [skip]. Neither changes the world: no runtime call, no store. *)
Definition payloadPath (k : SinglePayloadFamily) (s : State) : option (unit * State) :=
  Some (tt, {| reader := reader s + headerBytes k;
               addrOffset := addrOffset s; world := world s |}).
Definition emptyPath (k : SinglePayloadFamily) (refCountBytes skip_ : Z) (s : State)
  : option (unit * State) :=
  Some (tt, {| reader := reader s + headerBytes k + refCountBytes;
               addrOffset := u64 (addrOffset s + skip_); world := world s |}).

End SinglePayload.

(** ** Dispatch of the single-payload handlers *)

Lemma u8_u8 x : u8 (u8 x) = u8 x.
Proof. unfold u8, wrap. apply Z.mod_mod. lia. Qed.

Lemma readTagBytes_u8 m a n : readTagBytes m a (u8 n) = readTagBytes m a n.
Proof. unfold readTagBytes. rewrite u8_u8. reflexivity. Qed.

Lemma u32_small x : 0 <= x < 2 ^ 32 -> u32 x = x.
Proof. intros H. unfold u32, wrap. apply Z.mod_small. exact H. Qed.

Lemma u64_range x : 0 <= u64 x < 2 ^ 64.
Proof. unfold u64, wrap. apply Z.mod_pos_bound. lia. Qed.

Ltac exec :=
  repeat (progress (run_handler; norm_pos; use_reads;
                    rewrite ?readTagBytes_u8 in *;
                    change (0 =? 0) with true in *; change (8 * 2) with 16 in *;
                    cbv beta iota)).

Ltac no_match c :=
  lazymatch c with
  | context [if _ then _ else _] => fail
  | context [match _ with Some _ => _ | None => _ end] => fail
  | _ => idtac
  end.

Ltac case_step :=
  match goal with
  | |- context [if ?c then _ else _] => no_match c; destruct c eqn:?
  | |- context [match ?o with Some _ => _ | None => _ end] => no_match o; destruct o eqn:?
  end.

Ltac cases := repeat (case_step; exec).
Ltac bool_hyps :=
  repeat match goal with
         | H : (_ =? _) = true |- _ => apply Z.eqb_eq in H
         | H : (_ =? _) = false |- _ => apply Z.eqb_neq in H
         | H : (_ <? _) = true |- _ => apply Z.ltb_lt in H
         | H : (_ <? _) = false |- _ => apply Z.ltb_ge in H
         | H : (_ <=? _) = true |- _ => apply Z.leb_le in H
         | H : (_ <=? _) = false |- _ => apply Z.leb_gt in H
         | H : negb _ = true |- _ => apply negb_true_iff in H
         | H : negb _ = false |- _ => apply negb_false_iff in H
         end.

Ltac same_reads :=
  repeat match goal with
         | H : readAt ?b ?p ?n = Some ?x, H' : readAt ?b ?p ?n = Some ?y |- _ =>
             rewrite H in H'; inversion H'; subst; clear H'
         | H : Some _ = Some _ |- _ => inversion H; subst; clear H
         end.

Ltac wrap_contra :=
  match goal with
  | H : u32 (u64 ?x + 1) = 0 |- _ =>
      pose proof (u64_range x); rewrite u32_small in H by lia; lia
  end.

Section SinglePayloadPaths.

Context {RT : Runtime} {ls : LayoutString}.

Lemma simple_paths metadata addr s tag s1 refCountBytes skip_ :
  extractedTag SimpleFamily (addr + addrOffset s) s = Some (tag, s1) ->
  readAt lsBytes (reader s + 32) 8 = Some refCountBytes ->
  readAt lsBytes (reader s + 40) 8 = Some skip_ ->
  (tag <> 0 -> singlePayloadEnumSimpleBranchless1 metadata addr s
               = emptyPath SimpleFamily refCountBytes skip_ s)
  /\ (tag = 0 -> hasXIField SimpleFamily s -> tagNotWrapped SimpleFamily (addr + addrOffset s) s ->
      singlePayloadEnumSimpleBranchless1 metadata addr s = payloadPath SimpleFamily s).
Proof.
  intros Htag Hrcb Hskip.
  unfold extractedTag, swift_enumSimple_getEnumTag_body, handleSinglePayloadEnumSimpleTag in Htag.
  unfold singlePayloadEnumSimpleBranchless1, emptyPath, payloadPath, headerBytes,
    hasXIField, tagNotWrapped.
  exec.
  destruct (readAt lsBytes (reader s) 8) as [w|] eqn:Hw; [|discriminate]. exec.
  destruct (readAt lsBytes (reader s + 8) 8) as [payloadSize|] eqn:Hps; [|discriminate]. exec.
  destruct (readAt lsBytes (reader s + 16) 8) as [zeroTagValue|] eqn:Hz; [|discriminate]. exec.
  destruct (readAt lsBytes (reader s + 24) 8) as [numXI|] eqn:Hn; [|discriminate]. exec.
  revert Htag. cases.
  all: intros Htag; try discriminate; inversion Htag; subst; clear Htag.
  all: split;
    [intros Hne
    | intros Hz0 (w' & Hw' & Hxi) (w'' & ps & Hw'' & Hps' & Hclear & Hbound);
      destruct (Hbound eq_refl) as (n' & Hn' & Hlt); clear Hbound].
  all: try reflexivity; try (exfalso; apply Hne; reflexivity).
  all: exfalso; same_reads; bool_hyps; try lia; try congruence.
  all: try (destruct Hclear as [Hc|Hc]; [congruence | rewrite Hc in *; congruence]).
  all: try wrap_contra.
Qed.


Lemma fn_paths metadata addr s tag s1 refCountBytes skip_ :
  extractedTag FNFamily (addr + addrOffset s) s = Some (tag, s1) ->
  readAt lsBytes (reader s + 8) 8 = Some refCountBytes ->
  readAt lsBytes (reader s + 16) 8 = Some skip_ ->
  (tag <> 0 -> singlePayloadEnumFNBranchless1 metadata addr s
               = emptyPath FNFamily refCountBytes skip_ s)
  /\ (tag = 0 -> singlePayloadEnumFNBranchless1 metadata addr s = payloadPath FNFamily s).
Proof.
  intros Htag Hrcb Hskip.
  unfold extractedTag, swift_enumFn_getEnumTag_body in Htag.
  unfold singlePayloadEnumFNBranchless1, emptyPath, payloadPath, headerBytes.
  exec.
  destruct (readAt lsBytes (reader s) 8) as [rel|] eqn:Hrel; [|discriminate]. exec.
  inversion Htag; subst tag s1; clear Htag.
  split; intros Ht.
  - apply Z.eqb_neq in Ht. rewrite Ht. exec. reflexivity.
  - rewrite Ht. exec. reflexivity.
Qed.

Lemma fnResolved_paths metadata addr s tag s1 refCountBytes skip_ :
  extractedTag FNResolvedFamily (addr + addrOffset s) s = Some (tag, s1) ->
  readAt lsBytes (reader s + 8) 8 = Some refCountBytes ->
  readAt lsBytes (reader s + 16) 8 = Some skip_ ->
  (tag <> 0 -> singlePayloadEnumFNResolvedBranchless1 metadata addr s
               = emptyPath FNResolvedFamily refCountBytes skip_ s)
  /\ (tag = 0 -> singlePayloadEnumFNResolvedBranchless1 metadata addr s
                = payloadPath FNResolvedFamily s).
Proof.
  intros Htag Hrcb Hskip.
  unfold extractedTag in Htag.
  unfold singlePayloadEnumFNResolvedBranchless1, emptyPath, payloadPath, headerBytes.
  exec.
  destruct (readAt lsBytes (reader s) 8) as [fn|] eqn:Hfn; [|discriminate]. exec.
  inversion Htag; subst tag s1; clear Htag.
  split; intros Ht.
  - apply Z.eqb_neq in Ht. rewrite Ht. exec. reflexivity.
  - rewrite Ht. exec. reflexivity.
Qed.

Lemma readAt_bounds bs p n v :
  readAt bs p n = Some v -> 0 <= p /\ p + Z.of_nat n <= Z.of_nat (length bs).
Proof.
  unfold readAt. intros H.
  destruct (0 <=? p) eqn:E1; [|discriminate].
  destruct (p + Z.of_nat n <=? Z.of_nat (length bs)) eqn:E2; [|discriminate].
  apply Z.leb_le in E1, E2. split; assumption.
Qed.

Lemma readAt_inside bs p n :
  0 <= p -> p + Z.of_nat n <= Z.of_nat (length bs) -> exists v, readAt bs p n = Some v.
Proof.
  intros H1 H2. unfold readAt.
  apply Z.leb_le in H1, H2. rewrite H1, H2. eexists. reflexivity.
Qed.

Lemma generic_paths metadata addr s tag s1 refCountBytes skip_ :
  extractedTag GenericFamily (addr + addrOffset s) s = Some (tag, s1) ->
  readAt lsBytes (reader s + 28) 8 = Some refCountBytes ->
  readAt lsBytes (reader s + 36) 8 = Some skip_ ->
  (tag <> 0 -> singlePayloadEnumGenericBranchless1 metadata addr s
               = emptyPath GenericFamily refCountBytes skip_ s)
  /\ (tag = 0 -> hasXIField GenericFamily s ->
      tagNotWrapped GenericFamily (addr + addrOffset s) s ->
      singlePayloadEnumGenericBranchless1 metadata addr s = payloadPath GenericFamily s).
Proof.
  intros Htag Hrcb Hskip.
  unfold extractedTag, swift_singlePayloadEnumGeneric_getEnumTag_body,
    handleSinglePayloadEnumGenericTag in Htag.
  unfold singlePayloadEnumGenericBranchless1, emptyPath, payloadPath, headerBytes,
    hasXIField, tagNotWrapped.
  exec.
  destruct (readAt lsBytes (reader s) 8) as [w|] eqn:Hw; [|discriminate]. exec.
  destruct (readAt lsBytes (reader s + 8) 8) as [payloadSize|] eqn:Hps; [|discriminate]. exec.
  destruct (readAt lsBytes (reader s + 16) 8) as [xiType|] eqn:Hx; [|discriminate]. exec.
  assert (Hne : exists numEmptyCases, readAt lsBytes (reader s + 24) 4 = Some numEmptyCases).
  { apply readAt_bounds in Hw, Hrcb. apply readAt_inside; cbn in *; lia. }
  destruct Hne as (numEmptyCases & Hne). exec.
  revert Htag. cases.
  all: intros Htag; try discriminate; inversion Htag; subst; clear Htag.
  all: split;
    [intros Hne'
    | intros Hz0 (x' & Hx' & Hxi) (w'' & ps & Hw'' & Hps' & Hclear & _)].
  all: try reflexivity; try (exfalso; apply Hne'; reflexivity).
  all: exfalso; same_reads; bool_hyps; try lia; try congruence.
  all: try (destruct Hclear as [Hc|Hc]; [congruence | rewrite Hc in *; congruence]).
Qed.

(** How every single-payload destroy handler dispatches on the tag of the
    value under the cursor: a non-zero tag takes the empty path; a tag of 0
    takes the payload path when the instruction has an XI field and the tag
    is not the product of wrap-around. *)
Lemma single_payload_dispatch (k : SinglePayloadFamily) metadata addr s tag s1
  refCountBytes skip_ :
  extractedTag k (addr + addrOffset s) s = Some (tag, s1) ->
  readAt lsBytes (reader s + refCountBytesAt k) 8 = Some refCountBytes ->
  readAt lsBytes (reader s + skipAt k) 8 = Some skip_ ->
  (tag <> 0 -> singlePayloadDestroyHandler k metadata addr s
               = emptyPath k refCountBytes skip_ s)
  /\ (tag = 0 -> hasXIField k s -> tagNotWrapped k (addr + addrOffset s) s ->
      singlePayloadDestroyHandler k metadata addr s = payloadPath k s).
Proof.
  intros Htag Hrcb Hskip. destruct k; cbn [singlePayloadDestroyHandler].
  - apply (simple_paths _ _ _ _ _ _ _ Htag Hrcb Hskip).
  - destruct (fn_paths metadata _ _ _ _ _ _ Htag Hrcb Hskip) as [H1 H2]. split; auto.
  - destruct (fnResolved_paths metadata _ _ _ _ _ _ Htag Hrcb Hskip) as [H1 H2]. split; auto.
  - apply (generic_paths _ _ _ _ _ _ _ Htag Hrcb Hskip).
Qed.

End SinglePayloadPaths.

(** [Optional] of a strong reference whose payload has no extra inhabitants:
    a [SinglePayloadEnumSimple] with one extra tag byte and no XI field
    ([payloadSize = 8], [refCountBytes = 8], [skip = 8]) around
    [(NativeStrong, 0)], then [(End, 8)]. *)
Definition optionalOfStrongWithoutXI : list Z :=
  exampleHeader ++ instr 16 0
    ++ encodeLE 8 (Z.shiftl 1 62) ++ encodeLE 8 8 ++ encodeLE 8 0 ++ encodeLE 8 0
    ++ encodeLE 8 8 ++ encodeLE 8 8
    ++ instr 2 0 ++ instr 0 8.

(** C7 (the code at the failing input). The value at 1000 is in the payload
    case: its extra tag byte is 0 and its tag, as [swift_enumSimple_getEnumTag]
    and [extractedTag] compute it, is 0. The destroy handler of the
    instruction nevertheless takes the empty path (reader behind the
    sub-stream at 80 instead of on it at 72, cursor moved by [skip]), so
    that destroy and copy-initialise make no runtime call for the payload;
    the copy-assign handler takes the payload path on the same value. *)
Theorem simple_enum_without_XI_field_skips_payload :
  let RT := exampleRuntime optionalOfStrongWithoutXI false in
  let ls := @getLayoutString RT 0 in
  let w := emptyWorld (wordAt 1000 0x7001) in
  swift_enumSimple_getEnumTag 1000 0 (mem w) = Some 0
  /\ option_map fst (extractedTag SimpleFamily 1000 (tagReader w)) = Some 0
  /\ option_map (fun r => (reader (snd r), addrOffset (snd r)))
       (singlePayloadDestroyHandler SimpleFamily 0 1000 (tagReader w)) = Some (80, 8)
  /\ option_map (fun r => (reader (snd r), addrOffset (snd r)))
       (payloadPath SimpleFamily (tagReader w)) = Some (72, 0)
  /\ outcome (swift_generic_destroy 5 1000 0 w) = Some (16, [])
  /\ outcome (swift_generic_initWithCopy 5 2000 1000 0 w) = Some (16, [])
  /\ outcome (swift_generic_assignWithCopy 5 2000 1000 0 w)
     = Some (16, [swift_retain 0x7001; swift_release 0]).
Proof. cbv zeta. repeat split; vm_compute; reflexivity. Qed.
(** ** The cursor behind an enum handler *)

(** The three families of multi-payload instructions. *)
Inductive MultiPayloadFamily : Type := FNPayloads | FNResolvedPayloads | GenericPayloads.

Section EnumCursor.

Context {RT : Runtime} {ls : LayoutString}.

Definition multiPayloadHandler1 (k : MultiPayloadFamily) (HandlerFn : DestrFnBranchless)
  : DestrFnBranchless :=
  match k with
  | FNPayloads => multiPayloadEnumFNBranchless1 HandlerFn
  | FNResolvedPayloads => multiPayloadEnumFNResolvedBranchless1 HandlerFn
  | GenericPayloads => multiPayloadEnumGenericBranchless1 HandlerFn
  end.

Definition multiPayloadHandler2 (k : MultiPayloadFamily) (HandlerFn : InitFn) : InitFn :=
  match k with
  | FNPayloads => multiPayloadEnumFNBranchless2 HandlerFn
  | FNResolvedPayloads => multiPayloadEnumFNResolvedBranchless2 HandlerFn
  | GenericPayloads => multiPayloadEnumGenericBranchless2 HandlerFn
  end.

Definition multiPayloadAssignHandler (k : MultiPayloadFamily) (fuel : nat) : InitFn :=
  match k with
  | FNPayloads => multiPayloadEnumFNAssignWithCopy fuel
  | FNResolvedPayloads => multiPayloadEnumFNResolvedAssignWithCopy fuel
  | GenericPayloads => multiPayloadEnumGenericAssignWithCopy fuel
  end.

Definition singlePayloadHandler2 (k : SinglePayloadFamily) : InitFn :=
  match k with
  | SimpleFamily => singlePayloadEnumSimpleBranchless2
  | FNFamily => singlePayloadEnumFNBranchless2
  | FNResolvedFamily => singlePayloadEnumFNResolvedBranchless2
  | GenericFamily => singlePayloadEnumGenericBranchless2
  end.

(** Behind a multi-payload handler: the cursor is [enumSize] past the start
    of the enum, the reader behind the payload table and the sub-streams. *)
Definition behindMultiPayload (s s' : State) : Prop :=
  exists numPayloads refCountBytes enumSize,
    readAt lsBytes (reader s + 8) 8 = Some numPayloads
    /\ readAt lsBytes (reader s + 16) 8 = Some refCountBytes
    /\ readAt lsBytes (reader s + 24) 8 = Some enumSize
    /\ addrOffset s' = u64 (addrOffset s + enumSize)
    /\ reader s' = reader s + 32 + u64 (refCountBytes + u64 (numPayloads * 8)).

(** Behind a single-payload handler: either on the nested sub-stream with
    the cursor where it was, or behind the sub-stream with the cursor moved
    by [skip]. *)
Definition behindSinglePayload (k : SinglePayloadFamily) (s s' : State) : Prop :=
  (reader s' = reader s + headerBytes k /\ addrOffset s' = addrOffset s)
  \/ (exists refCountBytes skip_,
        readAt lsBytes (reader s + refCountBytesAt k) 8 = Some refCountBytes
        /\ readAt lsBytes (reader s + skipAt k) 8 = Some skip_
        /\ reader s' = reader s + headerBytes k + refCountBytes
        /\ addrOffset s' = u64 (addrOffset s + skip_)).

Ltac read_next H :=
  match type of H with
  | context [readAt ?b ?p ?n] =>
      let v := fresh "v" in let E := fresh "Hread" in
      destruct (readAt b p n) as [v|] eqn:E; [|discriminate]; exec
  end.

Lemma dispatch1_cursor HandlerFn metadata addr enumTag numPayloads enumSize nr no s s' :
  multiPayloadDispatch1 HandlerFn metadata addr enumTag numPayloads enumSize nr no s
    = Some (tt, s') ->
  addrOffset s' = u64 (addrOffset s + enumSize) /\ reader s' = reader s.
Proof.
  unfold multiPayloadDispatch1, withNested. intros H. exec.
  destruct (enumTag <? numPayloads); exec.
  - destruct (readAt lsBytes _ 8) as [o|]; [|discriminate]. exec.
    destruct (HandlerFn _ _ _) as [[u s2]|]; [|discriminate]. exec.
    inversion H; subst s'. split; reflexivity.
  - inversion H; subst s'. split; reflexivity.
Qed.

Lemma multiPayload1_cursor k HandlerFn metadata addr s s' :
  multiPayloadHandler1 k HandlerFn metadata addr s = Some (tt, s') ->
  behindMultiPayload s s'.
Proof.
  intros H. unfold behindMultiPayload.
  destruct k; cbn [multiPayloadHandler1] in H;
    unfold multiPayloadEnumFNBranchless1, multiPayloadEnumFNResolvedBranchless1,
      multiPayloadEnumGenericBranchless1 in H; exec.
  all: read_next H; read_next H; read_next H; read_next H.
  all: try (destruct (readTagBytes _ _ _) as [t|]; [|discriminate]; exec).
  all: apply dispatch1_cursor in H; cbn [reader addrOffset] in H; destruct H as [Ho Hr].
  all: do 3 eexists; repeat split; eassumption.
Qed.

Lemma nested_cursor_restored (f : M unit) nr no s a s' :
  withNested nr no f s = Some (a, s') ->
  addrOffset s' = addrOffset s /\ reader s' = reader s.
Proof.
  unfold withNested. destruct (f _) as [[u s2]|]; [|discriminate].
  intros H. inversion H. split; reflexivity.
Qed.

Lemma dispatch2_cursor HandlerFn metadata dest src enumTag numPayloads enumSize nr no s s' :
  multiPayloadDispatch2 HandlerFn metadata dest src enumTag numPayloads enumSize nr no s
    = Some (tt, s') ->
  addrOffset s' = u64 (addrOffset s + enumSize) /\ reader s' = reader s.
Proof.
  unfold multiPayloadDispatch2, withNested. intros H. exec.
  destruct (enumTag <? numPayloads); exec.
  - destruct (readAt lsBytes _ 8) as [o|]; [|discriminate]. exec.
    destruct (HandlerFn _ _ _ _) as [[u s2]|]; [|discriminate]. exec.
    destruct (_ =? 0); exec; inversion H; subst s'; split; reflexivity.
  - inversion H; subst s'. split; reflexivity.
Qed.

Lemma multiPayload2_cursor k HandlerFn metadata dest src s s' :
  multiPayloadHandler2 k HandlerFn metadata dest src s = Some (tt, s') ->
  behindMultiPayload s s'.
Proof.
  intros H. unfold behindMultiPayload.
  destruct k; cbn [multiPayloadHandler2] in H;
    unfold multiPayloadEnumFNBranchless2, multiPayloadEnumFNResolvedBranchless2,
      multiPayloadEnumGenericBranchless2 in H; exec.
  all: read_next H; read_next H; read_next H; read_next H.
  all: try (destruct (readTagBytes _ _ _) as [t|]; [|discriminate]; exec).
  all: apply dispatch2_cursor in H; cbn [reader addrOffset] in H; destruct H as [Ho Hr].
  all: do 3 eexists; repeat split; eassumption.
Qed.

Lemma dispatchAssign_cursor fuel metadata dest src srcTag destTag numPayloads enumSize
  nr no s s' :
  multiPayloadAssignDispatch fuel metadata dest src srcTag destTag numPayloads enumSize
    nr no s = Some (tt, s') ->
  addrOffset s' = u64 (addrOffset s + enumSize) /\ reader s' = reader s.
Proof.
  unfold multiPayloadAssignDispatch. intros H.
  destruct ((srcTag <? numPayloads) && (destTag <? numPayloads));
    [|destruct (srcTag <? numPayloads); [|destruct (destTag <? numPayloads)]].
  all: repeat match type of H with
         | bind ?c ?f ?s0 = _ =>
             let E := fresh "E" in
             apply bind_Some in H; destruct H as (? & ? & E & H)
         end.
  all: repeat first
         [ match goal with
           | E : withNested _ _ _ _ = Some _ |- _ =>
               apply nested_cursor_restored in E; destruct E
           | E : context [match ?x with Some _ => _ | None => _ end] |- _ =>
               no_match x;
               first [ destruct x as [[? ?]|] eqn:? | destruct x as [?|] eqn:? ];
               [|discriminate]
           | E : Some _ = Some _ |- _ => inversion E; subst; clear E
           | E : (if ?c then _ else _) _ = Some _ |- _ => destruct c
           end
         | progress exec ].
  all: cbn [reader addrOffset] in *; split; congruence.
Qed.

Lemma multiPayloadAssign_cursor k fuel metadata dest src s s' :
  multiPayloadAssignHandler k fuel metadata dest src s = Some (tt, s') ->
  behindMultiPayload s s'.
Proof.
  intros H. unfold behindMultiPayload.
  destruct k; cbn [multiPayloadAssignHandler] in H;
    unfold multiPayloadEnumFNAssignWithCopy, multiPayloadEnumFNResolvedAssignWithCopy,
      multiPayloadEnumGenericAssignWithCopy in H; exec.
  all: read_next H; read_next H; read_next H; read_next H.
  all: repeat (destruct (readTagBytes _ _ _) as [?t|]; [|discriminate]; exec).
  all: apply dispatchAssign_cursor in H; cbn [reader addrOffset] in H; destruct H as [Ho Hr].
  all: do 3 eexists; repeat split; eassumption.
Qed.

Lemma singlePayload1_cursor k metadata addr s s' :
  singlePayloadDestroyHandler k metadata addr s = Some (tt, s') ->
  behindSinglePayload k s s'.
Proof.
  intros H. unfold behindSinglePayload.
  destruct k; cbn [singlePayloadDestroyHandler headerBytes refCountBytesAt skipAt] in *;
    unfold singlePayloadEnumSimpleBranchless1, singlePayloadEnumFNBranchless1,
      singlePayloadEnumFNResolvedBranchless1, singlePayloadEnumGenericBranchless1 in H;
    exec.
  all: repeat first
         [ match goal with
           | E : context [match ?x with Some _ => _ | None => _ end] |- _ =>
               no_match x; destruct x as [?v|] eqn:?; [|discriminate]
           | E : context [if ?c then _ else _] |- _ => no_match c; destruct c eqn:?
           | E : Some _ = Some _ |- _ => inversion E; subst; clear E
           end
         | progress exec ].
  all: first [ left; split; reflexivity
             | right; do 2 eexists; repeat split; use_reads; reflexivity ].
Qed.

Lemma singlePayload2_cursor k metadata dest src s s' :
  singlePayloadHandler2 k metadata dest src s = Some (tt, s') ->
  behindSinglePayload k s s'.
Proof.
  intros H. unfold behindSinglePayload.
  destruct k; cbn [singlePayloadHandler2 headerBytes refCountBytesAt skipAt] in *;
    unfold singlePayloadEnumSimpleBranchless2, singlePayloadEnumFNBranchless2,
      singlePayloadEnumFNResolvedBranchless2, singlePayloadEnumGenericBranchless2 in H;
    exec.
  all: repeat first
         [ match goal with
           | E : context [match ?x with Some _ => _ | None => _ end] |- _ =>
               no_match x; destruct x as [?v|] eqn:?; [|discriminate]
           | E : context [if ?c then _ else _] |- _ => no_match c; destruct c eqn:?
           | E : Some _ = Some _ |- _ => inversion E; subst; clear E
           end
         | progress exec ].
  all: first [ left; split; reflexivity
             | right; do 2 eexists; repeat split; use_reads; reflexivity ].
Qed.

End EnumCursor.

Section EnumCursorTheorem.

Context {RT : Runtime} {ls : LayoutString}.

(** C8, as amended. Every multi-payload handler (destroy, copy- and
    take-initialise with any driver on the payload, copy-assign), when it
    returns, has moved the cursor by exactly the [enumSize] of its header,
    whatever the tag, and stands behind its sub-streams. A single-payload
    handler (destroy, copy- and take-initialise) has no [enumSize]: it
    returns either on the nested sub-stream with the cursor at the start of
    the enum, or behind the sub-stream with the cursor moved by [skip]. *)
Theorem enum_handler_cursor :
  forall (s s' : State),
    (forall k HandlerFn metadata addr,
        multiPayloadHandler1 k HandlerFn metadata addr s = Some (tt, s') ->
        behindMultiPayload s s')
    /\ (forall k HandlerFn metadata dest src,
           multiPayloadHandler2 k HandlerFn metadata dest src s = Some (tt, s') ->
           behindMultiPayload s s')
    /\ (forall k fuel metadata dest src,
           multiPayloadAssignHandler k fuel metadata dest src s = Some (tt, s') ->
           behindMultiPayload s s')
    /\ (forall k metadata addr,
           singlePayloadDestroyHandler k metadata addr s = Some (tt, s') ->
           behindSinglePayload k s s')
    /\ (forall k metadata dest src,
           singlePayloadHandler2 k metadata dest src s = Some (tt, s') ->
           behindSinglePayload k s s').
Proof.
  intros s s'. repeat apply conj; intros.
  - eapply multiPayload1_cursor; eassumption.
  - eapply multiPayload2_cursor; eassumption.
  - eapply multiPayloadAssign_cursor; eassumption.
  - eapply singlePayload1_cursor; eassumption.
  - eapply singlePayload2_cursor; eassumption.
Qed.

End EnumCursorTheorem.

(** A multi-payload enum of 9 bytes in a 16-byte value: [tagBytes = 1],
    [numPayloads = 2], [refCountBytes = 32], [enumSize = 9]; payload 0 is
    [(NativeStrong, 0) (End, 0)], payload 1 is [(Weak, 0) (End, 0)]; then
    [(End, 7)]. *)
Definition twoPayloads : list Z :=
  exampleHeader ++ instr 22 0
    ++ encodeLE 8 1 ++ encodeLE 8 2 ++ encodeLE 8 32 ++ encodeLE 8 9
    ++ encodeLE 8 0 ++ encodeLE 8 16
    ++ instr 2 0 ++ instr 0 0
    ++ instr 4 0 ++ instr 0 0
    ++ instr 0 7.

Example destroy_twoPayloads :
  outcome (swift_generic_destroy (RT := exampleRuntime twoPayloads false)
             3 1000 0 (emptyWorld (wordAt 1000 0x7001)))
  = Some (16, [swift_release 0x7001]).
Proof. vm_compute. reflexivity. Qed.

Lemma enum_handler_cursor_witness :
  let RT := exampleRuntime twoPayloads false in
  let ls := @getLayoutString RT 0 in
  let s := tagReader (emptyWorld (wordAt 1000 0x7001)) in
  exists s',
    multiPayloadHandler1 GenericPayloads (handleRefCountsDestroy 2) 0 1000 s = Some (tt, s')
    /\ behindMultiPayload s s'.
Proof.
  cbv zeta.
  destruct (multiPayloadHandler1 (RT := exampleRuntime twoPayloads false)
              (ls := @getLayoutString (exampleRuntime twoPayloads false) 0)
              GenericPayloads
              (handleRefCountsDestroy (RT := exampleRuntime twoPayloads false)
                 (ls := @getLayoutString (exampleRuntime twoPayloads false) 0) 2)
              0 1000 (@tagReader (exampleRuntime twoPayloads false)
                        (emptyWorld (wordAt 1000 0x7001))))
    as [[[] s']|] eqn:E.
  - exists s'. split; [reflexivity|].
    exact (proj1 (enum_handler_cursor
                    (RT := exampleRuntime twoPayloads false)
                    (ls := @getLayoutString (exampleRuntime twoPayloads false) 0)
                    _ s') GenericPayloads _ 0 1000 E).
  - exfalso.
    apply (f_equal (option_map (fun r : unit * State => addrOffset (snd r)))) in E.
    vm_compute in E. discriminate.
Defined.

(** [Optional] of a strong reference, the null pointer being the empty case:
    a [SinglePayloadEnumSimple] with an 8-byte XI field at offset 0
    ([payloadSize = 8], [zeroTagValue = 0], [xiTagValues = 1],
    [refCountBytes = 8], [skip = 8]) around [(NativeStrong, 0)], then
    [(End, 0)]. *)
Definition optionalOfStrong : list Z :=
  exampleHeader ++ instr 16 0
    ++ encodeLE 8 (Z.shiftl 4 59) ++ encodeLE 8 8 ++ encodeLE 8 0 ++ encodeLE 8 1
    ++ encodeLE 8 8 ++ encodeLE 8 8
    ++ instr 2 0 ++ instr 0 0.

(** C8 (counterexample). The simple single-payload handler of an optional
    reference returns with the cursor at the start of the enum when the
    value holds a reference and 8 bytes past it when the value is empty: no
    [enumSize] is the advance on both paths. *)
Lemma single_payload_handler_cursor_depends_on_path :
  let RT := exampleRuntime optionalOfStrong false in
  let ls := @getLayoutString RT 0 in
  let cursorBehind (value : Z) :=
    option_map (fun r : unit * State => addrOffset (snd r))
      (singlePayloadDestroyHandler SimpleFamily 0 1000
         (tagReader (emptyWorld (wordAt 1000 value)))) in
  cursorBehind 0x7001 = Some 0
  /\ cursorBehind 0 = Some 8
  /\ ~ (exists enumSize,
          cursorBehind 0x7001 = Some (u64 (0 + enumSize))
          /\ cursorBehind 0 = Some (u64 (0 + enumSize))).
Proof.
  cbv zeta.
  assert (H1 : option_map (fun r : unit * State => addrOffset (snd r))
                 (singlePayloadDestroyHandler (RT := exampleRuntime optionalOfStrong false)
                    (ls := @getLayoutString (exampleRuntime optionalOfStrong false) 0)
                    SimpleFamily 0 1000
                    (@tagReader (exampleRuntime optionalOfStrong false)
                       (emptyWorld (wordAt 1000 0x7001)))) = Some 0)
    by (vm_compute; reflexivity).
  assert (H2 : option_map (fun r : unit * State => addrOffset (snd r))
                 (singlePayloadDestroyHandler (RT := exampleRuntime optionalOfStrong false)
                    (ls := @getLayoutString (exampleRuntime optionalOfStrong false) 0)
                    SimpleFamily 0 1000
                    (@tagReader (exampleRuntime optionalOfStrong false)
                       (emptyWorld (wordAt 1000 0)))) = Some 8)
    by (vm_compute; reflexivity).
  split; [exact H1 | split; [exact H2 |]].
  intros (enumSize & E1 & E2). rewrite H1 in E1. rewrite H2 in E2. congruence.
Qed.
(** ** Resolution is idempotent *)

(** Storage [L] overwritten with [c] on the addresses [P] selects. *)
Definition patch (P : Z -> bool) (c L : Memory) : Memory :=
  fun a => if P a then c a else L a.

(** A pass over storage whose outcome is the same overwrite on every
    storage, or a failure on every storage. *)
Definition uniform (f : Memory -> option Memory) : Prop :=
  (forall L, f L = None) \/ exists P c, forall L, f L = Some (patch P c L).

Definition uniformWithOffset (f : Memory -> option (Z * Memory)) : Prop :=
  (forall L, f L = None) \/ exists o P c, forall L, f L = Some (o, patch P c L).

Lemma patch_patch P1 c1 P2 c2 L :
  patch P2 c2 (patch P1 c1 L) = patch (fun a => P2 a || P1 a) (patch P2 c2 c1) L.
Proof.
  apply functional_extensionality. intros a. unfold patch.
  destruct (P2 a), (P1 a); reflexivity.
Qed.

Lemma patch_idempotent P c L : patch P c (patch P c L) = patch P c L.
Proof.
  apply functional_extensionality. intros a. unfold patch. destruct (P a); reflexivity.
Qed.

Lemma storeLE_outside m a n v x :
  x < a \/ a + Z.of_nat n <= x -> storeLE m a n v x = m x.
Proof.
  revert m a v. induction n as [|n IH]; intros m a v Hx; cbn [storeLE]; [reflexivity|].
  rewrite IH by lia. unfold update.
  destruct (x =? a) eqn:E; [apply Z.eqb_eq in E; lia | reflexivity].
Qed.

Lemma storeLE_inside m m' a n v x :
  a <= x < a + Z.of_nat n -> storeLE m a n v x = storeLE m' a n v x.
Proof.
  revert m m' a v. induction n as [|n IH]; intros m m' a v Hx; cbn [storeLE]; [lia|].
  destruct (Z.eq_dec x a) as [->|Hne].
  - rewrite !storeLE_outside by lia. unfold update. rewrite Z.eqb_refl. reflexivity.
  - apply IH. lia.
Qed.

Lemma storeLE_patch m a n v :
  storeLE m a n v
  = patch (fun x => (a <=? x) && (x <? a + Z.of_nat n)) (storeLE (fun _ => 0) a n v) m.
Proof.
  apply functional_extensionality. intros x. unfold patch.
  destruct (a <=? x) eqn:E1; cbn [andb].
  - destruct (x <? a + Z.of_nat n) eqn:E2.
    + apply storeLE_inside. apply Z.leb_le in E1. apply Z.ltb_lt in E2. lia.
    + apply storeLE_outside. apply Z.ltb_ge in E2. lia.
  - apply storeLE_outside. apply Z.leb_gt in E1. lia.
Qed.

Lemma uniform_id : uniform (fun L => Some L).
Proof.
  right. exists (fun _ => false), (fun _ => 0). intros L. reflexivity.
Qed.

Lemma uniform_none : uniform (fun _ => None).
Proof. left. reflexivity. Qed.

Lemma uniform_after_store (f : Memory -> option Memory) a n v :
  uniform f -> uniform (fun L => f (storeLE L a n v)).
Proof.
  intros [Hf|(P & c & Hf)]; [left; intros L; apply Hf|].
  right. eexists _, _. intros L. rewrite Hf, storeLE_patch, patch_patch. reflexivity.
Qed.

Lemma uniform_compose (f g : Memory -> option Memory) :
  uniform f -> uniform g ->
  uniform (fun L => match f L with Some L' => g L' | None => None end).
Proof.
  intros [Hf|(P & c & Hf)] Hg.
  - left. intros L. rewrite Hf. reflexivity.
  - destruct Hg as [Hg|(P' & c' & Hg)].
    + left. intros L. rewrite Hf. apply Hg.
    + right. eexists _, _. intros L. rewrite Hf, Hg, patch_patch. reflexivity.
Qed.

Lemma uniform_compose_offset (f : Memory -> option (Z * Memory))
  (g : Z -> Memory -> option Memory) :
  uniformWithOffset f -> (forall o, uniform (g o)) ->
  uniform (fun L => match f L with Some (o, L') => g o L' | None => None end).
Proof.
  intros [Hf|(o & P & c & Hf)] Hg.
  - left. intros L. rewrite Hf. reflexivity.
  - destruct (Hg o) as [Hg'|(P' & c' & Hg')].
    + left. intros L. rewrite Hf. apply Hg'.
    + right. eexists _, _. intros L. rewrite Hf, Hg', patch_patch. reflexivity.
Qed.

Lemma uniform_idempotent (f : Memory -> option Memory) L L1 :
  uniform f -> f L = Some L1 -> f L1 = Some L1.
Proof.
  intros [Hf|(P & c & Hf)] E.
  - rewrite Hf in E. discriminate.
  - rewrite Hf in E. inversion E; subst L1. rewrite Hf, patch_idempotent. reflexivity.
Qed.

Section ResolveIdempotent.

Context {RT : Runtime}.
Variable field : LayoutString.

Lemma uniform_resolveCases (resolve : Memory -> Z -> Z -> option Memory) n :
  (forall o f, uniform (fun L => resolve L o f)) ->
  forall fieldLayoutStr offset casesBeginOffset fieldCasesBeginOffset,
    uniformWithOffset (fun L => resolveCases field resolve n fieldLayoutStr offset
                                  casesBeginOffset fieldCasesBeginOffset L).
Proof.
  intros Hres. induction n as [|n IH]; intros fl off cb fcb; cbn [resolveCases].
  - right. exists off, (fun _ => false), (fun _ => 0). intros L. reflexivity.
  - destruct (fieldRead field fl off 8) as [caseOffset|]; [|left; reflexivity].
    destruct (Hres (u64 (cb + caseOffset)) (fcb + caseOffset)) as [Hr|(P & c & Hr)].
    + left. intros L. rewrite Hr. reflexivity.
    + destruct (IH fl (off + 8) cb fcb) as [Hi|(o & P' & c' & Hi)].
      * left. intros L. rewrite Hr. apply Hi.
      * right. eexists o, _, _. intros L. rewrite Hr, Hi, patch_patch. reflexivity.
Qed.

Lemma uniform_resolveLoop fuel :
  forall layoutStrOffset fieldLayoutStr fieldType offset,
    uniform (fun L => resolveLoop field fuel L layoutStrOffset fieldLayoutStr fieldType offset).
Proof.
  induction fuel as [|fuel IH]; intros lo fl ty off; cbn [resolveLoop].
  - apply uniform_none.
  - destruct (fieldRead field fl off 8) as [word|]; [|apply uniform_none].
    assert (Hcases : forall n fl' off' cb fcb,
               uniformWithOffset
                 (fun L => resolveCases field
                             (fun (l : Memory) (o f : Z) => resolveLoop field fuel l o f ty 0)
                             n fl' off' cb fcb L)).
    { intros n. apply uniform_resolveCases. intros o f. apply IH. }
    repeat match goal with
           | |- uniform (fun L => match ?x with _ => _ end) => destruct x
           end.
    all: try apply uniform_id; try apply uniform_none; try apply IH.
    all: try (unfold writeTwoWords;
              apply (uniform_after_store
                       (fun L' => resolveLoop field fuel (storeLE L' _ 8 _) _ _ _ _));
              apply (uniform_after_store (fun L' => resolveLoop field fuel L' _ _ _ _));
              apply IH).
    unfold writeTwoWords.
    apply (uniform_after_store
             (fun L' => match resolveCases field _ _ _ _ _ _ (storeLE L' _ 8 _) with
                        | Some (offset, layoutStr) => resolveLoop field fuel layoutStr _ _ _ _
                        | None => None
                        end)).
    apply (uniform_after_store
             (fun L' => match resolveCases field _ _ _ _ _ _ L' with
                        | Some (offset, layoutStr) => resolveLoop field fuel layoutStr _ _ _ _
                        | None => None
                        end)).
    apply (uniform_compose_offset
             (fun L' => resolveCases field _ _ _ _ _ _ L')
             (fun offset layoutStr => resolveLoop field fuel layoutStr _ _ _ _)).
    + apply Hcases.
    + intros o. apply IH.
Qed.

(** C9. [swift_resolve_resilientAccessors] is idempotent: when a run of the
    pass over a field layout string returns [layoutStr'], the same pass run
    again on [layoutStr'] returns, and returns [layoutStr'] byte for byte.
    The nested runs on the payload sub-streams of a [MultiPayloadEnumFN] are
    part of the pass. *)
Theorem resolve_resilientAccessors_idempotent :
  forall (fuel : nat) (layoutStr layoutStr' : Memory)
         (layoutStrOffset fieldLayoutStr fieldType : Z),
    swift_resolve_resilientAccessors field fuel layoutStr layoutStrOffset
      fieldLayoutStr fieldType = Some layoutStr' ->
    swift_resolve_resilientAccessors field fuel layoutStr' layoutStrOffset
      fieldLayoutStr fieldType = Some layoutStr'.
Proof.
  intros fuel L L1 lo fl ty E. unfold swift_resolve_resilientAccessors in *.
  exact (uniform_idempotent _ L L1 (uniform_resolveLoop fuel lo fl ty 0) E).
Qed.

End ResolveIdempotent.

(** The reference-counting part of a field's layout string, loaded at 4096:
    a [Resilient] instruction, then a [MultiPayloadEnumFN] of one case whose
    sub-stream is a [SinglePayloadEnumFN] without nested instructions, then
    [End]. The three relative pointers are 0x100, 0x200 and 0x300. *)
Definition resilientField : LayoutString := {|
  lsBase := 4096;
  lsBytes :=
    instr 15 0 ++ encodeLE 8 0x100
    ++ instr 20 0 ++ encodeLE 8 0x200 ++ encodeLE 8 1 ++ encodeLE 8 40 ++ encodeLE 8 16
    ++ encodeLE 8 0
    ++ instr 17 0 ++ encodeLE 8 0x300 ++ encodeLE 8 0 ++ encodeLE 8 8
    ++ instr 0 0
    ++ instr 0 0
|}.

(** Storage holding the bytes [bs] from address [a] on. *)
Definition bytesAt (a : Z) (bs : list Z) : Memory :=
  fun x => if (a <=? x) && (x <? a + Z.of_nat (length bs))
           then nth (Z.to_nat (x - a)) bs 0 else 0.

(** The copy of [resilientField] at offset 16 of the layout string being
    built, before and after the pass: the three instructions are rewritten
    to [Metatype], [MultiPayloadEnumFNResolved] and
    [SinglePayloadEnumFNResolved] with the absolute pointers. *)
Example resolve_resilientField :
  option_map (fun L => map (fun a => loadLE L a 8) [16; 24; 32; 40; 80; 88])
    (swift_resolve_resilientAccessors (RT := exampleRuntime [] false) resilientField
       4 (bytesAt 16 (@lsBytes resilientField)) 16 0 0)
  = Some [Z.shiftl 12 56; 4096 + 8 + 0x100;
          Z.shiftl 21 56; 4096 + 24 + 0x200;
          Z.shiftl 18 56; 4096 + 72 + 0x300].
Proof. vm_compute. reflexivity. Qed.

Lemma resolve_resilientAccessors_idempotent_witness :
  exists layoutStr',
    swift_resolve_resilientAccessors (RT := exampleRuntime [] false) resilientField
      4 (bytesAt 16 (@lsBytes resilientField)) 16 0 0 = Some layoutStr'
    /\ swift_resolve_resilientAccessors (RT := exampleRuntime [] false) resilientField
         4 layoutStr' 16 0 0 = Some layoutStr'.
Proof.
  destruct (swift_resolve_resilientAccessors (RT := exampleRuntime [] false) resilientField
              4 (bytesAt 16 (@lsBytes resilientField)) 16 0 0) as [L'|] eqn:E.
  - exists L'. split; [reflexivity|].
    exact (resolve_resilientAccessors_idempotent (RT := exampleRuntime [] false)
             resilientField 4%nat _ L' 16 0 0 E).
  - exfalso. apply (f_equal (option_map (fun L : Memory => L 0))) in E.
    vm_compute in E. discriminate.
Defined.
(** ** Loads and stores *)

Lemma loadLE_range m a n : 0 <= loadLE m a n < 256 ^ Z.of_nat n.
Proof.
  revert a. induction n as [|n IH]; intros a; cbn [loadLE].
  - cbn. lia.
  - rewrite Nat2Z.inj_succ, Z.pow_succ_r by lia.
    specialize (IH (a + 1)).
    assert (0 <= u8 (m a) < 256) by (unfold u8, wrap; apply Z.mod_pos_bound; lia).
    lia.
Qed.

Lemma loadLE_ext m m' a n :
  (forall x, a <= x < a + Z.of_nat n -> m x = m' x) -> loadLE m a n = loadLE m' a n.
Proof.
  revert a. induction n as [|n IH]; intros a H; cbn [loadLE]; [reflexivity|].
  rewrite (H a) by lia. rewrite (IH (a + 1)); [reflexivity|].
  intros x Hx. apply H. lia.
Qed.

Lemma loadLE_app m a n k :
  loadLE m a (n + k) = loadLE m a n + 256 ^ Z.of_nat n * loadLE m (a + Z.of_nat n) k.
Proof.
  revert a. induction n as [|n IH]; intros a.
  - cbn [loadLE Nat.add]. change (Z.of_nat 0) with 0. rewrite Z.add_0_r.
    change (256 ^ 0) with 1. lia.
  - cbn [loadLE Nat.add]. rewrite IH, Nat2Z.inj_succ, Z.pow_succ_r by lia.
    replace (a + 1 + Z.of_nat n) with (a + Z.succ (Z.of_nat n)) by lia. lia.
Qed.

Lemma loadLE_storeLE m a n v : loadLE (storeLE m a n v) a n = v mod 256 ^ Z.of_nat n.
Proof.
  revert m a v. induction n as [|n IH]; intros m a v; cbn [loadLE storeLE].
  - cbn. rewrite Z.mod_1_r. reflexivity.
  - rewrite IH, storeLE_outside by lia.
    unfold update. rewrite Z.eqb_refl, u8_u8.
    rewrite Nat2Z.inj_succ, Z.pow_succ_r by lia.
    unfold u8, wrap. change (2 ^ 8) with 256.
    rewrite (Z.rem_mul_r v 256 (256 ^ Z.of_nat n)) by lia. reflexivity.
Qed.

Lemma fillZero_outside m a n x :
  x < a \/ a + Z.of_nat n <= x -> fillZero m a n x = m x.
Proof.
  revert m a. induction n as [|n IH]; intros m a Hx; cbn [fillZero]; [reflexivity|].
  rewrite IH by lia. unfold update.
  destruct (x =? a) eqn:E; [apply Z.eqb_eq in E; lia | reflexivity].
Qed.

Lemma fillZero_inside m a n x :
  a <= x < a + Z.of_nat n -> fillZero m a n x = 0.
Proof.
  revert m a. induction n as [|n IH]; intros m a Hx; cbn [fillZero]; [lia|].
  destruct (Z.eq_dec x a) as [->|Hne].
  - rewrite fillZero_outside by lia. unfold update. rewrite Z.eqb_refl. reflexivity.
  - apply IH. lia.
Qed.

Lemma loadLE_zero m a n :
  (forall x, a <= x < a + Z.of_nat n -> m x = 0) -> loadLE m a n = 0.
Proof.
  revert a. induction n as [|n IH]; intros a H; cbn [loadLE]; [reflexivity|].
  rewrite (H a) by lia. rewrite IH; [reflexivity|]. intros x Hx. apply H. lia.
Qed.

(** [storeEnumElement] leaves the bytes outside [dst, dst + size) alone. *)
Lemma storeEnumElement_outside m dst value size x :
  0 <= size -> x < dst \/ dst + size <= x -> storeEnumElement m dst value size x = m x.
Proof.
  intros Hs Hx. unfold storeEnumElement.
  rewrite fillZero_outside by lia. apply storeLE_outside. lia.
Qed.

(** What [loadEnumElement] reads back behind a [storeEnumElement] of the
    same size. *)
Lemma loadEnumElement_storeEnumElement m a value size :
  0 <= size ->
  loadEnumElement (storeEnumElement m a value size) a size
  = u32 value mod 256 ^ (Z.min size 4).
Proof.
  intros Hs. unfold loadEnumElement, storeEnumElement.
  rewrite (loadLE_ext _ (storeLE m a (Z.to_nat (Z.min size 4)) (u32 value))).
  - rewrite loadLE_storeLE. rewrite Z2Nat.id by lia. reflexivity.
  - intros x Hx. apply fillZero_outside. lia.
Qed.

(** A tag field of 1, 2, 4 or 8 bytes written by [storeEnumElement] and read
    back by [readTagBytes]. *)
Lemma readTagBytes_storeEnumElement m a value n :
  n = 1 \/ n = 2 \/ n = 4 \/ n = 8 ->
  readTagBytes (storeEnumElement m a value n) a n
  = Some (u32 value mod 256 ^ (Z.min n 4)).
Proof.
  intros Hn. unfold readTagBytes.
  destruct Hn as [Hn | [Hn | [Hn | Hn]]]; subst n.
  1: change (u8 1) with 1. 2: change (u8 2) with 2.
  3: change (u8 4) with 4. 4: change (u8 8) with 8.
  all: cbv iota; f_equal.
  - change 1%nat with (Z.to_nat (Z.min 1 4)).
    apply (loadEnumElement_storeEnumElement m a value 1). lia.
  - change 2%nat with (Z.to_nat (Z.min 2 4)).
    apply (loadEnumElement_storeEnumElement m a value 2). lia.
  - change 4%nat with (Z.to_nat (Z.min 4 4)).
    apply (loadEnumElement_storeEnumElement m a value 4). lia.
  - unfold storeEnumElement. change (Z.to_nat (Z.min 8 4)) with 4%nat.
    change (Z.to_nat (8 - 4)) with 4%nat. change 8%nat with (4 + 4)%nat.
    rewrite loadLE_app.
    rewrite (loadLE_zero _ (a + Z.of_nat 4)).
    + rewrite (loadLE_ext _ (storeLE m a 4 (u32 value))).
      * rewrite loadLE_storeLE. change (Z.min 8 4) with 4. change (Z.of_nat 4) with 4. lia.
      * intros x Hx. apply fillZero_outside. lia.
    + intros x Hx. apply fillZero_inside. lia.
Qed.
(** ** Enum tags: inject, then read back *)

Lemma readTagBytes_ext m m' a n :
  0 <= n -> (forall x, a <= x < a + n -> m x = m' x) ->
  readTagBytes m a n = readTagBytes m' a n.
Proof.
  intros Hn H. unfold readTagBytes.
  assert (Hle : u8 n <= n) by (unfold u8, wrap; apply Z.mod_le; lia).
  destruct (u8 n) as [|p|p]; try reflexivity.
  do 4 (try destruct p as [p|p|]); try reflexivity; f_equal; apply loadLE_ext;
    intros x Hx; apply H; cbn in Hx; lia.
Qed.

(** The low bits of a number and its high bits shifted back make the
    number. *)
Lemma lor_low_high x b :
  0 <= b -> Z.lor (x mod 2 ^ b) (Z.shiftl (Z.shiftr x b) b) = x.
Proof.
  intros Hb. apply Z.bits_inj'. intros n Hn.
  rewrite Z.lor_spec, Z.shiftl_spec by lia.
  destruct (Z.ltb_spec n b).
  - rewrite Z.mod_pow2_bits_low by lia.
    rewrite (Z.testbit_neg_r _ (n - b)) by lia. apply orb_false_r.
  - rewrite Z.mod_pow2_bits_high by lia. rewrite Z.shiftr_spec by lia.
    replace (n - b + b) with n by lia. reflexivity.
Qed.

Lemma shiftr_u32_range x b : 0 <= x < 2 ^ 32 -> 0 <= b -> 0 <= Z.shiftr x b < 2 ^ 32.
Proof.
  intros Hx Hb. rewrite Z.shiftr_div_pow2 by lia. split.
  - apply Z.div_pos; lia.
  - apply Z.div_lt_upper_bound; [lia|]. assert (1 <= 2 ^ b) by (apply Z.pow_le_mono_r with (b := 0); lia). nia.
Qed.

Lemma bytesLE_range l : 0 <= bytesLE l < 256 ^ Z.of_nat (length l).
Proof.
  induction l as [|b r IH]; cbn [bytesLE length].
  - cbn. lia.
  - rewrite Nat2Z.inj_succ, Z.pow_succ_r by lia.
    assert (0 <= u8 b < 256) by (unfold u8, wrap; apply Z.mod_pos_bound; lia). lia.
Qed.

Lemma readAt_range bs p n v : readAt bs p n = Some v -> 0 <= v < 256 ^ Z.of_nat n.
Proof.
  unfold readAt. destruct (_ && _); [|discriminate]. intros H. inversion H; subst v.
  pose proof (bytesLE_range (firstn n (skipn (Z.to_nat p) bs))) as Hr.
  pose proof (firstn_le_length n (skipn (Z.to_nat p) bs)) as Hl.
  assert (256 ^ Z.of_nat (length (firstn n (skipn (Z.to_nat p) bs))) <= 256 ^ Z.of_nat n)
    by (apply Z.pow_le_mono_r; lia).
  lia.
Qed.

(** The part of a case index that goes into a payload area shorter than
    four bytes. *)
Lemma low_part e payloadSize :
  0 <= payloadSize < 4 ->
  Z.land e (u32 (u32 (Z.shiftl 1 (u32 (payloadSize * 8))) - 1))
  = e mod 2 ^ (payloadSize * 8).
Proof.
  intros HP. rewrite (u32_small (payloadSize * 8)) by lia.
  rewrite Z.shiftl_1_l.
  assert (0 < 2 ^ (payloadSize * 8) < 2 ^ 32)
    by (split; [apply Z.pow_pos_nonneg; lia | apply Z.pow_lt_mono_r; lia]).
  rewrite (u32_small (2 ^ _)) by lia. rewrite u32_small by lia.
  rewrite <- Z.land_ones by lia. rewrite Z.ones_equiv. reflexivity.
Qed.

Lemma low_part_stored e payloadSize :
  0 <= payloadSize < 4 ->
  u32 (e mod 2 ^ (payloadSize * 8)) mod 256 ^ Z.min payloadSize 4
  = e mod 2 ^ (payloadSize * 8).
Proof.
  intros HP. rewrite Z.min_l by lia.
  change 256 with (2 ^ 8). rewrite <- Z.pow_mul_r by lia.
  replace (8 * payloadSize) with (payloadSize * 8) by lia.
  assert (0 < 2 ^ (payloadSize * 8) < 2 ^ 32)
    by (split; [apply Z.pow_pos_nonneg; lia | apply Z.pow_lt_mono_r; lia]).
  pose proof (Z.mod_pos_bound e (2 ^ (payloadSize * 8))).
  rewrite u32_small by lia. apply Z.mod_small. lia.
Qed.

Lemma high_part_range e b : 0 <= e < 2 ^ 32 -> 0 <= b ->
  0 <= Z.shiftl (Z.shiftr e b) b < 2 ^ 32.
Proof.
  intros He Hb. rewrite Z.shiftl_mul_pow2, Z.shiftr_div_pow2 by lia.
  assert (0 < 2 ^ b) by (apply Z.pow_pos_nonneg; lia).
  pose proof (Z.mul_div_le e (2 ^ b)). pose proof (Z.div_pos e (2 ^ b)). nia.
Qed.

(** A multi-payload enum whose tag bytes can hold the tag of case [tag]:
    [numTagBytes] tag bytes behind a payload area of [enumSize - numTagBytes]
    bytes; an empty case is numbered from [numPayloads] on, with the bits
    that do not fit a payload area shorter than four bytes added to the tag
    bytes. *)
Definition multiPayloadCaseFits (numTagBytes numPayloads enumSize tag : Z) : Prop :=
  (numTagBytes = 1 \/ numTagBytes = 2 \/ numTagBytes = 4 \/ numTagBytes = 8)
  /\ numTagBytes <= enumSize
  /\ let payloadSize := enumSize - numTagBytes in
     let capacity := 256 ^ Z.min numTagBytes 4 in
     if tag <? numPayloads then tag < capacity
     else if 4 <=? payloadSize then numPayloads < capacity
     else numPayloads + Z.shiftr (tag - numPayloads) (payloadSize * 8) < capacity.

Section MultiPayloadTag.

Context {RT : Runtime} {ls : LayoutString}.

Lemma multiPayload_tag_round_trip addr tag s numTagBytes numPayloads enumSize :
  readAt lsBytes (reader s) 8 = Some numTagBytes ->
  readAt lsBytes (reader s + 8) 8 = Some numPayloads ->
  readAt lsBytes (reader s + 24) 8 = Some enumSize ->
  0 <= tag < 2 ^ 32 ->
  multiPayloadCaseFits numTagBytes numPayloads enumSize tag ->
  exists s',
    swift_multiPayloadEnumGeneric_destructiveInjectEnumTag_body addr tag s = Some (tt, s')
    /\ forall s2, reader s2 = reader s -> mem (world s2) = mem (world s') ->
       exists s3, swift_multiPayloadEnumGeneric_getEnumTag_body addr s2 = Some (tag, s3).
Proof.
  intros HT HN HE Htag (HTv & HTE & Hfit).
  pose proof (readAt_range _ _ _ _ HT) as HTr.
  pose proof (readAt_range _ _ _ _ HN) as HNr.
  pose proof (readAt_range _ _ _ _ HE) as HEr.
  change (256 ^ Z.of_nat 8) with (2 ^ 64) in *.
  unfold swift_multiPayloadEnumGeneric_destructiveInjectEnumTag_body,
    swift_multiPayloadEnumGeneric_getEnumTag_body, storeElement.
  exec.
  assert (HP : u64 (enumSize - numTagBytes) = enumSize - numTagBytes)
    by (unfold u64, wrap; apply Z.mod_small; lia).
  rewrite ?HP.
  assert (Hcap : 256 ^ Z.min numTagBytes 4 <= 2 ^ 32)
    by (destruct HTv as [-> | [-> | [-> | ->]]]; cbv; discriminate).
  destruct (tag <? numPayloads) eqn:Hpayload; bool_hyps.
  - eexists; split; [reflexivity|]. intros s2 Hr Hm. exec. rewrite Hr. exec.
    rewrite Hm, ?HP. cbn [world mem]. rewrite readTagBytes_storeEnumElement by exact HTv.
    rewrite (u32_small tag) by lia. rewrite Z.mod_small by lia.
    rewrite (u32_small tag) by lia.
    destruct (tag <? numPayloads) eqn:E; bool_hyps; [|lia].
    eexists; reflexivity.
  - assert (He : u32 (tag - numPayloads) = tag - numPayloads) by (apply u32_small; lia).
    rewrite He.
    destruct (4 <=? enumSize - numTagBytes) eqn:Hlong; bool_hyps.
    + eexists; split; [reflexivity|]. intros s2 Hr Hm. exec. rewrite Hr. exec.
      rewrite Hm, ?HP. cbn [world mem].
      rewrite (readTagBytes_ext _
                 (storeEnumElement (mem (world s)) (addr + (enumSize - numTagBytes))
                    (u32 numPayloads) numTagBytes)) by
        (try lia; intros x Hx; apply storeEnumElement_outside; lia).
      rewrite readTagBytes_storeEnumElement by exact HTv.
      rewrite !(u32_small numPayloads) by lia. rewrite Z.mod_small by lia.
      rewrite (u32_small numPayloads) by lia. rewrite Z.ltb_irrefl.
      destruct (4 <=? enumSize - numTagBytes) eqn:E; bool_hyps; [|lia].
      cbn [world mem]. rewrite Hm. rewrite loadEnumElement_storeEnumElement by lia.
      rewrite Z.min_r by lia. rewrite He. change (256 ^ 4) with (2 ^ 32).
      rewrite Z.mod_small by lia.
      replace (numPayloads + (tag - numPayloads)) with tag by lia.
      rewrite u32_small by lia. eexists; reflexivity.
    + pose proof (shiftr_u32_range (tag - numPayloads) ((enumSize - numTagBytes) * 8)
                    ltac:(lia) ltac:(lia)) as Hhi.
      rewrite low_part by lia. rewrite (u32_small ((enumSize - numTagBytes) * 8)) by lia.
      eexists; split; [reflexivity|]. intros s2 Hr Hm. exec. rewrite Hr. exec.
      rewrite Hm, ?HP. cbn [world mem].
      rewrite (readTagBytes_ext _
                 (storeEnumElement (mem (world s)) (addr + (enumSize - numTagBytes))
                    (u32 (numPayloads
                          + Z.shiftr (tag - numPayloads) ((enumSize - numTagBytes) * 8)))
                    numTagBytes)) by
        (try lia; intros x Hx; apply storeEnumElement_outside; lia).
      rewrite readTagBytes_storeEnumElement by exact HTv.
      rewrite !(u32_small (numPayloads + _)) by lia. rewrite Z.mod_small by lia.
      rewrite (u32_small (numPayloads + _)) by lia.
      destruct (_ <? numPayloads) eqn:E; bool_hyps; [lia|].
      destruct (4 <=? enumSize - numTagBytes) eqn:E'; bool_hyps; [lia|].
      cbn [world mem]. rewrite Hm. rewrite loadEnumElement_storeEnumElement by lia.
      rewrite low_part_stored by lia.
      rewrite (u32_small ((enumSize - numTagBytes) * 8)) by lia.
      replace (numPayloads + Z.shiftr (tag - numPayloads) ((enumSize - numTagBytes) * 8)
               - numPayloads)
        with (Z.shiftr (tag - numPayloads) ((enumSize - numTagBytes) * 8)) by lia.
      pose proof (high_part_range (tag - numPayloads) ((enumSize - numTagBytes) * 8)
                    ltac:(lia) ltac:(lia)) as Hsh.
      unfold u64 at 2, wrap. rewrite (Z.mod_small (Z.shiftr _ _)) by lia.
      unfold u64, wrap. rewrite (Z.mod_small (Z.shiftl _ _)) by lia.
      rewrite lor_low_high by lia.
      replace (tag - numPayloads + numPayloads) with tag by lia.
      rewrite u32_small by lia. eexists; reflexivity.
Qed.

End MultiPayloadTag.

Lemma loadEnumElement_ext m m' a size :
  0 <= size -> (forall x, a <= x < a + size -> m x = m' x) ->
  loadEnumElement m a size = loadEnumElement m' a size.
Proof.
  intros Hs H. unfold loadEnumElement. apply loadLE_ext.
  intros x Hx. apply H. lia.
Qed.

Section ExtraTagCase.

Context {RT : Runtime} {ls : LayoutString}.

(** An empty case beyond the extra inhabitants, stored by
    [storeExtraTagCase], is what the extra tag bytes and the payload area
    read back as. *)
Lemma storeExtraTagCase_read_back addr tag numXI payloadSize numExtraTagBytes s :
  0 <= numXI < tag -> tag < 2 ^ 32 -> 0 <= payloadSize ->
  numExtraTagBytes = 1 \/ numExtraTagBytes = 2 \/ numExtraTagBytes = 4 ->
  (payloadSize < 4 ->
   1 + Z.shiftr (tag - 1 - numXI) (payloadSize * 8) < 256 ^ numExtraTagBytes) ->
  exists m',
    storeExtraTagCase addr tag numXI payloadSize numExtraTagBytes s
    = Some (tt, {| reader := reader s; addrOffset := addrOffset s;
                   world := {| mem := m'; trace := trace (world s) |} |})
    /\ exists tagBytes,
         readTagBytes m' (addr + payloadSize) numExtraTagBytes = Some tagBytes
         /\ tagBytes <> 0
         /\ caseIndexOfExtraTag m' addr tagBytes payloadSize numXI = tag.
Proof.
  intros HXI Htag HP HX Hcap.
  assert (HXn : (numExtraTagBytes =? 0) = false) by (apply Z.eqb_neq; lia).
  assert (HXc : 256 <= 256 ^ numExtraTagBytes <= 2 ^ 32)
    by (destruct HX as [-> | [-> | ->]]; cbv; split; discriminate).
  assert (HXm : Z.min numExtraTagBytes 4 = numExtraTagBytes) by lia.
  assert (HX8 : numExtraTagBytes = 1 \/ numExtraTagBytes = 2 \/ numExtraTagBytes = 4
                \/ numExtraTagBytes = 8) by tauto.
  unfold storeExtraTagCase, splitCaseIndex, caseIndexOfExtraTag, storeElement.
  rewrite (u32_small (tag - 1)) by lia.
  rewrite (u32_small (tag - 1 - numXI)) by lia.
  destruct (4 <=? payloadSize) eqn:Hlong; apply Z.leb_le in Hlong || apply Z.leb_gt in Hlong;
    exec; rewrite HXn; cbn [negb].
  - destruct (payloadSize =? 0) eqn:E; bool_hyps; [lia|]. cbn [negb]. exec.
    eexists; split; [reflexivity|].
    rewrite readTagBytes_storeEnumElement by exact HX8.
    rewrite HXm. change (u32 1) with 1. rewrite Z.mod_small by lia.
    eexists; split; [reflexivity|]. split; [lia|].
    rewrite (loadEnumElement_ext _ (storeEnumElement (mem (world s)) addr
                                      (tag - 1 - numXI) payloadSize))
      by (try lia; intros x Hx; apply storeEnumElement_outside; lia).
    rewrite loadEnumElement_storeEnumElement by lia.
    rewrite Z.min_r by lia. rewrite (u32_small (tag - 1 - numXI)) by lia.
    change (256 ^ 4) with (2 ^ 32). rewrite Z.mod_small by lia.
    rewrite Z.lor_0_l.
    replace (tag - 1 - numXI + numXI) with (tag - 1) by lia.
    rewrite (u32_small (tag - 1)) by lia.
    replace (tag - 1 + 1) with tag by lia. apply u32_small. lia.
  - specialize (Hcap Hlong).
    pose proof (shiftr_u32_range (tag - 1 - numXI) (payloadSize * 8)
                  ltac:(lia) ltac:(lia)) as Hhi.
    pose proof (high_part_range (tag - 1 - numXI) (payloadSize * 8)
                  ltac:(lia) ltac:(lia)) as Hsh.
    rewrite low_part by lia. rewrite (u32_small (payloadSize * 8)) by lia.
    rewrite (u32_small (1 + _)) by lia.
    assert (Hload : forall m0,
      loadEnumElement
        (storeEnumElement
           (if payloadSize =? 0 then m0
            else storeEnumElement m0 addr ((tag - 1 - numXI) mod 2 ^ (payloadSize * 8))
                   payloadSize)
           (addr + payloadSize)
           (1 + Z.shiftr (tag - 1 - numXI) (payloadSize * 8)) numExtraTagBytes)
        addr payloadSize
      = (tag - 1 - numXI) mod 2 ^ (payloadSize * 8)).
    { intros m0.
      rewrite (loadEnumElement_ext _
                 (if payloadSize =? 0 then m0
                  else storeEnumElement m0 addr
                         ((tag - 1 - numXI) mod 2 ^ (payloadSize * 8)) payloadSize))
        by (try lia; intros x Hx; apply storeEnumElement_outside; lia).
      destruct (payloadSize =? 0) eqn:E; bool_hyps.
      - subst payloadSize. cbn. rewrite Z.mod_1_r. reflexivity.
      - rewrite loadEnumElement_storeEnumElement by lia. apply low_part_stored. lia. }
    clear HXn.
    exists (storeEnumElement
              (if payloadSize =? 0 then mem (world s)
               else storeEnumElement (mem (world s)) addr
                      ((tag - 1 - numXI) mod 2 ^ (payloadSize * 8)) payloadSize)
              (addr + payloadSize)
              (1 + Z.shiftr (tag - 1 - numXI) (payloadSize * 8)) numExtraTagBytes).
    split.
    + destruct (payloadSize =? 0); reflexivity.
    + rewrite readTagBytes_storeEnumElement by exact HX8.
      rewrite HXm. rewrite (u32_small (1 + _)) by lia. rewrite Z.mod_small by lia.
      eexists; split; [reflexivity|]. split; [lia|].
      rewrite Hload.
      replace (1 + Z.shiftr (tag - 1 - numXI) (payloadSize * 8) - 1)
        with (Z.shiftr (tag - 1 - numXI) (payloadSize * 8)) by lia.
      assert (Hu : u64 (payloadSize * 8) = payloadSize * 8)
        by (unfold u64, wrap; apply Z.mod_small; lia).
      rewrite Hu.
      unfold u64 at 2, wrap. rewrite (Z.mod_small (Z.shiftr _ _)) by lia.
      unfold u64, wrap. rewrite (Z.mod_small (Z.shiftl _ _)) by lia.
      rewrite (u32_small (Z.shiftl _ _)) by lia.
      rewrite Z.lor_comm, lor_low_high by lia.
      replace (tag - 1 - numXI + numXI) with (tag - 1) by lia.
      rewrite (u32_small (tag - 1)) by lia.
      replace (tag - 1 + 1) with tag by lia. apply u32_small. lia.
Qed.

End ExtraTagCase.

(** The case [tag] of a single-payload enum described by a
    [SinglePayloadEnumSimple] header can be injected into the value at
    [addr] and read back: the payload case needs payload bytes that are not
    an extra inhabitant, a case within the extra inhabitants an
    extra-inhabitant field wide enough for it, a case beyond them extra tag
    bytes wide enough for it. *)
Definition simpleCaseFits (byteCountsAndOffset payloadSize zeroTagValue
  payloadNumExtraInhabitants addr tag : Z) (m : Memory) : Prop :=
  let extraTagBytesPattern := extraTagBytesPatternOf byteCountsAndOffset in
  let xiTagBytesPattern := xiTagBytesPatternOf byteCountsAndOffset in
  let xiTagBytesOffset := xiTagBytesOffsetOf byteCountsAndOffset in
  let numExtraTagBytes := u8 (Z.shiftl 1 (extraTagBytesPattern - 1)) in
  let xiTagBytes := Z.shiftl 1 (xiTagBytesPattern - 1) in
  let xiFieldInPayload :=
    1 <= xiTagBytesPattern <= 4 /\ xiTagBytesOffset + xiTagBytes <= payloadSize in
  if tag =? 0 then
    (xiTagBytesPattern = 0 /\ extraTagBytesPattern = 0)
    \/ (xiFieldInPayload
        /\ exists raw, readTagBytes m (addr + xiTagBytesOffset) xiTagBytes = Some raw
                       /\ payloadNumExtraInhabitants <= u64 (raw - zeroTagValue))
  else if tag <=? payloadNumExtraInhabitants then
    xiFieldInPayload
    /\ zeroTagValue + payloadNumExtraInhabitants <= 256 ^ Z.min xiTagBytes 4
  else
    extraTagBytesPattern <> 0
    /\ (payloadSize < 4 ->
        1 + Z.shiftr (tag - 1 - payloadNumExtraInhabitants) (payloadSize * 8)
        < 256 ^ numExtraTagBytes).

Lemma extraTagBytesPattern_cases w :
  0 <= w < 2 ^ 64 ->
  let p := extraTagBytesPatternOf w in p = 0 \/ p = 1 \/ p = 2 \/ p = 3.
Proof.
  intros Hw. unfold extraTagBytesPatternOf. cbv zeta.
  rewrite Z.shiftr_div_pow2 by lia.
  assert (0 <= w / 2 ^ 62 < 4)
    by (split; [apply Z.div_pos; lia | apply Z.div_lt_upper_bound; lia]).
  unfold u8, wrap. rewrite Z.mod_small by lia. lia.
Qed.

Lemma xiTagBytesOffset_nonneg w : 0 <= w -> 0 <= xiTagBytesOffsetOf w.
Proof. intros Hw. unfold xiTagBytesOffsetOf. apply Z.land_nonneg. left. exact Hw. Qed.

(** The width of the extra tag bytes of pattern 1, 2, 3. *)
Ltac extra_tag_width :=
  change (u8 (Z.shiftl 1 (0 - 1))) with 0 in *;
  change (u8 (Z.shiftl 1 (1 - 1))) with 1 in *;
  change (u8 (Z.shiftl 1 (2 - 1))) with 2 in *;
  change (u8 (Z.shiftl 1 (3 - 1))) with 4 in *;
  change (Z.shiftl 1 (1 - 1)) with 1 in *;
  change (Z.shiftl 1 (2 - 1)) with 2 in *;
  change (Z.shiftl 1 (3 - 1)) with 4 in *;
  change (Z.shiftl 1 (4 - 1)) with 8 in *.

Section SimpleTag.

Context {RT : Runtime} {ls : LayoutString}.

(** The value the extra-inhabitant field of the payload stands for. *)
Definition xiFieldTag (raw zeroTagValue numXI : Z) : Z :=
  let tagBytes := u64 (raw - zeroTagValue) in
  if tagBytes <? numXI then u32 (tagBytes + 1) else 0.

Section SimpleHeader.

Variables (addr : Z) (s : State) (w payloadSize zeroTagValue numXI : Z).
Hypothesis Hw : readAt lsBytes (reader s) 8 = Some w.
Hypothesis HP : readAt lsBytes (reader s + 8) 8 = Some payloadSize.
Hypothesis HZ : readAt lsBytes (reader s + 16) 8 = Some zeroTagValue.
Hypothesis HN : readAt lsBytes (reader s + 24) 8 = Some numXI.

Let p := extraTagBytesPatternOf w.
Let xp := xiTagBytesPatternOf w.
Let xiOff := xiTagBytesOffsetOf w.
Let numExtraTagBytes := u8 (Z.shiftl 1 (p - 1)).
Let xiTagBytes := Z.shiftl 1 (xp - 1).
Let extraTagClear (m : Memory) : Prop :=
  p = 0 \/ readTagBytes m (addr + payloadSize) numExtraTagBytes = Some 0.

Ltac open_header :=
  unfold extraTagClear, numExtraTagBytes, xiTagBytes, p, xp, xiOff in *;
  rewrite ?readTagBytes_u8 in *.

Lemma simple_get_extra tagBytes :
  p <> 0 ->
  readTagBytes (mem (world s)) (addr + payloadSize) numExtraTagBytes = Some tagBytes ->
  tagBytes <> 0 ->
  exists s3, swift_enumSimple_getEnumTag_body addr s
             = Some (caseIndexOfExtraTag (mem (world s)) addr tagBytes payloadSize numXI, s3).
Proof.
  intros Hp Hread Hnz. open_header.
  unfold swift_enumSimple_getEnumTag_body, handleSinglePayloadEnumSimpleTag.
  exec. apply Z.eqb_neq in Hp. rewrite Hp. exec. rewrite Hread. exec.
  apply Z.eqb_neq in Hnz. rewrite Hnz. cbn [negb]. exec. eexists; reflexivity.
Qed.

Lemma simple_get_xi raw :
  extraTagClear (mem (world s)) -> xp <> 0 ->
  readTagBytes (mem (world s)) (addr + xiOff) xiTagBytes = Some raw ->
  exists s3, swift_enumSimple_getEnumTag_body addr s
             = Some (xiFieldTag raw zeroTagValue numXI, s3).
Proof.
  intros Hclear Hxp Hread. open_header.
  unfold swift_enumSimple_getEnumTag_body, handleSinglePayloadEnumSimpleTag, xiFieldTag.
  exec. apply Z.eqb_neq in Hxp.
  destruct Hclear as [Hp | Hzero].
  - rewrite Hp. exec. rewrite Hxp. cbn [negb]. exec. rewrite Hread. exec.
    destruct (_ <? _); eexists; reflexivity.
  - destruct (extraTagBytesPatternOf w =? 0); exec; rewrite ?Hzero; exec; rewrite Hxp; cbn [negb]; exec;
      rewrite Hread; exec; destruct (_ <? _); eexists; reflexivity.
Qed.

Lemma simple_get_no_xi :
  extraTagClear (mem (world s)) -> xp = 0 ->
  exists s3, swift_enumSimple_getEnumTag_body addr s = Some (0, s3).
Proof.
  intros Hclear Hxp. open_header.
  unfold swift_enumSimple_getEnumTag_body, handleSinglePayloadEnumSimpleTag.
  exec. rewrite Hxp.
  destruct Hclear as [Hp | Hzero].
  - rewrite Hp. exec. eexists; reflexivity.
  - destruct (extraTagBytesPatternOf w =? 0); exec; rewrite ?Hzero; exec; eexists; reflexivity.
Qed.

(** The state behind the four header words, with the storage [m]. *)
Let behindHeader (m : Memory) : State :=
  {| reader := reader s + 32; addrOffset := addrOffset s;
     world := {| mem := m; trace := trace (world s) |} |}.

Lemma simple_inject_extra tag :
  p <> 0 -> numXI < tag ->
  swift_enumSimple_destructiveInjectEnumTag_body addr tag s
  = match storeExtraTagCase addr tag numXI payloadSize numExtraTagBytes
            (behindHeader (mem (world s))) with
    | Some (_, s') => Some (true, s')
    | None => None
    end.
Proof.
  intros Hp Htag. unfold behindHeader. open_header.
  unfold swift_enumSimple_destructiveInjectEnumTag_body, handleSinglePayloadEnumSimpleTag.
  exec. apply Z.eqb_neq in Hp. rewrite Hp. apply Z.leb_gt in Htag. rewrite Htag.
  destruct (world s) as [m t]. cbn [mem trace].
  destruct (storeExtraTagCase _ _ _ _ _ _) as [[[] s']|]; reflexivity.
Qed.

Lemma simple_inject_xi tag :
  tag <= numXI -> xp <> 0 ->
  let m1 := if numExtraTagBytes =? 0 then mem (world s)
            else storeEnumElement (mem (world s)) (addr + payloadSize) 0 numExtraTagBytes in
  let m2 := if tag =? 0 then m1
            else storeEnumElement m1 (addr + xiOff) (u64 (u32 (tag - 1) + zeroTagValue))
                   xiTagBytes in
  swift_enumSimple_destructiveInjectEnumTag_body addr tag s = Some (true, behindHeader m2).
Proof.
  intros Htag Hxp. cbv zeta. unfold behindHeader.
  unfold extraTagClear, numExtraTagBytes, xiTagBytes, p, xp, xiOff in *.
  unfold swift_enumSimple_destructiveInjectEnumTag_body, handleSinglePayloadEnumSimpleTag,
    storeElement.
  exec. apply Z.eqb_neq in Hxp. apply Z.leb_le in Htag.
  destruct (world s) as [m t]. cbn [mem trace].
  destruct (extraTagBytesPatternOf w =? 0); exec; rewrite ?Htag; exec; rewrite Hxp;
    cbn [negb]; rewrite ?Htag; exec;
    destruct (u8 (Z.shiftl 1 (extraTagBytesPatternOf w - 1)) =? 0); cbn [negb]; exec;
    destruct (tag =? 0); exec; reflexivity.
Qed.

Lemma simple_inject_nothing tag :
  p = 0 \/ tag <= numXI -> xp = 0 ->
  swift_enumSimple_destructiveInjectEnumTag_body addr tag s
  = Some (true, behindHeader (mem (world s))).
Proof.
  intros Hcase Hxp. unfold behindHeader. open_header.
  unfold swift_enumSimple_destructiveInjectEnumTag_body, handleSinglePayloadEnumSimpleTag.
  exec. rewrite Hxp. destruct (world s) as [m t]. cbn [mem trace].
  destruct Hcase as [Hp | Htag].
  - rewrite Hp. exec. reflexivity.
  - apply Z.leb_le in Htag.
    destruct (extraTagBytesPatternOf w =? 0); exec; rewrite ?Htag; exec; reflexivity.
Qed.

End SimpleHeader.

(** The extra tag bytes read as zero once the extra-inhabitant handler has
    cleared them. *)
Lemma extra_tag_cleared m addr payloadSize p :
  p = 0 \/ p = 1 \/ p = 2 \/ p = 3 ->
  let numExtraTagBytes := u8 (Z.shiftl 1 (p - 1)) in
  p = 0
  \/ readTagBytes
       (if numExtraTagBytes =? 0 then m
        else storeEnumElement m (addr + payloadSize) 0 numExtraTagBytes)
       (addr + payloadSize) numExtraTagBytes = Some 0.
Proof.
  intros [-> | [-> | [-> | ->]]]; cbv zeta; extra_tag_width; [left; reflexivity|..];
    right; cbv iota beta delta [Z.eqb]; rewrite readTagBytes_storeEnumElement by tauto;
    reflexivity.
Qed.

Lemma numExtraTagBytes_cases p :
  p = 1 \/ p = 2 \/ p = 3 ->
  let n := u8 (Z.shiftl 1 (p - 1)) in n = 1 \/ n = 2 \/ n = 4.
Proof. intros [-> | [-> | ->]]; cbv; tauto. Qed.

Lemma xiTagBytes_cases xp :
  1 <= xp <= 4 ->
  let n := Z.shiftl 1 (xp - 1) in n = 1 \/ n = 2 \/ n = 4 \/ n = 8.
Proof.
  intros H. assert (xp = 1 \/ xp = 2 \/ xp = 3 \/ xp = 4) as [-> | [-> | [-> | ->]]] by lia;
    cbv; tauto.
Qed.

Lemma simple_tag_round_trip addr tag s w payloadSize zeroTagValue numXI :
  readAt lsBytes (reader s) 8 = Some w ->
  readAt lsBytes (reader s + 8) 8 = Some payloadSize ->
  readAt lsBytes (reader s + 16) 8 = Some zeroTagValue ->
  readAt lsBytes (reader s + 24) 8 = Some numXI ->
  0 <= tag < 2 ^ 32 ->
  simpleCaseFits w payloadSize zeroTagValue numXI addr tag (mem (world s)) ->
  exists s',
    swift_enumSimple_destructiveInjectEnumTag_body addr tag s = Some (true, s')
    /\ forall s2, reader s2 = reader s -> mem (world s2) = mem (world s') ->
       exists s3, swift_enumSimple_getEnumTag_body addr s2 = Some (tag, s3).
Proof.
  intros Hw HP HZ HN Htag Hfit.
  pose proof (readAt_range _ _ _ _ Hw) as Hwr.
  pose proof (readAt_range _ _ _ _ HP) as HPr.
  pose proof (readAt_range _ _ _ _ HZ) as HZr.
  pose proof (readAt_range _ _ _ _ HN) as HNr.
  change (256 ^ Z.of_nat 8) with (2 ^ 64) in *.
  pose proof (extraTagBytesPattern_cases w Hwr) as Hp. cbv zeta in Hp.
  pose proof (xiTagBytesOffset_nonneg w ltac:(lia)) as Hoff.
  unfold simpleCaseFits in Hfit. cbv zeta in Hfit.
  destruct (tag =? 0) eqn:Htag0; [|destruct (tag <=? numXI) eqn:Hxi].
  - apply Z.eqb_eq in Htag0. subst tag.
    destruct Hfit as [[Hxp Hp0] | ((Hxp & Hin) & raw & Hraw & Hvalid)].
    + eexists; split.
      * apply (simple_inject_nothing addr s w payloadSize zeroTagValue numXI Hw HP HZ HN);
          [left; exact Hp0 | exact Hxp].
      * intros s2 Hr Hm. rewrite <- Hr in Hw, HP, HZ, HN.
        apply (simple_get_no_xi addr s2 w payloadSize zeroTagValue numXI Hw HP HZ HN);
          [left; exact Hp0 | exact Hxp].
    + pose proof (xiTagBytes_cases _ Hxp) as Hxw. cbv zeta in Hxw.
      eexists; split.
      * apply (simple_inject_xi addr s w payloadSize zeroTagValue numXI Hw HP HZ HN);
          lia.
      * intros s2 Hr Hm. rewrite <- Hr in Hw, HP, HZ, HN. cbn [world mem] in Hm.
        change (0 =? 0) with true in Hm. cbv iota in Hm.
        destruct (simple_get_xi addr s2 w payloadSize zeroTagValue numXI Hw HP HZ HN raw)
          as [s3 Hs3].
        -- rewrite Hm. apply extra_tag_cleared. exact Hp.
        -- lia.
        -- rewrite Hm, <- Hraw. apply readTagBytes_ext; [lia|].
           intros x Hx. destruct (_ =? 0); [reflexivity|].
           apply storeEnumElement_outside; [|lia].
           unfold u8, wrap. apply Z.mod_pos_bound. lia.
        -- exists s3. rewrite Hs3. unfold xiFieldTag.
           apply Z.ltb_ge in Hvalid. rewrite Hvalid. reflexivity.
  - apply Z.eqb_neq in Htag0. apply Z.leb_le in Hxi.
    destruct Hfit as ((Hxp & Hin) & Hwide).
    pose proof (xiTagBytes_cases _ Hxp) as Hxw. cbv zeta in Hxw.
    assert (Hcap : 256 ^ Z.min (Z.shiftl 1 (xiTagBytesPatternOf w - 1)) 4 <= 2 ^ 32)
      by (destruct Hxw as [-> | [-> | [-> | ->]]]; cbv; discriminate).
    eexists; split.
    + apply (simple_inject_xi addr s w payloadSize zeroTagValue numXI Hw HP HZ HN); lia.
    + intros s2 Hr Hm. rewrite <- Hr in Hw, HP, HZ, HN. cbn [world mem] in Hm.
      apply Z.eqb_neq in Htag0. rewrite Htag0 in Hm. apply Z.eqb_neq in Htag0.
      destruct (simple_get_xi addr s2 w payloadSize zeroTagValue numXI Hw HP HZ HN
                  (u32 (u64 (u32 (tag - 1) + zeroTagValue))
                   mod 256 ^ Z.min (Z.shiftl 1 (xiTagBytesPatternOf w - 1)) 4))
        as [s3 Hs3].
      * rewrite Hm.
        destruct (extra_tag_cleared (mem (world s)) addr payloadSize _ Hp) as [H0 | H1];
          [left; exact H0 | right].
        rewrite <- H1. apply readTagBytes_ext.
        -- unfold u8, wrap. apply Z.mod_pos_bound. lia.
        -- intros x Hx. apply storeEnumElement_outside; lia.
      * lia.
      * rewrite Hm. apply readTagBytes_storeEnumElement. exact Hxw.
      * exists s3. rewrite Hs3. f_equal. f_equal. unfold xiFieldTag.
        rewrite (u32_small (tag - 1)) by lia.
        assert (Hv : u64 (tag - 1 + zeroTagValue) = tag - 1 + zeroTagValue)
          by (unfold u64, wrap; apply Z.mod_small; lia).
        rewrite Hv. rewrite (u32_small (tag - 1 + zeroTagValue)) by lia.
        rewrite Z.mod_small by lia.
        replace (tag - 1 + zeroTagValue - zeroTagValue) with (tag - 1) by lia.
        assert (Ht : u64 (tag - 1) = tag - 1) by (unfold u64, wrap; apply Z.mod_small; lia).
        rewrite Ht.
        destruct (tag - 1 <? numXI) eqn:E; [|apply Z.ltb_ge in E; lia].
        replace (tag - 1 + 1) with tag by lia. apply u32_small. lia.
  - apply Z.eqb_neq in Htag0. apply Z.leb_gt in Hxi.
    destruct Hfit as (Hpn & Hcap).
    pose proof (numExtraTagBytes_cases (extraTagBytesPatternOf w) ltac:(lia)) as HX.
    cbv zeta in HX.
    destruct (storeExtraTagCase_read_back addr tag numXI payloadSize
                (u8 (Z.shiftl 1 (extraTagBytesPatternOf w - 1)))
                {| reader := reader s + 32; addrOffset := addrOffset s;
                   world := {| mem := mem (world s); trace := trace (world s) |} |})
      as (m' & Hstore & tagBytes & Hread & Hnz & Hcase); try lia; try assumption.
    eexists; split.
    + rewrite (simple_inject_extra addr s w payloadSize zeroTagValue numXI Hw HP HZ HN)
        by assumption.
      rewrite Hstore. reflexivity.
    + intros s2 Hr Hm. rewrite <- Hr in Hw, HP, HZ, HN. cbn [world mem] in Hm.
      destruct (simple_get_extra addr s2 w payloadSize zeroTagValue numXI Hw HP HZ HN
                  tagBytes) as [s3 Hs3];
        [assumption | rewrite Hm; exact Hread | exact Hnz |].
      exists s3. rewrite Hs3, Hm, Hcase. reflexivity.
Qed.

End SimpleTag.

(** What the enum entry points take for granted about the value witnesses
    of the type that supplies the extra inhabitants: a stored case is read
    back, the store stays inside the value, the read looks at nothing but the
    value. *)
Definition xiWitnessesSound {RT : Runtime} : Prop :=
  (forall xiType enum whichCase numEmptyCases m x,
      x < enum \/ enum + vw_size xiType <= x ->
      effect (vw_storeEnumTagSinglePayload xiType enum whichCase numEmptyCases) m x = m x)
  /\ (forall xiType enum numEmptyCases m m',
         (forall x, enum <= x < enum + vw_size xiType -> m x = m' x) ->
         vw_getEnumTagSinglePayload xiType enum numEmptyCases m
         = vw_getEnumTagSinglePayload xiType enum numEmptyCases m')
  /\ (forall xiType enum whichCase numEmptyCases m,
         1 <= whichCase <= numExtraInhabitantsOf xiType -> whichCase <= numEmptyCases ->
         vw_getEnumTagSinglePayload xiType enum numEmptyCases
           (effect (vw_storeEnumTagSinglePayload xiType enum whichCase numEmptyCases) m)
         = whichCase).

(** The counterpart of [simpleCaseFits] for a [SinglePayloadEnumGeneric]
    header, whose extra inhabitants are those of the type [xiType]. *)
Definition genericCaseFits {RT : Runtime} (tagBytesAndOffset payloadSize xiType
  numEmptyCases addr tag : Z) (m : Memory) : Prop :=
  let extraTagBytesPattern := extraTagBytesPatternOf tagBytesAndOffset in
  let xiTagBytesOffset := xiTagBytesOffsetOf tagBytesAndOffset in
  let numExtraTagBytes := u8 (Z.shiftl 1 (extraTagBytesPattern - 1)) in
  let payloadNumExtraInhabitants := numExtraInhabitantsOf xiType in
  let xiFieldInPayload :=
    0 <= vw_size xiType /\ xiTagBytesOffset + vw_size xiType <= payloadSize in
  if tag =? 0 then
    xiType = 0
    \/ (xiFieldInPayload
        /\ u32 (vw_getEnumTagSinglePayload xiType (addr + xiTagBytesOffset)
                  numEmptyCases m) = 0)
  else if tag <=? payloadNumExtraInhabitants then
    xiFieldInPayload /\ tag <= numEmptyCases
  else
    extraTagBytesPattern <> 0
    /\ (payloadSize < 4 ->
        1 + Z.shiftr (tag - 1 - payloadNumExtraInhabitants) (payloadSize * 8)
        < 256 ^ numExtraTagBytes).

Section GenericTag.

Context {RT : Runtime} {ls : LayoutString}.

Section GenericHeader.

Variables (addr : Z) (s : State) (w payloadSize xiType numEmptyCases : Z).
Hypothesis Hw : readAt lsBytes (reader s) 8 = Some w.
Hypothesis HP : readAt lsBytes (reader s + 8) 8 = Some payloadSize.
Hypothesis HX : readAt lsBytes (reader s + 16) 8 = Some xiType.
Hypothesis HE : readAt lsBytes (reader s + 24) 4 = Some numEmptyCases.

Let p := extraTagBytesPatternOf w.
Let xiOff := xiTagBytesOffsetOf w.
Let numExtraTagBytes := u8 (Z.shiftl 1 (p - 1)).
Let numXI := numExtraInhabitantsOf xiType.
Let extraTagClear (m : Memory) : Prop :=
  p = 0 \/ readTagBytes m (addr + payloadSize) numExtraTagBytes = Some 0.

Ltac open_header :=
  unfold extraTagClear, numExtraTagBytes, numXI, p, xiOff in *;
  rewrite ?readTagBytes_u8 in *.

Lemma generic_get_extra tagBytes :
  p <> 0 ->
  readTagBytes (mem (world s)) (addr + payloadSize) numExtraTagBytes = Some tagBytes ->
  tagBytes <> 0 ->
  exists s3, swift_singlePayloadEnumGeneric_getEnumTag_body addr s
             = Some (caseIndexOfExtraTag (mem (world s)) addr tagBytes payloadSize numXI, s3).
Proof.
  intros Hp Hread Hnz. open_header.
  unfold swift_singlePayloadEnumGeneric_getEnumTag_body, handleSinglePayloadEnumGenericTag.
  exec. apply Z.eqb_neq in Hp. rewrite Hp. exec. rewrite Hread. exec.
  apply Z.eqb_neq in Hnz. rewrite Hnz. cbn [negb]. exec. eexists; reflexivity.
Qed.

Lemma generic_get_xi :
  extraTagClear (mem (world s)) ->
  exists s3, swift_singlePayloadEnumGeneric_getEnumTag_body addr s
             = Some (if xiType =? 0 then 0
                     else u32 (vw_getEnumTagSinglePayload xiType (addr + xiOff)
                                 numEmptyCases (mem (world s))), s3).
Proof.
  intros Hclear. open_header.
  unfold swift_singlePayloadEnumGeneric_getEnumTag_body, handleSinglePayloadEnumGenericTag.
  exec.
  destruct Hclear as [Hp | Hzero].
  - rewrite Hp. exec. destruct (xiType =? 0); cbn [negb]; exec; eexists; reflexivity.
  - destruct (extraTagBytesPatternOf w =? 0); exec; rewrite ?Hzero; exec; cbn [negb]; exec;
      destruct (xiType =? 0); cbn [negb]; exec; eexists; reflexivity.
Qed.

Lemma generic_inject_extra tag :
  p <> 0 -> numXI < tag ->
  swift_singlePayloadEnumGeneric_destructiveInjectEnumTag_body addr tag s
  = match storeExtraTagCase addr tag numXI payloadSize numExtraTagBytes
            {| reader := reader s + 24; addrOffset := addrOffset s;
               world := {| mem := mem (world s); trace := trace (world s) |} |} with
    | Some (_, s') => Some (true, s')
    | None => None
    end.
Proof.
  intros Hp Htag. open_header.
  unfold swift_singlePayloadEnumGeneric_destructiveInjectEnumTag_body,
    handleSinglePayloadEnumGenericTag.
  exec. apply Z.eqb_neq in Hp. rewrite Hp. apply Z.leb_gt in Htag. rewrite Htag.
  destruct (world s) as [m t]. cbn [mem trace].
  destruct (storeExtraTagCase _ _ _ _ _ _) as [[[] s']|]; reflexivity.
Qed.

Lemma generic_inject_xi tag :
  tag <= numXI -> (tag <> 0 -> xiType <> 0) ->
  let m1 := if numExtraTagBytes =? 0 then mem (world s)
            else storeEnumElement (mem (world s)) (addr + payloadSize) 0 numExtraTagBytes in
  let e := vw_storeEnumTagSinglePayload xiType (addr + xiOff) tag numEmptyCases in
  swift_singlePayloadEnumGeneric_destructiveInjectEnumTag_body addr tag s
  = Some (true,
          {| reader := reader s + 24 + 4; addrOffset := addrOffset s;
             world := if tag =? 0 then {| mem := m1; trace := trace (world s) |}
                      else {| mem := effect e m1; trace := e :: trace (world s) |} |}).
Proof.
  intros Htag Hxi. cbv zeta.
  unfold extraTagClear, numExtraTagBytes, numXI, p, xiOff in *.
  unfold swift_singlePayloadEnumGeneric_destructiveInjectEnumTag_body,
    handleSinglePayloadEnumGenericTag, storeElement.
  exec. apply Z.leb_le in Htag.
  destruct (world s) as [m t]. cbn [mem trace].
  destruct (extraTagBytesPatternOf w =? 0); exec; rewrite ?Htag; exec;
    destruct (u8 (Z.shiftl 1 (extraTagBytesPatternOf w - 1)) =? 0); cbn [negb]; exec;
    (destruct (tag =? 0) eqn:E; exec; [reflexivity|]);
    apply Z.eqb_neq in E; apply Hxi in E; apply Z.eqb_neq in E; rewrite E; exec;
    reflexivity.
Qed.

End GenericHeader.

Lemma numExtraInhabitantsOf_range xiType : 0 <= numExtraInhabitantsOf xiType < 2 ^ 32.
Proof.
  unfold numExtraInhabitantsOf. destruct (xiType =? 0); [lia|].
  unfold u32, wrap. apply Z.mod_pos_bound. lia.
Qed.

Lemma generic_tag_round_trip addr tag s w payloadSize xiType numEmptyCases :
  xiWitnessesSound ->
  readAt lsBytes (reader s) 8 = Some w ->
  readAt lsBytes (reader s + 8) 8 = Some payloadSize ->
  readAt lsBytes (reader s + 16) 8 = Some xiType ->
  readAt lsBytes (reader s + 24) 4 = Some numEmptyCases ->
  0 <= tag < 2 ^ 32 ->
  genericCaseFits w payloadSize xiType numEmptyCases addr tag (mem (world s)) ->
  exists s',
    swift_singlePayloadEnumGeneric_destructiveInjectEnumTag_body addr tag s
    = Some (true, s')
    /\ forall s2, reader s2 = reader s -> mem (world s2) = mem (world s') ->
       exists s3, swift_singlePayloadEnumGeneric_getEnumTag_body addr s2 = Some (tag, s3).
Proof.
  intros (Hframe & Hlocal & Hback) Hw HP HX HE Htag Hfit.
  pose proof (readAt_range _ _ _ _ Hw) as Hwr.
  pose proof (readAt_range _ _ _ _ HP) as HPr.
  change (256 ^ Z.of_nat 8) with (2 ^ 64) in *.
  pose proof (extraTagBytesPattern_cases w Hwr) as Hp. cbv zeta in Hp.
  pose proof (xiTagBytesOffset_nonneg w ltac:(lia)) as Hoff.
  pose proof (numExtraInhabitantsOf_range xiType) as HNr.
  assert (HXr : 0 <= u8 (Z.shiftl 1 (extraTagBytesPatternOf w - 1)))
    by (unfold u8, wrap; apply Z.mod_pos_bound; lia).
  unfold genericCaseFits in Hfit. cbv zeta in Hfit.
  destruct (tag =? 0) eqn:Htag0;
    [|destruct (tag <=? numExtraInhabitantsOf xiType) eqn:Hxi].
  - apply Z.eqb_eq in Htag0. subst tag.
    eexists; split.
    + apply (generic_inject_xi addr s w payloadSize xiType numEmptyCases Hw HP HX HE);
        lia.
    + intros s2 Hr Hm. rewrite <- Hr in Hw, HP, HX, HE. cbn [world mem] in Hm.
      change (0 =? 0) with true in Hm. cbv iota in Hm. cbn [mem] in Hm.
      destruct (generic_get_xi addr s2 w payloadSize xiType numEmptyCases Hw HP HX HE)
        as [s3 Hs3]; [rewrite Hm; apply extra_tag_cleared; exact Hp|].
      exists s3. rewrite Hs3. f_equal. f_equal.
      destruct (xiType =? 0) eqn:E; [reflexivity|]. apply Z.eqb_neq in E.
      destruct Hfit as [H0 | ((Hsz & Hin) & Hvalid)]; [contradiction|].
      rewrite <- Hvalid. f_equal. apply Hlocal.
      intros x Hx. rewrite Hm. destruct (_ =? 0); [reflexivity|].
      apply storeEnumElement_outside; lia.
  - apply Z.eqb_neq in Htag0. apply Z.leb_le in Hxi.
    destruct Hfit as ((Hsz & Hin) & Hempty).
    assert (Hty : xiType <> 0).
    { intros ->. unfold numExtraInhabitantsOf in Hxi. cbn in Hxi. lia. }
    eexists; split.
    + apply (generic_inject_xi addr s w payloadSize xiType numEmptyCases Hw HP HX HE);
        [lia | intros _; exact Hty].
    + intros s2 Hr Hm. rewrite <- Hr in Hw, HP, HX, HE. cbn [world mem] in Hm.
      apply Z.eqb_neq in Htag0. rewrite Htag0 in Hm. apply Z.eqb_neq in Htag0.
      cbn [mem] in Hm.
      destruct (generic_get_xi addr s2 w payloadSize xiType numEmptyCases Hw HP HX HE)
        as [s3 Hs3].
      * rewrite Hm.
        destruct (extra_tag_cleared (mem (world s)) addr payloadSize _ Hp) as [H0 | H1];
          [left; exact H0 | right].
        rewrite <- H1. apply readTagBytes_ext; [exact HXr|].
        intros x Hx. apply Hframe. lia.
      * exists s3. rewrite Hs3. f_equal. f_equal.
        apply Z.eqb_neq in Hty. rewrite Hty. rewrite Hm, Hback by lia.
        apply u32_small. lia.
  - apply Z.eqb_neq in Htag0. apply Z.leb_gt in Hxi.
    destruct Hfit as (Hpn & Hcap).
    pose proof (numExtraTagBytes_cases (extraTagBytesPatternOf w) ltac:(lia)) as HXc.
    cbv zeta in HXc.
    destruct (storeExtraTagCase_read_back addr tag (numExtraInhabitantsOf xiType)
                payloadSize (u8 (Z.shiftl 1 (extraTagBytesPatternOf w - 1)))
                {| reader := reader s + 24; addrOffset := addrOffset s;
                   world := {| mem := mem (world s); trace := trace (world s) |} |})
      as (m' & Hstore & tagBytes & Hread & Hnz & Hcase); try lia; try assumption.
    eexists; split.
    + rewrite (generic_inject_extra addr s w payloadSize xiType Hw HP HX) by assumption.
      rewrite Hstore. reflexivity.
    + intros s2 Hr Hm. rewrite <- Hr in Hw, HP, HX, HE. cbn [world mem] in Hm.
      destruct (generic_get_extra addr s2 w payloadSize xiType Hw HP HX tagBytes)
        as [s3 Hs3];
        [assumption | rewrite Hm; exact Hread | exact Hnz |].
      exists s3. rewrite Hs3, Hm, Hcase. reflexivity.
Qed.

End GenericTag.

(** The enum shapes that have a pair of tag entry points. *)
Inductive EnumShape : Type :=
| SingletonShape | SimpleShape | SinglePayloadGenericShape | MultiPayloadGenericShape.

Section TagRoundTrip.

Context {RT : Runtime}.

Definition getEnumTag (shape : EnumShape) : Z -> Z -> Memory -> option Z :=
  match shape with
  | SingletonShape => swift_singletonEnum_getEnumTag
  | SimpleShape => swift_enumSimple_getEnumTag
  | SinglePayloadGenericShape => swift_singlePayloadEnumGeneric_getEnumTag
  | MultiPayloadGenericShape => swift_multiPayloadEnumGeneric_getEnumTag
  end.

Definition destructiveInjectEnumTag (shape : EnumShape)
  : Z -> Z -> Z -> World -> option World :=
  match shape with
  | SingletonShape => swift_singletonEnum_destructiveInjectEnumTag
  | SimpleShape => swift_enumSimple_destructiveInjectEnumTag
  | SinglePayloadGenericShape => swift_singlePayloadEnumGeneric_destructiveInjectEnumTag
  | MultiPayloadGenericShape => swift_multiPayloadEnumGeneric_destructiveInjectEnumTag
  end.

(** Case [tag] is a case of the enum that the layout string of [metadata]
    describes, and the value at [address] can take it: the header fields
    behind the first instruction word are there and the tag fits them. *)
Definition caseFits (shape : EnumShape) (address metadata tag : Z) (m : Memory) : Prop :=
  let field := readAt (@lsBytes (getLayoutString metadata)) in
  let header := layoutStringHeaderSize + 8 in
  match shape with
  | SingletonShape => tag = 0
  | SimpleShape =>
      exists byteCountsAndOffset payloadSize zeroTagValue payloadNumExtraInhabitants,
        field header 8%nat = Some byteCountsAndOffset
        /\ field (header + 8) 8%nat = Some payloadSize
        /\ field (header + 16) 8%nat = Some zeroTagValue
        /\ field (header + 24) 8%nat = Some payloadNumExtraInhabitants
        /\ simpleCaseFits byteCountsAndOffset payloadSize zeroTagValue
             payloadNumExtraInhabitants address tag m
  | SinglePayloadGenericShape =>
      exists tagBytesAndOffset payloadSize xiType numEmptyCases,
        field header 8%nat = Some tagBytesAndOffset
        /\ field (header + 8) 8%nat = Some payloadSize
        /\ field (header + 16) 8%nat = Some xiType
        /\ field (header + 24) 4%nat = Some numEmptyCases
        /\ genericCaseFits tagBytesAndOffset payloadSize xiType numEmptyCases
             address tag m
  | MultiPayloadGenericShape =>
      exists numTagBytes numPayloads enumSize,
        field header 8%nat = Some numTagBytes
        /\ field (header + 8) 8%nat = Some numPayloads
        /\ field (header + 24) 8%nat = Some enumSize
        /\ multiPayloadCaseFits numTagBytes numPayloads enumSize tag
  end.


End TagRoundTrip.

(** The example runtime's extra-inhabitant witnesses keep the contract. *)
Lemma exampleRuntime_xiWitnessesSound bytes takable :
  xiWitnessesSound (RT := exampleRuntime bytes takable).
Proof.
  unfold xiWitnessesSound. cbn [effect vw_size vw_getEnumTagSinglePayload exampleRuntime].
  repeat split.
  - intros xiType enum whichCase numEmptyCases m x Hx. unfold update.
    destruct (x =? enum) eqn:E; [apply Z.eqb_eq in E; lia | reflexivity].
  - intros xiType enum numEmptyCases m m' H. rewrite (H enum) by lia. reflexivity.
  - intros xiType enum whichCase numEmptyCases m Hcase _. unfold update.
    rewrite Z.eqb_refl.
    assert (whichCase <= 16).
    { unfold numExtraInhabitantsOf in Hcase.
      cbn [vw_getNumExtraInhabitants exampleRuntime] in Hcase.
      destruct (xiType =? 0); [lia|]. change (u32 16) with 16 in Hcase. lia. }
    unfold u8, wrap. rewrite Z.mod_small by lia.
    destruct (240 <=? 239 + whichCase) eqn:E; [lia | apply Z.leb_gt in E; lia].
Qed.

(** An enum of one payload case over an 8-byte payload whose type has 16
    extra inhabitants, and 20 empty cases: a [SinglePayloadEnumGeneric] with
    one extra tag byte ([payloadSize = 8], [xiType = 77],
    [numEmptyCases = 20], [refCountBytes = 8], [skip = 9]) around
    [(NativeStrong, 0)], then [(End, 7)]. *)
Definition genericOptional : list Z :=
  exampleHeader ++ instr 19 0
    ++ encodeLE 8 (Z.shiftl 1 62) ++ encodeLE 8 8 ++ encodeLE 8 77 ++ encodeLE 4 20
    ++ encodeLE 8 8 ++ encodeLE 8 9
    ++ instr 2 0 ++ instr 0 7.

(** Inject, then read the tag back, on an example value. *)
Definition tagAfterInject {RT : Runtime} (shape : EnumShape) (tag : Z) (m : Memory)
  : option Z :=
  match destructiveInjectEnumTag shape 1000 tag 0 (emptyWorld m) with
  | Some w' => getEnumTag shape 1000 0 (mem w')
  | None => None
  end.

Example round_trip_optionalOfStrong :
  map (fun t => tagAfterInject (RT := exampleRuntime optionalOfStrong false)
                  SimpleShape t (wordAt 1000 0x7001)) [0; 1]
  = [Some 0; Some 1].
Proof. vm_compute. reflexivity. Qed.

Example round_trip_genericOptional :
  map (fun t => tagAfterInject (RT := exampleRuntime genericOptional false)
                  SinglePayloadGenericShape t (wordAt 1000 0x7001)) [0; 1; 16; 17; 20]
  = [Some 0; Some 1; Some 16; Some 17; Some 20].
Proof. vm_compute. reflexivity. Qed.

Example round_trip_twoPayloads :
  map (fun t => tagAfterInject (RT := exampleRuntime twoPayloads false)
                  MultiPayloadGenericShape t (wordAt 1000 0x7001)) [0; 1; 2; 300]
  = [Some 0; Some 1; Some 2; Some 300].
Proof. vm_compute. reflexivity. Qed.



(** ** Self-assignment *)

(** What a runtime call adds to the reference count of [object]: the
    retaining calls add one, the releasing calls take one away. *)
Definition refcountChange (object : Z) (e : Event) : Z :=
  match e with
  | swift_errorRetain o | swift_retain o | swift_unownedRetain o
  | swift_unknownObjectRetain o | swift_bridgeObjectRetain o | Block_copy o
  | objc_retain o => if o =? object then 1 else 0
  | swift_errorRelease o | swift_release o | swift_unownedRelease o
  | swift_unknownObjectRelease o | swift_bridgeObjectRelease o | Block_release o
  | objc_release o => if o =? object then -1 else 0
  | _ => 0
  end.

Definition netRefcountChange (object : Z) (t : list Event) : Z :=
  fold_right (fun e n => refcountChange object e + n) 0 t.

(** [(Block, 0) (End, 8)]: one block reference in a 16-byte value. *)
Definition oneBlock : list Z := exampleHeader ++ instr 9 0 ++ instr 0 8.

(** A multi-payload enum of 9 bytes in a 16-byte value whose only payload
    case holds a block reference: [tagBytes = 1], [numPayloads = 1],
    [refCountBytes = 16], [enumSize = 9]; payload 0 is [(Block, 0) (End, 0)];
    then [(End, 7)]. *)
Definition blockPayload : list Z :=
  exampleHeader ++ instr 22 0
    ++ encodeLE 8 1 ++ encodeLE 8 1 ++ encodeLE 8 16 ++ encodeLE 8 9
    ++ encodeLE 8 0
    ++ instr 9 0 ++ instr 0 0
    ++ instr 0 7.

(** The runtime calls of [swift_generic_assignWithCopy (p, p)] on the value
    at 1000 holding [object], and what they add to its reference count. *)
Definition selfAssign (bytes : list Z) (object : Z) : option (list Event * Z) :=
  option_map (fun s => (trace (world s), netRefcountChange object (trace (world s))))
    (swift_generic_assignWithCopy (RT := exampleRuntime bytes false) 4 1000 1000 0
       (emptyWorld (wordAt 1000 object))).

(** C4 (the code at the failing input). Assigning a value to itself: a block
    reference that is a field of the value is released and copied, the
    count of the block is what it was. The same block reference as the
    payload of a multi-payload enum goes through [handleRefCountsDestroy],
    whose block handler hands the address of the field, 1000, to
    [_Block_release], and then through [handleRefCountsInitWithCopy], which
    copies the block: the count of the block is one higher. A strong
    reference in the same place is released and retained. *)
Theorem self_assignment_of_block_payload :
  selfAssign oneBlock 0x7000 = Some ([Block_copy 0x7000; Block_release 0x7000], 0)
  /\ selfAssign blockPayload 0x7000 = Some ([Block_copy 0x7000; Block_release 1000], 1)
  /\ selfAssign twoPayloads 0x7000 = Some ([swift_retain 0x7000; swift_release 0x7000], 0).
Proof. repeat split; vm_compute; reflexivity. Qed.

(** ** Cursor exactness *)

(** What one instruction does to reader and cursor, read off the layout
    string alone: the stream ends, or goes on at a position with a cursor,
    or (single-payload enums) goes on inside the nested sub-stream with the
    cursor at the enum, or behind it with the cursor moved by [skip]. *)
Inductive Step : Type :=
| StepEnd (cursor : Z)
| StepNext (position cursor : Z)
| StepSingle (nested end_ cursor skip_ : Z).

Section WellFormed.

Context {RT : Runtime} {ls : LayoutString}.
Variable metadata : Z.

Definition field (pos : Z) (n : nat) : option Z := readAt lsBytes pos n.

(** The step of the instruction of kind [kind] whose data starts at [pos],
    the cursor being [cursor] once the offset of the instruction word is
    added. *)
Definition decodeBody (kind pos cursor : Z) : option Step :=
  match kind with
  | 0 => Some (StepEnd cursor)
  | 1 | 2 | 3 | 4 | 5 | 6 | 7 | 8 | 9 | 10 => Some (StepNext pos (u64 (cursor + 8)))
  | 12 =>
      match field pos 8 with
      | Some type => Some (StepNext (pos + 8) (u64 (cursor + vw_size type)))
      | None => None
      end
  | 14 => Some (StepNext pos (u64 (cursor + 8 * NumWords_ValueBuffer)))
  | 15 =>
      match field pos 8 with
      | Some relativeOffset =>
          let fn := u64 (lsBase + pos + sext32 relativeOffset) in
          let type := callMetadataAccessor fn (getGenericArgs metadata) in
          Some (StepNext (pos + 8) (u64 (cursor + vw_size type)))
      | None => None
      end
  | 16 =>
      match field (pos + 32) 8, field (pos + 40) 8 with
      | Some refCountBytes, Some skip_ =>
          Some (StepSingle (pos + 48) (pos + 48 + refCountBytes) cursor skip_)
      | _, _ => None
      end
  | 17 | 18 =>
      match field (pos + 8) 8, field (pos + 16) 8 with
      | Some refCountBytes, Some skip_ =>
          Some (StepSingle (pos + 24) (pos + 24 + refCountBytes) cursor skip_)
      | _, _ => None
      end
  | 19 =>
      match field (pos + 28) 8, field (pos + 36) 8 with
      | Some refCountBytes, Some skip_ =>
          Some (StepSingle (pos + 44) (pos + 44 + refCountBytes) cursor skip_)
      | _, _ => None
      end
  | 20 | 21 | 22 =>
      match field (pos + 8) 8, field (pos + 16) 8, field (pos + 24) 8 with
      | Some numPayloads, Some refCountBytes, Some enumSize =>
          Some (StepNext (pos + 32 + u64 (refCountBytes + u64 (numPayloads * 8)))
                  (u64 (cursor + enumSize)))
      | _, _, _ => None
      end
  | _ => None
  end.

(** The step of the instruction at [pos]. *)
Definition decode (pos cursor : Z) : option Step :=
  match field pos 8 with
  | Some tag => decodeBody (kindOf tag) (pos + 8) (u64 (cursor + offsetOf tag))
  | None => None
  end.

(** A position is before the end of the sub-stream it belongs to. *)
Definition inside (pos : Z) (target : option Z) : Prop :=
  match target with
  | Some end_ => pos < end_
  | None => True
  end.

(** [wellFormedFrom pos cursor target final]: the instructions from [pos]
    on, started with the cursor at [cursor], lead to the cursor [final]: at
    their [End] instruction ([target = None]), or at the position [end_]
    with no [End] before it ([target = Some end_]). The nested sub-stream of
    a single-payload enum ends where its [refCountBytes] say and moves the
    cursor by [skip]. *)
Inductive wellFormedFrom : Z -> Z -> option Z -> Z -> Prop :=
| wf_here end_ cursor : wellFormedFrom end_ cursor (Some end_) cursor
| wf_End pos cursor final :
    decode pos cursor = Some (StepEnd final) ->
    wellFormedFrom pos cursor None final
| wf_Next pos cursor pos' cursor' target final :
    inside pos target ->
    decode pos cursor = Some (StepNext pos' cursor') ->
    wellFormedFrom pos' cursor' target final ->
    wellFormedFrom pos cursor target final
| wf_Single pos cursor nested end_ cursor0 skip_ target final :
    inside pos target ->
    decode pos cursor = Some (StepSingle nested end_ cursor0 skip_) ->
    wellFormedFrom nested cursor0 (Some end_) (u64 (cursor0 + skip_)) ->
    wellFormedFrom end_ (u64 (cursor0 + skip_)) target final ->
    wellFormedFrom pos cursor target final.

End WellFormed.

(** The layout string of [metadata] is well formed for the size the type
    reports. *)
Definition wellFormed {RT : Runtime} (metadata : Z) : Prop :=
  wellFormedFrom (ls := getLayoutString metadata) metadata
    layoutStringHeaderSize 0 None (vw_size metadata).

(** The state has its reader at [pos] and its cursor at [cursor]. *)
Definition stateAt (s : State) (pos cursor : Z) : Prop :=
  reader s = pos /\ addrOffset s = cursor.

Lemma wellFormedFrom_le {RT : Runtime} {ls : LayoutString} metadata pos cursor end_ final :
  wellFormedFrom metadata pos cursor (Some end_) final -> pos <= end_.
Proof.
  intros H. remember (Some end_) as target eqn:Et.
  induction H; inversion Et; subst; cbn [inside] in *; lia.
Qed.

(** A loop that runs the instructions of a layout string: a driver, or the
    loop over a nested sub-stream with its limit. What is asked of it is
    that a run from an instruction goes through the state the instruction
    leads to. *)
Section Machine.

Context {RT : Runtime} {ls : LayoutString}.
Variable metadata : Z.
Variable run : nat -> M unit.
Variable limit : option Z.

Definition below (pos : Z) : Prop :=
  match limit with
  | Some end_ => pos < end_
  | None => True
  end.

Definition withinLimit (end_ : Z) : Prop :=
  match limit with
  | Some l => end_ <= l
  | None => True
  end.

(** A run from [s] that ends in [sf] goes through a state at [pos'],
    [cursor']. *)
Definition passes (s sf : State) (fuel : nat) (pos' cursor' : Z) : Prop :=
  run fuel s = Some (tt, sf) ->
  exists fuel' s', stateAt s' pos' cursor' /\ run fuel' s' = Some (tt, sf).

(** [stepOf fuel kind s0 s1]: the table entry of [kind], run in [s0], ends
    in [s1]. [ends s0 sf]: what an [End] instruction, its offset added in
    [s0], makes the result [sf] of. *)
Variable stepOf : nat -> Z -> State -> State -> Prop.
Variable ends : State -> State -> Prop.

(** One turn of the loop: the instruction word is read, its offset added
    to the cursor, and the entry of its kind run. *)
Hypothesis turn : forall fuel s sf,
  below (reader s) -> run fuel s = Some (tt, sf) ->
  exists fuel' tag s0,
    readAt lsBytes (reader s) 8 = Some tag
    /\ stateAt s0 (reader s + 8) (u64 (addrOffset s + offsetOf tag))
    /\ if kindOf tag =? 0 then ends s0 sf
       else exists s1, stepOf fuel' (kindOf tag) s0 s1 /\ run fuel' s1 = Some (tt, sf).

Hypothesis step_next : forall fuel kind pos cursor pos' cursor' s0 s1,
  decodeBody metadata kind pos cursor = Some (StepNext pos' cursor') ->
  stateAt s0 pos cursor -> stepOf fuel kind s0 s1 -> stateAt s1 pos' cursor'.

Hypothesis step_single : forall fuel kind pos cursor nested end_ cursor0 skip_ s0 s1,
  decodeBody metadata kind pos cursor = Some (StepSingle nested end_ cursor0 skip_) ->
  wellFormedFrom metadata nested cursor0 (Some end_) (u64 (cursor0 + skip_)) ->
  stateAt s0 pos cursor -> stepOf fuel kind s0 s1 ->
  stateAt s1 nested cursor0 \/ stateAt s1 end_ (u64 (cursor0 + skip_)).

Lemma decodeBody_not_End kind pos cursor step :
  decodeBody metadata kind pos cursor = Some step ->
  (forall c, step <> StepEnd c) -> (kind =? 0) = false.
Proof.
  intros Hdec Hstep. destruct (kind =? 0) eqn:E; [|reflexivity].
  apply Z.eqb_eq in E. subst kind. cbn in Hdec. inversion Hdec; subst.
  exfalso. exact (Hstep _ eq_refl).
Qed.

Lemma run_next pos cursor pos' cursor' fuel s sf :
  below pos -> decode metadata pos cursor = Some (StepNext pos' cursor') ->
  stateAt s pos cursor -> passes s sf fuel pos' cursor'.
Proof.
  intros Hb Hdec [Hr Ho] Hrun. subst pos cursor.
  destruct (turn fuel s sf Hb Hrun) as (fuel' & tag & s0 & Htag & Hs0 & Hkind).
  unfold decode, field in Hdec. rewrite Htag in Hdec.
  rewrite (decodeBody_not_End _ _ _ _ Hdec) in Hkind by discriminate.
  destruct Hkind as (s1 & Hstep & Hrun1).
  exists fuel', s1. split; [|exact Hrun1].
  exact (step_next _ _ _ _ _ _ _ _ Hdec Hs0 Hstep).
Qed.

Lemma run_single pos cursor nested end_ cursor0 skip_ fuel s sf :
  below pos -> decode metadata pos cursor = Some (StepSingle nested end_ cursor0 skip_) ->
  wellFormedFrom metadata nested cursor0 (Some end_) (u64 (cursor0 + skip_)) ->
  stateAt s pos cursor ->
  run fuel s = Some (tt, sf) ->
  exists fuel' s',
    (stateAt s' nested cursor0 \/ stateAt s' end_ (u64 (cursor0 + skip_)))
    /\ run fuel' s' = Some (tt, sf).
Proof.
  intros Hb Hdec Hnested [Hr Ho] Hrun. subst pos cursor.
  destruct (turn fuel s sf Hb Hrun) as (fuel' & tag & s0 & Htag & Hs0 & Hkind).
  unfold decode, field in Hdec. rewrite Htag in Hdec.
  rewrite (decodeBody_not_End _ _ _ _ Hdec) in Hkind by discriminate.
  destruct Hkind as (s1 & Hstep & Hrun1).
  exists fuel', s1. split; [|exact Hrun1].
  exact (step_single _ _ _ _ _ _ _ _ _ _ Hdec Hnested Hs0 Hstep).
Qed.

Lemma below_inside pos end_ : pos < end_ -> withinLimit end_ -> below pos.
Proof. unfold withinLimit, below. destruct limit; [lia | trivial]. Qed.

Lemma withinLimit_le e1 e2 : e1 <= e2 -> withinLimit e2 -> withinLimit e1.
Proof. unfold withinLimit. destruct limit; [lia | trivial]. Qed.

(** A run from the start of a nested sub-stream goes through its end. *)
Lemma run_segment pos cursor end_ final :
  wellFormedFrom metadata pos cursor (Some end_) final ->
  withinLimit end_ ->
  forall fuel s sf, stateAt s pos cursor -> passes s sf fuel end_ final.
Proof.
  intros H. remember (Some end_) as target eqn:Et. revert end_ Et.
  induction H as [e c | | pos cursor pos' cursor' target final Hin Hdec Hrest IH
                 | pos cursor nested e1 cursor0 skip_ target final Hin Hdec Hnested IH1
                     Hrest IH2];
    intros end_ Et Hlim fuel s sf Hs Hrun.
  - inversion Et; subst. exists fuel, s. split; assumption.
  - discriminate.
  - subst target. cbn [inside] in Hin.
    destruct (run_next pos cursor pos' cursor' fuel s sf
                (below_inside _ _ Hin Hlim) Hdec Hs Hrun) as (fuel1 & s1 & Hs1 & Hrun1).
    exact (IH end_ eq_refl Hlim fuel1 s1 sf Hs1 Hrun1).
  - subst target. cbn [inside] in Hin.
    pose proof (wellFormedFrom_le _ _ _ _ _ Hrest) as Hle.
    destruct (run_single pos cursor nested e1 cursor0 skip_ fuel s sf
                (below_inside _ _ Hin Hlim) Hdec Hnested Hs Hrun)
      as (fuel1 & s1 & [Hs1 | Hs1] & Hrun1).
    + destruct (IH1 e1 eq_refl (withinLimit_le _ _ Hle Hlim) fuel1 s1 sf Hs1 Hrun1)
        as (fuel2 & s2 & Hs2 & Hrun2).
      exact (IH2 end_ eq_refl Hlim fuel2 s2 sf Hs2 Hrun2).
    + exact (IH2 end_ eq_refl Hlim fuel1 s1 sf Hs1 Hrun1).
Qed.

(** A driver, which has no limit, ends with the cursor the stream leads to. *)
Hypothesis no_limit : limit = None.

Hypothesis ends_cursor : forall s0 sf, ends s0 sf -> addrOffset sf = addrOffset s0.

Lemma run_end pos cursor final fuel s sf :
  decode metadata pos cursor = Some (StepEnd final) ->
  stateAt s pos cursor -> run fuel s = Some (tt, sf) -> addrOffset sf = final.
Proof.
  intros Hdec [Hr Ho] Hrun. subst pos cursor.
  assert (Hb : below (reader s)) by (unfold below; rewrite no_limit; trivial).
  destruct (turn fuel s sf Hb Hrun) as (fuel' & tag & s0 & Htag & Hs0 & Hkind).
  unfold decode, field in Hdec. rewrite Htag in Hdec.
  destruct (kindOf tag =? 0) eqn:E.
  - apply Z.eqb_eq in E. rewrite E in Hdec. cbn in Hdec. inversion Hdec; subst.
    rewrite (ends_cursor _ _ Hkind). exact (proj2 Hs0).
  - exfalso. unfold decodeBody in Hdec. apply Z.eqb_neq in E.
    destruct (kindOf tag) as [|k|k]; [congruence | | discriminate].
    do 5 (try destruct k as [k|k|]); cbv beta iota in Hdec;
      repeat match type of Hdec with
             | context [match field ?p ?n with Some _ => _ | None => _ end] =>
                 destruct (field p n)
             end; discriminate.
Qed.

Lemma run_stream pos cursor final :
  wellFormedFrom metadata pos cursor None final ->
  forall fuel s sf, stateAt s pos cursor -> run fuel s = Some (tt, sf) ->
  addrOffset sf = final.
Proof.
  assert (Hb : forall p, below p) by (intros p; unfold below; rewrite no_limit; trivial).
  assert (Hl : forall e, withinLimit e)
    by (intros e; unfold withinLimit; rewrite no_limit; trivial).
  intros H. remember (@None Z) as target eqn:Et in H.
  induction H as [e c | pos cursor final Hdec
                 | pos cursor pos' cursor' target final Hin Hdec Hrest IH
                 | pos cursor nested e1 cursor0 skip_ target final Hin Hdec Hnested IH1
                     Hrest IH2];
    intros fuel s sf Hs Hrun.
  - discriminate.
  - exact (run_end pos cursor final fuel s sf Hdec Hs Hrun).
  - destruct (run_next pos cursor pos' cursor' fuel s sf (Hb pos) Hdec Hs Hrun)
      as (fuel1 & s1 & Hs1 & Hrun1).
    exact (IH Et fuel1 s1 sf Hs1 Hrun1).
  - destruct (run_single pos cursor nested e1 cursor0 skip_ fuel s sf
                (Hb pos) Hdec Hnested Hs Hrun) as (fuel1 & s1 & [Hs1 | Hs1] & Hrun1).
    + destruct (run_segment nested cursor0 e1 _ Hnested (Hl e1) fuel1 s1 sf Hs1 Hrun1)
        as (fuel2 & s2 & Hs2 & Hrun2).
      exact (IH2 Et fuel2 s2 sf Hs2 Hrun2).
    + exact (IH2 Et fuel1 s1 sf Hs1 Hrun1).
Qed.

End Machine.

(** Split a kind into the values a table has entries for. *)
Ltac kind_cases k :=
  destruct k as [|k|k];
  [ | do 5 (try destruct k as [k|k|]) | ];
  cbv beta iota in *; try discriminate.

(** Run a handler whose result is known to the end, and read the reader and
    the cursor off the state it ends in. *)
Ltac monad_in H :=
  cbv beta iota zeta delta
    [modify bind ret lift fail call advance skip loadWord storeBytes copyBytes
     getAddrOffset setAddrOffset getReader setReader getMem putMem readBytes
     getAbsolute readRelativeFunctionPointer getResilientTypeMetadata
     getExistentialTypeMetadata] in H;
  cbn [reader addrOffset world mem trace] in H;
  change (Z.of_nat 8) with 8 in H; change (Z.of_nat 4) with 4 in H.

Ltac finish_run H :=
  monad_in H;
  repeat match type of H with
         | context [readAt ?b ?p ?n] =>
             match goal with
             | E : readAt b p n = _ |- _ => rewrite E in H
             end
         | context [if ?c then _ else _] => no_match c; destruct c
         end;
  match type of H with
  | Some (tt, ?s) = Some (tt, ?s1) =>
      replace s1 with s by congruence; clear H; cbn [reader addrOffset]
  end.

(** The reads a decoded step rests on. *)
Ltac decoded H :=
  repeat match type of H with
         | context [match readAt ?b ?p ?n with Some _ => _ | None => _ end] =>
             destruct (readAt b p n) eqn:?
         end;
  try discriminate; inversion H; subst; clear H.

Ltac behind_multi Hdec Hrun :=
  let N := fresh "N" in let rcb := fresh "rcb" in let E := fresh "E" in
  let H1 := fresh in let H2 := fresh in let H3 := fresh in
  let Ho := fresh in let Hr := fresh in
  destruct Hrun as (N & rcb & E & H1 & H2 & H3 & Ho & Hr);
  rewrite H1, H2, H3 in Hdec; inversion Hdec; subst; clear Hdec;
  split; [rewrite Hr; lia | exact Ho].

(** The multi-payload entries, by the cursor lemma of their family. *)
Ltac multi_entry Hdec Hrun :=
  lazymatch type of Hrun with
  | multiPayloadEnumFNBranchless1 _ _ _ _ = _ =>
      apply (multiPayload1_cursor FNPayloads) in Hrun; behind_multi Hdec Hrun
  | multiPayloadEnumFNResolvedBranchless1 _ _ _ _ = _ =>
      apply (multiPayload1_cursor FNResolvedPayloads) in Hrun; behind_multi Hdec Hrun
  | multiPayloadEnumGenericBranchless1 _ _ _ _ = _ =>
      apply (multiPayload1_cursor GenericPayloads) in Hrun; behind_multi Hdec Hrun
  | multiPayloadEnumFNBranchless2 _ _ _ _ _ = _ =>
      apply (multiPayload2_cursor FNPayloads) in Hrun; behind_multi Hdec Hrun
  | multiPayloadEnumFNResolvedBranchless2 _ _ _ _ _ = _ =>
      apply (multiPayload2_cursor FNResolvedPayloads) in Hrun; behind_multi Hdec Hrun
  | multiPayloadEnumGenericBranchless2 _ _ _ _ _ = _ =>
      apply (multiPayload2_cursor GenericPayloads) in Hrun; behind_multi Hdec Hrun
  | multiPayloadEnumFNAssignWithCopy _ _ _ _ _ = _ =>
      apply (multiPayloadAssign_cursor FNPayloads) in Hrun; behind_multi Hdec Hrun
  | multiPayloadEnumFNResolvedAssignWithCopy _ _ _ _ _ = _ =>
      apply (multiPayloadAssign_cursor FNResolvedPayloads) in Hrun; behind_multi Hdec Hrun
  | multiPayloadEnumGenericAssignWithCopy _ _ _ _ _ = _ =>
      apply (multiPayloadAssign_cursor GenericPayloads) in Hrun; behind_multi Hdec Hrun
  | _ => idtac
  end.

(** The single-payload entries of the destroy, copy and take tables, by the
    cursor lemma of their family. *)
Ltac single_entry Hrun :=
  lazymatch type of Hrun with
  | singlePayloadEnumSimpleBranchless1 _ _ _ = _ =>
      apply (singlePayload1_cursor SimpleFamily) in Hrun
  | singlePayloadEnumFNBranchless1 _ _ _ = _ =>
      apply (singlePayload1_cursor FNFamily) in Hrun
  | singlePayloadEnumFNResolvedBranchless1 _ _ _ = _ =>
      apply (singlePayload1_cursor FNResolvedFamily) in Hrun
  | singlePayloadEnumGenericBranchless1 _ _ _ = _ =>
      apply (singlePayload1_cursor GenericFamily) in Hrun
  | singlePayloadEnumSimpleBranchless2 _ _ _ _ = _ =>
      apply (singlePayload2_cursor SimpleFamily) in Hrun
  | singlePayloadEnumFNBranchless2 _ _ _ _ = _ =>
      apply (singlePayload2_cursor FNFamily) in Hrun
  | singlePayloadEnumFNResolvedBranchless2 _ _ _ _ = _ =>
      apply (singlePayload2_cursor FNResolvedFamily) in Hrun
  | singlePayloadEnumGenericBranchless2 _ _ _ _ = _ =>
      apply (singlePayload2_cursor GenericFamily) in Hrun
  end.

Ltac behind_single Hdec Hrun :=
  let rcb := fresh "rcb" in let sk := fresh "sk" in
  let H1 := fresh in let H2 := fresh in let Ho := fresh in let Hr := fresh in
  unfold behindSinglePayload in Hrun;
  cbn [headerBytes refCountBytesAt skipAt] in Hrun;
  destruct Hrun as [[Hr Ho] | (rcb & sk & H1 & H2 & Hr & Ho)];
  [ decoded Hdec; left; split; [rewrite Hr; lia | exact Ho]
  | rewrite H1, H2 in Hdec; inversion Hdec; subst; clear Hdec;
    right; split; [rewrite Hr; lia | exact Ho] ].

Section TableSteps.

Context {RT : Runtime} {ls : LayoutString}.
Variable metadata : Z.

Lemma destroyTable_next (rec : DestrFnBranchless) addr kind pos cursor pos' cursor'
  handler s s1 :
  decodeBody metadata kind pos cursor = Some (StepNext pos' cursor') ->
  destroyTableBranchless rec kind = Some handler ->
  stateAt s pos cursor ->
  handler metadata addr s = Some (tt, s1) ->
  stateAt s1 pos' cursor'.
Proof.
  intros Hdec Htab [Hr Ho] Hrun. subst pos cursor.
  unfold decodeBody, field, destroyTableBranchless, stateAt in *.
  kind_cases kind.
  all: inversion Htab; subst handler; clear Htab.
  all: multi_entry Hdec Hrun.
  all: decoded Hdec.
  all: unfold errorDestroyBranchless, nativeStrongDestroyBranchless,
         unownedDestroyBranchless, weakDestroyBranchless, unknownDestroyBranchless,
         unknownUnownedDestroyBranchless, unknownWeakDestroyBranchless,
         bridgeDestroyBranchless, blockDestroyBranchless, objcStrongDestroyBranchless,
         metatypeDestroyBranchless, existentialDestroyBranchless,
         resilientDestroyBranchless in Hrun.
  all: finish_run Hrun; split; reflexivity.
Qed.

Lemma initWithCopyTable_next (rec : InitFn) dest src kind pos cursor pos' cursor'
  handler s s1 :
  decodeBody metadata kind pos cursor = Some (StepNext pos' cursor') ->
  initWithCopyTable rec kind = Some handler ->
  stateAt s pos cursor ->
  handler metadata dest src s = Some (tt, s1) ->
  stateAt s1 pos' cursor'.
Proof.
  intros Hdec Htab [Hr Ho] Hrun. subst pos cursor.
  unfold decodeBody, field, initWithCopyTable, stateAt in *.
  kind_cases kind.
  all: inversion Htab; subst handler; clear Htab.
  all: multi_entry Hdec Hrun.
  all: decoded Hdec.
  all: unfold errorRetainBranchless, nativeStrongRetainBranchless,
         unownedRetainBranchless, weakCopyInitBranchless, unknownRetainBranchless,
         unknownUnownedCopyInitBranchless, unknownWeakCopyInitBranchless,
         bridgeRetainBranchless, blockCopyBranchless, objcStrongRetainBranchless,
         metatypeInitWithCopyBranchless, existentialInitWithCopyBranchless,
         resilientInitWithCopyBranchless in Hrun.
  all: finish_run Hrun; split; reflexivity.
Qed.

(** An entry of the take table, or the copy of one word the driver makes
    for a null entry. *)
Definition takeEntry (rec : InitFn) (dest src kind : Z) (s0 s1 : State) : Prop :=
  match initWithTakeTable rec kind with
  | Some (Some handler) => handler metadata dest src s0 = Some (tt, s1)
  | Some None => stateAt s1 (reader s0) (u64 (addrOffset s0 + 8))
  | None => False
  end.

Lemma initWithTakeTable_next (rec : InitFn) dest src kind pos cursor pos' cursor' s s1 :
  decodeBody metadata kind pos cursor = Some (StepNext pos' cursor') ->
  stateAt s pos cursor ->
  takeEntry rec dest src kind s s1 ->
  stateAt s1 pos' cursor'.
Proof.
  intros Hdec [Hr Ho] Hrun. subst pos cursor.
  unfold decodeBody, field, takeEntry, initWithTakeTable, stateAt in *.
  kind_cases kind.
  all: multi_entry Hdec Hrun.
  all: decoded Hdec.
  all: try exact Hrun.
  all: unfold unknownWeakInitWithTake, bridgeRetainBranchless, metatypeInitWithTake,
         existentialInitWithTake, resilientInitWithTake in Hrun.
  all: finish_run Hrun; split; reflexivity.
Qed.

Lemma assignWithCopyTable_next fuel dest src kind pos cursor pos' cursor' handler s s1 :
  decodeBody metadata kind pos cursor = Some (StepNext pos' cursor') ->
  assignWithCopyTable fuel kind = Some handler ->
  stateAt s pos cursor ->
  handler metadata dest src s = Some (tt, s1) ->
  stateAt s1 pos' cursor'.
Proof.
  intros Hdec Htab [Hr Ho] Hrun. subst pos cursor.
  unfold decodeBody, field, assignWithCopyTable, stateAt in *.
  kind_cases kind.
  all: inversion Htab; subst handler; clear Htab.
  all: multi_entry Hdec Hrun.
  all: decoded Hdec.
  all: unfold errorAssignWithCopy, nativeStrongAssignWithCopy, unownedAssignWithCopy,
         weakAssignWithCopy, unknownAssignWithCopy, unknownUnownedAssignWithCopy,
         unknownWeakAssignWithCopy, bridgeAssignWithCopy, blockAssignWithCopy,
         objcStrongAssignWithCopy, metatypeAssignWithCopy, existentialAssignWithCopy,
         resilientAssignWithCopy in Hrun.
  all: finish_run Hrun; split; reflexivity.
Qed.

Lemma destroyTable_single (rec : DestrFnBranchless) addr kind pos cursor
  nested end_ cursor0 skip_ handler s s1 :
  decodeBody metadata kind pos cursor = Some (StepSingle nested end_ cursor0 skip_) ->
  destroyTableBranchless rec kind = Some handler ->
  stateAt s pos cursor ->
  handler metadata addr s = Some (tt, s1) ->
  stateAt s1 nested cursor0 \/ stateAt s1 end_ (u64 (cursor0 + skip_)).
Proof.
  intros Hdec Htab [Hr Ho] Hrun. subst pos cursor.
  unfold decodeBody, field, destroyTableBranchless, stateAt in *.
  kind_cases kind.
  all: try (decoded Hdec; fail).
  all: inversion Htab; subst handler; clear Htab.
  all: single_entry Hrun; behind_single Hdec Hrun.
Qed.

Lemma initWithCopyTable_single (rec : InitFn) dest src kind pos cursor
  nested end_ cursor0 skip_ handler s s1 :
  decodeBody metadata kind pos cursor = Some (StepSingle nested end_ cursor0 skip_) ->
  initWithCopyTable rec kind = Some handler ->
  stateAt s pos cursor ->
  handler metadata dest src s = Some (tt, s1) ->
  stateAt s1 nested cursor0 \/ stateAt s1 end_ (u64 (cursor0 + skip_)).
Proof.
  intros Hdec Htab [Hr Ho] Hrun. subst pos cursor.
  unfold decodeBody, field, initWithCopyTable, stateAt in *.
  kind_cases kind.
  all: try (decoded Hdec; fail).
  all: inversion Htab; subst handler; clear Htab.
  all: single_entry Hrun; behind_single Hdec Hrun.
Qed.

Lemma initWithTakeTable_single (rec : InitFn) dest src kind pos cursor
  nested end_ cursor0 skip_ s s1 :
  decodeBody metadata kind pos cursor = Some (StepSingle nested end_ cursor0 skip_) ->
  stateAt s pos cursor ->
  takeEntry rec dest src kind s s1 ->
  stateAt s1 nested cursor0 \/ stateAt s1 end_ (u64 (cursor0 + skip_)).
Proof.
  intros Hdec [Hr Ho] Hrun. subst pos cursor.
  unfold decodeBody, field, takeEntry, initWithTakeTable, stateAt in *.
  kind_cases kind.
  all: try (decoded Hdec; fail).
  all: single_entry Hrun; behind_single Hdec Hrun.
Qed.

End TableSteps.

Section Loops.

Context {RT : Runtime} {ls : LayoutString}.
Variable metadata : Z.

(** The entry of a kind in the copy table, run. *)
Definition copyEntry (rec : InitFn) (dest src : Z) (kind : Z) (s0 s1 : State) : Prop :=
  exists handler,
    initWithCopyTable rec kind = Some handler
    /\ handler metadata dest src s0 = Some (tt, s1).

Definition destroyEntry (rec : DestrFnBranchless) (addr : Z) (kind : Z) (s0 s1 : State)
  : Prop :=
  exists handler,
    destroyTableBranchless rec kind = Some handler
    /\ handler metadata addr s0 = Some (tt, s1).

Definition assignEntry (fuel : nat) (dest src : Z) (kind : Z) (s0 s1 : State) : Prop :=
  exists handler,
    assignWithCopyTable fuel kind = Some handler
    /\ handler metadata dest src s0 = Some (tt, s1).

(** One turn of [while (reader.layoutStr < end) body]. *)
Lemma whileReaderBelow_turn fuel end_ body s sf :
  reader s < end_ ->
  whileReaderBelow fuel end_ body s = Some (tt, sf) ->
  exists fuel' s1,
    body s = Some (tt, s1) /\ whileReaderBelow fuel' end_ body s1 = Some (tt, sf).
Proof.
  intros Hlt Hrun. destruct fuel as [|fuel']; [discriminate|].
  cbn [whileReaderBelow] in Hrun. monad_in Hrun.
  apply Z.ltb_lt in Hlt. rewrite Hlt in Hrun.
  destruct (body s) as [[[] s1]|] eqn:Hbody; [|discriminate].
  exists fuel', s1. split; [reflexivity | exact Hrun].
Qed.

Lemma whileReaderBelow_done fuel end_ body s sf :
  end_ <= reader s ->
  whileReaderBelow fuel end_ body s = Some (tt, sf) -> sf = s.
Proof.
  intros Hge Hrun. destruct fuel as [|fuel']; [discriminate|].
  cbn [whileReaderBelow] in Hrun. monad_in Hrun.
  apply Z.ltb_ge in Hge. rewrite Hge in Hrun. congruence.
Qed.

Lemma copyLoop_turn fuel2 dest src end_ fuel s sf :
  below (Some end_) (reader s) ->
  whileReaderBelow fuel end_ (handleSingleRefCountInitWithCopy fuel2 metadata dest src) s
    = Some (tt, sf) ->
  exists fuel' tag s0,
    readAt lsBytes (reader s) 8 = Some tag
    /\ stateAt s0 (reader s + 8) (u64 (addrOffset s + offsetOf tag))
    /\ if kindOf tag =? 0 then True
       else exists s1,
           copyEntry (handleRefCountsInitWithCopy fuel2) dest src (kindOf tag) s0 s1
           /\ whileReaderBelow fuel' end_
                (handleSingleRefCountInitWithCopy fuel2 metadata dest src) s1
              = Some (tt, sf).
Proof.
  intros Hb Hrun. cbn [below] in Hb.
  destruct (whileReaderBelow_turn _ _ _ _ _ Hb Hrun) as (fuel' & s1 & Hbody & Hrest).
  unfold handleSingleRefCountInitWithCopy in Hbody. monad_in Hbody.
  destruct (readAt lsBytes (reader s) 8) as [tag|] eqn:Htag; [|discriminate].
  cbv beta iota in Hbody. cbn [reader addrOffset world] in Hbody.
  exists fuel', tag,
    {| reader := reader s + 8; addrOffset := u64 (addrOffset s + offsetOf tag);
       world := world s |}.
  split; [reflexivity|]. split; [split; reflexivity|].
  destruct (kindOf tag =? 0); [trivial|].
  destruct (initWithCopyTable _ (kindOf tag)) as [handler|] eqn:Htab; [|discriminate].
  cbv beta iota in Hbody. exists s1. split; [|exact Hrest].
  exists handler. split; [exact Htab | exact Hbody].
Qed.

Lemma destroyLoop_turn fuel2 addr end_ fuel s sf :
  below (Some end_) (reader s) ->
  whileReaderBelow fuel end_ (handleSingleRefCountDestroy fuel2 metadata addr) s
    = Some (tt, sf) ->
  exists fuel' tag s0,
    readAt lsBytes (reader s) 8 = Some tag
    /\ stateAt s0 (reader s + 8) (u64 (addrOffset s + offsetOf tag))
    /\ if kindOf tag =? 0 then True
       else exists s1,
           destroyEntry (handleRefCountsDestroy fuel2) addr (kindOf tag) s0 s1
           /\ whileReaderBelow fuel' end_
                (handleSingleRefCountDestroy fuel2 metadata addr) s1
              = Some (tt, sf).
Proof.
  intros Hb Hrun. cbn [below] in Hb.
  destruct (whileReaderBelow_turn _ _ _ _ _ Hb Hrun) as (fuel' & s1 & Hbody & Hrest).
  unfold handleSingleRefCountDestroy in Hbody. monad_in Hbody.
  destruct (readAt lsBytes (reader s) 8) as [tag|] eqn:Htag; [|discriminate].
  cbv beta iota in Hbody. cbn [reader addrOffset world] in Hbody.
  exists fuel', tag,
    {| reader := reader s + 8; addrOffset := u64 (addrOffset s + offsetOf tag);
       world := world s |}.
  split; [reflexivity|]. split; [split; reflexivity|].
  destruct (kindOf tag =? 0); [trivial|].
  destruct (destroyTableBranchless _ (kindOf tag)) as [handler|] eqn:Htab; [|discriminate].
  cbv beta iota in Hbody. exists s1. split; [|exact Hrest].
  exists handler. split; [exact Htab | exact Hbody].
Qed.

Lemma copyEntry_next rec dest src kind pos cursor pos' cursor' s0 s1 :
  decodeBody metadata kind pos cursor = Some (StepNext pos' cursor') ->
  stateAt s0 pos cursor -> copyEntry rec dest src kind s0 s1 -> stateAt s1 pos' cursor'.
Proof.
  intros Hdec Hs (handler & Htab & Hrun).
  exact (initWithCopyTable_next metadata rec dest src _ _ _ _ _ _ _ _ Hdec Htab Hs Hrun).
Qed.

Lemma copyEntry_single rec dest src kind pos cursor nested end_ cursor0 skip_ s0 s1 :
  decodeBody metadata kind pos cursor = Some (StepSingle nested end_ cursor0 skip_) ->
  stateAt s0 pos cursor -> copyEntry rec dest src kind s0 s1 ->
  stateAt s1 nested cursor0 \/ stateAt s1 end_ (u64 (cursor0 + skip_)).
Proof.
  intros Hdec Hs (handler & Htab & Hrun).
  exact (initWithCopyTable_single metadata rec dest src _ _ _ _ _ _ _ _ _ _
           Hdec Htab Hs Hrun).
Qed.

Lemma destroyEntry_next rec addr kind pos cursor pos' cursor' s0 s1 :
  decodeBody metadata kind pos cursor = Some (StepNext pos' cursor') ->
  stateAt s0 pos cursor -> destroyEntry rec addr kind s0 s1 -> stateAt s1 pos' cursor'.
Proof.
  intros Hdec Hs (handler & Htab & Hrun).
  exact (destroyTable_next metadata rec addr _ _ _ _ _ _ _ _ Hdec Htab Hs Hrun).
Qed.

Lemma destroyEntry_single rec addr kind pos cursor nested end_ cursor0 skip_ s0 s1 :
  decodeBody metadata kind pos cursor = Some (StepSingle nested end_ cursor0 skip_) ->
  stateAt s0 pos cursor -> destroyEntry rec addr kind s0 s1 ->
  stateAt s1 nested cursor0 \/ stateAt s1 end_ (u64 (cursor0 + skip_)).
Proof.
  intros Hdec Hs (handler & Htab & Hrun).
  exact (destroyTable_single metadata rec addr _ _ _ _ _ _ _ _ _ _ Hdec Htab Hs Hrun).
Qed.

(** The loop of a copy-assign handler over the nested sub-stream, with the
    copy table: it ends at the end of the sub-stream with the cursor the
    sub-stream leads to. *)
Lemma copyLoop_segment fuel2 dest src nested cursor0 end_ final fuel s sf :
  wellFormedFrom metadata nested cursor0 (Some end_) final ->
  stateAt s nested cursor0 ->
  whileReaderBelow fuel end_ (handleSingleRefCountInitWithCopy fuel2 metadata dest src) s
    = Some (tt, sf) ->
  stateAt sf end_ final.
Proof.
  intros Hwf Hs Hrun.
  destruct (run_segment metadata
              (fun fuel => whileReaderBelow fuel end_
                             (handleSingleRefCountInitWithCopy fuel2 metadata dest src))
              (Some end_)
              (fun _ => copyEntry (handleRefCountsInitWithCopy fuel2) dest src)
              (fun _ _ => True)
              (copyLoop_turn fuel2 dest src end_)
              (fun _ kind pos cursor pos' cursor' s0 s1 =>
                 copyEntry_next _ dest src kind pos cursor pos' cursor' s0 s1)
              (fun _ kind pos cursor nested end_ cursor0 skip_ s0 s1 Hdec _ =>
                 copyEntry_single _ dest src kind pos cursor nested end_ cursor0 skip_
                   s0 s1 Hdec)
              nested cursor0 end_ final Hwf (Z.le_refl end_) fuel s sf Hs Hrun)
    as (fuel' & s' & Hs' & Hrun').
  apply whileReaderBelow_done in Hrun'; [subst sf; exact Hs' | destruct Hs'; lia].
Qed.

Lemma destroyLoop_segment fuel2 addr nested cursor0 end_ final fuel s sf :
  wellFormedFrom metadata nested cursor0 (Some end_) final ->
  stateAt s nested cursor0 ->
  whileReaderBelow fuel end_ (handleSingleRefCountDestroy fuel2 metadata addr) s
    = Some (tt, sf) ->
  stateAt sf end_ final.
Proof.
  intros Hwf Hs Hrun.
  destruct (run_segment metadata
              (fun fuel => whileReaderBelow fuel end_
                             (handleSingleRefCountDestroy fuel2 metadata addr))
              (Some end_)
              (fun _ => destroyEntry (handleRefCountsDestroy fuel2) addr)
              (fun _ _ => True)
              (destroyLoop_turn fuel2 addr end_)
              (fun _ kind pos cursor pos' cursor' s0 s1 =>
                 destroyEntry_next _ addr kind pos cursor pos' cursor' s0 s1)
              (fun _ kind pos cursor nested end_ cursor0 skip_ s0 s1 Hdec _ =>
                 destroyEntry_single _ addr kind pos cursor nested end_ cursor0 skip_
                   s0 s1 Hdec)
              nested cursor0 end_ final Hwf (Z.le_refl end_) fuel s sf Hs Hrun)
    as (fuel' & s' & Hs' & Hrun').
  apply whileReaderBelow_done in Hrun'; [subst sf; exact Hs' | destruct Hs'; lia].
Qed.

(** The tail of the single-payload copy-assign handlers. *)
Lemma singlePayloadAssignDispatch_cursor fuel dest src srcPayload destPayload
  refCountBytes skip_ nested cursor0 s s1 :
  wellFormedFrom metadata nested cursor0 (Some (nested + refCountBytes))
    (u64 (cursor0 + skip_)) ->
  stateAt s nested cursor0 ->
  singlePayloadAssignDispatch fuel metadata dest src srcPayload destPayload
    refCountBytes skip_ s = Some (tt, s1) ->
  stateAt s1 nested cursor0 \/ stateAt s1 (nested + refCountBytes) (u64 (cursor0 + skip_)).
Proof.
  intros Hwf Hs Hrun. pose proof Hs as [Hr Ho].
  unfold singlePayloadAssignDispatch in Hrun.
  destruct srcPayload, destPayload; cbn [andb] in Hrun; cbv beta iota in Hrun.
  - left. monad_in Hrun. congruence.
  - right. monad_in Hrun. rewrite Hr in Hrun.
    exact (copyLoop_segment _ _ _ _ _ _ _ _ _ _ Hwf Hs Hrun).
  - right. monad_in Hrun. rewrite Hr in Hrun.
    destruct (whileReaderBelow _ _ _ _) as [[[] s2]|] eqn:Hloop; [|discriminate].
    apply (destroyLoop_segment _ _ _ _ _ _ _ _ _ Hwf Hs) in Hloop.
    destruct Hloop as [Hr2 Ho2]. cbv beta iota in Hrun.
    cbn [reader addrOffset world mem trace] in Hrun.
    inversion Hrun; subst s1. split; cbn [reader addrOffset]; congruence.
  - right. monad_in Hrun. inversion Hrun; subst s1.
    split; cbn [reader addrOffset]; congruence.
Qed.

Lemma assignWithCopyTable_single fuel dest src kind pos cursor
  nested end_ cursor0 skip_ handler s s1 :
  decodeBody metadata kind pos cursor = Some (StepSingle nested end_ cursor0 skip_) ->
  wellFormedFrom metadata nested cursor0 (Some end_) (u64 (cursor0 + skip_)) ->
  assignWithCopyTable fuel kind = Some handler ->
  stateAt s pos cursor ->
  handler metadata dest src s = Some (tt, s1) ->
  stateAt s1 nested cursor0 \/ stateAt s1 end_ (u64 (cursor0 + skip_)).
Proof.
  intros Hdec Hwf Htab [Hr Ho] Hrun. subst pos cursor.
  unfold decodeBody, field, assignWithCopyTable in *.
  kind_cases kind.
  all: try (decoded Hdec; fail).
  all: inversion Htab; subst handler; clear Htab.
  all: decoded Hdec.
  all: unfold singlePayloadEnumSimpleAssignWithCopy, singlePayloadEnumFNAssignWithCopy,
         singlePayloadEnumFNResolvedAssignWithCopy,
         singlePayloadEnumGenericAssignWithCopy, readTag in Hrun.
  all: monad_in Hrun.
  all: repeat (match type of Hrun with
               | context [match readAt ?b ?p ?n with Some _ => _ | None => _ end] =>
                   destruct (readAt b p n) eqn:?; [|discriminate]
               | context [match readTagBytes ?m ?a ?n with Some _ => _ | None => _ end] =>
                   destruct (readTagBytes m a n); [|discriminate]
               | context [if ?c then _ else _] => no_match c; destruct c
               end;
               cbv beta iota in Hrun;
               cbn [fst snd reader addrOffset world mem trace] in Hrun;
               repeat match type of Hrun with
                      | context [?a + Zpos ?p + Zpos ?q] =>
                          let r := eval cbv in (Zpos p + Zpos q) in
                          replace (a + Zpos p + Zpos q) with (a + r) in Hrun by lia
                      end).
  all: same_reads.
  all: apply (singlePayloadAssignDispatch_cursor _ _ _ _ _ _ _ _ _ _ _ Hwf) in Hrun;
    [exact Hrun | split; cbn [reader addrOffset]; lia].
Qed.

End Loops.

Section Drivers.

Context {RT : Runtime} {ls : LayoutString}.
Variable metadata : Z.

(** What is left of a driver's run once an [End] instruction is read. *)
Definition endsAt (s0 sf : State) : Prop := addrOffset sf = addrOffset s0.

Ltac one_turn Hrun fuel :=
  destruct fuel as [|fuel]; [discriminate|];
  cbn [handleRefCountsDestroy handleRefCountsInitWithCopy handleRefCountsInitWithTake
       handleRefCountsAssignWithCopy] in Hrun;
  monad_in Hrun;
  match type of Hrun with
  | context [readAt ?b ?p ?n] => destruct (readAt b p n) as [tag|] eqn:Htag; [|discriminate]
  end;
  cbv beta iota in Hrun; cbn [reader addrOffset world mem trace] in Hrun.

Lemma destroy_turn addr fuel s sf :
  handleRefCountsDestroy fuel metadata addr s = Some (tt, sf) ->
  exists fuel' tag s0,
    readAt lsBytes (reader s) 8 = Some tag
    /\ stateAt s0 (reader s + 8) (u64 (addrOffset s + offsetOf tag))
    /\ if kindOf tag =? 0 then endsAt s0 sf
       else exists s1,
           destroyEntry metadata (handleRefCountsDestroy fuel') addr (kindOf tag) s0 s1
           /\ handleRefCountsDestroy fuel' metadata addr s1 = Some (tt, sf).
Proof.
  intros Hrun. one_turn Hrun fuel.
  exists fuel, tag,
    {| reader := reader s + 8; addrOffset := u64 (addrOffset s + offsetOf tag);
       world := world s |}.
  split; [reflexivity|]. split; [split; reflexivity|].
  destruct (kindOf tag =? 0).
  - inversion Hrun; subst sf. reflexivity.
  - destruct (destroyTableBranchless _ (kindOf tag)) as [handler|] eqn:Htab;
      [|discriminate].
    cbv beta iota in Hrun.
    destruct (handler metadata addr _) as [[[] s1]|] eqn:Hh; [|discriminate].
    exists s1. split; [|exact Hrun]. exists handler. split; [exact Htab | exact Hh].
Qed.

Lemma initWithCopy_turn dest src fuel s sf :
  handleRefCountsInitWithCopy fuel metadata dest src s = Some (tt, sf) ->
  exists fuel' tag s0,
    readAt lsBytes (reader s) 8 = Some tag
    /\ stateAt s0 (reader s + 8) (u64 (addrOffset s + offsetOf tag))
    /\ if kindOf tag =? 0 then endsAt s0 sf
       else exists s1,
           copyEntry metadata (handleRefCountsInitWithCopy fuel') dest src (kindOf tag)
             s0 s1
           /\ handleRefCountsInitWithCopy fuel' metadata dest src s1 = Some (tt, sf).
Proof.
  intros Hrun. one_turn Hrun fuel.
  destruct (offsetOf tag =? 0); cbv beta iota in Hrun;
    cbn [reader addrOffset world mem trace] in Hrun.
  all: match type of Hrun with
       | context [{| reader := ?r; addrOffset := ?o; world := ?w |}] =>
           exists fuel, tag, {| reader := r; addrOffset := o; world := w |}
       end.
  all: split; [reflexivity|]; split; [split; reflexivity|].
  all: destruct (kindOf tag =? 0); [inversion Hrun; subst sf; reflexivity|].
  all: destruct (initWithCopyTable _ (kindOf tag)) as [handler|] eqn:Htab;
    [|discriminate]; cbv beta iota in Hrun.
  all: destruct (handler metadata dest src _) as [[[] s1]|] eqn:Hh; [|discriminate].
  all: exists s1; split; [|exact Hrun]; exists handler; split; [exact Htab | exact Hh].
Qed.

Lemma assignWithCopy_turn dest src fuel s sf :
  handleRefCountsAssignWithCopy fuel metadata dest src s = Some (tt, sf) ->
  exists fuel' tag s0,
    readAt lsBytes (reader s) 8 = Some tag
    /\ stateAt s0 (reader s + 8) (u64 (addrOffset s + offsetOf tag))
    /\ if kindOf tag =? 0 then endsAt s0 sf
       else exists s1,
           assignEntry metadata fuel' dest src (kindOf tag) s0 s1
           /\ handleRefCountsAssignWithCopy fuel' metadata dest src s1 = Some (tt, sf).
Proof.
  intros Hrun. one_turn Hrun fuel.
  destruct (offsetOf tag =? 0); cbv beta iota in Hrun;
    cbn [reader addrOffset world mem trace] in Hrun.
  all: match type of Hrun with
       | context [{| reader := ?r; addrOffset := ?o; world := ?w |}] =>
           exists fuel, tag, {| reader := r; addrOffset := o; world := w |}
       end.
  all: split; [reflexivity|]; split; [split; reflexivity|].
  all: destruct (kindOf tag =? 0); [inversion Hrun; subst sf; reflexivity|].
  all: destruct (assignWithCopyTable _ (kindOf tag)) as [handler|] eqn:Htab;
    [|discriminate]; cbv beta iota in Hrun.
  all: destruct (handler metadata dest src _) as [[[] s1]|] eqn:Hh; [|discriminate].
  all: exists s1; split; [|exact Hrun]; exists handler; split; [exact Htab | exact Hh].
Qed.

Lemma initWithTake_turn dest src fuel s sf :
  handleRefCountsInitWithTake fuel metadata dest src s = Some (tt, sf) ->
  exists fuel' tag s0,
    readAt lsBytes (reader s) 8 = Some tag
    /\ stateAt s0 (reader s + 8) (u64 (addrOffset s + offsetOf tag))
    /\ if kindOf tag =? 0 then endsAt s0 sf
       else exists s1,
           takeEntry metadata (handleRefCountsInitWithTake fuel') dest src (kindOf tag)
             s0 s1
           /\ handleRefCountsInitWithTake fuel' metadata dest src s1 = Some (tt, sf).
Proof.
  intros Hrun. one_turn Hrun fuel.
  set (w0 := if offsetOf tag =? 0 then world s
             else {| mem := memcpy (mem (world s)) (dest + addrOffset s)
                              (src + addrOffset s) (offsetOf tag);
                     trace := trace (world s) |}).
  exists fuel, tag,
    {| reader := reader s + 8; addrOffset := u64 (addrOffset s + offsetOf tag);
       world := w0 |}.
  split; [reflexivity|]. split; [split; reflexivity|].
  unfold takeEntry. subst w0.
  destruct (offsetOf tag =? 0); cbv beta iota in Hrun;
    cbn [reader addrOffset world mem trace] in Hrun.
  all: destruct (kindOf tag =? 0); [inversion Hrun; subst sf; reflexivity|].
  all: destruct (initWithTakeTable _ (kindOf tag)) as [[handler|]|] eqn:Htab;
    [ cbv beta iota in Hrun; cbn [reader addrOffset world mem trace] in Hrun;
      match type of Hrun with
      | match ?x with Some _ => _ | None => _ end = _ =>
          destruct x as [[[] s1]|] eqn:Hh; [|discriminate]
      end;
      exists s1; split; [reflexivity | exact Hrun]
    | cbv beta iota in Hrun; cbn [reader addrOffset world mem trace] in Hrun;
      eexists; split; [|exact Hrun]; split; reflexivity
    | discriminate ].
Qed.

End Drivers.

Section CursorExactness.

Context {RT : Runtime}.

Lemma run_Some (c : M unit) s sf : run c s = Some sf -> c s = Some (tt, sf).
Proof.
  unfold run. destruct (c s) as [[[] s']|]; [|discriminate].
  intros H. inversion H. reflexivity.
Qed.

Lemma start_stateAt cursor w : stateAt (start cursor w) layoutStringHeaderSize cursor.
Proof. split; reflexivity. Qed.

(** C1. When the layout string of a type is well formed for the size the
    type reports, each of the top-level drivers that returns, returns with
    the cursor at that size: [swift_generic_destroy],
    [swift_generic_initWithCopy], [swift_generic_initWithTake] (on both of
    its paths) and [swift_generic_assignWithCopy], on every value, with
    every amount of fuel. *)
Theorem drivers_end_at_size :
  forall metadata : Z,
    wellFormed metadata ->
    forall (fuel : nat) (w : World) (s : State),
      (forall address,
          swift_generic_destroy fuel address metadata w = Some s ->
          addrOffset s = vw_size metadata)
      /\ (forall dest src,
             swift_generic_initWithCopy fuel dest src metadata w = Some s ->
             addrOffset s = vw_size metadata)
      /\ (forall dest src,
             swift_generic_initWithTake fuel dest src metadata w = Some s ->
             addrOffset s = vw_size metadata)
      /\ (forall dest src,
             swift_generic_assignWithCopy fuel dest src metadata w = Some s ->
             addrOffset s = vw_size metadata).
Proof.
  intros metadata Hwf fuel w s. unfold wellFormed in Hwf.
  repeat apply conj.
  - intros address Hrun. apply run_Some in Hrun.
    exact (run_stream metadata
             (fun fuel => handleRefCountsDestroy fuel metadata address) None
             (fun fuel' => destroyEntry metadata (handleRefCountsDestroy fuel') address)
             endsAt
             (fun fuel s sf _ => destroy_turn metadata address fuel s sf)
             (fun fuel' => destroyEntry_next metadata _ address)
             (fun fuel' kind pos cursor nested end_ cursor0 skip_ s0 s1 Hdec _ =>
                destroyEntry_single metadata _ address kind pos cursor nested end_
                  cursor0 skip_ s0 s1 Hdec)
             eq_refl (fun _ _ H => H)
             _ _ _ Hwf fuel _ s (start_stateAt 0 w) Hrun).
  - intros dest src Hrun. apply run_Some in Hrun.
    exact (run_stream metadata
             (fun fuel => handleRefCountsInitWithCopy fuel metadata dest src) None
             (fun fuel' => copyEntry metadata (handleRefCountsInitWithCopy fuel') dest src)
             endsAt
             (fun fuel s sf _ => initWithCopy_turn metadata dest src fuel s sf)
             (fun fuel' => copyEntry_next metadata _ dest src)
             (fun fuel' kind pos cursor nested end_ cursor0 skip_ s0 s1 Hdec _ =>
                copyEntry_single metadata _ dest src kind pos cursor nested end_
                  cursor0 skip_ s0 s1 Hdec)
             eq_refl (fun _ _ H => H)
             _ _ _ Hwf fuel _ s (start_stateAt 0 w) Hrun).
  - intros dest src Hrun. unfold swift_generic_initWithTake in Hrun.
    destruct (isBitwiseTakable metadata).
    + inversion Hrun. reflexivity.
    + apply run_Some in Hrun.
      exact (run_stream metadata
               (fun fuel => handleRefCountsInitWithTake fuel metadata dest src) None
               (fun fuel' =>
                  takeEntry metadata (handleRefCountsInitWithTake fuel') dest src)
               endsAt
               (fun fuel s sf _ => initWithTake_turn metadata dest src fuel s sf)
               (fun fuel' kind pos cursor pos' cursor' s0 s1 =>
                  initWithTakeTable_next metadata _ dest src kind pos cursor pos' cursor'
                    s0 s1)
               (fun fuel' kind pos cursor nested end_ cursor0 skip_ s0 s1 Hdec _ =>
                  initWithTakeTable_single metadata _ dest src kind pos cursor nested end_
                    cursor0 skip_ s0 s1 Hdec)
               eq_refl (fun _ _ H => H)
               _ _ _ Hwf fuel _ s (start_stateAt 0 w) Hrun).
  - intros dest src Hrun. apply run_Some in Hrun.
    exact (run_stream metadata
             (fun fuel => handleRefCountsAssignWithCopy fuel metadata dest src) None
             (fun fuel' => assignEntry metadata fuel' dest src)
             endsAt
             (fun fuel s sf _ => assignWithCopy_turn metadata dest src fuel s sf)
             (fun fuel' kind pos cursor pos' cursor' s0 s1 Hdec Hs Hentry =>
                match Hentry with
                | ex_intro _ handler (conj Htab Hrun) =>
                    assignWithCopyTable_next metadata fuel' dest src kind pos cursor
                      pos' cursor' handler s0 s1 Hdec Htab Hs Hrun
                end)
             (fun fuel' kind pos cursor nested end_ cursor0 skip_ s0 s1 Hdec Hnested Hs
                  Hentry =>
                match Hentry with
                | ex_intro _ handler (conj Htab Hrun) =>
                    assignWithCopyTable_single metadata fuel' dest src kind pos cursor
                      nested end_ cursor0 skip_ handler s0 s1 Hdec Hnested Htab Hs Hrun
                end)
             eq_refl (fun _ _ H => H)
             _ _ _ Hwf fuel _ s (start_stateAt 0 w) Hrun).
Qed.

End CursorExactness.

(** The layout string of an optional strong reference is well formed for
    the 8 bytes of the value. *)
Lemma optionalOfStrong_wellFormed :
  wellFormed (RT := exampleRuntime optionalOfStrong false) 0.
Proof.
  unfold wellFormed.
  apply (wf_Single _ _ _ 72 80 0 8); [exact I | vm_compute; reflexivity | |].
  - apply (wf_Next _ _ _ 80 8); [cbn; lia | vm_compute; reflexivity |].
    change (u64 (0 + 8)) with 8. apply wf_here.
  - change (u64 (0 + 8)) with 8. apply wf_End. vm_compute. reflexivity.
Qed.

Example destroy_optionalOfStrong :
  option_map addrOffset
    (swift_generic_destroy (RT := exampleRuntime optionalOfStrong false)
       3 1000 0 (emptyWorld (wordAt 1000 0x7001)))
  = Some 8.
Proof. vm_compute. reflexivity. Qed.

Lemma drivers_end_at_size_witness :
  let RT := exampleRuntime optionalOfStrong false in
  wellFormed 0
  /\ exists s,
      swift_generic_assignWithCopy 3 2000 1000 0 (emptyWorld (wordAt 1000 0x7001)) = Some s
      /\ addrOffset s = vw_size 0.
Proof.
  cbv zeta. split; [exact optionalOfStrong_wellFormed|].
  destruct (swift_generic_assignWithCopy (RT := exampleRuntime optionalOfStrong false)
              3 2000 1000 0 (emptyWorld (wordAt 1000 0x7001))) as [s|] eqn:E.
  - exists s. split; [reflexivity|].
    exact (proj2 (proj2 (proj2
             (drivers_end_at_size (RT := exampleRuntime optionalOfStrong false)
                0 optionalOfStrong_wellFormed 3
                (emptyWorld (wordAt 1000 0x7001)) s))) 2000 1000 E).
  - exfalso. apply (f_equal (option_map addrOffset)) in E. vm_compute in E. discriminate.
Defined.

(** * Further properties *)

(** ** Layout strings of structs of single-word references *)

Lemma bytesLE_encodeLE n v : bytesLE (encodeLE n v) = v mod 256 ^ Z.of_nat n.
Proof.
  revert v. induction n as [|n IH]; intros v; cbn [encodeLE bytesLE].
  - cbn. rewrite Z.mod_1_r. reflexivity.
  - rewrite IH, u8_u8. rewrite Nat2Z.inj_succ, Z.pow_succ_r by lia.
    unfold u8, wrap. change (2 ^ 8) with 256.
    rewrite (Z.rem_mul_r v 256 (256 ^ Z.of_nat n)) by lia. reflexivity.
Qed.

Lemma length_encodeLE n v : length (encodeLE n v) = n.
Proof. revert v. induction n as [|n IH]; intros v; cbn; [reflexivity | rewrite IH; reflexivity]. Qed.

(** Reading the bytes in the middle of a string. *)
Lemma readAt_middle pre mid post :
  readAt (pre ++ mid ++ post) (Z.of_nat (length pre)) (length mid) = Some (bytesLE mid).
Proof.
  unfold readAt.
  assert (H1 : (0 <=? Z.of_nat (length pre)) = true) by (apply Z.leb_le; lia).
  assert (H2 : (Z.of_nat (length pre) + Z.of_nat (length mid)
                <=? Z.of_nat (length (pre ++ mid ++ post))) = true).
  { apply Z.leb_le. rewrite !length_app. lia. }
  rewrite H1, H2. cbn [andb]. rewrite Nat2Z.id.
  rewrite skipn_app, skipn_all, Nat.sub_diag. cbn [skipn app].
  rewrite firstn_app, firstn_all, Nat.sub_diag. cbn [firstn]. rewrite app_nil_r.
  reflexivity.
Qed.

(** The instruction word of a kind and an offset, and its two parts. *)
Definition instructionWord (kind offset : Z) : Z := Z.lor (Z.shiftl kind 56) offset.

Lemma kindOf_instructionWord kind offset :
  0 <= kind < 256 -> 0 <= offset < 2 ^ 56 -> kindOf (instructionWord kind offset) = kind.
Proof.
  intros Hk Ho. unfold kindOf, instructionWord.
  rewrite Z.shiftr_lor, Z.shiftr_shiftl_l by lia. rewrite Z.sub_diag, Z.shiftl_0_r.
  rewrite (Z.shiftr_div_pow2 offset) by lia. rewrite Z.div_small by lia.
  apply Z.lor_0_r.
Qed.

Lemma offsetOf_instructionWord kind offset :
  0 <= kind < 256 -> 0 <= offset < 2 ^ 56 -> offsetOf (instructionWord kind offset) = offset.
Proof.
  intros Hk Ho. unfold offsetOf, instructionWord.
  apply Z.bits_inj'. intros n Hn.
  rewrite Z.land_spec, Z.lor_spec, Z.lnot_spec, !Z.shiftl_spec by lia.
  destruct (Z.ltb_spec n 56).
  - rewrite !(Z.testbit_neg_r _ (n - 56)) by lia. cbn. apply andb_true_r.
  - replace (Z.testbit offset n) with false.
    + destruct (Z.ltb_spec n 64).
      * change 255 with (Z.ones 8). rewrite Z.ones_spec_low by lia. cbn.
        apply andb_false_r.
      * replace (Z.testbit kind (n - 56)) with false; [reflexivity|].
        symmetry. rewrite <- (Z.mod_small kind (2 ^ 8)) by lia.
        apply Z.mod_pow2_bits_high. lia.
    + symmetry. rewrite <- (Z.mod_small offset (2 ^ 56)) by lia.
      apply Z.mod_pow2_bits_high. lia.
Qed.

Lemma instructionWord_range kind offset :
  0 <= kind < 256 -> 0 <= offset < 2 ^ 56 -> 0 <= instructionWord kind offset < 2 ^ 64.
Proof.
  intros Hk Ho. unfold instructionWord.
  assert (Hdisj : Z.land (Z.shiftl kind 56) offset = 0).
  { apply Z.bits_inj'. intros n Hn. rewrite Z.land_spec, Z.shiftl_spec, Z.bits_0 by lia.
    destruct (Z.ltb_spec n 56).
    - rewrite Z.testbit_neg_r by lia. reflexivity.
    - replace (Z.testbit offset n) with false; [apply andb_false_r|].
      symmetry. rewrite <- (Z.mod_small offset (2 ^ 56)) by lia.
      apply Z.mod_pow2_bits_high. lia. }
  rewrite <- (Z.lxor_lor _ _ Hdisj), <- (Z.add_nocarry_lxor _ _ Hdisj).
  rewrite Z.shiftl_mul_pow2 by lia. lia.
Qed.

(** The instruction word at the head of what is left of a string. *)
Lemma readAt_instr pre kind offset post :
  0 <= kind < 256 -> 0 <= offset < 2 ^ 56 ->
  readAt (pre ++ instr kind offset ++ post) (Z.of_nat (length pre)) 8
  = Some (instructionWord kind offset).
Proof.
  intros Hk Ho.
  pose proof (readAt_middle pre (instr kind offset) post) as H.
  unfold instr in *. rewrite length_encodeLE in H. rewrite H, bytesLE_encodeLE.
  f_equal. apply Z.mod_small. change (256 ^ Z.of_nat 8) with (2 ^ 64).
  apply instructionWord_range; assumption.
Qed.

(** A struct of single-word fields: each field is given by its kind and by
    the bytes the layout skips before it. *)
Definition structLayout (fields : list (Z * Z)) (endOffset : Z) : list Z :=
  flat_map (fun f => instr (fst f) (snd f)) fields ++ instr 0 endOffset.

(** The cursor of each field with its kind, and the cursor behind the last
    field, for a walk that starts at [cursor]. *)
Fixpoint fieldsAt (cursor : Z) (fields : list (Z * Z)) : list (Z * Z) :=
  match fields with
  | [] => []
  | (kind, gap) :: rest =>
      (kind, u64 (cursor + gap)) :: fieldsAt (u64 (u64 (cursor + gap) + 8)) rest
  end.

Fixpoint cursorBehind (cursor : Z) (fields : list (Z * Z)) : Z :=
  match fields with
  | [] => cursor
  | (kind, gap) :: rest => cursorBehind (u64 (u64 (cursor + gap) + 8)) rest
  end.

(** Error, NativeStrong, Unowned, Unknown and Bridge: the kinds whose field
    is one word that is released and retained as it is read. *)
Definition strongKind (kind : Z) : bool :=
  (kind =? 1) || (kind =? 2) || (kind =? 3) || (kind =? 5) || (kind =? 8).

Definition releaseCall {RT : Runtime} (kind raw : Z) : Event :=
  match kind with
  | 1 => swift_errorRelease raw
  | 2 => swift_release (maskSpareBits raw)
  | 3 => swift_unownedRelease (maskSpareBits raw)
  | 5 => swift_unknownObjectRelease raw
  | _ => swift_bridgeObjectRelease raw
  end.

Definition retainCall {RT : Runtime} (kind raw : Z) : Event :=
  match kind with
  | 1 => swift_errorRetain raw
  | 2 => swift_retain (maskSpareBits raw)
  | 3 => swift_unownedRetain (maskSpareBits raw)
  | 5 => swift_unknownObjectRetain raw
  | _ => swift_bridgeObjectRetain raw
  end.

Definition strongField (f : Z * Z) : Prop :=
  strongKind (fst f) = true /\ 0 <= snd f < 2 ^ 56.

(** The runtime calls that count references. *)
Definition countsReferences (e : Event) : bool :=
  match e with
  | swift_errorRetain _ | swift_retain _ | swift_unownedRetain _
  | swift_unknownObjectRetain _ | swift_bridgeObjectRetain _
  | swift_errorRelease _ | swift_release _ | swift_unownedRelease _
  | swift_unknownObjectRelease _ | swift_bridgeObjectRelease _ => true
  | _ => false
  end.

(** Reference counting happens in the objects, not in the storage of the
    values that refer to them. *)
Definition countingLeavesStorage {RT : Runtime} : Prop :=
  forall e m, countsReferences e = true -> effect e m = m.

Lemma strongKind_cases kind :
  strongKind kind = true -> kind = 1 \/ kind = 2 \/ kind = 3 \/ kind = 5 \/ kind = 8.
Proof. unfold strongKind. intros H. repeat (apply orb_prop in H; destruct H as [H|H]); lia. Qed.

Lemma countsReferences_releaseCall {RT : Runtime} kind raw :
  strongKind kind = true -> countsReferences (releaseCall kind raw) = true.
Proof.
  intros H. destruct (strongKind_cases _ H) as [-> | [-> | [-> | [-> | ->]]]]; reflexivity.
Qed.

Lemma countsReferences_retainCall {RT : Runtime} kind raw :
  strongKind kind = true -> countsReferences (retainCall kind raw) = true.
Proof.
  intros H. destruct (strongKind_cases _ H) as [-> | [-> | [-> | [-> | ->]]]]; reflexivity.
Qed.

Lemma structLayout_cons kind gap fields endOffset :
  structLayout ((kind, gap) :: fields) endOffset
  = instr kind gap ++ structLayout fields endOffset.
Proof. unfold structLayout. cbn [flat_map fst snd]. rewrite <- app_assoc. reflexivity. Qed.

Section StructDestroy.

Context {RT : Runtime} {ls : LayoutString}.
Variables (metadata addr : Z).
Hypothesis quiet : countingLeavesStorage.

(** One turn of the destroy loop on a strong field. *)
Lemma destroy_strong_turn fuel pre kind gap post s :
  lsBytes = pre ++ instr kind gap ++ post ->
  reader s = Z.of_nat (length pre) ->
  strongField (kind, gap) ->
  handleRefCountsDestroy (S fuel) metadata addr s
  = handleRefCountsDestroy fuel metadata addr
      {| reader := reader s + 8;
         addrOffset := u64 (u64 (addrOffset s + gap) + 8);
         world := {| mem := mem (world s);
                     trace := releaseCall kind
                                (loadLE (mem (world s)) (addr + u64 (addrOffset s + gap)) 8)
                              :: trace (world s) |} |}.
Proof.
  intros Hls Hr [Hk Hg]. cbn [fst snd] in Hk, Hg.
  assert (Hkind : 0 <= kind < 256) by (apply strongKind_cases in Hk; lia).
  cbn [handleRefCountsDestroy]. unfold bind at 1. unfold readBytes at 1.
  rewrite Hls, Hr, readAt_instr by assumption. rewrite <- Hr.
  unfold bind at 1. unfold advance, bind, getAddrOffset, setAddrOffset. cbn [reader addrOffset world].
  rewrite offsetOf_instructionWord, kindOf_instructionWord by assumption.
  destruct (strongKind_cases _ Hk) as [-> | [-> | [-> | [-> | ->]]]];
    cbv [Z.eqb lift destroyTableBranchless errorDestroyBranchless
         nativeStrongDestroyBranchless unownedDestroyBranchless
         unknownDestroyBranchless bridgeDestroyBranchless bind getAddrOffset
         loadWord getMem ret advance setAddrOffset call releaseCall
         reader addrOffset world mem trace];
    rewrite quiet by reflexivity; reflexivity.
Qed.

Lemma destroy_end_turn fuel pre endOffset post s :
  lsBytes = pre ++ instr 0 endOffset ++ post ->
  reader s = Z.of_nat (length pre) ->
  0 <= endOffset < 2 ^ 56 ->
  handleRefCountsDestroy (S fuel) metadata addr s
  = Some (tt, {| reader := reader s + 8;
                 addrOffset := u64 (addrOffset s + endOffset);
                 world := world s |}).
Proof.
  intros Hls Hr Hg.
  cbn [handleRefCountsDestroy]. unfold bind at 1. unfold readBytes at 1.
  rewrite Hls, Hr, readAt_instr by (assumption || lia). rewrite <- Hr.
  unfold bind at 1. unfold advance, bind, getAddrOffset, setAddrOffset. cbn [reader addrOffset world].
  rewrite offsetOf_instructionWord, kindOf_instructionWord by (assumption || lia).
  reflexivity.
Qed.

(** The releases of the fields, the call on the first field first. *)
Definition releasesOf (m : Memory) (cursor : Z) (fields : list (Z * Z)) : list Event :=
  map (fun f => releaseCall (fst f) (loadLE m (addr + snd f) 8)) (fieldsAt cursor fields).

Lemma destroy_struct fields : forall fuel pre endOffset post s,
  lsBytes = pre ++ structLayout fields endOffset ++ post ->
  reader s = Z.of_nat (length pre) ->
  Forall strongField fields ->
  0 <= endOffset < 2 ^ 56 ->
  (length fields < fuel)%nat ->
  handleRefCountsDestroy fuel metadata addr s
  = Some (tt, {| reader := reader s + 8 * (Z.of_nat (length fields) + 1);
                 addrOffset := u64 (cursorBehind (addrOffset s) fields + endOffset);
                 world := {| mem := mem (world s);
                             trace := rev (releasesOf (mem (world s)) (addrOffset s) fields)
                                      ++ trace (world s) |} |}).
Proof.
  induction fields as [|[kind gap] fields IH]; intros fuel pre endOffset post s Hls Hr Hf He Hfuel;
    (destruct fuel as [|fuel]; [cbn in Hfuel; lia|]).
  - unfold structLayout in Hls. cbn [flat_map app] in Hls.
    rewrite (destroy_end_turn _ _ _ _ _ Hls Hr He). cbn. destruct s as [r a [m t]]. reflexivity.
  - rewrite structLayout_cons, <- app_assoc in Hls. inversion Hf as [|? ? Hf1 Hf2]; subst.
    rewrite (destroy_strong_turn _ _ _ _ _ _ Hls Hr Hf1).
    rewrite app_assoc in Hls.
    rewrite (IH fuel (pre ++ instr kind gap) endOffset post); cbn [reader addrOffset world mem trace];
      try assumption.
    + f_equal. f_equal. f_equal.
      * cbn [length]. lia.
      * unfold releasesOf. cbn [fieldsAt map rev fst snd cursorBehind].
        rewrite <- app_assoc. reflexivity.
    + rewrite length_app. unfold instr. rewrite length_encodeLE. lia.
    + cbn [length] in Hfuel. lia.
Qed.

End StructDestroy.

(** The type [metadata] has the layout string of a struct of [fields]. *)
Definition structOf {RT : Runtime} (metadata : Z) (fields : list (Z * Z)) (endOffset : Z)
  : Prop :=
  exists header rest,
    @lsBytes (getLayoutString metadata) = header ++ structLayout fields endOffset ++ rest
    /\ Z.of_nat (length header) = layoutStringHeaderSize.


Lemma u64_small x : 0 <= x < 2 ^ 64 -> u64 x = x.
Proof. intros H. unfold u64, wrap. apply Z.mod_small. exact H. Qed.

(** The bytes of a struct: the skipped bytes and the word of each field,
    and the bytes behind the last field. *)
Fixpoint structSize (fields : list (Z * Z)) (endOffset : Z) : Z :=
  match fields with
  | [] => endOffset
  | (kind, gap) :: rest => gap + 8 + structSize rest endOffset
  end.

Lemma structSize_nonneg (P : Z -> Prop) fields endOffset :
  Forall (fun f => P (fst f) /\ 0 <= snd f < 2 ^ 56) fields -> 0 <= endOffset ->
  0 <= structSize fields endOffset.
Proof.
  intros Hf He. induction Hf as [|[kind gap] rest [_ Hg] _ IH]; cbn [structSize snd] in *; lia.
Qed.

(** The releases of the elements [i], [i + 1], ... of an array, [n] of them. *)
Definition arrayReleases {RT : Runtime} (address stride : Z) (m : Memory)
  (fields : list (Z * Z)) (i : Z) (n : nat) : list Event :=
  flat_map (fun j => releasesOf address m (u64 ((i + Z.of_nat j) * stride)) fields)
           (seq 0 n).

Lemma flat_map_shift {A} (f : nat -> list A) l :
  flat_map f (map S l) = flat_map (fun j => f (S j)) l.
Proof. induction l as [|x l IH]; cbn; [reflexivity | rewrite IH; reflexivity]. Qed.

Lemma arrayLoop_destroy_struct {RT : Runtime} fuel address stride metadata fields endOffset :
  countingLeavesStorage ->
  structOf metadata fields endOffset ->
  Forall strongField fields ->
  0 <= endOffset < 2 ^ 56 ->
  (length fields < fuel)%nat ->
  forall n i w,
    arrayLoop n i stride
      (handleRefCountsDestroy (ls := getLayoutString metadata) fuel metadata address) w
    = Some {| mem := mem w;
              trace := rev (arrayReleases address stride (mem w) fields i n) ++ trace w |}.
Proof.
  intros Hq (header & rest & Hls & Hh) Hf He Hfuel.
  induction n as [|n IH]; intros i w.
  - cbn. destruct w. reflexivity.
  - cbn [arrayLoop]. unfold run.
    rewrite (destroy_struct (ls := getLayoutString metadata) metadata address Hq
               fields fuel header endOffset rest (start (u64 (i * stride)) w) Hls);
      try assumption; [|cbn; symmetry; exact Hh].
    cbn [world]. rewrite IH. cbn [mem trace start addrOffset world].
    f_equal. f_equal. unfold arrayReleases.
    cbn [seq flat_map]. rewrite <- seq_shift, flat_map_shift.
    rewrite rev_app_distr, <- app_assoc. f_equal.
    + f_equal. apply flat_map_ext. intros j.
      replace (i + 1 + Z.of_nat j) with (i + Z.of_nat (S j)) by lia. reflexivity.
    + replace (i + Z.of_nat 0) with i by lia. reflexivity.
Qed.

Lemma flat_map_seq_ext {A} (f g : nat -> list A) n :
  (forall j, (j < n)%nat -> f j = g j) -> flat_map f (seq 0 n) = flat_map g (seq 0 n).
Proof.
  intros H. rewrite !flat_map_concat_map. f_equal. apply map_ext_in.
  intros j Hj. apply in_seq in Hj. apply H. lia.
Qed.

(** A walk that starts with the cursor at [c + d] on the value at [address]
    releases what a walk from [d] on the value at [address + c] releases,
    as long as the cursor does not wrap. *)
Lemma releasesOf_shift {RT : Runtime} address m endOffset fields :
  Forall strongField fields -> 0 <= endOffset ->
  forall c d,
    0 <= c -> 0 <= d -> c + d + structSize fields endOffset < 2 ^ 64 ->
    releasesOf address m (c + d) fields = releasesOf (address + c) m d fields.
Proof.
  intros Hf He. unfold releasesOf.
  induction Hf as [|[kind gap] rest [Hk Hg] Hrest IH]; intros c d Hc Hd Hsize;
    cbn [fieldsAt map fst snd structSize] in *; [reflexivity|].
  pose proof (structSize_nonneg (fun k => strongKind k = true) _ _ Hrest He) as Hn.
  rewrite !(u64_small (c + d + gap)), !(u64_small (d + gap)) by lia.
  rewrite !(u64_small (c + d + gap + 8)), !(u64_small (d + gap + 8)) by lia.
  replace (c + d + gap + 8) with (c + (d + gap + 8)) by lia.
  rewrite IH by lia. f_equal. f_equal. f_equal. lia.
Qed.

(** The releases of the elements 0, 1, ... of an array, [n] of them: element
    [j] is the struct at [address + j * stride]. *)
Definition elementReleases {RT : Runtime} (address stride : Z) (m : Memory)
  (fields : list (Z * Z)) (n : nat) : list Event :=
  flat_map (fun j => releasesOf (address + Z.of_nat j * stride) m 0 fields) (seq 0 n).

(** X2. [swift_generic_arrayDestroy] on an array of such structs, whose
    elements are a stride of at least the size of the struct apart and which
    ends below the top of the address space, returns whenever the fuel
    exceeds the number of fields, and releases the fields of element 0, then
    those of element 1, and so on: element [i] is the struct at
    [address + i * stride]. Storage is as before. *)
Theorem arrayDestroy_releases_elements_in_order {RT : Runtime} :
  forall (fuel : nat) (address stride metadata : Z) (count : nat) (w : World)
         fields endOffset,
    countingLeavesStorage ->
    structOf metadata fields endOffset ->
    Forall strongField fields ->
    0 <= endOffset < 2 ^ 56 ->
    (length fields < fuel)%nat ->
    structSize fields endOffset <= stride ->
    0 <= address ->
    address + Z.of_nat count * stride < 2 ^ 64 ->
    swift_generic_arrayDestroy fuel address (Z.of_nat count) stride metadata w
    = Some {| mem := mem w;
              trace := rev (elementReleases address stride (mem w) fields count)
                       ++ trace w |}.
Proof.
  intros fuel address stride metadata count w fields endOffset Hq Hs Hf He Hfuel
    Hstride Haddress Htop.
  pose proof (structSize_nonneg (fun k => strongKind k = true) _ _ Hf (proj1 He)) as Hsize.
  unfold swift_generic_arrayDestroy. rewrite Nat2Z.id.
  rewrite (arrayLoop_destroy_struct fuel address stride metadata fields endOffset)
    by assumption.
  do 4 f_equal. unfold arrayReleases, elementReleases.
  apply flat_map_seq_ext. intros j Hj. cbn [Z.add].
  assert (Hj0 : 0 <= Z.of_nat j * stride) by nia.
  assert (Hj1 : (Z.of_nat j + 1) * stride <= Z.of_nat count * stride)
    by (apply Z.mul_le_mono_nonneg_r; lia).
  assert (Hj2 : (Z.of_nat j + 1) * stride = Z.of_nat j * stride + stride) by ring.
  rewrite (u64_small (Z.of_nat j * stride)) by lia.
  replace (Z.of_nat j * stride) with (Z.of_nat j * stride + 0) at 1 by lia.
  apply (releasesOf_shift address (mem w) endOffset fields Hf (proj1 He)); lia.
Qed.

(** ** Copying a struct of references *)

Lemma u8_range x : 0 <= u8 x < 256.
Proof. unfold u8, wrap. apply Z.mod_pos_bound. lia. Qed.

Lemma loadLE_bytes m m' a b n :
  (forall j, 0 <= j < Z.of_nat n -> u8 (m (a + j)) = u8 (m' (b + j))) ->
  loadLE m a n = loadLE m' b n.
Proof.
  revert a b. induction n as [|n IH]; intros a b H; cbn [loadLE]; [reflexivity|].
  pose proof (H 0 ltac:(lia)) as H0. rewrite !Z.add_0_r in H0. rewrite H0.
  rewrite (IH (a + 1) (b + 1)); [reflexivity|].
  intros j Hj. replace (a + 1 + j) with (a + (j + 1)) by lia.
  replace (b + 1 + j) with (b + (j + 1)) by lia. apply H. lia.
Qed.

(** A word stored where another one was loaded: byte by byte the same. *)
Lemma storeLE_loadLE_at m m' a b n x :
  a <= x < a + Z.of_nat n ->
  storeLE m a n (loadLE m' b n) x = u8 (m' (b + (x - a))).
Proof.
  revert m a b. induction n as [|n IH]; intros m a b Hx; cbn [storeLE loadLE]; [lia|].
  pose proof (u8_range (m' b)) as Hb.
  assert (Hq : (u8 (m' b) + 256 * loadLE m' (b + 1) n) / 256 = loadLE m' (b + 1) n).
  { rewrite (Z.mul_comm 256), Z.div_add by lia.
    rewrite Z.div_small by lia. lia. }
  assert (Hr : u8 (u8 (m' b) + 256 * loadLE m' (b + 1) n) = u8 (m' b)).
  { unfold u8 at 1. unfold wrap. change (2 ^ 8) with 256.
    rewrite (Z.mul_comm 256), Z.mod_add by lia. apply Z.mod_small, Hb. }
  rewrite Hq, Hr.
  destruct (Z.eq_dec x a) as [->|Hne].
  - rewrite storeLE_outside by lia. unfold update. rewrite Z.eqb_refl, Z.sub_diag, Z.add_0_r.
    reflexivity.
  - rewrite IH by lia. do 2 f_equal. lia.
Qed.

(** Storage in which the bytes from [lo] to [c] of the value at [src] have
    been copied to the same place of the value at [dest], and nothing else
    has changed. *)
Definition copiedBetween (m0 : Memory) (dest src lo c : Z) (m : Memory) : Prop :=
  forall x, (dest + lo <= x < dest + c -> u8 (m x) = u8 (m0 (src + (x - dest))))
            /\ (x < dest + lo \/ dest + c <= x -> m x = m0 x).

(** The first [c] bytes have been copied. *)
Definition copiedTo (m0 : Memory) (dest src c : Z) (m : Memory) : Prop :=
  copiedBetween m0 dest src 0 c m.

Lemma copiedBetween_start m0 dest src c : copiedBetween m0 dest src c c m0.
Proof. intros x. split; [lia | reflexivity]. Qed.

Lemma memcpy_zero m dest src : memcpy m dest src 0 = m.
Proof.
  apply functional_extensionality. intros x. unfold memcpy.
  destruct (dest <=? x) eqn:E1; destruct (x <? dest + 0) eqn:E2; cbn [andb]; try reflexivity.
  apply Z.leb_le in E1. apply Z.ltb_lt in E2. lia.
Qed.

Lemma memcpy_at m dest src n x :
  memcpy m dest src n x = if (dest <=? x) && (x <? dest + n) then m (src + (x - dest)) else m x.
Proof. reflexivity. Qed.

Ltac in_range :=
  repeat match goal with
         | |- context [(?a <=? ?b) && (?c <? ?d)] =>
             let E1 := fresh "E" in let E2 := fresh "E" in
             destruct (Z.leb_spec a b) as [E1|E1]; destruct (Z.ltb_spec c d) as [E2|E2];
             cbn [andb]
         end.

(** The bytes skipped before a field are copied. *)
Lemma copiedBetween_gap m0 dest src lo c m gap :
  copiedBetween m0 dest src lo c m -> lo <= c -> 0 <= gap ->
  dest <= src \/ src + (c + gap) <= dest + lo ->
  copiedBetween m0 dest src lo (c + gap) (memcpy m (dest + c) (src + c) gap).
Proof.
  intros H Hc Hg Hov x. rewrite memcpy_at. split; intros Hx; in_range; try lia.
  - rewrite (proj2 (H _)) by lia.
    replace (src + c + (x - (dest + c))) with (src + (x - dest)) by lia. reflexivity.
  - apply H. lia.
  - apply H. lia.
  - apply H. lia.
Qed.

(** The word of a field is stored from what was loaded. *)
Lemma copiedBetween_word m0 dest src lo c m :
  copiedBetween m0 dest src lo c m -> lo <= c ->
  dest <= src \/ src + (c + 8) <= dest + lo ->
  loadLE m (src + c) 8 = loadLE m0 (src + c) 8
  /\ loadLE m (dest + c) 8 = loadLE m0 (dest + c) 8
  /\ copiedBetween m0 dest src lo (c + 8) (storeLE m (dest + c) 8 (loadLE m (src + c) 8)).
Proof.
  intros H Hc Hov.
  assert (Hs : forall j, 0 <= j < 8 -> m (src + c + j) = m0 (src + c + j)).
  { intros j Hj. apply H. lia. }
  assert (Hd : forall j, 0 <= j < 8 -> m (dest + c + j) = m0 (dest + c + j)).
  { intros j Hj. apply H. lia. }
  split; [|split].
  - apply loadLE_bytes. intros j Hj. rewrite Hs by lia. reflexivity.
  - apply loadLE_bytes. intros j Hj. rewrite Hd by lia. reflexivity.
  - intros x. split; intros Hx.
    + destruct (Z.lt_ge_cases x (dest + c)) as [Hlt|Hge].
      * rewrite storeLE_outside by lia. apply H. lia.
      * rewrite storeLE_loadLE_at by lia.
        replace (src + c + (x - (dest + c))) with (src + c + (x - dest - c)) by lia.
        rewrite Hs by lia.
        replace (src + c + (x - dest - c)) with (src + (x - dest)) by lia.
        apply u8_u8.
    + rewrite storeLE_outside by lia. apply H. lia.
Qed.

Section StructCopy.

Context {RT : Runtime} {ls : LayoutString}.
Variables (metadata dest src : Z).
Hypothesis quiet : countingLeavesStorage.

Ltac read_instr Hls Hr :=
  unfold bind at 1; unfold getAddrOffset at 1;
  unfold bind at 1; unfold readBytes at 1;
  rewrite Hls, Hr, readAt_instr by (assumption || lia); rewrite <- Hr;
  rewrite offsetOf_instructionWord, kindOf_instructionWord by (assumption || lia).

(** The copy of the bytes skipped before an instruction. *)
Lemma copy_gap gap s :
  (if gap =? 0 then ret tt
   else copyBytes (dest + addrOffset s) (src + addrOffset s) gap) s
  = Some (tt, {| reader := reader s; addrOffset := addrOffset s;
                 world := {| mem := memcpy (mem (world s)) (dest + addrOffset s)
                                      (src + addrOffset s) gap;
                             trace := trace (world s) |} |}).
Proof.
  destruct (Z.eqb_spec gap 0) as [->|_].
  - rewrite memcpy_zero. destruct s as [r a [m t]]. reflexivity.
  - reflexivity.
Qed.

(** One turn of the copy loop on a strong field. *)
Lemma copy_strong_turn fuel pre kind gap post s :
  lsBytes = pre ++ instr kind gap ++ post ->
  reader s = Z.of_nat (length pre) ->
  strongField (kind, gap) ->
  let c := u64 (addrOffset s + gap) in
  let m := memcpy (mem (world s)) (dest + addrOffset s) (src + addrOffset s) gap in
  handleRefCountsInitWithCopy (S fuel) metadata dest src s
  = handleRefCountsInitWithCopy fuel metadata dest src
      {| reader := reader s + 8;
         addrOffset := u64 (c + 8);
         world := {| mem := storeLE m (dest + c) 8 (loadLE m (src + c) 8);
                     trace := retainCall kind (loadLE m (src + c) 8) :: trace (world s) |} |}.
Proof.
  intros Hls Hr [Hk Hg] c m. cbn [fst snd] in Hk, Hg.
  assert (Hkind : 0 <= kind < 256) by (apply strongKind_cases in Hk; lia).
  cbn [handleRefCountsInitWithCopy]. read_instr Hls Hr.
  unfold bind at 1. unfold bind at 1. cbn [reader addrOffset world].
  pose proof (copy_gap gap {| reader := reader s + Z.of_nat 8; addrOffset := addrOffset s;
                              world := world s |}) as G.
  cbn [reader addrOffset world] in G. rewrite G. clear G.
  fold m. unfold setAddrOffset at 1. cbn [reader addrOffset world]. fold c.
  destruct (strongKind_cases _ Hk) as [-> | [-> | [-> | [-> | ->]]]];
    cbv [Z.eqb lift initWithCopyTable errorRetainBranchless
         nativeStrongRetainBranchless unownedRetainBranchless
         unknownRetainBranchless bridgeRetainBranchless bind getAddrOffset
         loadWord getMem ret storeBytes putMem setAddrOffset call retainCall
         reader addrOffset world mem trace];
    rewrite quiet by reflexivity; reflexivity.
Qed.

Lemma copy_end_turn fuel pre endOffset post s :
  lsBytes = pre ++ instr 0 endOffset ++ post ->
  reader s = Z.of_nat (length pre) ->
  0 <= endOffset < 2 ^ 56 ->
  handleRefCountsInitWithCopy (S fuel) metadata dest src s
  = Some (tt, {| reader := reader s + 8;
                 addrOffset := u64 (addrOffset s + endOffset);
                 world := {| mem := memcpy (mem (world s)) (dest + addrOffset s)
                                      (src + addrOffset s) endOffset;
                             trace := trace (world s) |} |}).
Proof.
  intros Hls Hr Hg.
  cbn [handleRefCountsInitWithCopy]. read_instr Hls Hr.
  unfold bind at 1. unfold bind at 1. cbn [reader addrOffset world].
  pose proof (copy_gap endOffset {| reader := reader s + Z.of_nat 8;
                                    addrOffset := addrOffset s; world := world s |}) as G.
  cbn [reader addrOffset world] in G. rewrite G. clear G.
  reflexivity.
Qed.

(** The retains of the fields, the call on the first field first. *)
Definition retainsOf (m : Memory) (cursor : Z) (fields : list (Z * Z)) : list Event :=
  map (fun f => retainCall (fst f) (loadLE m (src + snd f) 8)) (fieldsAt cursor fields).

Lemma copy_struct fields : forall fuel pre endOffset post s m0 lo,
  lsBytes = pre ++ structLayout fields endOffset ++ post ->
  reader s = Z.of_nat (length pre) ->
  Forall strongField fields ->
  0 <= endOffset < 2 ^ 56 ->
  (length fields < fuel)%nat ->
  0 <= addrOffset s -> lo <= addrOffset s ->
  addrOffset s + structSize fields endOffset < 2 ^ 64 ->
  dest <= src \/ src + (addrOffset s + structSize fields endOffset) <= dest + lo ->
  copiedBetween m0 dest src lo (addrOffset s) (mem (world s)) ->
  exists m',
    handleRefCountsInitWithCopy fuel metadata dest src s
    = Some (tt, {| reader := reader s + 8 * (Z.of_nat (length fields) + 1);
                   addrOffset := addrOffset s + structSize fields endOffset;
                   world := {| mem := m';
                               trace := rev (retainsOf m0 (addrOffset s) fields)
                                        ++ trace (world s) |} |})
    /\ copiedBetween m0 dest src lo (addrOffset s + structSize fields endOffset) m'.
Proof.
  induction fields as [|[kind gap] fields IH];
    intros fuel pre endOffset post s m0 lo Hls Hr Hf He Hfuel Hc Hlo Hsize Hov Hm;
    (destruct fuel as [|fuel]; [cbn in Hfuel; lia|]).
  - unfold structLayout in Hls. cbn [flat_map app] in Hls. cbn [structSize] in *.
    rewrite (copy_end_turn _ _ _ _ _ Hls Hr He). rewrite u64_small by lia.
    eexists. split; [reflexivity|]. apply copiedBetween_gap; (assumption || lia).
  - rewrite structLayout_cons, <- app_assoc in Hls. inversion Hf as [|? ? Hf1 Hf2]; subst.
    pose proof Hf1 as [_ Hg]. cbn [snd structSize] in *.
    pose proof (structSize_nonneg (fun k => strongKind k = true) _ _ Hf2 (proj1 He)) as Hrest.
    rewrite (copy_strong_turn _ _ _ _ _ _ Hls Hr Hf1).
    rewrite !(u64_small (addrOffset s + gap)) by lia.
    rewrite !(u64_small (addrOffset s + gap + 8)) by lia.
    pose proof (copiedBetween_gap _ _ _ _ _ _ gap Hm Hlo (proj1 Hg) ltac:(lia)) as Hm1.
    destruct (copiedBetween_word _ _ _ _ _ _ Hm1 ltac:(lia) ltac:(lia)) as (Hl & _ & Hm2).
    rewrite app_assoc in Hls.
    match goal with
    | |- context [handleRefCountsInitWithCopy fuel metadata dest src ?s1] =>
        destruct (IH fuel (pre ++ instr kind gap) endOffset post s1 m0 lo)
          as (m' & Hrun & Hm');
        cbn [reader addrOffset world mem trace] in *;
        try assumption; try lia
    end.
    + rewrite length_app. unfold instr. rewrite length_encodeLE. lia.
    + cbn [length] in Hfuel. lia.
    + exists m'. rewrite Hrun. split.
      * f_equal. f_equal. f_equal; [cbn [length]; lia | lia |].
        f_equal. unfold retainsOf. cbn [fieldsAt map rev fst snd].
        rewrite !(u64_small (addrOffset s + gap)) by lia.
        rewrite !(u64_small (addrOffset s + gap + 8)) by lia.
        rewrite Hl, <- app_assoc. reflexivity.
      * replace (addrOffset s + (gap + 8 + structSize fields endOffset))
          with (addrOffset s + gap + 8 + structSize fields endOffset) by lia.
        exact Hm'.
Qed.

End StructCopy.

Section StructAssign.

Context {RT : Runtime} {ls : LayoutString}.
Variables (metadata dest src : Z).
Hypothesis quiet : countingLeavesStorage.

Ltac read_instr Hls Hr :=
  unfold bind at 1; unfold getAddrOffset at 1;
  unfold bind at 1; unfold readBytes at 1;
  rewrite Hls, Hr, readAt_instr by (assumption || lia); rewrite <- Hr;
  rewrite offsetOf_instructionWord, kindOf_instructionWord by (assumption || lia).

(** One turn of the copy-assign loop on a strong field. *)
Lemma assign_strong_turn fuel pre kind gap post s :
  lsBytes = pre ++ instr kind gap ++ post ->
  reader s = Z.of_nat (length pre) ->
  strongField (kind, gap) ->
  let c := u64 (addrOffset s + gap) in
  let m := memcpy (mem (world s)) (dest + addrOffset s) (src + addrOffset s) gap in
  handleRefCountsAssignWithCopy (S fuel) metadata dest src s
  = handleRefCountsAssignWithCopy fuel metadata dest src
      {| reader := reader s + 8;
         addrOffset := u64 (c + 8);
         world := {| mem := storeLE m (dest + c) 8 (loadLE m (src + c) 8);
                     trace := retainCall kind (loadLE m (src + c) 8)
                              :: releaseCall kind (loadLE m (dest + c) 8)
                              :: trace (world s) |} |}.
Proof.
  intros Hls Hr [Hk Hg] c m. cbn [fst snd] in Hk, Hg.
  assert (Hkind : 0 <= kind < 256) by (apply strongKind_cases in Hk; lia).
  cbn [handleRefCountsAssignWithCopy]. read_instr Hls Hr.
  unfold bind at 1. unfold bind at 1. cbn [reader addrOffset world].
  pose proof (copy_gap dest src gap {| reader := reader s + Z.of_nat 8;
                                       addrOffset := addrOffset s;
                                       world := world s |}) as G.
  cbn [reader addrOffset world] in G. rewrite G. clear G.
  fold m. unfold setAddrOffset at 1. cbn [reader addrOffset world]. fold c.
  destruct (strongKind_cases _ Hk) as [-> | [-> | [-> | [-> | ->]]]];
    cbv [Z.eqb lift assignWithCopyTable errorAssignWithCopy
         nativeStrongAssignWithCopy unownedAssignWithCopy
         unknownAssignWithCopy bridgeAssignWithCopy bind getAddrOffset
         loadWord getMem ret storeBytes putMem setAddrOffset call retainCall releaseCall
         reader addrOffset world mem trace];
    rewrite !quiet by reflexivity; reflexivity.
Qed.

Lemma assign_end_turn fuel pre endOffset post s :
  lsBytes = pre ++ instr 0 endOffset ++ post ->
  reader s = Z.of_nat (length pre) ->
  0 <= endOffset < 2 ^ 56 ->
  handleRefCountsAssignWithCopy (S fuel) metadata dest src s
  = Some (tt, {| reader := reader s + 8;
                 addrOffset := u64 (addrOffset s + endOffset);
                 world := {| mem := memcpy (mem (world s)) (dest + addrOffset s)
                                      (src + addrOffset s) endOffset;
                             trace := trace (world s) |} |}).
Proof.
  intros Hls Hr Hg.
  cbn [handleRefCountsAssignWithCopy]. read_instr Hls Hr.
  unfold bind at 1. unfold bind at 1. cbn [reader addrOffset world].
  pose proof (copy_gap dest src endOffset {| reader := reader s + Z.of_nat 8;
                                             addrOffset := addrOffset s;
                                             world := world s |}) as G.
  cbn [reader addrOffset world] in G. rewrite G. clear G.
  reflexivity.
Qed.

(** For each field the release of the word [dest] held and the retain of
    the word of [src], the calls on the first field first. *)
Definition assignsOf (m : Memory) (cursor : Z) (fields : list (Z * Z)) : list Event :=
  flat_map (fun f => [releaseCall (fst f) (loadLE m (dest + snd f) 8);
                      retainCall (fst f) (loadLE m (src + snd f) 8)])
           (fieldsAt cursor fields).

Lemma assign_struct fields : forall fuel pre endOffset post s m0 lo,
  lsBytes = pre ++ structLayout fields endOffset ++ post ->
  reader s = Z.of_nat (length pre) ->
  Forall strongField fields ->
  0 <= endOffset < 2 ^ 56 ->
  (length fields < fuel)%nat ->
  0 <= addrOffset s -> lo <= addrOffset s ->
  addrOffset s + structSize fields endOffset < 2 ^ 64 ->
  dest <= src \/ src + (addrOffset s + structSize fields endOffset) <= dest + lo ->
  copiedBetween m0 dest src lo (addrOffset s) (mem (world s)) ->
  exists m',
    handleRefCountsAssignWithCopy fuel metadata dest src s
    = Some (tt, {| reader := reader s + 8 * (Z.of_nat (length fields) + 1);
                   addrOffset := addrOffset s + structSize fields endOffset;
                   world := {| mem := m';
                               trace := rev (assignsOf m0 (addrOffset s) fields)
                                        ++ trace (world s) |} |})
    /\ copiedBetween m0 dest src lo (addrOffset s + structSize fields endOffset) m'.
Proof.
  induction fields as [|[kind gap] fields IH];
    intros fuel pre endOffset post s m0 lo Hls Hr Hf He Hfuel Hc Hlo Hsize Hov Hm;
    (destruct fuel as [|fuel]; [cbn in Hfuel; lia|]).
  - unfold structLayout in Hls. cbn [flat_map app] in Hls. cbn [structSize] in *.
    rewrite (assign_end_turn _ _ _ _ _ Hls Hr He). rewrite u64_small by lia.
    eexists. split; [reflexivity|]. apply copiedBetween_gap; (assumption || lia).
  - rewrite structLayout_cons, <- app_assoc in Hls. inversion Hf as [|? ? Hf1 Hf2]; subst.
    pose proof Hf1 as [_ Hg]. cbn [snd structSize] in *.
    pose proof (structSize_nonneg (fun k => strongKind k = true) _ _ Hf2 (proj1 He)) as Hrest.
    rewrite (assign_strong_turn _ _ _ _ _ _ Hls Hr Hf1).
    rewrite !(u64_small (addrOffset s + gap)) by lia.
    rewrite !(u64_small (addrOffset s + gap + 8)) by lia.
    pose proof (copiedBetween_gap _ _ _ _ _ _ gap Hm Hlo (proj1 Hg) ltac:(lia)) as Hm1.
    destruct (copiedBetween_word _ _ _ _ _ _ Hm1 ltac:(lia) ltac:(lia)) as (Hl & Hd & Hm2).
    rewrite app_assoc in Hls.
    match goal with
    | |- context [handleRefCountsAssignWithCopy fuel metadata dest src ?s1] =>
        destruct (IH fuel (pre ++ instr kind gap) endOffset post s1 m0 lo)
          as (m' & Hrun & Hm');
        cbn [reader addrOffset world mem trace] in *;
        try assumption; try lia
    end.
    + rewrite length_app. unfold instr. rewrite length_encodeLE. lia.
    + cbn [length] in Hfuel. lia.
    + exists m'. rewrite Hrun. split.
      * f_equal. f_equal. f_equal; [cbn [length]; lia | lia |].
        f_equal. unfold assignsOf. cbn [fieldsAt flat_map rev fst snd app].
        rewrite !(u64_small (addrOffset s + gap)) by lia.
        rewrite !(u64_small (addrOffset s + gap + 8)) by lia.
        rewrite Hl, Hd, <- !app_assoc. reflexivity.
      * replace (addrOffset s + (gap + 8 + structSize fields endOffset))
          with (addrOffset s + gap + 8 + structSize fields endOffset) by lia.
        exact Hm'.
Qed.

End StructAssign.

(** ** Taking a struct of references *)

(** The kinds whose entry in the take table is null. *)
Definition takenBitwise (kind : Z) : bool :=
  (kind =? 1) || (kind =? 2) || (kind =? 3) || (kind =? 4) || (kind =? 5)
  || (kind =? 6) || (kind =? 9) || (kind =? 10) || (kind =? 11) || (kind =? 13).

Definition bitwiseField (f : Z * Z) : Prop :=
  takenBitwise (fst f) = true /\ 0 <= snd f < 2 ^ 56.

Lemma takenBitwise_cases kind :
  takenBitwise kind = true ->
  kind = 1 \/ kind = 2 \/ kind = 3 \/ kind = 4 \/ kind = 5 \/ kind = 6
  \/ kind = 9 \/ kind = 10 \/ kind = 11 \/ kind = 13.
Proof.
  unfold takenBitwise. intros H. repeat (apply orb_prop in H; destruct H as [H|H]); lia.
Qed.

(** Copying the next [n] bytes after the first [c] is copying [c + n]. *)
Lemma memcpy_chunk m0 dest src c n :
  0 <= c -> 0 <= n -> dest <= src \/ src + (c + n) <= dest ->
  memcpy (memcpy m0 dest src c) (dest + c) (src + c) n = memcpy m0 dest src (c + n).
Proof.
  intros Hc Hn Hov. apply functional_extensionality. intros x.
  unfold memcpy. in_range;
    repeat match goal with
           | |- context [?a <? ?b] => destruct (Z.ltb_spec a b)
           end;
    try lia; try reflexivity.
  all: replace (src + c + (x - (dest + c))) with (src + (x - dest)) by lia; reflexivity.
Qed.

Section StructTake.

Context {RT : Runtime} {ls : LayoutString}.
Variables (metadata dest src : Z).

Ltac read_instr Hls Hr :=
  unfold bind at 1; unfold getAddrOffset at 1;
  unfold bind at 1; unfold readBytes at 1;
  rewrite Hls, Hr, readAt_instr by (assumption || lia); rewrite <- Hr;
  rewrite offsetOf_instructionWord, kindOf_instructionWord by (assumption || lia).

(** One turn of the take loop on a field whose table entry is null. *)
Lemma take_bitwise_turn fuel pre kind gap post s :
  lsBytes = pre ++ instr kind gap ++ post ->
  reader s = Z.of_nat (length pre) ->
  bitwiseField (kind, gap) ->
  let c := u64 (addrOffset s + gap) in
  let m := memcpy (mem (world s)) (dest + addrOffset s) (src + addrOffset s) gap in
  handleRefCountsInitWithTake (S fuel) metadata dest src s
  = handleRefCountsInitWithTake fuel metadata dest src
      {| reader := reader s + 8;
         addrOffset := u64 (c + 8);
         world := {| mem := memcpy m (dest + c) (src + c) 8;
                     trace := trace (world s) |} |}.
Proof.
  intros Hls Hr [Hk Hg] c m. cbn [fst snd] in Hk, Hg.
  assert (Hkind : 0 <= kind < 256) by (apply takenBitwise_cases in Hk; lia).
  cbn [handleRefCountsInitWithTake]. read_instr Hls Hr.
  unfold bind at 1. unfold bind at 1. cbn [reader addrOffset world].
  pose proof (copy_gap dest src gap {| reader := reader s + Z.of_nat 8;
                                       addrOffset := addrOffset s;
                                       world := world s |}) as G.
  cbn [reader addrOffset world] in G. rewrite G. clear G.
  fold m. fold c.
  destruct (takenBitwise_cases _ Hk)
    as [-> | [-> | [-> | [-> | [-> | [-> | [-> | [-> | [-> | ->]]]]]]]]];
    reflexivity.
Qed.

Lemma take_end_turn fuel pre endOffset post s :
  lsBytes = pre ++ instr 0 endOffset ++ post ->
  reader s = Z.of_nat (length pre) ->
  0 <= endOffset < 2 ^ 56 ->
  handleRefCountsInitWithTake (S fuel) metadata dest src s
  = Some (tt, {| reader := reader s + 8;
                 addrOffset := u64 (addrOffset s + endOffset);
                 world := {| mem := memcpy (mem (world s)) (dest + addrOffset s)
                                      (src + addrOffset s) endOffset;
                             trace := trace (world s) |} |}).
Proof.
  intros Hls Hr Hg.
  cbn [handleRefCountsInitWithTake]. read_instr Hls Hr.
  unfold bind at 1. unfold bind at 1. cbn [reader addrOffset world].
  pose proof (copy_gap dest src endOffset {| reader := reader s + Z.of_nat 8;
                                             addrOffset := addrOffset s;
                                             world := world s |}) as G.
  cbn [reader addrOffset world] in G. rewrite G. clear G.
  reflexivity.
Qed.

Lemma take_struct fields : forall fuel pre endOffset post s m0,
  lsBytes = pre ++ structLayout fields endOffset ++ post ->
  reader s = Z.of_nat (length pre) ->
  Forall bitwiseField fields ->
  0 <= endOffset < 2 ^ 56 ->
  (length fields < fuel)%nat ->
  0 <= addrOffset s ->
  addrOffset s + structSize fields endOffset < 2 ^ 64 ->
  dest <= src \/ src + (addrOffset s + structSize fields endOffset) <= dest ->
  mem (world s) = memcpy m0 dest src (addrOffset s) ->
  handleRefCountsInitWithTake fuel metadata dest src s
  = Some (tt, {| reader := reader s + 8 * (Z.of_nat (length fields) + 1);
                 addrOffset := addrOffset s + structSize fields endOffset;
                 world := {| mem := memcpy m0 dest src
                                      (addrOffset s + structSize fields endOffset);
                             trace := trace (world s) |} |}).
Proof.
  induction fields as [|[kind gap] fields IH];
    intros fuel pre endOffset post s m0 Hls Hr Hf He Hfuel Hc Hsize Hov Hm;
    (destruct fuel as [|fuel]; [cbn in Hfuel; lia|]).
  - unfold structLayout in Hls. cbn [flat_map app] in Hls. cbn [structSize] in *.
    rewrite (take_end_turn _ _ _ _ _ Hls Hr He). rewrite u64_small by lia.
    rewrite Hm, memcpy_chunk by lia. reflexivity.
  - rewrite structLayout_cons, <- app_assoc in Hls. inversion Hf as [|? ? Hf1 Hf2]; subst.
    pose proof Hf1 as [_ Hg]. cbn [snd structSize] in *.
    pose proof (structSize_nonneg (fun k => takenBitwise k = true) _ _ Hf2 (proj1 He))
      as Hrest.
    rewrite (take_bitwise_turn _ _ _ _ _ _ Hls Hr Hf1).
    rewrite !(u64_small (addrOffset s + gap)) by lia.
    rewrite !(u64_small (addrOffset s + gap + 8)) by lia.
    rewrite Hm, !memcpy_chunk by lia.
    rewrite app_assoc in Hls.
    rewrite (IH fuel (pre ++ instr kind gap) endOffset post _ m0 Hls);
      cbn [reader addrOffset world mem trace]; try assumption; try lia.
    + f_equal. f_equal. f_equal; [cbn [length]; lia | lia |].
      f_equal. f_equal. lia.
    + rewrite length_app. unfold instr. rewrite length_encodeLE. lia.
    + cbn [length] in Hfuel. lia.
    + reflexivity.
Qed.

End StructTake.

(** ** Structs of references at the entry points *)

Lemma structOf_start {RT : Runtime} (header : list Z) c (w : World) :
  Z.of_nat (length header) = layoutStringHeaderSize ->
  reader (start c w) = Z.of_nat (length header).
Proof. intros H. cbn. symmetry. exact H. Qed.

(** X3. Copy-initialising a struct of strong single-word references, of a
    type whose size is that of the struct, at a destination that does not
    overlap the source, returns whenever the fuel exceeds the number of
    fields, with the cursor at the size of the type, as the entry point
    asserts. It makes one retain call per field and no other call, the call
    of the first field first, each on the word the field of the source
    holds; every byte of the destination below the size of the struct then
    is the byte of the source, and no other byte of storage has changed. *)
Theorem initWithCopy_retains_fields_and_copies {RT : Runtime} :
  forall (fuel : nat) (dest src metadata : Z) (w : World) fields endOffset,
    countingLeavesStorage ->
    structOf metadata fields endOffset ->
    Forall strongField fields ->
    0 <= endOffset < 2 ^ 56 ->
    (length fields < fuel)%nat ->
    vw_size metadata = structSize fields endOffset ->
    structSize fields endOffset < 2 ^ 64 ->
    dest + structSize fields endOffset <= src \/ src + structSize fields endOffset <= dest ->
    exists s,
      swift_generic_initWithCopy fuel dest src metadata w = Some s
      /\ addrOffset s = vw_size metadata
      /\ trace (world s) = rev (retainsOf src (mem w) 0 fields) ++ trace w
      /\ copiedTo (mem w) dest src (structSize fields endOffset) (mem (world s)).
Proof.
  intros fuel dest src metadata w fields endOffset Hq (header & rest & Hls & Hh)
    Hf He Hfuel Hvw Hsize Hov.
  pose proof (structSize_nonneg (fun k => strongKind k = true) _ _ Hf (proj1 He)) as Hn.
  destruct (copy_struct (ls := getLayoutString metadata) metadata dest src Hq
              fields fuel header endOffset rest (start 0 w) (mem w) 0 Hls
              (structOf_start _ _ _ Hh) Hf He Hfuel)
    as (m' & Hrun & Hm'); cbn [start addrOffset world]; try lia.
  - apply copiedBetween_start.
  - unfold swift_generic_initWithCopy, run. rewrite Hrun.
    eexists. split; [reflexivity|]. cbn [addrOffset world trace mem start] in *.
    rewrite Hvw. repeat split; try reflexivity; apply Hm'.
Qed.

(** X4. Copy-assigning such a struct, of a type whose size is that of the
    struct, to itself or to a destination that does not overlap the source,
    returns with the cursor at the size of the type, as the entry point
    asserts. It does field by field the release of the word the destination
    held and then the retain of the word of the source, and nothing else;
    the bytes of the source are in the destination afterwards and no other
    byte of storage has changed. *)
Theorem assignWithCopy_releases_then_retains {RT : Runtime} :
  forall (fuel : nat) (dest src metadata : Z) (w : World) fields endOffset,
    countingLeavesStorage ->
    structOf metadata fields endOffset ->
    Forall strongField fields ->
    0 <= endOffset < 2 ^ 56 ->
    (length fields < fuel)%nat ->
    vw_size metadata = structSize fields endOffset ->
    structSize fields endOffset < 2 ^ 64 ->
    dest = src \/ dest + structSize fields endOffset <= src
    \/ src + structSize fields endOffset <= dest ->
    exists s,
      swift_generic_assignWithCopy fuel dest src metadata w = Some s
      /\ addrOffset s = vw_size metadata
      /\ trace (world s) = rev (assignsOf dest src (mem w) 0 fields) ++ trace w
      /\ copiedTo (mem w) dest src (structSize fields endOffset) (mem (world s)).
Proof.
  intros fuel dest src metadata w fields endOffset Hq (header & rest & Hls & Hh)
    Hf He Hfuel Hvw Hsize Hov.
  pose proof (structSize_nonneg (fun k => strongKind k = true) _ _ Hf (proj1 He)) as Hn.
  destruct (assign_struct (ls := getLayoutString metadata) metadata dest src Hq
              fields fuel header endOffset rest (start 0 w) (mem w) 0 Hls
              (structOf_start _ _ _ Hh) Hf He Hfuel)
    as (m' & Hrun & Hm'); cbn [start addrOffset world]; try lia.
  - apply copiedBetween_start.
  - unfold swift_generic_assignWithCopy, run. rewrite Hrun.
    eexists. split; [reflexivity|]. cbn [addrOffset world trace mem start] in *.
    rewrite Hvw. repeat split; try reflexivity; apply Hm'.
Qed.

(** X5. Take-initialising a struct all of whose fields have a null entry
    in the take table, from a source that does not overlap the destination,
    is one [memcpy] of the struct and no runtime call, whether the type
    reports bitwise-takable or the layout string is walked: the two paths of
    [swift_generic_initWithTake] agree. *)
Theorem initWithTake_of_bitwise_fields_is_memcpy {RT : Runtime} :
  forall (fuel : nat) (dest src metadata : Z) (w : World) fields endOffset,
    structOf metadata fields endOffset ->
    Forall bitwiseField fields ->
    0 <= endOffset < 2 ^ 56 ->
    (length fields < fuel)%nat ->
    vw_size metadata = structSize fields endOffset ->
    structSize fields endOffset < 2 ^ 64 ->
    dest + structSize fields endOffset <= src \/ src + structSize fields endOffset <= dest ->
    exists s,
      swift_generic_initWithTake fuel dest src metadata w = Some s
      /\ addrOffset s = vw_size metadata
      /\ world s = {| mem := memcpy (mem w) dest src (vw_size metadata);
                      trace := trace w |}.
Proof.
  intros fuel dest src metadata w fields endOffset (header & rest & Hls & Hh)
    Hf He Hfuel Hvw Hsize Hov.
  pose proof (structSize_nonneg (fun k => takenBitwise k = true) _ _ Hf (proj1 He)) as Hn.
  unfold swift_generic_initWithTake. destruct (isBitwiseTakable metadata).
  - eexists. split; [reflexivity|]. split; reflexivity.
  - unfold run.
    rewrite (take_struct (ls := getLayoutString metadata) metadata dest src
               fields fuel header endOffset rest (start 0 w) (mem w) Hls
               (structOf_start _ _ _ Hh) Hf He Hfuel);
      cbn [start addrOffset world mem trace]; try lia.
    + eexists. split; [reflexivity|]. cbn [addrOffset world]. rewrite Hvw.
      split; reflexivity.
    + symmetry. apply memcpy_zero.
Qed.

(** ** Balance of the reference counts *)

Lemma netRefcountChange_app object a b :
  netRefcountChange object (a ++ b)
  = netRefcountChange object a + netRefcountChange object b.
Proof.
  unfold netRefcountChange.
  induction a as [|e a IH]; cbn [app fold_right]; [reflexivity | rewrite IH; lia].
Qed.

Lemma netRefcountChange_cons object e t :
  netRefcountChange object (e :: t) = refcountChange object e + netRefcountChange object t.
Proof. reflexivity. Qed.

Lemma netRefcountChange_rev object a :
  netRefcountChange object (rev a) = netRefcountChange object a.
Proof.
  induction a as [|e a IH]; [reflexivity|]. cbn [rev].
  rewrite netRefcountChange_app, IH. unfold netRefcountChange. cbn [fold_right]. lia.
Qed.

Lemma release_retain_balanced {RT : Runtime} object kind raw :
  strongKind kind = true ->
  refcountChange object (releaseCall kind raw) + refcountChange object (retainCall kind raw)
  = 0.
Proof.
  intros H. destruct (strongKind_cases _ H) as [-> | [-> | [-> | [-> | ->]]]];
    cbn [releaseCall retainCall refcountChange];
    match goal with |- context [?a =? ?b] => destruct (a =? b) end; reflexivity.
Qed.

Lemma assignsOf_balanced {RT : Runtime} object p m fields :
  Forall strongField fields ->
  forall cursor, netRefcountChange object (assignsOf p p m cursor fields) = 0.
Proof.
  unfold assignsOf. induction 1 as [|[kind gap] rest [Hk _] _ IH]; intros cursor;
    cbn [fieldsAt flat_map app fst snd] in *; [reflexivity|].
  rewrite !netRefcountChange_cons, IH.
  pose proof (release_retain_balanced object kind
                (loadLE m (p + u64 (cursor + gap)) 8) Hk). lia.
Qed.

(** X6. Copy-assigning a struct of strong single-word references, of a
    type whose size is that of the struct, to itself returns with the
    cursor at the size of the type, as the entry point asserts. It releases
    and retains every reference once, so that the count of every object is
    what it was, and leaves every byte of storage with the value it had. *)
Theorem self_assignment_of_strong_fields_is_balanced {RT : Runtime} :
  forall (fuel : nat) (p metadata : Z) (w : World) fields endOffset,
    countingLeavesStorage ->
    structOf metadata fields endOffset ->
    Forall strongField fields ->
    0 <= endOffset < 2 ^ 56 ->
    (length fields < fuel)%nat ->
    vw_size metadata = structSize fields endOffset ->
    structSize fields endOffset < 2 ^ 64 ->
    exists s,
      swift_generic_assignWithCopy fuel p p metadata w = Some s
      /\ addrOffset s = vw_size metadata
      /\ (forall object, netRefcountChange object (trace (world s))
                         = netRefcountChange object (trace w))
      /\ length (trace (world s)) = (2 * length fields + length (trace w))%nat
      /\ (forall x, u8 (mem (world s) x) = u8 (mem w x)).
Proof.
  intros fuel p metadata w fields endOffset Hq (header & rest & Hls & Hh)
    Hf He Hfuel Hvw Hsize.
  destruct (assign_struct (ls := getLayoutString metadata) metadata p p Hq
              fields fuel header endOffset rest (start 0 w) (mem w) 0 Hls
              (structOf_start _ _ _ Hh) Hf He Hfuel)
    as (m' & Hrun & Hm'); cbn [start addrOffset world]; try lia.
  - apply copiedBetween_start.
  - unfold swift_generic_assignWithCopy, run. rewrite Hrun.
    eexists. split; [reflexivity|]. cbn [addrOffset world trace mem start] in *.
    split; [symmetry; exact Hvw|]. split; [|split].
    + intros object.
      rewrite netRefcountChange_app, netRefcountChange_rev, assignsOf_balanced by exact Hf.
      reflexivity.
    + rewrite length_app, length_rev. f_equal. unfold assignsOf.
      clear. generalize 0. induction fields as [|[kind gap] rest IH]; intros c;
        cbn [fieldsAt flat_map app length]; [reflexivity|].
      rewrite IH. lia.
    + intros x. destruct (Hm' x) as [Hin Hout].
      destruct (Z.lt_ge_cases x p); [rewrite Hout by lia; reflexivity|].
      destruct (Z.lt_ge_cases x (p + (0 + structSize fields endOffset)));
        [|rewrite Hout by lia; reflexivity].
      rewrite Hin by lia. do 2 f_equal. lia.
Qed.

(** Where storage holds the words of the source, the releases of a destroy
    are those of the references a copy of the source retains. *)
Lemma copy_then_destroy_balanced {RT : Runtime} object dest src m0 m1 total endOffset
  fields :
  (forall x, dest <= x < dest + total -> u8 (m1 x) = u8 (m0 (src + (x - dest)))) ->
  Forall strongField fields ->
  0 <= endOffset ->
  forall cursor,
    0 <= cursor -> cursor + structSize fields endOffset <= total -> total < 2 ^ 64 ->
    netRefcountChange object (releasesOf dest m1 cursor fields)
    + netRefcountChange object (retainsOf src m0 cursor fields) = 0.
Proof.
  intros Hm Hf He. unfold releasesOf, retainsOf.
  induction Hf as [|[kind gap] rest [Hk Hg] Hrest IH]; intros cursor Hc Hsize Htotal;
    cbn [fieldsAt map fst snd structSize] in *; [reflexivity|].
  rewrite !netRefcountChange_cons.
  pose proof (structSize_nonneg (fun k => strongKind k = true) _ _ Hrest He) as Hn.
  rewrite !(u64_small (cursor + gap)) by lia.
  rewrite !(u64_small (cursor + gap + 8)) by lia.
  specialize (IH (cursor + gap + 8) ltac:(lia) ltac:(lia) Htotal).
  assert (Hl : loadLE m1 (dest + (cursor + gap)) 8 = loadLE m0 (src + (cursor + gap)) 8).
  { apply loadLE_bytes. intros j Hj.
    rewrite (Hm (dest + (cursor + gap) + j)) by lia. do 2 f_equal. lia. }
  rewrite Hl.
  pose proof (release_retain_balanced object kind
                (loadLE m0 (src + (cursor + gap)) 8) Hk). lia.
Qed.

(** X7. Destroying the copy that [swift_generic_initWithCopy] made of a
    struct of strong single-word references, of a type whose size is that
    of the struct, releases what the copy retained: both return, the copy
    with the cursor at the size of the type, as the entry point asserts,
    and after them the count of every object is what it was before the
    copy. The destroy leaves the bytes of the copy in place. *)
Theorem destroy_of_copy_is_balanced {RT : Runtime} :
  forall (fuel : nat) (dest src metadata : Z) (w : World) fields endOffset,
    countingLeavesStorage ->
    structOf metadata fields endOffset ->
    Forall strongField fields ->
    0 <= endOffset < 2 ^ 56 ->
    (length fields < fuel)%nat ->
    vw_size metadata = structSize fields endOffset ->
    structSize fields endOffset < 2 ^ 64 ->
    dest + structSize fields endOffset <= src \/ src + structSize fields endOffset <= dest ->
    exists s1 s2,
      swift_generic_initWithCopy fuel dest src metadata w = Some s1
      /\ addrOffset s1 = vw_size metadata
      /\ swift_generic_destroy fuel dest metadata (world s1) = Some s2
      /\ (forall object, netRefcountChange object (trace (world s2))
                         = netRefcountChange object (trace w))
      /\ mem (world s2) = mem (world s1).
Proof.
  intros fuel dest src metadata w fields endOffset Hq (header & rest & Hls & Hh)
    Hf He Hfuel Hvw Hsize Hov.
  pose proof (structSize_nonneg (fun k => strongKind k = true) _ _ Hf (proj1 He)) as Hn.
  destruct (copy_struct (ls := getLayoutString metadata) metadata dest src Hq
              fields fuel header endOffset rest (start 0 w) (mem w) 0 Hls
              (structOf_start _ _ _ Hh) Hf He Hfuel)
    as (m' & Hrun & Hm'); cbn [start addrOffset world]; try lia.
  - apply copiedBetween_start.
  - unfold swift_generic_initWithCopy, swift_generic_destroy, run. rewrite Hrun.
    eexists. eexists. split; [reflexivity|].
    split; [cbn [addrOffset start]; symmetry; exact Hvw|]. cbn [world].
    rewrite (destroy_struct (ls := getLayoutString metadata) metadata dest Hq
               fields fuel header endOffset rest _ Hls (structOf_start _ _ _ Hh) Hf He Hfuel).
    split; [reflexivity|]. cbn [addrOffset world trace mem start] in *.
    split; [|reflexivity].
    intros object.
    rewrite !netRefcountChange_app, !netRefcountChange_rev.
    assert (Hbytes : forall x, dest <= x < dest + (0 + structSize fields endOffset) ->
                               u8 (m' x) = u8 (mem w (src + (x - dest))))
      by (intros x Hx; apply Hm'; lia).
    pose proof (copy_then_destroy_balanced object dest src (mem w) m'
                  (0 + structSize fields endOffset) endOffset fields Hbytes Hf (proj1 He)
                  0 ltac:(lia) ltac:(lia) ltac:(lia)).
    lia.
Qed.

(** X8. Assign-with-take of a struct whose fields are strong references
    with a null entry in the take table (error, native, unowned and unknown
    references) releases each reference the destination held, once and in
    the order of the fields, and then moves the bytes of the source into the
    destination: no reference of the source is retained. *)
Theorem assignWithTake_releases_then_moves {RT : Runtime} :
  forall (fuel : nat) (dest src metadata : Z) (w : World) fields endOffset,
    countingLeavesStorage ->
    structOf metadata fields endOffset ->
    Forall strongField fields ->
    Forall bitwiseField fields ->
    0 <= endOffset < 2 ^ 56 ->
    (length fields < fuel)%nat ->
    vw_size metadata = structSize fields endOffset ->
    structSize fields endOffset < 2 ^ 64 ->
    dest + structSize fields endOffset <= src \/ src + structSize fields endOffset <= dest ->
    exists s,
      swift_generic_assignWithTake fuel dest src metadata w = Some s
      /\ addrOffset s = vw_size metadata
      /\ world s = {| mem := memcpy (mem w) dest src (vw_size metadata);
                      trace := rev (releasesOf dest (mem w) 0 fields) ++ trace w |}.
Proof.
  intros fuel dest src metadata w fields endOffset Hq (header & rest & Hls & Hh)
    Hf Hb He Hfuel Hvw Hsize Hov.
  pose proof (structSize_nonneg (fun k => strongKind k = true) _ _ Hf (proj1 He)) as Hn.
  unfold swift_generic_assignWithTake, swift_generic_destroy, run.
  rewrite (destroy_struct (ls := getLayoutString metadata) metadata dest Hq
             fields fuel header endOffset rest _ Hls (structOf_start _ _ _ Hh) Hf He Hfuel).
  cbn [world start addrOffset mem trace].
  unfold swift_generic_initWithTake. destruct (isBitwiseTakable metadata).
  - eexists. split; [reflexivity|]. split; reflexivity.
  - unfold run.
    rewrite (take_struct (ls := getLayoutString metadata) metadata dest src
               fields fuel header endOffset rest _ (mem w) Hls
               (structOf_start _ _ _ Hh) Hb He Hfuel);
      cbn [start addrOffset world mem trace]; try lia.
    + eexists. split; [reflexivity|]. cbn [addrOffset world]. rewrite Hvw.
      split; reflexivity.
    + symmetry. apply memcpy_zero.
Qed.

(** ** The struct theorems at concrete values *)

Lemma exampleRuntime_countingLeavesStorage bytes takable :
  countingLeavesStorage (RT := exampleRuntime bytes takable).
Proof. intros e m H. destruct e; try discriminate H; reflexivity. Qed.

Lemma exampleRuntime_structOf fields endOffset takable metadata :
  structOf (RT := exampleRuntime (exampleHeader ++ structLayout fields endOffset) takable)
    metadata fields endOffset.
Proof. exists exampleHeader, []. rewrite app_nil_r. split; reflexivity. Qed.

(** A native reference at 0 and an error reference at 16 in a struct of 28
    bytes. *)
Definition nativeAndError : list (Z * Z) := [(2, 0); (1, 8)].

(** One native reference: a struct of 8 bytes, the size every type of the
    example runtime has. *)
Definition oneNative : list (Z * Z) := [(2, 0)].

Lemma nativeAndError_strong : Forall strongField nativeAndError.
Proof. repeat constructor; cbn; lia. Qed.

Lemma oneNative_strong : Forall strongField oneNative.
Proof. repeat constructor; cbn; lia. Qed.

Lemma oneNative_bitwise : Forall bitwiseField oneNative.
Proof. repeat constructor; cbn; lia. Qed.

(** Storage with the word [v1] at [a] and the word [v2] at [a + 16]. *)
Definition twoWordsAt (a v1 v2 : Z) : Memory := storeLE (wordAt a v1) (a + 16) 8 v2.


Example destroy_nativeAndError :
  outcome (swift_generic_destroy
             (RT := exampleRuntime (exampleHeader ++ structLayout nativeAndError 4) false)
             3 1000 0 (emptyWorld (twoWordsAt 1000 0x7000 0x8000)))
  = Some (28, [swift_errorRelease 0x8000; swift_release 0x7000]).
Proof. vm_compute. reflexivity. Qed.

Lemma arrayDestroy_releases_elements_in_order_witness :
  swift_generic_arrayDestroy
    (RT := exampleRuntime (exampleHeader ++ structLayout oneNative 0) false)
    2 1000 (Z.of_nat 2) 16 0 (emptyWorld (twoWordsAt 1000 0x7000 0x8000))
  = Some {| mem := twoWordsAt 1000 0x7000 0x8000;
            trace := rev (elementReleases
                            (RT := exampleRuntime
                                     (exampleHeader ++ structLayout oneNative 0) false)
                            1000 16 (twoWordsAt 1000 0x7000 0x8000) oneNative 2)
                     ++ [] |}.
Proof.
  apply (arrayDestroy_releases_elements_in_order
           (RT := exampleRuntime (exampleHeader ++ structLayout oneNative 0) false)
           2 1000 16 0 2 (emptyWorld (twoWordsAt 1000 0x7000 0x8000)) oneNative 0).
  - apply exampleRuntime_countingLeavesStorage.
  - apply exampleRuntime_structOf.
  - exact oneNative_strong.
  - lia.
  - cbn. lia.
  - cbn. lia.
  - lia.
  - cbn. lia.
Defined.

Example arrayDestroy_oneNative :
  option_map trace
    (swift_generic_arrayDestroy
       (RT := exampleRuntime (exampleHeader ++ structLayout oneNative 0) false)
       2 1000 2 16 0 (emptyWorld (twoWordsAt 1000 0x7000 0x8000)))
  = Some [swift_release 0x8000; swift_release 0x7000].
Proof. vm_compute. reflexivity. Qed.

(** The example runtime with every type of the size [size]. *)
Definition sizedRuntime (bytes : list Z) (size : Z) : Runtime :=
  let R := exampleRuntime bytes false in {|
  layoutStringHeaderSize := @layoutStringHeaderSize R;
  NumWords_ValueBuffer := @NumWords_ValueBuffer R;
  _swift_abi_SwiftSpareBitsMask := @_swift_abi_SwiftSpareBitsMask R;
  _swift_abi_ObjCReservedBitsMask := @_swift_abi_ObjCReservedBitsMask R;
  getLayoutString := @getLayoutString R;
  getGenericArgs := @getGenericArgs R;
  vw_size := fun _ => size;
  vw_getNumExtraInhabitants := @vw_getNumExtraInhabitants R;
  isBitwiseTakable := @isBitwiseTakable R;
  isValueInline := @isValueInline R;
  callMetadataAccessor := @callMetadataAccessor R;
  callGetEnumTagFn := @callGetEnumTagFn R;
  vw_getEnumTagSinglePayload := @vw_getEnumTagSinglePayload R;
  Block_copy_result := @Block_copy_result R;
  effect := @effect R
|}.

Lemma sizedRuntime_countingLeavesStorage bytes size :
  countingLeavesStorage (RT := sizedRuntime bytes size).
Proof. intros e m H. destruct e; try discriminate H; reflexivity. Qed.

Lemma sizedRuntime_structOf fields endOffset size metadata :
  structOf (RT := sizedRuntime (exampleHeader ++ structLayout fields endOffset) size)
    metadata fields endOffset.
Proof. exists exampleHeader, []. rewrite app_nil_r. split; reflexivity. Qed.

(** The struct [nativeAndError] with 4 trailing bytes, as a type of its 28
    bytes. *)
Definition pairRuntime : Runtime :=
  sizedRuntime (exampleHeader ++ structLayout nativeAndError 4) 28.

Definition wordRuntime (takable : bool) : Runtime :=
  exampleRuntime (exampleHeader ++ structLayout oneNative 0) takable.

Definition pairWorld : World := emptyWorld (twoWordsAt 1000 0x7000 0x8000).

Lemma initWithCopy_retains_fields_and_copies_witness :
  exists s,
    swift_generic_initWithCopy (RT := pairRuntime) 3 2000 1000 0 pairWorld = Some s
    /\ addrOffset s = vw_size (Runtime := pairRuntime) 0
    /\ trace (world s)
       = rev (retainsOf (RT := pairRuntime) 1000 (mem pairWorld) 0 nativeAndError)
         ++ trace pairWorld
    /\ copiedTo (mem pairWorld) 2000 1000 (structSize nativeAndError 4) (mem (world s)).
Proof.
  apply (initWithCopy_retains_fields_and_copies (RT := pairRuntime)
           3 2000 1000 0 pairWorld nativeAndError 4).
  - apply sizedRuntime_countingLeavesStorage.
  - exact (sizedRuntime_structOf nativeAndError 4 28 0).
  - exact nativeAndError_strong.
  - lia.
  - cbn. lia.
  - reflexivity.
  - cbn. lia.
  - cbn. lia.
Defined.

Example initWithCopy_nativeAndError :
  outcome (swift_generic_initWithCopy (RT := pairRuntime) 3 2000 1000 0 pairWorld)
  = Some (28, [swift_errorRetain 0x8000; swift_retain 0x7000]).
Proof. vm_compute. reflexivity. Qed.

Lemma assignWithCopy_releases_then_retains_witness :
  exists s,
    swift_generic_assignWithCopy (RT := pairRuntime) 3 2000 1000 0 pairWorld = Some s
    /\ addrOffset s = vw_size (Runtime := pairRuntime) 0
    /\ trace (world s)
       = rev (assignsOf (RT := pairRuntime) 2000 1000 (mem pairWorld) 0 nativeAndError)
         ++ trace pairWorld
    /\ copiedTo (mem pairWorld) 2000 1000 (structSize nativeAndError 4) (mem (world s)).
Proof.
  apply (assignWithCopy_releases_then_retains (RT := pairRuntime)
           3 2000 1000 0 pairWorld nativeAndError 4).
  - apply sizedRuntime_countingLeavesStorage.
  - exact (sizedRuntime_structOf nativeAndError 4 28 0).
  - exact nativeAndError_strong.
  - lia.
  - cbn. lia.
  - reflexivity.
  - cbn. lia.
  - cbn. lia.
Defined.

Example assignWithCopy_nativeAndError :
  outcome (swift_generic_assignWithCopy (RT := pairRuntime) 3 2000 1000 0 pairWorld)
  = Some (28, [swift_errorRetain 0x8000; swift_errorRelease 0;
               swift_retain 0x7000; swift_release 0]).
Proof. vm_compute. reflexivity. Qed.

Lemma initWithTake_of_bitwise_fields_is_memcpy_witness :
  exists s,
    swift_generic_initWithTake (RT := wordRuntime false) 2 2000 1000 0 pairWorld = Some s
    /\ addrOffset s = vw_size (Runtime := wordRuntime false) 0
    /\ world s = {| mem := memcpy (mem pairWorld) 2000 1000
                             (vw_size (Runtime := wordRuntime false) 0);
                    trace := trace pairWorld |}.
Proof.
  apply (initWithTake_of_bitwise_fields_is_memcpy (RT := wordRuntime false)
           2 2000 1000 0 pairWorld oneNative 0).
  - exact (exampleRuntime_structOf oneNative 0 false 0).
  - exact oneNative_bitwise.
  - lia.
  - cbn. lia.
  - reflexivity.
  - cbn. lia.
  - cbn. lia.
Defined.

Lemma self_assignment_of_strong_fields_is_balanced_witness :
  exists s,
    swift_generic_assignWithCopy (RT := pairRuntime) 3 1000 1000 0 pairWorld = Some s
    /\ addrOffset s = vw_size (Runtime := pairRuntime) 0
    /\ (forall object, netRefcountChange object (trace (world s))
                       = netRefcountChange object (trace pairWorld))
    /\ length (trace (world s)) = (2 * length nativeAndError + length (trace pairWorld))%nat
    /\ (forall x, u8 (mem (world s) x) = u8 (mem pairWorld x)).
Proof.
  apply (self_assignment_of_strong_fields_is_balanced (RT := pairRuntime)
           3 1000 0 pairWorld nativeAndError 4).
  - apply sizedRuntime_countingLeavesStorage.
  - exact (sizedRuntime_structOf nativeAndError 4 28 0).
  - exact nativeAndError_strong.
  - lia.
  - cbn. lia.
  - reflexivity.
  - cbn. lia.
Defined.

Lemma destroy_of_copy_is_balanced_witness :
  exists s1 s2,
    swift_generic_initWithCopy (RT := pairRuntime) 3 2000 1000 0 pairWorld = Some s1
    /\ addrOffset s1 = vw_size (Runtime := pairRuntime) 0
    /\ swift_generic_destroy (RT := pairRuntime) 3 2000 0 (world s1) = Some s2
    /\ (forall object, netRefcountChange object (trace (world s2))
                       = netRefcountChange object (trace pairWorld))
    /\ mem (world s2) = mem (world s1).
Proof.
  apply (destroy_of_copy_is_balanced (RT := pairRuntime)
           3 2000 1000 0 pairWorld nativeAndError 4).
  - apply sizedRuntime_countingLeavesStorage.
  - exact (sizedRuntime_structOf nativeAndError 4 28 0).
  - exact nativeAndError_strong.
  - lia.
  - cbn. lia.
  - reflexivity.
  - cbn. lia.
  - cbn. lia.
Defined.

Lemma assignWithTake_releases_then_moves_witness :
  exists s,
    swift_generic_assignWithTake (RT := wordRuntime false) 2 2000 1000 0 pairWorld = Some s
    /\ addrOffset s = vw_size (Runtime := wordRuntime false) 0
    /\ world s = {| mem := memcpy (mem pairWorld) 2000 1000
                             (vw_size (Runtime := wordRuntime false) 0);
                    trace := rev (releasesOf (RT := wordRuntime false)
                                    2000 (mem pairWorld) 0 oneNative)
                             ++ trace pairWorld |}.
Proof.
  apply (assignWithTake_releases_then_moves (RT := wordRuntime false)
           2 2000 1000 0 pairWorld oneNative 0).
  - apply exampleRuntime_countingLeavesStorage.
  - exact (exampleRuntime_structOf oneNative 0 false 0).
  - exact oneNative_strong.
  - exact oneNative_bitwise.
  - lia.
  - cbn. lia.
  - reflexivity.
  - cbn. lia.
  - cbn. lia.
Defined.

(** ** Reserved bits and spare bits along a layout string *)

(** NativeStrong, Unowned and ObjCStrong: the kinds whose word is masked
    before the runtime sees it. *)
Definition maskedKind (kind : Z) : bool :=
  (kind =? 2) || (kind =? 3) || (kind =? 10).

Definition maskedField (f : Z * Z) : Prop :=
  maskedKind (fst f) = true /\ 0 <= snd f < 2 ^ 56.

(** What is owed to a field of such a kind that holds the word [raw]: for
    an ObjCStrong word with a reserved bit no call at all, and otherwise one
    call on the word without its spare bits. *)
Definition maskedRelease {RT : Runtime} (kind raw : Z) : list Event :=
  match kind with
  | 2 => [swift_release (maskSpareBits raw)]
  | 3 => [swift_unownedRelease (maskSpareBits raw)]
  | 10 => if hasReservedBits raw then [] else [objc_release (maskSpareBits raw)]
  | _ => []
  end.

Definition maskedRetain {RT : Runtime} (kind raw : Z) : list Event :=
  match kind with
  | 2 => [swift_retain (maskSpareBits raw)]
  | 3 => [swift_unownedRetain (maskSpareBits raw)]
  | 10 => if hasReservedBits raw then [] else [objc_retain (maskSpareBits raw)]
  | _ => []
  end.

(** The runtime calls on native, unowned and Objective-C references. *)
Definition countsMasked (e : Event) : bool :=
  match e with
  | swift_release _ | swift_retain _ | swift_unownedRelease _ | swift_unownedRetain _
  | objc_release _ | objc_retain _ => true
  | _ => false
  end.

(** These calls count in the objects and leave the storage of values alone. *)
Definition maskedCountingLeavesStorage {RT : Runtime} : Prop :=
  forall e m, countsMasked e = true -> effect e m = m.

Lemma maskedKind_cases kind : maskedKind kind = true -> kind = 2 \/ kind = 3 \/ kind = 10.
Proof. unfold maskedKind. intros H. repeat (apply orb_prop in H; destruct H as [H|H]); lia. Qed.

Lemma rev_maskedRelease {RT : Runtime} kind raw :
  rev (maskedRelease kind raw) = maskedRelease kind raw.
Proof.
  unfold maskedRelease.
  repeat match goal with
         | |- context [match ?x with _ => _ end] => destruct x
         end; reflexivity.
Qed.

Lemma rev_maskedRetain {RT : Runtime} kind raw :
  rev (maskedRetain kind raw) = maskedRetain kind raw.
Proof.
  unfold maskedRetain.
  repeat match goal with
         | |- context [match ?x with _ => _ end] => destruct x
         end; reflexivity.
Qed.

Section MaskedDestroy.

Context {RT : Runtime} {ls : LayoutString}.
Variables (metadata addr : Z).
Hypothesis quiet : maskedCountingLeavesStorage.

(** One turn of the destroy loop on a field of a masked kind. *)
Lemma destroy_masked_turn fuel pre kind gap post s :
  lsBytes = pre ++ instr kind gap ++ post ->
  reader s = Z.of_nat (length pre) ->
  maskedField (kind, gap) ->
  handleRefCountsDestroy (S fuel) metadata addr s
  = handleRefCountsDestroy fuel metadata addr
      {| reader := reader s + 8;
         addrOffset := u64 (u64 (addrOffset s + gap) + 8);
         world := {| mem := mem (world s);
                     trace := maskedRelease kind
                                (loadLE (mem (world s)) (addr + u64 (addrOffset s + gap)) 8)
                              ++ trace (world s) |} |}.
Proof.
  intros Hls Hr [Hk Hg]. cbn [fst snd] in Hk, Hg.
  assert (Hkind : 0 <= kind < 256) by (apply maskedKind_cases in Hk; lia).
  cbn [handleRefCountsDestroy]. unfold bind at 1. unfold readBytes at 1.
  rewrite Hls, Hr, readAt_instr by assumption. rewrite <- Hr.
  unfold bind at 1. unfold advance, bind, getAddrOffset, setAddrOffset.
  cbn [reader addrOffset world].
  rewrite offsetOf_instructionWord, kindOf_instructionWord by assumption.
  destruct (maskedKind_cases _ Hk) as [-> | [-> | ->]];
    cbv [Z.eqb lift destroyTableBranchless nativeStrongDestroyBranchless
         unownedDestroyBranchless objcStrongDestroyBranchless bind getAddrOffset
         loadWord getMem ret advance setAddrOffset call maskedRelease app
         reader addrOffset world mem trace];
    try (rewrite quiet by reflexivity; reflexivity).
  destruct (hasReservedBits _); cbv [ret call world mem trace];
    [destruct s as [r a [m t]]; reflexivity | rewrite quiet by reflexivity; reflexivity].
Qed.

(** The releases of the fields, the call on the first field first. *)
Definition maskedReleasesOf (m : Memory) (cursor : Z) (fields : list (Z * Z))
  : list Event :=
  flat_map (fun f => maskedRelease (fst f) (loadLE m (addr + snd f) 8))
           (fieldsAt cursor fields).

Lemma destroy_masked_struct fields : forall fuel pre endOffset post s,
  lsBytes = pre ++ structLayout fields endOffset ++ post ->
  reader s = Z.of_nat (length pre) ->
  Forall maskedField fields ->
  0 <= endOffset < 2 ^ 56 ->
  (length fields < fuel)%nat ->
  handleRefCountsDestroy fuel metadata addr s
  = Some (tt, {| reader := reader s + 8 * (Z.of_nat (length fields) + 1);
                 addrOffset := u64 (cursorBehind (addrOffset s) fields + endOffset);
                 world := {| mem := mem (world s);
                             trace := rev (maskedReleasesOf (mem (world s)) (addrOffset s)
                                             fields)
                                      ++ trace (world s) |} |}).
Proof.
  induction fields as [|[kind gap] fields IH]; intros fuel pre endOffset post s Hls Hr Hf He Hfuel;
    (destruct fuel as [|fuel]; [cbn in Hfuel; lia|]).
  - unfold structLayout in Hls. cbn [flat_map app] in Hls.
    rewrite (destroy_end_turn _ _ _ _ _ _ _ Hls Hr He). cbn. destruct s as [r a [m t]].
    reflexivity.
  - rewrite structLayout_cons, <- app_assoc in Hls. inversion Hf as [|? ? Hf1 Hf2]; subst.
    rewrite (destroy_masked_turn _ _ _ _ _ _ Hls Hr Hf1).
    rewrite app_assoc in Hls.
    rewrite (IH fuel (pre ++ instr kind gap) endOffset post);
      cbn [reader addrOffset world mem trace]; try assumption.
    + f_equal. f_equal. f_equal.
      * cbn [length]. lia.
      * unfold maskedReleasesOf. cbn [fieldsAt flat_map fst snd cursorBehind].
        rewrite rev_app_distr, rev_maskedRelease, <- app_assoc. reflexivity.
    + rewrite length_app. unfold instr. rewrite length_encodeLE. lia.
    + cbn [length] in Hfuel. lia.
Qed.

End MaskedDestroy.

Section MaskedCopy.

Context {RT : Runtime} {ls : LayoutString}.
Variables (metadata dest src : Z).
Hypothesis quiet : maskedCountingLeavesStorage.

Ltac read_instr Hls Hr :=
  unfold bind at 1; unfold getAddrOffset at 1;
  unfold bind at 1; unfold readBytes at 1;
  rewrite Hls, Hr, readAt_instr by (assumption || lia); rewrite <- Hr;
  rewrite offsetOf_instructionWord, kindOf_instructionWord by (assumption || lia).

(** One turn of the copy loop on a field of a masked kind. *)
Lemma copy_masked_turn fuel pre kind gap post s :
  lsBytes = pre ++ instr kind gap ++ post ->
  reader s = Z.of_nat (length pre) ->
  maskedField (kind, gap) ->
  let c := u64 (addrOffset s + gap) in
  let m := memcpy (mem (world s)) (dest + addrOffset s) (src + addrOffset s) gap in
  handleRefCountsInitWithCopy (S fuel) metadata dest src s
  = handleRefCountsInitWithCopy fuel metadata dest src
      {| reader := reader s + 8;
         addrOffset := u64 (c + 8);
         world := {| mem := storeLE m (dest + c) 8 (loadLE m (src + c) 8);
                     trace := maskedRetain kind (loadLE m (src + c) 8)
                              ++ trace (world s) |} |}.
Proof.
  intros Hls Hr [Hk Hg] c m. cbn [fst snd] in Hk, Hg.
  assert (Hkind : 0 <= kind < 256) by (apply maskedKind_cases in Hk; lia).
  cbn [handleRefCountsInitWithCopy]. read_instr Hls Hr.
  unfold bind at 1. unfold bind at 1. cbn [reader addrOffset world].
  pose proof (copy_gap dest src gap {| reader := reader s + Z.of_nat 8;
                                       addrOffset := addrOffset s;
                                       world := world s |}) as G.
  cbn [reader addrOffset world] in G. rewrite G. clear G.
  fold m. unfold setAddrOffset at 1. cbn [reader addrOffset world]. fold c.
  destruct (maskedKind_cases _ Hk) as [-> | [-> | ->]];
    cbv [Z.eqb lift initWithCopyTable nativeStrongRetainBranchless
         unownedRetainBranchless objcStrongRetainBranchless bind getAddrOffset
         loadWord getMem ret storeBytes putMem setAddrOffset call maskedRetain app
         reader addrOffset world mem trace];
    try (rewrite quiet by reflexivity; reflexivity).
  destruct (hasReservedBits _); cbv [ret call world mem trace];
    [reflexivity | rewrite quiet by reflexivity; reflexivity].
Qed.

(** The retains of the fields, the call on the first field first. *)
Definition maskedRetainsOf (m : Memory) (cursor : Z) (fields : list (Z * Z))
  : list Event :=
  flat_map (fun f => maskedRetain (fst f) (loadLE m (src + snd f) 8))
           (fieldsAt cursor fields).

Lemma copy_masked_struct fields : forall fuel pre endOffset post s m0 lo,
  lsBytes = pre ++ structLayout fields endOffset ++ post ->
  reader s = Z.of_nat (length pre) ->
  Forall maskedField fields ->
  0 <= endOffset < 2 ^ 56 ->
  (length fields < fuel)%nat ->
  0 <= addrOffset s -> lo <= addrOffset s ->
  addrOffset s + structSize fields endOffset < 2 ^ 64 ->
  dest <= src \/ src + (addrOffset s + structSize fields endOffset) <= dest + lo ->
  copiedBetween m0 dest src lo (addrOffset s) (mem (world s)) ->
  exists m',
    handleRefCountsInitWithCopy fuel metadata dest src s
    = Some (tt, {| reader := reader s + 8 * (Z.of_nat (length fields) + 1);
                   addrOffset := addrOffset s + structSize fields endOffset;
                   world := {| mem := m';
                               trace := rev (maskedRetainsOf m0 (addrOffset s) fields)
                                        ++ trace (world s) |} |})
    /\ copiedBetween m0 dest src lo (addrOffset s + structSize fields endOffset) m'.
Proof.
  induction fields as [|[kind gap] fields IH];
    intros fuel pre endOffset post s m0 lo Hls Hr Hf He Hfuel Hc Hlo Hsize Hov Hm;
    (destruct fuel as [|fuel]; [cbn in Hfuel; lia|]).
  - unfold structLayout in Hls. cbn [flat_map app] in Hls. cbn [structSize] in *.
    rewrite (copy_end_turn _ _ _ _ _ _ _ _ Hls Hr He). rewrite u64_small by lia.
    eexists. split; [reflexivity|]. apply copiedBetween_gap; (assumption || lia).
  - rewrite structLayout_cons, <- app_assoc in Hls. inversion Hf as [|? ? Hf1 Hf2]; subst.
    pose proof Hf1 as [_ Hg]. cbn [snd structSize] in *.
    pose proof (structSize_nonneg (fun k => maskedKind k = true) _ _ Hf2 (proj1 He)) as Hrest.
    rewrite (copy_masked_turn _ _ _ _ _ _ Hls Hr Hf1).
    rewrite !(u64_small (addrOffset s + gap)) by lia.
    rewrite !(u64_small (addrOffset s + gap + 8)) by lia.
    pose proof (copiedBetween_gap _ _ _ _ _ _ gap Hm Hlo (proj1 Hg) ltac:(lia)) as Hm1.
    destruct (copiedBetween_word _ _ _ _ _ _ Hm1 ltac:(lia) ltac:(lia)) as (Hl & _ & Hm2).
    rewrite app_assoc in Hls.
    match goal with
    | |- context [handleRefCountsInitWithCopy fuel metadata dest src ?s1] =>
        destruct (IH fuel (pre ++ instr kind gap) endOffset post s1 m0 lo)
          as (m' & Hrun & Hm');
        cbn [reader addrOffset world mem trace] in *;
        try assumption; try lia
    end.
    + rewrite length_app. unfold instr. rewrite length_encodeLE. lia.
    + cbn [length] in Hfuel. lia.
    + exists m'. rewrite Hrun. split.
      * f_equal. f_equal. f_equal; [cbn [length]; lia | lia |].
        f_equal. unfold maskedRetainsOf. cbn [fieldsAt flat_map fst snd].
        rewrite !(u64_small (addrOffset s + gap)) by lia.
        rewrite !(u64_small (addrOffset s + gap + 8)) by lia.
        rewrite rev_app_distr, rev_maskedRetain, Hl, <- app_assoc. reflexivity.
      * replace (addrOffset s + (gap + 8 + structSize fields endOffset))
          with (addrOffset s + gap + 8 + structSize fields endOffset) by lia.
        exact Hm'.
Qed.

(** One turn of the copy-assign loop on a field of a masked kind. *)
Lemma assign_masked_turn fuel pre kind gap post s :
  lsBytes = pre ++ instr kind gap ++ post ->
  reader s = Z.of_nat (length pre) ->
  maskedField (kind, gap) ->
  let c := u64 (addrOffset s + gap) in
  let m := memcpy (mem (world s)) (dest + addrOffset s) (src + addrOffset s) gap in
  handleRefCountsAssignWithCopy (S fuel) metadata dest src s
  = handleRefCountsAssignWithCopy fuel metadata dest src
      {| reader := reader s + 8;
         addrOffset := u64 (c + 8);
         world := {| mem := storeLE m (dest + c) 8 (loadLE m (src + c) 8);
                     trace := maskedRetain kind (loadLE m (src + c) 8)
                              ++ maskedRelease kind (loadLE m (dest + c) 8)
                              ++ trace (world s) |} |}.
Proof.
  intros Hls Hr [Hk Hg] c m. cbn [fst snd] in Hk, Hg.
  assert (Hkind : 0 <= kind < 256) by (apply maskedKind_cases in Hk; lia).
  cbn [handleRefCountsAssignWithCopy]. read_instr Hls Hr.
  unfold bind at 1. unfold bind at 1. cbn [reader addrOffset world].
  pose proof (copy_gap dest src gap {| reader := reader s + Z.of_nat 8;
                                       addrOffset := addrOffset s;
                                       world := world s |}) as G.
  cbn [reader addrOffset world] in G. rewrite G. clear G.
  fold m. unfold setAddrOffset at 1. cbn [reader addrOffset world]. fold c.
  destruct (maskedKind_cases _ Hk) as [-> | [-> | ->]];
    cbv [Z.eqb lift assignWithCopyTable nativeStrongAssignWithCopy
         unownedAssignWithCopy objcStrongAssignWithCopy bind getAddrOffset
         loadWord getMem ret storeBytes putMem setAddrOffset call maskedRetain
         maskedRelease app negb reader addrOffset world mem trace];
    try (rewrite !quiet by reflexivity; reflexivity).
  do 2 (destruct (hasReservedBits _)); cbv [ret call world mem trace];
    rewrite ?quiet by reflexivity; reflexivity.
Qed.

(** For each field what is owed to the word [dest] held and then to the
    word of [src], the calls on the first field first. *)
Definition maskedAssignsOf (m : Memory) (cursor : Z) (fields : list (Z * Z))
  : list Event :=
  flat_map (fun f => maskedRelease (fst f) (loadLE m (dest + snd f) 8)
                     ++ maskedRetain (fst f) (loadLE m (src + snd f) 8))
           (fieldsAt cursor fields).

Lemma assign_masked_struct fields : forall fuel pre endOffset post s m0 lo,
  lsBytes = pre ++ structLayout fields endOffset ++ post ->
  reader s = Z.of_nat (length pre) ->
  Forall maskedField fields ->
  0 <= endOffset < 2 ^ 56 ->
  (length fields < fuel)%nat ->
  0 <= addrOffset s -> lo <= addrOffset s ->
  addrOffset s + structSize fields endOffset < 2 ^ 64 ->
  dest <= src \/ src + (addrOffset s + structSize fields endOffset) <= dest + lo ->
  copiedBetween m0 dest src lo (addrOffset s) (mem (world s)) ->
  exists m',
    handleRefCountsAssignWithCopy fuel metadata dest src s
    = Some (tt, {| reader := reader s + 8 * (Z.of_nat (length fields) + 1);
                   addrOffset := addrOffset s + structSize fields endOffset;
                   world := {| mem := m';
                               trace := rev (maskedAssignsOf m0 (addrOffset s) fields)
                                        ++ trace (world s) |} |})
    /\ copiedBetween m0 dest src lo (addrOffset s + structSize fields endOffset) m'.
Proof.
  induction fields as [|[kind gap] fields IH];
    intros fuel pre endOffset post s m0 lo Hls Hr Hf He Hfuel Hc Hlo Hsize Hov Hm;
    (destruct fuel as [|fuel]; [cbn in Hfuel; lia|]).
  - unfold structLayout in Hls. cbn [flat_map app] in Hls. cbn [structSize] in *.
    rewrite (assign_end_turn _ _ _ _ _ _ _ _ Hls Hr He). rewrite u64_small by lia.
    eexists. split; [reflexivity|]. apply copiedBetween_gap; (assumption || lia).
  - rewrite structLayout_cons, <- app_assoc in Hls. inversion Hf as [|? ? Hf1 Hf2]; subst.
    pose proof Hf1 as [_ Hg]. cbn [snd structSize] in *.
    pose proof (structSize_nonneg (fun k => maskedKind k = true) _ _ Hf2 (proj1 He)) as Hrest.
    rewrite (assign_masked_turn _ _ _ _ _ _ Hls Hr Hf1).
    rewrite !(u64_small (addrOffset s + gap)) by lia.
    rewrite !(u64_small (addrOffset s + gap + 8)) by lia.
    pose proof (copiedBetween_gap _ _ _ _ _ _ gap Hm Hlo (proj1 Hg) ltac:(lia)) as Hm1.
    destruct (copiedBetween_word _ _ _ _ _ _ Hm1 ltac:(lia) ltac:(lia)) as (Hl & Hd & Hm2).
    rewrite app_assoc in Hls.
    match goal with
    | |- context [handleRefCountsAssignWithCopy fuel metadata dest src ?s1] =>
        destruct (IH fuel (pre ++ instr kind gap) endOffset post s1 m0 lo)
          as (m' & Hrun & Hm');
        cbn [reader addrOffset world mem trace] in *;
        try assumption; try lia
    end.
    + rewrite length_app. unfold instr. rewrite length_encodeLE. lia.
    + cbn [length] in Hfuel. lia.
    + exists m'. rewrite Hrun. split.
      * f_equal. f_equal. f_equal; [cbn [length]; lia | lia |].
        f_equal. unfold maskedAssignsOf. cbn [fieldsAt flat_map fst snd].
        rewrite !(u64_small (addrOffset s + gap)) by lia.
        rewrite !(u64_small (addrOffset s + gap + 8)) by lia.
        rewrite !rev_app_distr, rev_maskedRetain, rev_maskedRelease, Hl, Hd,
          <- !app_assoc. reflexivity.
      * replace (addrOffset s + (gap + 8 + structSize fields endOffset))
          with (addrOffset s + gap + 8 + structSize fields endOffset) by lia.
        exact Hm'.
Qed.

End MaskedCopy.


(** An ObjCStrong field with a reserved bit, one without, a native and an
    unowned reference: a struct of 32 bytes, and a type of that size. *)
Definition taggedAndReferences : list (Z * Z) := [(10, 0); (10, 0); (2, 0); (3, 0)].

Definition taggedRuntime : Runtime :=
  sizedRuntime (exampleHeader ++ structLayout taggedAndReferences 0) 32.

Lemma taggedAndReferences_masked : Forall maskedField taggedAndReferences.
Proof. repeat constructor; cbn; lia. Qed.

Lemma sizedRuntime_maskedCountingLeavesStorage bytes size :
  maskedCountingLeavesStorage (RT := sizedRuntime bytes size).
Proof. intros e m H. destruct e; try discriminate H; reflexivity. Qed.

(** Storage with four words in a row from [a], on top of [m]. *)
Definition fourWordsAt (m : Memory) (a v1 v2 v3 v4 : Z) : Memory :=
  storeLE (storeLE (storeLE (storeLE m a 8 v1) (a + 8) 8 v2) (a + 16) 8 v3) (a + 24) 8 v4.

(** A source at 1000 and a destination at 2000: the first word of each has
    the low reserved bit of the example runtime. *)
Definition taggedWorld : World :=
  emptyWorld (fourWordsAt (fourWordsAt (fun _ => 0) 1000 0x7001 0x7006 0x8006 0x9002)
                2000 0x3001 0x4002 0x5004 0x6006).


(** The calls of these runs, the most recent first: nothing is called for
    the words 0x7001 and 0x3001. *)
Example destroy_taggedAndReferences :
  outcome (swift_generic_destroy (RT := taggedRuntime) 5 1000 0 taggedWorld)
  = Some (32, [swift_unownedRelease 0x9000; swift_release 0x8000; objc_release 0x7000]).
Proof. vm_compute. reflexivity. Qed.

Example initWithCopy_taggedAndReferences :
  outcome (swift_generic_initWithCopy (RT := taggedRuntime) 5 2000 1000 0 taggedWorld)
  = Some (32, [swift_unownedRetain 0x9000; swift_retain 0x8000; objc_retain 0x7000]).
Proof. vm_compute. reflexivity. Qed.

Example assignWithCopy_taggedAndReferences :
  outcome (swift_generic_assignWithCopy (RT := taggedRuntime) 5 2000 1000 0 taggedWorld)
  = Some (32, [swift_unownedRetain 0x9000; swift_unownedRelease 0x6000;
               swift_retain 0x8000; swift_release 0x5000;
               objc_retain 0x7000; objc_release 0x4000]).
Proof. vm_compute. reflexivity. Qed.

Example assignWithTake_taggedAndReferences :
  outcome (swift_generic_assignWithTake (RT := taggedRuntime) 5 2000 1000 0 taggedWorld)
  = Some (32, [swift_unownedRelease 0x6000; swift_release 0x5000; objc_release 0x4000]).
Proof. vm_compute. reflexivity. Qed.

(** One ObjCStrong field whose word has a reserved bit: destroy calls
    nothing. *)
Example destroy_reserved_objc_reference :
  outcome (swift_generic_destroy
             (RT := exampleRuntime (exampleHeader ++ structLayout [(10, 0)] 0) false)
             2 1000 0 (emptyWorld (wordAt 1000 0x8000000000007000)))
  = Some (8, []).
Proof. vm_compute. reflexivity. Qed.

(** ** Copying a value buffer *)

Section BufferCopy.

Context {RT : Runtime}.
(** [sizeof(HeapObject)], the header of a box; the value is behind it. *)
Variable sizeofHeapObject : Z.

(** [swift_generic_initializeBufferWithCopyOfBuffer]: the pointer returned
    and the world. A value stored inline is copied as a value; of a value
    stored out of line the buffer holds the box, whose reference is copied
    and retained. *)
Definition swift_generic_initializeBufferWithCopyOfBuffer (fuel : nat)
  (dest src metadata : Z) (w : World) : option (Z * World) :=
  if isValueInline metadata then
    match swift_generic_initWithCopy fuel dest src metadata w with
    | Some s => Some (dest, world s)
    | None => None
    end
  else
    let m := memcpy (mem w) dest src 8 in
    let e := swift_retain (loadLE m src 8) in
    let m' := effect e m in
    Some (loadLE m' dest 8 + sizeofHeapObject, {| mem := m'; trace := e :: trace w |}).

End BufferCopy.

Lemma loadLE_memcpy m dest src n :
  loadLE (memcpy m dest src (Z.of_nat n)) dest n = loadLE m src n.
Proof.
  apply loadLE_bytes. intros j Hj. unfold memcpy.
  destruct (Z.leb_spec dest (dest + j)); [|lia].
  destruct (Z.ltb_spec (dest + j) (dest + Z.of_nat n)); [|lia].
  cbn [andb]. do 2 f_equal. lia.
Qed.

(** X9. For a type whose values are stored out of line,
    [swift_generic_initializeBufferWithCopyOfBuffer] does not consult the
    layout string: for every fuel it returns, having retained once the box
    the source buffer holds and having made the first word of the
    destination buffer the first word of the source buffer; the pointer
    returned is behind the header of that box. No other byte of storage
    changes and no other runtime call is made. *)
Theorem initializeBufferWithCopyOfBuffer_shares_box {RT : Runtime} :
  forall (sizeofHeapObject : Z) (fuel : nat) (dest src metadata : Z) (w : World),
    isValueInline metadata = false ->
    countingLeavesStorage ->
    dest + 8 <= src \/ src + 8 <= dest \/ dest = src ->
    let box := loadLE (mem w) src 8 in
    exists m',
      swift_generic_initializeBufferWithCopyOfBuffer sizeofHeapObject fuel dest src
        metadata w
      = Some (box + sizeofHeapObject, {| mem := m'; trace := swift_retain box :: trace w |})
      /\ loadLE m' dest 8 = box
      /\ loadLE m' src 8 = box
      /\ forall x, x < dest \/ dest + 8 <= x -> m' x = mem w x.
Proof.
  intros sz fuel dest src metadata w Hinline Hq Hov box.
  unfold swift_generic_initializeBufferWithCopyOfBuffer. rewrite Hinline.
  rewrite (Hq (swift_retain _) _ eq_refl).
  assert (Hsrc : loadLE (memcpy (mem w) dest src 8) src 8 = box).
  { apply loadLE_bytes. intros j Hj. unfold memcpy.
    destruct (Z.leb_spec dest (src + j)); destruct (Z.ltb_spec (src + j) (dest + 8));
      cbn [andb]; try reflexivity.
    assert (dest = src) by lia. subst dest. do 2 f_equal. lia. }
  pose proof (loadLE_memcpy (mem w) dest src 8) as Hdest.
  change (Z.of_nat 8) with 8 in Hdest.
  rewrite Hsrc, Hdest.
  eexists. split; [reflexivity|]. split; [exact Hdest|].
  split; [exact Hsrc|].
  intros x Hx. unfold memcpy.
  destruct (Z.leb_spec dest x); destruct (Z.ltb_spec x (dest + 8)); cbn [andb];
    try reflexivity. lia.
Qed.

(** A runtime whose types store their values out of line and whose calls
    leave storage alone. *)
Definition outOfLineRuntime : Runtime := {|
  layoutStringHeaderSize := 16;
  NumWords_ValueBuffer := 3;
  _swift_abi_SwiftSpareBitsMask := 0xF000000000000006;
  _swift_abi_ObjCReservedBitsMask := 0x8000000000000001;
  getLayoutString := fun _ => {| lsBase := 4096; lsBytes := [] |};
  getGenericArgs := fun _ => 0;
  vw_size := fun _ => 64;
  vw_getNumExtraInhabitants := fun _ => 0;
  isBitwiseTakable := fun _ => false;
  isValueInline := fun _ => false;
  callMetadataAccessor := fun fn _ => fn;
  callGetEnumTagFn := fun _ _ _ => 0;
  vw_getEnumTagSinglePayload := fun _ _ _ _ => 0;
  Block_copy_result := fun object _ => object;
  effect := fun _ m => m
|}.

Lemma initializeBufferWithCopyOfBuffer_shares_box_witness :
  let box := loadLE (wordAt 1000 0x7000) 1000 8 in
  exists m',
    swift_generic_initializeBufferWithCopyOfBuffer (RT := outOfLineRuntime) 16 0 2000 1000 0
      (emptyWorld (wordAt 1000 0x7000))
    = Some (box + 16, {| mem := m'; trace := swift_retain box :: [] |})
    /\ loadLE m' 2000 8 = box
    /\ loadLE m' 1000 8 = box
    /\ forall x, x < 2000 \/ 2000 + 8 <= x -> m' x = wordAt 1000 0x7000 x.
Proof.
  apply (initializeBufferWithCopyOfBuffer_shares_box (RT := outOfLineRuntime) 16 0 2000 1000 0
           (emptyWorld (wordAt 1000 0x7000))).
  - reflexivity.
  - intros e m _. reflexivity.
  - lia.
Defined.

Example initializeBufferWithCopyOfBuffer_out_of_line :
  option_map (fun r => (fst r, trace (snd r)))
    (swift_generic_initializeBufferWithCopyOfBuffer (RT := outOfLineRuntime) 16 0 2000 1000 0
       (emptyWorld (wordAt 1000 0x7000)))
  = Some (0x7010, [swift_retain 0x7000]).
Proof. vm_compute. reflexivity. Qed.

(** ** What the resolution pass writes *)

(** X10. [swift_resolve_resilientAccessors] never reads the string it
    writes to. For a field layout string, offsets and fuel, either the pass
    fails whatever [layoutStr] holds, or there are a set of positions and
    bytes for them such that for every [layoutStr] the pass returns
    [layoutStr] with exactly those positions overwritten by those bytes. *)
Theorem resolve_never_reads_target {RT : Runtime} :
  forall (field : LayoutString) (fuel : nat) (layoutStrOffset fieldLayoutStr fieldType : Z),
    (forall layoutStr,
        swift_resolve_resilientAccessors field fuel layoutStr layoutStrOffset
          fieldLayoutStr fieldType = None)
    \/ exists (written : Z -> bool) (bytes : Memory),
         forall layoutStr,
           swift_resolve_resilientAccessors field fuel layoutStr layoutStrOffset
             fieldLayoutStr fieldType
           = Some (fun a => if written a then bytes a else layoutStr a).
Proof.
  intros field fuel lo fl ty. unfold swift_resolve_resilientAccessors.
  destruct (uniform_resolveLoop field fuel lo fl ty 0) as [H | (P & c & H)].
  - left. exact H.
  - right. exists P, c. exact H.
Qed.

(** An entry of a field's layout string: a single-word reference that
    needs no resolution, or a resilient field with the relative pointer to
    its metadata accessor. *)
Inductive Entry : Type :=
| PlainEntry (kind gap : Z)
| ResilientEntry (gap relativeOffset : Z).

Definition entryBytes (e : Entry) : list Z :=
  match e with
  | PlainEntry kind gap => instr kind gap
  | ResilientEntry gap relativeOffset => instr 15 gap ++ encodeLE 8 relativeOffset
  end.

Definition entryLength (e : Entry) : Z :=
  match e with PlainEntry _ _ => 8 | ResilientEntry _ _ => 16 end.

Definition entriesLength (entries : list Entry) : Z :=
  fold_right (fun e n => entryLength e + n) 0 entries.

(** The kinds the pass steps over without reading further: those from
    Error to Existential but Metatype. *)
Definition plainKind (kind : Z) : bool :=
  (1 <=? kind) && (kind <=? 14) && negb (kind =? 12).

Definition entryFits (e : Entry) : Prop :=
  match e with
  | PlainEntry kind gap => plainKind kind = true /\ 0 <= gap < 2 ^ 56
  | ResilientEntry gap relativeOffset =>
      0 <= gap < 2 ^ 56 /\ 0 <= relativeOffset < 2 ^ 64
  end.

(** The entries as the pass leaves them: a resilient entry at position
    [pos] of the field's buffer has become a Metatype entry with the same
    offset and the metadata its accessor returns. *)
Fixpoint resolvedEntries {RT : Runtime} (field : LayoutString) (fieldType pos : Z)
  (entries : list Entry) : list Z :=
  match entries with
  | [] => []
  | PlainEntry kind gap :: rest =>
      instr kind gap ++ resolvedEntries field fieldType (pos + 8) rest
  | ResilientEntry gap relativeOffset :: rest =>
      instr 12 gap
      ++ encodeLE 8 (callMetadataAccessor
                       (u64 (@lsBase field + pos + 8 + sext32 relativeOffset))
                       (getGenericArgs fieldType))
      ++ resolvedEntries field fieldType (pos + 16) rest
  end.

(** Storage holds the bytes [bs] from address [a] on. *)
Fixpoint holds (L : Memory) (a : Z) (bs : list Z) : Prop :=
  match bs with
  | [] => True
  | b :: rest => u8 (L a) = b /\ holds L (a + 1) rest
  end.

Lemma holds_app L a bs1 bs2 :
  holds L a (bs1 ++ bs2) <-> holds L a bs1 /\ holds L (a + Z.of_nat (length bs1)) bs2.
Proof.
  revert a. induction bs1 as [|b bs1 IH]; intros a; cbn [app holds length].
  - change (Z.of_nat 0) with 0. rewrite Z.add_0_r. tauto.
  - rewrite IH. replace (a + 1 + Z.of_nat (length bs1))
      with (a + Z.of_nat (S (length bs1))) by lia. tauto.
Qed.

Lemma holds_ext L L' a bs :
  (forall x, a <= x < a + Z.of_nat (length bs) -> L' x = L x) ->
  holds L a bs -> holds L' a bs.
Proof.
  revert a. induction bs as [|b bs IH]; intros a H; cbn [holds length] in *; [tauto|].
  intros [H1 H2]. split.
  - rewrite H by lia. exact H1.
  - apply IH; [|exact H2]. intros x Hx. apply H. lia.
Qed.

Lemma holds_storeLE L a n v : holds (storeLE L a n v) a (encodeLE n v).
Proof.
  revert L a v. induction n as [|n IH]; intros L a v; cbn [storeLE encodeLE holds];
    [exact I|].
  split; [|apply IH].
  rewrite storeLE_outside by lia. unfold update. rewrite Z.eqb_refl. apply u8_u8.
Qed.

Lemma holds_writeTwoWords L a v1 v2 :
  holds (writeTwoWords L a v1 v2) a (encodeLE 8 v1 ++ encodeLE 8 v2).
Proof.
  unfold writeTwoWords. apply holds_app. rewrite length_encodeLE. split.
  - apply (holds_ext (storeLE L a 8 v1)); [|apply holds_storeLE].
    intros x Hx. rewrite length_encodeLE in Hx. apply storeLE_outside. lia.
  - apply holds_storeLE.
Qed.

Lemma writeTwoWords_outside L a v1 v2 x :
  x < a \/ a + 16 <= x -> writeTwoWords L a v1 v2 x = L x.
Proof. intros Hx. unfold writeTwoWords. rewrite !storeLE_outside by lia. reflexivity. Qed.

Lemma length_entryBytes e : Z.of_nat (length (entryBytes e)) = entryLength e.
Proof.
  destruct e; cbn [entryBytes entryLength]; unfold instr;
    rewrite ?length_app, !length_encodeLE; reflexivity.
Qed.

Lemma entriesLength_nonneg entries : 0 <= entriesLength entries.
Proof.
  induction entries as [|e entries IH]; cbn [entriesLength fold_right]; [lia|].
  fold (entriesLength entries). destruct e; cbn [entryLength]; lia.
Qed.

Lemma length_resolvedEntries {RT : Runtime} field fieldType entries :
  forall pos,
    Z.of_nat (length (resolvedEntries field fieldType pos entries)) = entriesLength entries.
Proof.
  induction entries as [|e entries IH]; intros pos; [reflexivity|].
  cbn [entriesLength fold_right]. fold (entriesLength entries).
  destruct e; cbn [resolvedEntries entryLength]; unfold instr;
    rewrite !length_app, !length_encodeLE, ?Nat2Z.inj_add, IH; lia.
Qed.

Lemma plainKind_cases kind :
  plainKind kind = true ->
  kind = 1 \/ kind = 2 \/ kind = 3 \/ kind = 4 \/ kind = 5 \/ kind = 6 \/ kind = 7
  \/ kind = 8 \/ kind = 9 \/ kind = 10 \/ kind = 11 \/ kind = 13 \/ kind = 14.
Proof.
  unfold plainKind. intros H.
  apply andb_prop in H. destruct H as [H H3]. apply andb_prop in H. destruct H as [H1 H2].
  apply Z.leb_le in H1, H2. apply negb_true_iff, Z.eqb_neq in H3. lia.
Qed.

Lemma length_instr kind offset : length (instr kind offset) = 8%nat.
Proof. apply length_encodeLE. Qed.

Section ResolveStruct.

Context {RT : Runtime}.
Variable field : LayoutString.
Variables (layoutStrOffset fieldLayoutStr fieldType : Z).

Lemma fieldRead_instr pre kind gap post offset :
  @lsBytes field = pre ++ instr kind gap ++ post ->
  fieldLayoutStr + offset = Z.of_nat (length pre) ->
  0 <= kind < 256 -> 0 <= gap < 2 ^ 56 ->
  fieldRead field fieldLayoutStr offset 8 = Some (instructionWord kind gap).
Proof.
  intros Hls Hpos Hk Hg. unfold fieldRead. rewrite Hls, Hpos.
  apply readAt_instr; assumption.
Qed.

Lemma fieldRead_word pre v post offset :
  @lsBytes field = pre ++ encodeLE 8 v ++ post ->
  fieldLayoutStr + offset = Z.of_nat (length pre) ->
  0 <= v < 2 ^ 64 ->
  fieldRead field fieldLayoutStr offset 8 = Some v.
Proof.
  intros Hls Hpos Hv. unfold fieldRead. rewrite Hls, Hpos.
  pose proof (readAt_middle pre (encodeLE 8 v) post) as H.
  rewrite length_encodeLE in H. rewrite H, bytesLE_encodeLE.
  f_equal. apply Z.mod_small. exact Hv.
Qed.

Lemma resolve_plain_turn fuel L pre kind gap post offset :
  @lsBytes field = pre ++ instr kind gap ++ post ->
  fieldLayoutStr + offset = Z.of_nat (length pre) ->
  plainKind kind = true -> 0 <= gap < 2 ^ 56 ->
  resolveLoop field (S fuel) L layoutStrOffset fieldLayoutStr fieldType offset
  = resolveLoop field fuel L layoutStrOffset fieldLayoutStr fieldType (offset + 8).
Proof.
  intros Hls Hpos Hk Hg.
  assert (Hkind : 0 <= kind < 256) by (apply plainKind_cases in Hk; lia).
  cbn [resolveLoop]. rewrite (fieldRead_instr _ _ _ _ _ Hls Hpos Hkind Hg).
  rewrite kindOf_instructionWord by assumption.
  destruct (plainKind_cases _ Hk)
    as [-> | [-> | [-> | [-> | [-> | [-> | [-> | [-> | [-> | [-> | [-> | [-> | ->]]]]]]]]]]]];
    reflexivity.
Qed.

Lemma resolve_end_turn fuel L pre endOffset post offset :
  @lsBytes field = pre ++ instr 0 endOffset ++ post ->
  fieldLayoutStr + offset = Z.of_nat (length pre) ->
  0 <= endOffset < 2 ^ 56 ->
  resolveLoop field (S fuel) L layoutStrOffset fieldLayoutStr fieldType offset = Some L.
Proof.
  intros Hls Hpos Hg.
  cbn [resolveLoop]. rewrite (fieldRead_instr _ _ _ _ _ Hls Hpos ltac:(lia) Hg).
  rewrite kindOf_instructionWord by (assumption || lia). reflexivity.
Qed.

Lemma resolve_resilient_turn fuel L pre gap relativeOffset post offset :
  @lsBytes field = pre ++ (instr 15 gap ++ encodeLE 8 relativeOffset) ++ post ->
  fieldLayoutStr + offset = Z.of_nat (length pre) ->
  0 <= gap < 2 ^ 56 -> 0 <= relativeOffset < 2 ^ 64 ->
  resolveLoop field (S fuel) L layoutStrOffset fieldLayoutStr fieldType offset
  = resolveLoop field fuel
      (writeTwoWords L
         (u64 (layoutStrOffset + u64 (offset + layoutStringHeaderSize)
               - layoutStringHeaderSize))
         (Z.lor (Z.shiftl 12 56) gap)
         (callMetadataAccessor
            (u64 (@lsBase field + fieldLayoutStr + (offset + 8) + sext32 relativeOffset))
            (getGenericArgs fieldType)))
      layoutStrOffset fieldLayoutStr fieldType (offset + 8 + 8).
Proof.
  intros Hls Hpos Hg Hrel.
  cbn [resolveLoop].
  pose proof Hls as Hls1. rewrite <- !app_assoc in Hls1.
  rewrite (fieldRead_instr _ _ _ _ _ Hls1 Hpos ltac:(lia) Hg).
  rewrite kindOf_instructionWord, offsetOf_instructionWord by (assumption || lia).
  cbv beta iota zeta.
  unfold fieldRelativePointer.
  rewrite app_assoc in Hls1.
  rewrite (fieldRead_word (pre ++ instr 15 gap) relativeOffset post (offset + 8) Hls1);
    [reflexivity | | exact Hrel].
  rewrite length_app. unfold instr. rewrite length_encodeLE. lia.
Qed.

Lemma resolve_entries endOffset post entries : forall fuel L pre offset,
  @lsBytes field = pre ++ flat_map entryBytes entries ++ instr 0 endOffset ++ post ->
  fieldLayoutStr + offset = Z.of_nat (length pre) ->
  Forall entryFits entries ->
  0 <= endOffset < 2 ^ 56 ->
  (length entries < fuel)%nat ->
  0 <= layoutStringHeaderSize -> 0 <= layoutStrOffset -> 0 <= offset ->
  layoutStrOffset + offset + entriesLength entries + layoutStringHeaderSize < 2 ^ 64 ->
  exists L',
    resolveLoop field fuel L layoutStrOffset fieldLayoutStr fieldType offset = Some L'
    /\ (forall x, x < layoutStrOffset + offset
                  \/ layoutStrOffset + offset + entriesLength entries <= x -> L' x = L x)
    /\ (holds L (layoutStrOffset + offset) (flat_map entryBytes entries) ->
        holds L' (layoutStrOffset + offset)
          (resolvedEntries field fieldType (fieldLayoutStr + offset) entries)).
Proof.
  induction entries as [|e entries IH];
    intros fuel L pre offset Hls Hpos Hf He Hfuel Hh Hlo Hoff Hsize;
    (destruct fuel as [|fuel]; [cbn in Hfuel; lia|]).
  - cbn [flat_map app] in Hls.
    rewrite (resolve_end_turn _ _ _ _ _ _ Hls Hpos He).
    exists L. split; [reflexivity|]. split; [reflexivity|]. intros _. exact I.
  - inversion Hf as [|? ? Hf1 Hf2]; subst.
    cbn [flat_map] in Hls. rewrite <- app_assoc in Hls.
    cbn [entriesLength fold_right] in *. fold (entriesLength entries) in *.
    pose proof (entriesLength_nonneg entries) as Hn.
    cbn [length] in Hfuel.
    destruct e as [kind gap | gap relativeOffset]; cbn [entryBytes entryLength] in *.
    + destruct Hf1 as [Hk Hg].
      rewrite (resolve_plain_turn _ _ _ _ _ _ _ Hls Hpos Hk Hg).
      rewrite app_assoc in Hls.
      destruct (IH fuel L (pre ++ instr kind gap) (offset + 8) Hls)
        as (L' & Hrun & Hframe & Hholds); try assumption; try lia.
      { rewrite length_app. unfold instr. rewrite length_encodeLE. lia. }
      exists L'. split; [exact Hrun|]. split.
      * intros x Hx. apply Hframe. lia.
      * cbn [flat_map resolvedEntries entryBytes].
        intros H. apply holds_app in H. destruct H as [H1 H2]. apply holds_app.
        rewrite !length_instr in *.
        split.
        -- apply (holds_ext L); [|exact H1].
           intros x Hx. rewrite length_instr in Hx. apply Hframe. lia.
        -- replace (layoutStrOffset + offset + Z.of_nat 8)
             with (layoutStrOffset + (offset + 8)) by lia.
           replace (fieldLayoutStr + offset + 8) with (fieldLayoutStr + (offset + 8)) by lia.
           apply Hholds.
           replace (layoutStrOffset + (offset + 8))
             with (layoutStrOffset + offset + Z.of_nat 8) by lia.
           exact H2.
    + destruct Hf1 as [Hg Hrel].
      rewrite (resolve_resilient_turn _ _ _ _ _ _ _ Hls Hpos Hg Hrel).
      rewrite (u64_small (offset + layoutStringHeaderSize)) by lia.
      replace (layoutStrOffset + (offset + layoutStringHeaderSize) - layoutStringHeaderSize)
        with (layoutStrOffset + offset) by lia.
      rewrite (u64_small (layoutStrOffset + offset)) by lia.
      rewrite app_assoc in Hls.
      match goal with
      | |- context [resolveLoop field fuel ?L1 _ _ _ _] =>
          destruct (IH fuel L1 (pre ++ instr 15 gap ++ encodeLE 8 relativeOffset)
                      (offset + 8 + 8) Hls)
            as (L' & Hrun & Hframe & Hholds); try assumption; try lia
      end.
      { rewrite !length_app. unfold instr. rewrite !length_encodeLE. lia. }
      exists L'. split; [exact Hrun|]. split.
      * intros x Hx. rewrite Hframe by lia. apply writeTwoWords_outside. lia.
      * cbn [flat_map resolvedEntries entryBytes].
        rewrite !(app_assoc (instr _ _) (encodeLE 8 _)).
        intros H. apply holds_app in H. destruct H as [H1 H2]. apply holds_app.
        rewrite !length_app, !length_instr, !length_encodeLE in *.
        split.
        -- apply (holds_ext (writeTwoWords L (layoutStrOffset + offset)
                               (Z.lor (Z.shiftl 12 56) gap)
                               (callMetadataAccessor
                                  (u64 (@lsBase field + fieldLayoutStr + (offset + 8)
                                        + sext32 relativeOffset))
                                  (getGenericArgs fieldType)))).
           ++ intros x Hx. rewrite length_app, length_instr, length_encodeLE in Hx.
              apply Hframe. lia.
           ++ unfold instr.
              replace (@lsBase field + (fieldLayoutStr + offset) + 8)
                with (@lsBase field + fieldLayoutStr + (offset + 8)) by lia.
              apply holds_writeTwoWords.
        -- replace (layoutStrOffset + offset + Z.of_nat (8 + 8))
             with (layoutStrOffset + (offset + 8 + 8)) by lia.
           replace (fieldLayoutStr + offset + 16)
             with (fieldLayoutStr + (offset + 8 + 8)) by lia.
           apply Hholds.
           apply (holds_ext L).
           ++ intros x Hx. apply writeTwoWords_outside. lia.
           ++ replace (layoutStrOffset + (offset + 8 + 8))
                with (layoutStrOffset + offset + Z.of_nat (8 + 8)) by lia.
              exact H2.
Qed.

End ResolveStruct.

(** X11. On the layout string of a struct of single-word references and
    resilient fields the pass returns whenever the fuel exceeds the number
    of entries. It writes nowhere but on the bytes of the entries, counted
    from [layoutStrOffset]; and if [layoutStr] held a copy of the entries
    there, it holds afterwards the same entries with every resilient entry
    turned into a Metatype entry of the same offset, followed by the
    metadata that the accessor of the field's string returns for the
    generic arguments of [fieldType]. *)
Theorem resolve_rewrites_resilient_entries {RT : Runtime} :
  forall (field : LayoutString) (fuel : nat) (layoutStr : Memory)
         (layoutStrOffset fieldLayoutStr fieldType : Z)
         (pre post : list Z) (entries : list Entry) (endOffset : Z),
    @lsBytes field = pre ++ flat_map entryBytes entries ++ instr 0 endOffset ++ post ->
    fieldLayoutStr = Z.of_nat (length pre) ->
    Forall entryFits entries ->
    0 <= endOffset < 2 ^ 56 ->
    (length entries < fuel)%nat ->
    0 <= layoutStringHeaderSize -> 0 <= layoutStrOffset ->
    layoutStrOffset + entriesLength entries + layoutStringHeaderSize < 2 ^ 64 ->
    exists layoutStr',
      swift_resolve_resilientAccessors field fuel layoutStr layoutStrOffset
        fieldLayoutStr fieldType = Some layoutStr'
      /\ (forall x, x < layoutStrOffset \/ layoutStrOffset + entriesLength entries <= x ->
                    layoutStr' x = layoutStr x)
      /\ (holds layoutStr layoutStrOffset (flat_map entryBytes entries) ->
          holds layoutStr' layoutStrOffset
            (resolvedEntries field fieldType fieldLayoutStr entries)).
Proof.
  intros field fuel L lo fl ty pre post entries endOffset Hls Hfl Hf He Hfuel Hh Hlo Hsize.
  unfold swift_resolve_resilientAccessors.
  destruct (resolve_entries field lo fl ty endOffset post entries fuel L pre 0 Hls)
    as (L' & Hrun & Hframe & Hholds); try assumption; try lia.
  replace (lo + 0) with lo in * by lia. replace (fl + 0) with fl in * by lia.
  exists L'. split; [exact Hrun|]. split; assumption.
Qed.

(** A native reference and, eight bytes behind it, a resilient field whose
    accessor is 0x100 bytes behind its relative pointer; the buffer is
    loaded at 4096. *)
Definition nativeAndResilient : list Entry := [PlainEntry 2 0; ResilientEntry 8 0x100].

Definition nativeAndResilientField : LayoutString := {|
  lsBase := 4096;
  lsBytes := flat_map entryBytes nativeAndResilient ++ instr 0 0
|}.

Lemma resolve_rewrites_resilient_entries_witness :
  let RT := exampleRuntime [] false in
  let layoutStr := bytesAt 64 (flat_map entryBytes nativeAndResilient) in
  exists layoutStr',
    swift_resolve_resilientAccessors nativeAndResilientField 3 layoutStr 64 0 0
    = Some layoutStr'
    /\ (forall x, x < 64 \/ 64 + entriesLength nativeAndResilient <= x ->
                  layoutStr' x = layoutStr x)
    /\ (holds layoutStr 64 (flat_map entryBytes nativeAndResilient) ->
        holds layoutStr' 64 (resolvedEntries nativeAndResilientField 0 0 nativeAndResilient)).
Proof.
  intros RT layoutStr.
  apply (resolve_rewrites_resilient_entries (RT := RT) nativeAndResilientField 3 layoutStr
           64 0 0 [] [] nativeAndResilient 0).
  - reflexivity.
  - reflexivity.
  - repeat constructor; cbn; lia.
  - lia.
  - cbn. lia.
  - cbn. lia.
  - lia.
  - cbn. lia.
Defined.

Example resolve_nativeAndResilient :
  let RT := exampleRuntime [] false in
  option_map (fun L => (loadLE L 64 8, loadLE L 72 8, loadLE L 80 8))
    (swift_resolve_resilientAccessors nativeAndResilientField 3
       (bytesAt 64 (flat_map entryBytes nativeAndResilient)) 64 0 0)
  = Some (instructionWord 2 0, instructionWord 12 8, 4096 + 16 + 0x100).
Proof. vm_compute. reflexivity. Qed.

(** ** What injecting a tag leaves alone *)

Section InjectFrame.

Context {RT : Runtime} {ls : LayoutString}.

Lemma multiPayload_inject_frame addr tag s numTagBytes numPayloads enumSize :
  readAt lsBytes (reader s) 8 = Some numTagBytes ->
  readAt lsBytes (reader s + 8) 8 = Some numPayloads ->
  readAt lsBytes (reader s + 24) 8 = Some enumSize ->
  numTagBytes <= enumSize ->
  exists s',
    swift_multiPayloadEnumGeneric_destructiveInjectEnumTag_body addr tag s = Some (tt, s')
    /\ trace (world s') = trace (world s)
    /\ (forall x, x < addr \/ addr + enumSize <= x -> mem (world s') x = mem (world s) x)
    /\ (tag < numPayloads ->
        forall x, x < addr + (enumSize - numTagBytes) -> mem (world s') x = mem (world s) x).
Proof.
  intros HT HN HE Hle.
  pose proof (readAt_range _ _ _ _ HT) as HTr.
  pose proof (readAt_range _ _ _ _ HN) as HNr.
  pose proof (readAt_range _ _ _ _ HE) as HEr.
  change (256 ^ Z.of_nat 8) with (2 ^ 64) in *.
  unfold swift_multiPayloadEnumGeneric_destructiveInjectEnumTag_body, storeElement.
  exec.
  assert (HP : u64 (enumSize - numTagBytes) = enumSize - numTagBytes)
    by (unfold u64, wrap; apply Z.mod_small; lia).
  rewrite ?HP.
  destruct (tag <? numPayloads) eqn:Hpayload.
  - eexists. split; [reflexivity|]. cbn [world mem trace].
    split; [reflexivity|]. split; [|intros _]; intros x Hx;
      apply storeEnumElement_outside; lia.
  - apply Z.ltb_ge in Hpayload.
    destruct (4 <=? enumSize - numTagBytes); exec;
      (eexists; split; [reflexivity|]; cbn [world mem trace];
       split; [reflexivity|]; split; [|lia]; intros x Hx;
       rewrite !storeEnumElement_outside by lia; reflexivity).
Qed.

End InjectFrame.

(** X12. Injecting a tag into a multi-payload enum returns whenever the
    header can be read and the tag bytes fit the enum, makes no runtime
    call and writes nowhere but on the bytes of the enum. Injecting the
    tag of a payload case writes the tag bytes only: the payload in front
    of them is as it was. *)
Theorem multiPayload_inject_keeps_payload {RT : Runtime} :
  forall (address tag metadata : Z) (w : World) (numTagBytes numPayloads enumSize : Z),
    let field := readAt (@lsBytes (getLayoutString metadata)) in
    let header := layoutStringHeaderSize + 8 in
    field header 8%nat = Some numTagBytes ->
    field (header + 8) 8%nat = Some numPayloads ->
    field (header + 24) 8%nat = Some enumSize ->
    numTagBytes <= enumSize ->
    exists w',
      swift_multiPayloadEnumGeneric_destructiveInjectEnumTag address tag metadata w
      = Some w'
      /\ trace w' = trace w
      /\ (forall x, x < address \/ address + enumSize <= x -> mem w' x = mem w x)
      /\ (tag < numPayloads ->
          forall x, x < address + (enumSize - numTagBytes) -> mem w' x = mem w x).
Proof.
  intros address tag metadata w numTagBytes numPayloads enumSize field header HT HN HE Hle.
  destruct (multiPayload_inject_frame (ls := getLayoutString metadata) address tag
              (tagReader w) numTagBytes numPayloads enumSize HT HN HE Hle)
    as (s' & Hrun & Htrace & Hframe & Hpayload).
  unfold swift_multiPayloadEnumGeneric_destructiveInjectEnumTag. rewrite Hrun.
  exists (world s'). cbn [option_map snd]. repeat split; assumption.
Qed.

Lemma multiPayload_inject_keeps_payload_witness :
  let RT := exampleRuntime twoPayloads false in
  let w := emptyWorld (wordAt 1000 0x7001) in
  exists w',
    swift_multiPayloadEnumGeneric_destructiveInjectEnumTag 1000 1 0 w = Some w'
    /\ trace w' = trace w
    /\ (forall x, x < 1000 \/ 1000 + 9 <= x -> mem w' x = mem w x)
    /\ (1 < 2 -> forall x, x < 1000 + (9 - 1) -> mem w' x = mem w x).
Proof.
  intros RT w.
  apply (multiPayload_inject_keeps_payload (RT := RT) 1000 1 0 w 1 2 9);
    [reflexivity | reflexivity | reflexivity | lia].
Defined.

Section SinglePayloadInjectFrame.

Context {RT : Runtime} {ls : LayoutString}.

(** The stores of an empty case beyond the extra inhabitants stay on the
    payload and the extra tag bytes. *)
Lemma storeExtraTagCase_frame addr tag numXI payloadSize numExtraTagBytes s :
  0 <= payloadSize -> 0 <= numExtraTagBytes ->
  exists m',
    storeExtraTagCase addr tag numXI payloadSize numExtraTagBytes s
    = Some (tt, {| reader := reader s; addrOffset := addrOffset s;
                   world := {| mem := m'; trace := trace (world s) |} |})
    /\ forall x, x < addr \/ addr + payloadSize + numExtraTagBytes <= x ->
                 m' x = mem (world s) x.
Proof.
  intros HP HX. unfold storeExtraTagCase, storeElement. destruct s as [r a [m t]].
  destruct (splitCaseIndex tag numXI payloadSize) as [payloadIndex extraTagIndex].
  destruct (payloadSize =? 0), (numExtraTagBytes =? 0); cbn [negb]; exec;
    (eexists; split; [reflexivity|]);
    intros x Hx; cbn [world mem]; rewrite ?storeEnumElement_outside by lia; reflexivity.
Qed.

Lemma simple_inject_frame addr tag s w payloadSize zeroTagValue numXI :
  readAt lsBytes (reader s) 8 = Some w ->
  readAt lsBytes (reader s + 8) 8 = Some payloadSize ->
  readAt lsBytes (reader s + 16) 8 = Some zeroTagValue ->
  readAt lsBytes (reader s + 24) 8 = Some numXI ->
  let numExtraTagBytes := u8 (Z.shiftl 1 (extraTagBytesPatternOf w - 1)) in
  let xiTagBytes := Z.shiftl 1 (xiTagBytesPatternOf w - 1) in
  exists s',
    swift_enumSimple_destructiveInjectEnumTag_body addr tag s = Some (true, s')
    /\ trace (world s') = trace (world s)
    /\ (tag = 0 ->
        forall x, x < addr + payloadSize \/ addr + payloadSize + numExtraTagBytes <= x ->
                  mem (world s') x = mem (world s) x)
    /\ (0 <= xiTagBytesOffsetOf w ->
        xiTagBytesOffsetOf w + xiTagBytes <= payloadSize ->
        forall x, x < addr \/ addr + payloadSize + numExtraTagBytes <= x ->
                  mem (world s') x = mem (world s) x).
Proof.
  intros Hw HP HZ HN numExtraTagBytes xiTagBytes.
  pose proof (readAt_range _ _ _ _ HP) as HPr.
  pose proof (readAt_range _ _ _ _ HN) as HNr.
  assert (HX : 0 <= numExtraTagBytes) by apply u8_range.
  assert (HXI : 0 <= xiTagBytes) by (apply Z.shiftl_nonneg; lia).
  destruct (Z.eq_dec (xiTagBytesPatternOf w) 0) as [Hxp | Hxp].
  - destruct (Z.eq_dec (extraTagBytesPatternOf w) 0) as [Hp | Hp];
      [|destruct (Z_le_gt_dec tag numXI) as [Htag | Htag]].
    + rewrite (simple_inject_nothing addr s w payloadSize zeroTagValue numXI Hw HP HZ HN tag
                 (or_introl Hp) Hxp).
      eexists. split; [reflexivity|]. cbn [world mem trace]. repeat split; reflexivity.
    + rewrite (simple_inject_nothing addr s w payloadSize zeroTagValue numXI Hw HP HZ HN tag
                 (or_intror Htag) Hxp).
      eexists. split; [reflexivity|]. cbn [world mem trace]. repeat split; reflexivity.
    + rewrite (simple_inject_extra addr s w payloadSize zeroTagValue numXI Hw HP HZ HN tag
                 Hp ltac:(lia)).
      destruct (storeExtraTagCase_frame addr tag numXI payloadSize numExtraTagBytes
                  {| reader := reader s + 32; addrOffset := addrOffset s;
                     world := {| mem := mem (world s); trace := trace (world s) |} |}
                  ltac:(lia) HX) as (m' & Hrun & Hframe).
      fold numExtraTagBytes. rewrite Hrun.
      eexists. split; [reflexivity|]. cbn [world mem trace] in *.
      split; [reflexivity|]. split; [intros ->; lia|]. intros _ _. exact Hframe.
  - destruct (Z_le_gt_dec tag numXI) as [Htag | Htag].
    + rewrite (simple_inject_xi addr s w payloadSize zeroTagValue numXI Hw HP HZ HN tag
                 Htag Hxp).
      fold numExtraTagBytes. fold xiTagBytes.
      eexists. split; [reflexivity|]. cbn [world mem trace].
      split; [reflexivity|]. split.
      * intros ->. cbn [Z.eqb]. intros x Hx.
        destruct (numExtraTagBytes =? 0); [reflexivity|].
        apply storeEnumElement_outside; lia.
      * intros Hoff Hin x Hx.
        destruct (tag =? 0); destruct (numExtraTagBytes =? 0);
          rewrite ?storeEnumElement_outside by lia; reflexivity.
    + destruct (Z.eq_dec (extraTagBytesPatternOf w) 0) as [Hp | Hp].
      * assert (Hnone : swift_enumSimple_destructiveInjectEnumTag_body addr tag s
                        = Some (true, {| reader := reader s + 32; addrOffset := addrOffset s;
                                         world := world s |})).
        { unfold swift_enumSimple_destructiveInjectEnumTag_body,
            handleSinglePayloadEnumSimpleTag.
          exec. rewrite Hp. exec. apply Z.eqb_neq in Hxp. rewrite Hxp. cbn [negb].
          assert (Hgt : (tag <=? numXI) = false) by (apply Z.leb_gt; lia).
          rewrite Hgt. exec. reflexivity. }
        rewrite Hnone. eexists. split; [reflexivity|]. cbn [world].
        split; [reflexivity|]. split; [intros ->; lia|]. intros _ _ x _. reflexivity.
      * rewrite (simple_inject_extra addr s w payloadSize zeroTagValue numXI Hw HP HZ HN tag
                   Hp ltac:(lia)).
        destruct (storeExtraTagCase_frame addr tag numXI payloadSize numExtraTagBytes
                    {| reader := reader s + 32; addrOffset := addrOffset s;
                       world := {| mem := mem (world s); trace := trace (world s) |} |}
                    ltac:(lia) HX) as (m' & Hrun & Hframe).
        fold numExtraTagBytes. rewrite Hrun.
        eexists. split; [reflexivity|]. cbn [world mem trace] in *.
        split; [reflexivity|]. split; [intros ->; lia|]. intros _ _. exact Hframe.
Qed.

End SinglePayloadInjectFrame.

(** X13. Injecting a tag into a simple single-payload enum returns
    whenever the four header fields can be read, and makes no runtime call.
    Injecting the payload case changes at most the extra tag bytes behind
    the payload, never the payload. Whatever the tag, when the
    extra-inhabitant field lies inside the payload nothing is written
    outside the payload and the extra tag bytes. *)
Theorem enumSimple_inject_keeps_payload {RT : Runtime} :
  forall (address tag metadata : Z) (w : World)
         (byteCountsAndOffset payloadSize zeroTagValue payloadNumExtraInhabitants : Z),
    let field := readAt (@lsBytes (getLayoutString metadata)) in
    let header := layoutStringHeaderSize + 8 in
    let numExtraTagBytes :=
      u8 (Z.shiftl 1 (extraTagBytesPatternOf byteCountsAndOffset - 1)) in
    let xiTagBytes := Z.shiftl 1 (xiTagBytesPatternOf byteCountsAndOffset - 1) in
    let xiTagBytesOffset := xiTagBytesOffsetOf byteCountsAndOffset in
    field header 8%nat = Some byteCountsAndOffset ->
    field (header + 8) 8%nat = Some payloadSize ->
    field (header + 16) 8%nat = Some zeroTagValue ->
    field (header + 24) 8%nat = Some payloadNumExtraInhabitants ->
    exists w',
      swift_enumSimple_destructiveInjectEnumTag address tag metadata w = Some w'
      /\ trace w' = trace w
      /\ (tag = 0 ->
          forall x, x < address + payloadSize
                    \/ address + payloadSize + numExtraTagBytes <= x ->
                    mem w' x = mem w x)
      /\ (0 <= xiTagBytesOffset -> xiTagBytesOffset + xiTagBytes <= payloadSize ->
          forall x, x < address \/ address + payloadSize + numExtraTagBytes <= x ->
                    mem w' x = mem w x).
Proof.
  intros address tag metadata w bc payloadSize zeroTagValue numXI field header
    numExtraTagBytes xiTagBytes xiTagBytesOffset Hw HP HZ HN.
  destruct (simple_inject_frame (ls := getLayoutString metadata) address tag
              (tagReader w) bc payloadSize zeroTagValue numXI Hw HP HZ HN)
    as (s' & Hrun & Htrace & Hpayload & Hframe).
  unfold swift_enumSimple_destructiveInjectEnumTag. rewrite Hrun.
  exists (world s'). cbn [option_map snd]. repeat split; assumption.
Qed.

Lemma enumSimple_inject_keeps_payload_witness :
  let RT := exampleRuntime optionalOfStrong false in
  let w := emptyWorld (wordAt 1000 0x7001) in
  exists w',
    swift_enumSimple_destructiveInjectEnumTag 1000 0 0 w = Some w'
    /\ trace w' = trace w
    /\ (0 = 0 ->
        forall x, x < 1000 + 8
                  \/ 1000 + 8 + u8 (Z.shiftl 1 (extraTagBytesPatternOf (Z.shiftl 4 59) - 1))
                     <= x ->
                  mem w' x = mem w x)
    /\ (0 <= xiTagBytesOffsetOf (Z.shiftl 4 59) ->
        xiTagBytesOffsetOf (Z.shiftl 4 59)
        + Z.shiftl 1 (xiTagBytesPatternOf (Z.shiftl 4 59) - 1) <= 8 ->
        forall x, x < 1000
                  \/ 1000 + 8 + u8 (Z.shiftl 1 (extraTagBytesPatternOf (Z.shiftl 4 59) - 1))
                     <= x ->
                  mem w' x = mem w x).
Proof.
  intros RT w.
  apply (enumSimple_inject_keeps_payload (RT := RT) 1000 0 0 w (Z.shiftl 4 59) 8 0 1);
    reflexivity.
Defined.

(** X14. Injecting the payload case into a generic single-payload enum
    returns whenever the header can be read, makes no runtime call and
    changes at most the extra tag bytes behind the payload: the payload
    and the rest of storage are as they were. *)
Theorem singlePayloadEnumGeneric_inject_payload_case_keeps_payload {RT : Runtime} :
  forall (address metadata : Z) (w : World)
         (tagBytesAndOffset payloadSize xiType numEmptyCases : Z),
    let field := readAt (@lsBytes (getLayoutString metadata)) in
    let header := layoutStringHeaderSize + 8 in
    let numExtraTagBytes :=
      u8 (Z.shiftl 1 (extraTagBytesPatternOf tagBytesAndOffset - 1)) in
    field header 8%nat = Some tagBytesAndOffset ->
    field (header + 8) 8%nat = Some payloadSize ->
    field (header + 16) 8%nat = Some xiType ->
    field (header + 24) 4%nat = Some numEmptyCases ->
    exists w',
      swift_singlePayloadEnumGeneric_destructiveInjectEnumTag address 0 metadata w
      = Some w'
      /\ trace w' = trace w
      /\ forall x, x < address + payloadSize
                   \/ address + payloadSize + numExtraTagBytes <= x ->
                   mem w' x = mem w x.
Proof.
  intros address metadata w tb payloadSize xiType numEmptyCases field header
    numExtraTagBytes Hw HP HX HE.
  pose proof (numExtraInhabitantsOf_range xiType) as Hn.
  assert (H0 : 0 <= numExtraTagBytes) by apply u8_range.
  unfold swift_singlePayloadEnumGeneric_destructiveInjectEnumTag.
  rewrite (generic_inject_xi (ls := getLayoutString metadata) address (tagReader w)
             tb payloadSize xiType numEmptyCases Hw HP HX HE 0 (proj1 Hn)
             (fun H : 0 <> 0 => False_ind _ (H eq_refl))).
  cbn [Z.eqb option_map snd world]. fold numExtraTagBytes.
  eexists. split; [reflexivity|]. cbn [mem trace]. split; [reflexivity|].
  intros x Hx. destruct (numExtraTagBytes =? 0); [reflexivity|].
  apply storeEnumElement_outside; lia.
Qed.

Lemma singlePayloadEnumGeneric_inject_payload_case_keeps_payload_witness :
  let RT := exampleRuntime genericOptional false in
  let w := emptyWorld (wordAt 1000 0x7001) in
  exists w',
    swift_singlePayloadEnumGeneric_destructiveInjectEnumTag 1000 0 0 w = Some w'
    /\ trace w' = trace w
    /\ forall x, x < 1000 + 8
                 \/ 1000 + 8 + u8 (Z.shiftl 1 (extraTagBytesPatternOf (Z.shiftl 1 62) - 1))
                    <= x ->
                 mem w' x = mem w x.
Proof.
  intros RT w.
  apply (singlePayloadEnumGeneric_inject_payload_case_keeps_payload (RT := RT)
           1000 0 w (Z.shiftl 1 62) 8 77 20);
    reflexivity.
Defined.

(** ** The path of a single-payload destroy handler *)

(** X15. The destroy handler of each of the four single-payload
    instructions takes the path the tag of the value selects. When the tag,
    computed as the tag entry point of the family computes it, is not 0 the
    handler returns with the reader behind the nested instructions and the
    cursor moved by the skip field, having called nothing. When it is 0, the
    instruction has a field for extra inhabitants and the tag is not the
    product of 32-bit wrap-around, the handler returns with the reader on
    the nested instructions and the cursor where it was. *)
Theorem single_payload_destroy_follows_tag {RT : Runtime} {ls : LayoutString} :
  forall (k : SinglePayloadFamily) (metadata addr : Z) (s : State) (tag : Z) (s1 : State)
         (refCountBytes skip_ : Z),
    extractedTag k (addr + addrOffset s) s = Some (tag, s1) ->
    readAt lsBytes (reader s + refCountBytesAt k) 8 = Some refCountBytes ->
    readAt lsBytes (reader s + skipAt k) 8 = Some skip_ ->
    (tag <> 0 ->
     singlePayloadDestroyHandler k metadata addr s = emptyPath k refCountBytes skip_ s)
    /\ (tag = 0 -> hasXIField k s -> tagNotWrapped k (addr + addrOffset s) s ->
        singlePayloadDestroyHandler k metadata addr s = payloadPath k s).
Proof.
  intros k metadata addr s tag s1 refCountBytes skip_ Htag Hrcb Hskip.
  exact (single_payload_dispatch k metadata addr s tag s1 refCountBytes skip_
           Htag Hrcb Hskip).
Qed.

Lemma single_payload_destroy_follows_tag_witness :
  let RT := exampleRuntime optionalOfStrong false in
  let ls := @getLayoutString RT 0 in
  let s := tagReader (emptyWorld (wordAt 1000 0)) in
  (1 <> 0 ->
   singlePayloadDestroyHandler SimpleFamily 0 1000 s = emptyPath SimpleFamily 8 8 s)
  /\ (1 = 0 -> hasXIField SimpleFamily s -> tagNotWrapped SimpleFamily (1000 + addrOffset s) s ->
      singlePayloadDestroyHandler SimpleFamily 0 1000 s = payloadPath SimpleFamily s).
Proof.
  intros RT ls s.
  apply (single_payload_destroy_follows_tag (RT := RT) (ls := ls) SimpleFamily 0 1000 s 1
           {| reader := 24 + 32; addrOffset := 0; world := emptyWorld (wordAt 1000 0) |}
           8 8);
    reflexivity.
Defined.

(** ** The payload a multi-payload destroy handler works on *)

Lemma readTagBytes_nonneg m a n v : readTagBytes m a n = Some v -> 0 <= v.
Proof.
  unfold readTagBytes. destruct (u8 n) as [|p|p]; try discriminate.
  do 4 (try destruct p as [p|p|]); try discriminate;
    intros H; apply (f_equal (fun o => match o with Some x => x | None => 0 end)) in H;
    cbv beta iota in H; subst v; apply loadLE_range.
Qed.

(** X16. The destroy handler of a [MultiPayloadEnumGeneric] instruction
    reads the tag bytes behind the payload area. When they hold the index
    of a payload case, which is then the tag that
    [swift_multiPayloadEnumGeneric_getEnumTag] computes for the value (the
    number of payloads fitting its 32 bits), the
    handler runs the driver it is instantiated with on the instructions of
    that payload, at the address and cursor of the enum, and returns with
    the cursor [enumSize] further and the reader behind the instructions of
    all payloads. When they hold anything else the handler moves cursor and
    reader in the same way and leaves the world as it is. *)
Theorem multiPayload_destroy_follows_tag {RT : Runtime} {ls : LayoutString} :
  forall (HandlerFn : DestrFnBranchless) (metadata addr : Z) (s : State)
         (tagBytes numPayloads refCountBytes enumSize raw : Z),
    readAt lsBytes (reader s) 8 = Some tagBytes ->
    readAt lsBytes (reader s + 8) 8 = Some numPayloads ->
    readAt lsBytes (reader s + 16) 8 = Some refCountBytes ->
    readAt lsBytes (reader s + 24) 8 = Some enumSize ->
    readTagBytes (mem (world s)) (addr + addrOffset s + u64 (enumSize - tagBytes)) tagBytes
    = Some raw ->
    numPayloads <= 2 ^ 32 ->
    let behind (w : World) : State :=
      {| reader := reader s + 32 + u64 (refCountBytes + u64 (numPayloads * 8));
         addrOffset := u64 (addrOffset s + enumSize);
         world := w |} in
    (raw < numPayloads ->
     (exists s3,
         swift_multiPayloadEnumGeneric_getEnumTag_body (addr + addrOffset s) s
         = Some (raw, s3))
     /\ forall refCountOffset,
          readAt lsBytes (reader s + 32 + u64 (raw * 8)) 8 = Some refCountOffset ->
          multiPayloadEnumGenericBranchless1 HandlerFn metadata addr s
          = match HandlerFn metadata addr
                    {| reader := reader s + 32
                                 + u64 (u64 (numPayloads * 8) + refCountOffset);
                       addrOffset := addrOffset s;
                       world := world s |} with
            | Some (_, s') => Some (tt, behind (world s'))
            | None => None
            end)
    /\ (numPayloads <= raw ->
        multiPayloadEnumGenericBranchless1 HandlerFn metadata addr s
        = Some (tt, behind (world s))).
Proof.
  intros HandlerFn metadata addr s tagBytes numPayloads refCountBytes enumSize raw
    HT HN HR HE Hraw H32 behind.
  pose proof (readAt_range _ _ _ _ HN) as HNr.
  change (256 ^ Z.of_nat 8) with (2 ^ 64) in HNr.
  split.
  - intros Hlt. split.
    + unfold swift_multiPayloadEnumGeneric_getEnumTag_body. exec.
      rewrite Hraw. exec.
      pose proof (readTagBytes_nonneg _ _ _ _ Hraw) as Hr.
      rewrite (u32_small raw) by lia.
      apply Z.ltb_lt in Hlt. rewrite Hlt. eexists. reflexivity.
    + intros refCountOffset Hoff.
      unfold multiPayloadEnumGenericBranchless1, multiPayloadDispatch1, withNested.
      exec. rewrite Hraw. exec.
      apply Z.ltb_lt in Hlt. rewrite Hlt. exec.
      destruct (HandlerFn metadata addr _) as [[u s']|]; reflexivity.
  - intros Hge.
    unfold multiPayloadEnumGenericBranchless1, multiPayloadDispatch1.
    exec. rewrite Hraw. exec.
    apply Z.ltb_ge in Hge. rewrite Hge. exec. reflexivity.
Qed.

Lemma multiPayload_destroy_follows_tag_witness :
  let RT := exampleRuntime twoPayloads false in
  let ls := @getLayoutString RT 0 in
  let s := tagReader (emptyWorld (wordAt 1000 0x7001)) in
  let HandlerFn := handleRefCountsDestroy 2 in
  let behind (w : World) : State :=
    {| reader := reader s + 32 + u64 (32 + u64 (2 * 8));
       addrOffset := u64 (addrOffset s + 9);
       world := w |} in
  (0 < 2 ->
   (exists s3,
       swift_multiPayloadEnumGeneric_getEnumTag_body (1000 + addrOffset s) s = Some (0, s3))
   /\ forall refCountOffset,
        readAt lsBytes (reader s + 32 + u64 (0 * 8)) 8 = Some refCountOffset ->
        multiPayloadEnumGenericBranchless1 HandlerFn 0 1000 s
        = match HandlerFn 0 1000
                  {| reader := reader s + 32 + u64 (u64 (2 * 8) + refCountOffset);
                     addrOffset := addrOffset s;
                     world := world s |} with
          | Some (_, s') => Some (tt, behind (world s'))
          | None => None
          end)
  /\ (2 <= 0 -> multiPayloadEnumGenericBranchless1 HandlerFn 0 1000 s
                = Some (tt, behind (world s))).
Proof.
  intros RT ls s HandlerFn.
  apply (multiPayload_destroy_follows_tag (RT := RT) (ls := ls) HandlerFn 0 1000 s
           1 2 32 9 0); try reflexivity.
  lia.
Defined.

Example destroy_twoPayloads_payload_0 :
  let RT := exampleRuntime twoPayloads false in
  let ls := @getLayoutString RT 0 in
  option_map (fun r => (reader (snd r), addrOffset (snd r), trace (world (snd r))))
    (multiPayloadEnumGenericBranchless1 (handleRefCountsDestroy 2) 0 1000
       (tagReader (emptyWorld (wordAt 1000 0x7001))))
  = Some (104, 9, [swift_release 0x7001]).
Proof. vm_compute. reflexivity. Qed.

(** ** Copying an array of structs *)

Lemma retainsOf_ext {RT : Runtime} src m m' endOffset fields :
  Forall strongField fields -> 0 <= endOffset ->
  forall cursor,
    0 <= cursor -> cursor + structSize fields endOffset < 2 ^ 64 ->
    (forall x, src + cursor <= x < src + cursor + structSize fields endOffset ->
               m x = m' x) ->
    retainsOf src m cursor fields = retainsOf src m' cursor fields.
Proof.
  intros Hf He. unfold retainsOf.
  induction Hf as [|[kind gap] rest [Hk Hg] Hrest IH]; intros cursor Hc Hsize Hm;
    cbn [fieldsAt map fst snd structSize] in *; [reflexivity|].
  pose proof (structSize_nonneg (fun k => strongKind k = true) _ _ Hrest He) as Hn.
  rewrite !(u64_small (cursor + gap)) by lia.
  rewrite !(u64_small (cursor + gap + 8)) by lia.
  rewrite (IH (cursor + gap + 8)); try lia.
  - f_equal. f_equal. apply loadLE_ext. intros x Hx. apply Hm.
    change (Z.of_nat 8) with 8 in Hx. lia.
  - intros x Hx. apply Hm. lia.
Qed.

(** The retains of the elements [i], [i + 1], ... of an array, [n] of them. *)
Definition arrayRetains {RT : Runtime} (src stride : Z) (m : Memory)
  (fields : list (Z * Z)) (i : Z) (n : nat) : list Event :=
  flat_map (fun j => retainsOf src m (u64 ((i + Z.of_nat j) * stride)) fields) (seq 0 n).

Lemma arrayLoop_copy_struct {RT : Runtime} fuel dest src stride metadata fields endOffset
  total :
  countingLeavesStorage ->
  structOf metadata fields endOffset ->
  Forall strongField fields ->
  0 <= endOffset < 2 ^ 56 ->
  (length fields < fuel)%nat ->
  structSize fields endOffset <= stride ->
  total * stride < 2 ^ 64 ->
  dest + total * stride <= src \/ src + total * stride <= dest ->
  forall n i w,
    0 <= i -> i + Z.of_nat n <= total ->
    exists w',
      arrayLoop n i stride
        (handleRefCountsInitWithCopy (ls := getLayoutString metadata) fuel metadata dest src)
        w = Some w'
      /\ trace w' = rev (arrayRetains src stride (mem w) fields i n) ++ trace w
      /\ (forall k j, i <= k < i + Z.of_nat n -> 0 <= j < structSize fields endOffset ->
                      u8 (mem w' (dest + k * stride + j))
                      = u8 (mem w (src + k * stride + j)))
      /\ (forall x, x < dest + i * stride \/ dest + (i + Z.of_nat n) * stride <= x ->
                    mem w' x = mem w x).
Proof.
  intros Hq (header & rest & Hls & Hh) Hf He Hfuel Hstride Htotal Hdisj.
  pose proof (structSize_nonneg (fun k => strongKind k = true) _ _ Hf (proj1 He)) as Hsize.
  induction n as [|n IH]; intros i w Hi Hn.
  - exists w. cbn [arrayLoop]. split; [reflexivity|]. split; [reflexivity|].
    split; [intros; lia | reflexivity].
  - assert (Hb : 0 <= i * stride) by nia.
    assert (Hb1 : (i + 1) * stride = i * stride + stride) by ring.
    assert (Hbn : (i + 1) * stride <= total * stride)
      by (apply Z.mul_le_mono_nonneg_r; lia).
    cbn [arrayLoop]. rewrite (u64_small (i * stride)) by lia.
    destruct (copy_struct (ls := getLayoutString metadata) metadata dest src Hq
                fields fuel header endOffset rest (start (i * stride) w) (mem w)
                (i * stride) Hls (structOf_start _ _ _ Hh) Hf He Hfuel)
      as (m1 & Hrun & Hm1); cbn [start addrOffset world]; try lia.
    { apply copiedBetween_start. }
    unfold run. rewrite Hrun. cbn [world start addrOffset trace mem] in *.
    match goal with
    | |- context [arrayLoop n (i + 1) stride _ ?w1] =>
        destruct (IH (i + 1) w1 ltac:(lia) ltac:(lia)) as (w' & Hloop & Htrace & Hcopy & Hframe)
    end.
    cbn [mem trace] in *.
    assert (Hsrc : forall x, src <= x < src + total * stride -> m1 x = mem w x).
    { intros x Hx. apply Hm1. lia. }
    exists w'. split; [exact Hloop|]. split; [|split].
    + rewrite Htrace. unfold arrayRetains. cbn [seq flat_map].
      rewrite <- seq_shift, flat_map_shift, rev_app_distr, <- app_assoc.
      replace (i + Z.of_nat 0) with i by lia. rewrite (u64_small (i * stride)) by lia.
      f_equal. f_equal. apply flat_map_seq_ext. intros j Hj.
      replace (i + 1 + Z.of_nat j) with (i + Z.of_nat (S j)) by lia.
      assert (Hk : (i + Z.of_nat (S j) + 1) * stride <= total * stride)
        by (apply Z.mul_le_mono_nonneg_r; lia).
      assert (Hk0 : i * stride <= (i + Z.of_nat (S j)) * stride)
        by (apply Z.mul_le_mono_nonneg_r; lia).
      assert (Hk1 : (i + Z.of_nat (S j) + 1) * stride
                    = (i + Z.of_nat (S j)) * stride + stride) by ring.
      rewrite (u64_small ((i + Z.of_nat (S j)) * stride)) by lia.
      apply (retainsOf_ext src m1 (mem w) endOffset fields Hf (proj1 He)); try lia.
      intros x Hx. apply Hsrc. lia.
    + intros k j Hk Hj.
      assert (Hk0 : i * stride <= k * stride) by (apply Z.mul_le_mono_nonneg_r; lia).
      assert (Hk2 : (k + 1) * stride <= total * stride)
        by (apply Z.mul_le_mono_nonneg_r; lia).
      assert (Hk1 : (k + 1) * stride = k * stride + stride) by ring.
      destruct (Z.eq_dec k i) as [->|Hne].
      * rewrite Hframe by lia.
        rewrite (proj1 (Hm1 _)) by lia. do 2 f_equal. lia.
      * assert (Hk3 : (i + 1) * stride <= k * stride)
          by (apply Z.mul_le_mono_nonneg_r; lia).
        rewrite Hcopy by lia. rewrite Hsrc by lia. reflexivity.
    + intros x Hx.
      assert (Hk : (i + 1) * stride <= (i + Z.of_nat (S n)) * stride)
        by (apply Z.mul_le_mono_nonneg_r; lia).
      assert (Hk' : (i + 1 + Z.of_nat n) * stride = (i + Z.of_nat (S n)) * stride)
        by (f_equal; lia).
      rewrite Hframe by lia. apply Hm1. lia.
Qed.

(** X17. [swift_generic_arrayInitWithCopy] on arrays of structs of strong
    single-word references that do not overlap returns whenever the fuel
    exceeds the number of fields. It retains the references of element 0 of
    the source, then those of element 1, and so on, each element in the
    order of its fields; afterwards every byte of every element of the
    destination is the byte of the source, and storage outside the
    destination array is as it was. Element [i] is at [i * stride]. *)
Theorem arrayInitWithCopy_retains_and_copies_elements {RT : Runtime} :
  forall (fuel : nat) (dest src stride metadata : Z) (count : nat) (w : World)
         fields endOffset,
    countingLeavesStorage ->
    structOf metadata fields endOffset ->
    Forall strongField fields ->
    0 <= endOffset < 2 ^ 56 ->
    (length fields < fuel)%nat ->
    structSize fields endOffset <= stride ->
    Z.of_nat count * stride < 2 ^ 64 ->
    dest + Z.of_nat count * stride <= src \/ src + Z.of_nat count * stride <= dest ->
    exists w',
      swift_generic_arrayInitWithCopy fuel dest src (Z.of_nat count) stride metadata w
      = Some w'
      /\ trace w' = rev (arrayRetains src stride (mem w) fields 0 count) ++ trace w
      /\ (forall k j, 0 <= k < Z.of_nat count -> 0 <= j < structSize fields endOffset ->
                      u8 (mem w' (dest + k * stride + j))
                      = u8 (mem w (src + k * stride + j)))
      /\ (forall x, x < dest \/ dest + Z.of_nat count * stride <= x -> mem w' x = mem w x).
Proof.
  intros fuel dest src stride metadata count w fields endOffset Hq Hs Hf He Hfuel
    Hstride Htotal Hdisj.
  unfold swift_generic_arrayInitWithCopy. rewrite Nat2Z.id.
  destruct (arrayLoop_copy_struct fuel dest src stride metadata fields endOffset
              (Z.of_nat count) Hq Hs Hf He Hfuel Hstride Htotal Hdisj count 0 w
              ltac:(lia) ltac:(lia))
    as (w' & Hloop & Htrace & Hcopy & Hframe).
  exists w'. split; [exact Hloop|]. split; [exact Htrace|]. split.
  - intros k j Hk Hj. apply Hcopy; lia.
  - intros x Hx. apply Hframe. lia.
Qed.

Lemma arrayInitWithCopy_retains_and_copies_elements_witness :
  let RT := wordRuntime false in
  let w := emptyWorld (twoWordsAt 1000 0x7000 0x8000) in
  exists w',
    swift_generic_arrayInitWithCopy 2 2000 1000 (Z.of_nat 2) 16 0 w = Some w'
    /\ trace w' = rev (arrayRetains 1000 16 (mem w) oneNative 0 2) ++ trace w
    /\ (forall k j, 0 <= k < Z.of_nat 2 -> 0 <= j < structSize oneNative 0 ->
                    u8 (mem w' (2000 + k * 16 + j)) = u8 (mem w (1000 + k * 16 + j)))
    /\ (forall x, x < 2000 \/ 2000 + Z.of_nat 2 * 16 <= x -> mem w' x = mem w x).
Proof.
  intros RT w.
  apply (arrayInitWithCopy_retains_and_copies_elements (RT := RT) 2 2000 1000 16 0 2 w
           oneNative 0).
  - apply exampleRuntime_countingLeavesStorage.
  - exact (exampleRuntime_structOf oneNative 0 false 0).
  - exact oneNative_strong.
  - lia.
  - cbn. lia.
  - cbn. lia.
  - cbn. lia.
  - cbn. lia.
Defined.

Example arrayInitWithCopy_oneNative :
  option_map (fun w' => (trace w', loadLE (mem w') 2000 8, loadLE (mem w') 2016 8))
    (swift_generic_arrayInitWithCopy (RT := wordRuntime false) 2 2000 1000 2 16 0
       (emptyWorld (twoWordsAt 1000 0x7000 0x8000)))
  = Some ([swift_retain 0x8000; swift_retain 0x7000], 0x7000, 0x8000).
Proof. vm_compute. reflexivity. Qed.

Lemma assignsOf_ext {RT : Runtime} dest src m m' endOffset fields :
  Forall strongField fields -> 0 <= endOffset ->
  forall cursor,
    0 <= cursor -> cursor + structSize fields endOffset < 2 ^ 64 ->
    (forall x, src + cursor <= x < src + cursor + structSize fields endOffset ->
               m x = m' x) ->
    (forall x, dest + cursor <= x < dest + cursor + structSize fields endOffset ->
               m x = m' x) ->
    assignsOf dest src m cursor fields = assignsOf dest src m' cursor fields.
Proof.
  intros Hf He. unfold assignsOf.
  induction Hf as [|[kind gap] rest [Hk Hg] Hrest IH]; intros cursor Hc Hsize Hs Hd;
    cbn [fieldsAt flat_map fst snd structSize] in *; [reflexivity|].
  pose proof (structSize_nonneg (fun k => strongKind k = true) _ _ Hrest He) as Hn.
  rewrite !(u64_small (cursor + gap)) by lia.
  rewrite !(u64_small (cursor + gap + 8)) by lia.
  rewrite (IH (cursor + gap + 8)); try lia.
  - f_equal. f_equal; [|f_equal]; f_equal; apply loadLE_ext; intros x Hx;
      change (Z.of_nat 8) with 8 in Hx; [apply Hd | apply Hs]; lia.
  - intros x Hx. apply Hs. lia.
  - intros x Hx. apply Hd. lia.
Qed.

(** The releases and retains of the elements [i], [i + 1], ... of an array,
    [n] of them. *)
Definition arrayAssigns {RT : Runtime} (dest src stride : Z) (m : Memory)
  (fields : list (Z * Z)) (i : Z) (n : nat) : list Event :=
  flat_map (fun j => assignsOf dest src m (u64 ((i + Z.of_nat j) * stride)) fields)
           (seq 0 n).

Lemma arrayLoop_assign_struct {RT : Runtime} fuel dest src stride metadata fields endOffset
  total :
  countingLeavesStorage ->
  structOf metadata fields endOffset ->
  Forall strongField fields ->
  0 <= endOffset < 2 ^ 56 ->
  (length fields < fuel)%nat ->
  structSize fields endOffset <= stride ->
  total * stride < 2 ^ 64 ->
  dest + total * stride <= src \/ src + total * stride <= dest ->
  forall n i w,
    0 <= i -> i + Z.of_nat n <= total ->
    exists w',
      arrayLoop n i stride
        (handleRefCountsAssignWithCopy (ls := getLayoutString metadata) fuel metadata
           dest src)
        w = Some w'
      /\ trace w' = rev (arrayAssigns dest src stride (mem w) fields i n) ++ trace w
      /\ (forall k j, i <= k < i + Z.of_nat n -> 0 <= j < structSize fields endOffset ->
                      u8 (mem w' (dest + k * stride + j))
                      = u8 (mem w (src + k * stride + j)))
      /\ (forall x, x < dest + i * stride \/ dest + (i + Z.of_nat n) * stride <= x ->
                    mem w' x = mem w x).
Proof.
  intros Hq (header & rest & Hls & Hh) Hf He Hfuel Hstride Htotal Hdisj.
  pose proof (structSize_nonneg (fun k => strongKind k = true) _ _ Hf (proj1 He)) as Hsize.
  induction n as [|n IH]; intros i w Hi Hn.
  - exists w. cbn [arrayLoop]. split; [reflexivity|]. split; [reflexivity|].
    split; [intros; lia | reflexivity].
  - assert (Hb : 0 <= i * stride) by nia.
    assert (Hb1 : (i + 1) * stride = i * stride + stride) by ring.
    assert (Hbn : (i + 1) * stride <= total * stride)
      by (apply Z.mul_le_mono_nonneg_r; lia).
    cbn [arrayLoop]. rewrite (u64_small (i * stride)) by lia.
    destruct (assign_struct (ls := getLayoutString metadata) metadata dest src Hq
                fields fuel header endOffset rest (start (i * stride) w) (mem w)
                (i * stride) Hls (structOf_start _ _ _ Hh) Hf He Hfuel)
      as (m1 & Hrun & Hm1); cbn [start addrOffset world]; try lia.
    { apply copiedBetween_start. }
    unfold run. rewrite Hrun. cbn [world start addrOffset trace mem] in *.
    match goal with
    | |- context [arrayLoop n (i + 1) stride _ ?w1] =>
        destruct (IH (i + 1) w1 ltac:(lia) ltac:(lia)) as (w' & Hloop & Htrace & Hcopy & Hframe)
    end.
    cbn [mem trace] in *.
    assert (Hsrc : forall x, src <= x < src + total * stride -> m1 x = mem w x).
    { intros x Hx. apply Hm1. lia. }
    assert (Hdest : forall x, dest + (i + 1) * stride <= x -> m1 x = mem w x).
    { intros x Hx. apply Hm1. lia. }
    exists w'. split; [exact Hloop|]. split; [|split].
    + rewrite Htrace. unfold arrayAssigns. cbn [seq flat_map].
      rewrite <- seq_shift, flat_map_shift, rev_app_distr, <- app_assoc.
      replace (i + Z.of_nat 0) with i by lia. rewrite (u64_small (i * stride)) by lia.
      f_equal. f_equal. apply flat_map_seq_ext. intros j Hj.
      replace (i + 1 + Z.of_nat j) with (i + Z.of_nat (S j)) by lia.
      assert (Hk : (i + Z.of_nat (S j) + 1) * stride <= total * stride)
        by (apply Z.mul_le_mono_nonneg_r; lia).
      assert (Hk0 : (i + 1) * stride <= (i + Z.of_nat (S j)) * stride)
        by (apply Z.mul_le_mono_nonneg_r; lia).
      assert (Hk1 : (i + Z.of_nat (S j) + 1) * stride
                    = (i + Z.of_nat (S j)) * stride + stride) by ring.
      rewrite (u64_small ((i + Z.of_nat (S j)) * stride)) by lia.
      apply (assignsOf_ext dest src m1 (mem w) endOffset fields Hf (proj1 He)); try lia.
      * intros x Hx. apply Hsrc. lia.
      * intros x Hx. apply Hdest. lia.
    + intros k j Hk Hj.
      assert (Hk0 : i * stride <= k * stride) by (apply Z.mul_le_mono_nonneg_r; lia).
      assert (Hk2 : (k + 1) * stride <= total * stride)
        by (apply Z.mul_le_mono_nonneg_r; lia).
      assert (Hk1 : (k + 1) * stride = k * stride + stride) by ring.
      destruct (Z.eq_dec k i) as [->|Hne].
      * rewrite Hframe by lia.
        rewrite (proj1 (Hm1 _)) by lia. do 2 f_equal. lia.
      * assert (Hk3 : (i + 1) * stride <= k * stride)
          by (apply Z.mul_le_mono_nonneg_r; lia).
        rewrite Hcopy by lia. rewrite Hsrc by lia. reflexivity.
    + intros x Hx.
      assert (Hk : (i + 1) * stride <= (i + Z.of_nat (S n)) * stride)
        by (apply Z.mul_le_mono_nonneg_r; lia).
      assert (Hk' : (i + 1 + Z.of_nat n) * stride = (i + Z.of_nat (S n)) * stride)
        by (f_equal; lia).
      rewrite Hframe by lia. apply Hm1. lia.
Qed.

(** X18. [swift_generic_arrayAssignWithCopy] on arrays of such structs
    that do not overlap returns whenever the fuel exceeds the number of
    fields. Element after element and field after field it releases the
    reference the destination held and retains the reference of the source;
    afterwards every byte of every element of the destination is the byte
    of the source, and storage outside the destination array is as it
    was. *)
Theorem arrayAssignWithCopy_assigns_elements {RT : Runtime} :
  forall (fuel : nat) (dest src stride metadata : Z) (count : nat) (w : World)
         fields endOffset,
    countingLeavesStorage ->
    structOf metadata fields endOffset ->
    Forall strongField fields ->
    0 <= endOffset < 2 ^ 56 ->
    (length fields < fuel)%nat ->
    structSize fields endOffset <= stride ->
    Z.of_nat count * stride < 2 ^ 64 ->
    dest + Z.of_nat count * stride <= src \/ src + Z.of_nat count * stride <= dest ->
    exists w',
      swift_generic_arrayAssignWithCopy fuel dest src (Z.of_nat count) stride metadata w
      = Some w'
      /\ trace w' = rev (arrayAssigns dest src stride (mem w) fields 0 count) ++ trace w
      /\ (forall k j, 0 <= k < Z.of_nat count -> 0 <= j < structSize fields endOffset ->
                      u8 (mem w' (dest + k * stride + j))
                      = u8 (mem w (src + k * stride + j)))
      /\ (forall x, x < dest \/ dest + Z.of_nat count * stride <= x -> mem w' x = mem w x).
Proof.
  intros fuel dest src stride metadata count w fields endOffset Hq Hs Hf He Hfuel
    Hstride Htotal Hdisj.
  unfold swift_generic_arrayAssignWithCopy. rewrite Nat2Z.id.
  destruct (arrayLoop_assign_struct fuel dest src stride metadata fields endOffset
              (Z.of_nat count) Hq Hs Hf He Hfuel Hstride Htotal Hdisj count 0 w
              ltac:(lia) ltac:(lia))
    as (w' & Hloop & Htrace & Hcopy & Hframe).
  exists w'. split; [exact Hloop|]. split; [exact Htrace|]. split.
  - intros k j Hk Hj. apply Hcopy; lia.
  - intros x Hx. apply Hframe. lia.
Qed.

Lemma arrayAssignWithCopy_assigns_elements_witness :
  let RT := wordRuntime false in
  let w := emptyWorld (twoWordsAt 1000 0x7000 0x8000) in
  exists w',
    swift_generic_arrayAssignWithCopy 2 2000 1000 (Z.of_nat 2) 16 0 w = Some w'
    /\ trace w' = rev (arrayAssigns 2000 1000 16 (mem w) oneNative 0 2) ++ trace w
    /\ (forall k j, 0 <= k < Z.of_nat 2 -> 0 <= j < structSize oneNative 0 ->
                    u8 (mem w' (2000 + k * 16 + j)) = u8 (mem w (1000 + k * 16 + j)))
    /\ (forall x, x < 2000 \/ 2000 + Z.of_nat 2 * 16 <= x -> mem w' x = mem w x).
Proof.
  intros RT w.
  apply (arrayAssignWithCopy_assigns_elements (RT := RT) 2 2000 1000 16 0 2 w oneNative 0).
  - apply exampleRuntime_countingLeavesStorage.
  - exact (exampleRuntime_structOf oneNative 0 false 0).
  - exact oneNative_strong.
  - lia.
  - cbn. lia.
  - cbn. lia.
  - cbn. lia.
  - cbn. lia.
Defined.

(** ** Destroying through a resolved layout string *)

Section ResolvedDestroy.

Context {RT : Runtime}.
Variables (metadata addr : Z).

(** One turn of the destroy loop on any instruction but [End]. *)
Lemma destroy_turn_of_kind (ls : LayoutString) fuel pre kind gap post s :
  @lsBytes ls = pre ++ instr kind gap ++ post ->
  reader s = Z.of_nat (length pre) ->
  0 < kind < 256 -> 0 <= gap < 2 ^ 56 ->
  handleRefCountsDestroy (ls := ls) (S fuel) metadata addr s
  = match destroyTableBranchless (handleRefCountsDestroy (ls := ls) fuel) kind with
    | Some handler =>
        match handler metadata addr
                {| reader := reader s + 8; addrOffset := u64 (addrOffset s + gap);
                   world := world s |} with
        | Some (_, s') => handleRefCountsDestroy (ls := ls) fuel metadata addr s'
        | None => None
        end
    | None => None
    end.
Proof.
  intros Hls Hr Hk Hg.
  cbn [handleRefCountsDestroy]. unfold bind at 1. unfold readBytes at 1.
  rewrite Hls, Hr, readAt_instr by (assumption || lia). rewrite <- Hr.
  unfold bind at 1. unfold advance, bind, getAddrOffset, setAddrOffset.
  cbn [reader addrOffset world].
  rewrite offsetOf_instructionWord, kindOf_instructionWord by (assumption || lia).
  destruct (Z.eqb_spec kind 0) as [->|_]; [lia|].
  unfold lift. destruct (destroyTableBranchless _ kind); reflexivity.
Qed.

(** The handlers of the plain kinds look neither at the layout string nor
    at the metadata: the reader comes out as it went in, and cursor and
    world do not depend on them. *)
Lemma plain_handler_ignores_reader (ls1 ls2 : LayoutString) metadata2 rec1 rec2 kind
  r1 r2 c w :
  plainKind kind = true ->
  match destroyTableBranchless (ls := ls1) rec1 kind,
        destroyTableBranchless (ls := ls2) rec2 kind with
  | Some h1, Some h2 =>
      exists result,
        h1 metadata addr {| reader := r1; addrOffset := c; world := w |}
        = option_map (fun cw => (tt, {| reader := r1; addrOffset := fst cw;
                                        world := snd cw |})) result
        /\ h2 metadata2 addr {| reader := r2; addrOffset := c; world := w |}
           = option_map (fun cw => (tt, {| reader := r2; addrOffset := fst cw;
                                           world := snd cw |})) result
  | None, None => True
  | _, _ => False
  end.
Proof.
  intros Hk.
  destruct (plainKind_cases _ Hk)
    as [-> | [-> | [-> | [-> | [-> | [-> | [-> | [-> | [-> | [-> | [-> | [-> | ->]]]]]]]]]]]];
    cbn [destroyTableBranchless]; try exact I;
    cbv [errorDestroyBranchless nativeStrongDestroyBranchless unownedDestroyBranchless
         weakDestroyBranchless unknownDestroyBranchless unknownUnownedDestroyBranchless
         unknownWeakDestroyBranchless bridgeDestroyBranchless blockDestroyBranchless
         objcStrongDestroyBranchless existentialDestroyBranchless
         getExistentialTypeMetadata bind getAddrOffset loadWord getMem ret advance
         setAddrOffset call reader addrOffset world mem trace];
    try match goal with
        | |- context [if ?b then _ else _] => destruct b
        end;
    match goal with
    | |- exists result,
           Some (tt, {| reader := _; addrOffset := ?X; world := ?W |}) = _ /\ _ =>
        exists (Some (X, W)); split; reflexivity
    end.
Qed.

End ResolvedDestroy.

Lemma readAt_word pre v post :
  0 <= v < 2 ^ 64 ->
  readAt (pre ++ encodeLE 8 v ++ post) (Z.of_nat (length pre)) 8 = Some v.
Proof.
  intros Hv. pose proof (readAt_middle pre (encodeLE 8 v) post) as H.
  rewrite length_encodeLE in H. rewrite H, bytesLE_encodeLE.
  f_equal. apply Z.mod_small. exact Hv.
Qed.

(** Cursor and world of a run. *)
Definition cursorAndWorld (r : option (unit * State)) : option (Z * World) :=
  option_map (fun r => (addrOffset (snd r), world (snd r))) r.

Section ResolvedDestroyRun.

Context {RT : Runtime}.
Variables (metadata metadata2 addr fieldType : Z).
Variables (field resolved : LayoutString).
Variables (endOffset : Z) (post post2 : list Z).

Hypothesis sameArguments : getGenericArgs metadata = getGenericArgs fieldType.
Hypothesis pointersFit : forall fn args, 0 <= callMetadataAccessor fn args < 2 ^ 64.

Lemma destroy_resolved_entries entries : forall fuel pre pre2 s1 s2,
  @lsBytes field = pre ++ flat_map entryBytes entries ++ instr 0 endOffset ++ post ->
  @lsBytes resolved
  = pre2 ++ resolvedEntries field fieldType (Z.of_nat (length pre)) entries
         ++ instr 0 endOffset ++ post2 ->
  reader s1 = Z.of_nat (length pre) ->
  reader s2 = Z.of_nat (length pre2) ->
  addrOffset s1 = addrOffset s2 ->
  world s1 = world s2 ->
  Forall entryFits entries ->
  0 <= endOffset < 2 ^ 56 ->
  cursorAndWorld (handleRefCountsDestroy (ls := field) fuel metadata addr s1)
  = cursorAndWorld (handleRefCountsDestroy (ls := resolved) fuel metadata2 addr s2).
Proof.
  induction entries as [|e entries IH];
    intros fuel pre pre2 s1 s2 Hls1 Hls2 Hr1 Hr2 Hc Hw Hf He;
    (destruct fuel as [|fuel]; [reflexivity|]).
  - cbn [flat_map resolvedEntries app] in Hls1, Hls2.
    rewrite (destroy_end_turn (ls := field) metadata addr _ _ _ _ _ Hls1 Hr1 He).
    rewrite (destroy_end_turn (ls := resolved) metadata2 addr _ _ _ _ _ Hls2 Hr2 He).
    cbn. rewrite Hc, Hw. reflexivity.
  - inversion Hf as [|? ? Hf1 Hf2]; subst.
    destruct e as [kind gap | gap relativeOffset];
      cbn [flat_map resolvedEntries entryBytes] in Hls1, Hls2;
      rewrite <- !app_assoc in Hls1, Hls2; cbn [entryFits] in Hf1.
    + destruct Hf1 as [Hk Hg].
      assert (Hkind : 0 < kind < 256) by (apply plainKind_cases in Hk; lia).
      rewrite (destroy_turn_of_kind metadata addr field _ _ _ _ _ _ Hls1 Hr1 Hkind Hg).
      rewrite (destroy_turn_of_kind metadata2 addr resolved _ _ _ _ _ _ Hls2 Hr2 Hkind Hg).
      rewrite Hc, Hw.
      pose proof (plain_handler_ignores_reader metadata addr field resolved metadata2
                    (handleRefCountsDestroy (ls := field) fuel)
                    (handleRefCountsDestroy (ls := resolved) fuel) kind
                    (reader s1 + 8) (reader s2 + 8) (u64 (addrOffset s2 + gap))
                    (world s2) Hk) as Hh.
      destruct (destroyTableBranchless (ls := field) _ kind) as [h1|];
        destruct (destroyTableBranchless (ls := resolved) _ kind) as [h2|];
        try contradiction; [|reflexivity].
      destruct Hh as (result & H1 & H2). rewrite H1, H2.
      destruct result as [[c' w']|]; [|reflexivity]. cbn [option_map fst snd].
      rewrite app_assoc in Hls1, Hls2.
      apply (IH fuel (pre ++ instr kind gap) (pre2 ++ instr kind gap)); try assumption;
        cbn [reader addrOffset world]; try reflexivity.
      * rewrite Hls2, length_app, length_instr, Nat2Z.inj_add. reflexivity.
      * rewrite length_app, length_instr. lia.
      * rewrite length_app, length_instr. lia.
    + destruct Hf1 as [Hg Hrel].
      rewrite (destroy_turn_of_kind metadata addr field _ _ _ _ _ _ Hls1 Hr1
                 ltac:(lia) Hg).
      rewrite (destroy_turn_of_kind metadata2 addr resolved _ _ _ _ _ _ Hls2 Hr2
                 ltac:(lia) Hg).
      cbn [destroyTableBranchless].
      set (type := callMetadataAccessor
                     (u64 (@lsBase field + Z.of_nat (length pre) + 8
                           + sext32 relativeOffset))
                     (getGenericArgs fieldType)) in *.
      rewrite app_assoc in Hls1, Hls2.
      assert (Hread1 : readAt (@lsBytes field) (reader s1 + 8) 8 = Some relativeOffset).
      { rewrite Hls1, Hr1.
        replace (Z.of_nat (length pre) + 8) with (Z.of_nat (length (pre ++ instr 15 gap)))
          by (rewrite length_app, length_instr; lia).
        apply readAt_word. exact Hrel. }
      assert (Hread2 : readAt (@lsBytes resolved) (reader s2 + 8) 8 = Some type).
      { rewrite Hls2, Hr2.
        replace (Z.of_nat (length pre2) + 8)
          with (Z.of_nat (length (pre2 ++ instr 12 gap)))
          by (rewrite length_app, length_instr; lia).
        apply readAt_word. apply pointersFit. }
      cbv [resilientDestroyBranchless metatypeDestroyBranchless
           getResilientTypeMetadata readRelativeFunctionPointer getAbsolute
           bind getReader ret readBytes getAddrOffset advance setAddrOffset call].
      cbn [reader addrOffset world mem trace].
      rewrite Hread1, Hread2. cbn [reader addrOffset world mem trace].
      rewrite Hc, Hw, sameArguments, Hr1.
      replace (@lsBase field + (Z.of_nat (length pre) + 8) + sext32 relativeOffset)
        with (@lsBase field + Z.of_nat (length pre) + 8 + sext32 relativeOffset) by lia.
      fold type.
      rewrite app_assoc in Hls1, Hls2.
      apply (IH fuel ((pre ++ instr 15 gap) ++ encodeLE 8 relativeOffset)
               ((pre2 ++ instr 12 gap) ++ encodeLE 8 type));
        try assumption; cbn [reader addrOffset world]; try reflexivity.
      * replace (Z.of_nat (length ((pre ++ instr 15 gap) ++ encodeLE 8 relativeOffset)))
          with (Z.of_nat (length pre) + 16)
          by (rewrite !length_app, length_instr, length_encodeLE; lia).
        exact Hls2.
      * rewrite !length_app, length_instr, length_encodeLE. lia.
      * rewrite Hr2, !length_app, length_instr, length_encodeLE. lia.
Qed.

End ResolvedDestroyRun.

(** X19. Destroying through a resolved layout string does what
    destroying through the string it was resolved from does. Let the
    layout string of [unresolved] hold, behind its header, single-word
    references and resilient fields, and let the layout string of
    [resolved] hold the same entries with every resilient one turned into
    the Metatype entry that [swift_resolve_resilientAccessors] writes for
    it. Then for every fuel, address and world the two runs of
    [swift_generic_destroy] fail together or end with the same cursor, the
    same storage and the same runtime calls. *)
Theorem destroy_through_resolved_layout {RT : Runtime} :
  forall (fuel : nat) (address unresolved resolved : Z) (w : World)
         (entries : list Entry) (endOffset : Z) (header1 post1 header2 post2 : list Z),
    @lsBytes (getLayoutString unresolved)
    = header1 ++ flat_map entryBytes entries ++ instr 0 endOffset ++ post1 ->
    @lsBytes (getLayoutString resolved)
    = header2
        ++ resolvedEntries (getLayoutString unresolved) unresolved
             layoutStringHeaderSize entries
        ++ instr 0 endOffset ++ post2 ->
    Z.of_nat (length header1) = layoutStringHeaderSize ->
    Z.of_nat (length header2) = layoutStringHeaderSize ->
    (forall fn args, 0 <= callMetadataAccessor fn args < 2 ^ 64) ->
    Forall entryFits entries ->
    0 <= endOffset < 2 ^ 56 ->
    option_map (fun s => (addrOffset s, world s))
      (swift_generic_destroy fuel address unresolved w)
    = option_map (fun s => (addrOffset s, world s))
        (swift_generic_destroy fuel address resolved w).
Proof.
  intros fuel address unresolved resolved w entries endOffset header1 post1 header2 post2
    Hls1 Hls2 Hh1 Hh2 Hptr Hf He.
  rewrite <- Hh1 in Hls2.
  pose proof (destroy_resolved_entries unresolved resolved address unresolved
                (getLayoutString unresolved) (getLayoutString resolved)
                endOffset post1 post2 eq_refl Hptr entries fuel header1 header2
                (start 0 w) (start 0 w) Hls1 Hls2
                (structOf_start _ _ _ Hh1) (structOf_start _ _ _ Hh2)
                eq_refl eq_refl Hf He) as H.
  unfold cursorAndWorld in H. unfold swift_generic_destroy, run.
  destruct (handleRefCountsDestroy (ls := getLayoutString unresolved) fuel unresolved
              address (start 0 w)) as [[u1 s1]|];
    destruct (handleRefCountsDestroy (ls := getLayoutString resolved) fuel resolved
                address (start 0 w)) as [[u2 s2]|];
    cbn [option_map snd] in *; congruence.
Qed.

(** A runtime with two types: type 1 has the layout string of
    [nativeAndResilient], loaded at 4096, and every other type the string
    resolved from it. A metadata accessor answers with its own address. *)
Definition resolvingRuntime : Runtime := {|
  layoutStringHeaderSize := 16;
  NumWords_ValueBuffer := 3;
  _swift_abi_SwiftSpareBitsMask := 0xF000000000000006;
  _swift_abi_ObjCReservedBitsMask := 0x8000000000000001;
  getLayoutString := fun metadata =>
    if metadata =? 1
    then {| lsBase := 4096;
            lsBytes := exampleHeader ++ flat_map entryBytes nativeAndResilient
                       ++ instr 0 0 |}
    else {| lsBase := 8192;
            lsBytes := exampleHeader ++ instr 2 0
                       ++ instr 12 8 ++ encodeLE 8 (4096 + 24 + 8 + 0x100)
                       ++ instr 0 0 |};
  getGenericArgs := fun _ => 0;
  vw_size := fun _ => 8;
  vw_getNumExtraInhabitants := fun _ => 0;
  isBitwiseTakable := fun _ => false;
  isValueInline := fun _ => true;
  callMetadataAccessor := fun fn _ => u64 fn;
  callGetEnumTagFn := fun _ _ _ => 0;
  vw_getEnumTagSinglePayload := fun _ _ _ _ => 0;
  Block_copy_result := fun object _ => object;
  effect := fun _ m => m
|}.

Lemma destroy_through_resolved_layout_witness :
  option_map (fun s => (addrOffset s, world s))
    (swift_generic_destroy (RT := resolvingRuntime) 3 1000 1
       (emptyWorld (wordAt 1000 0x7000)))
  = option_map (fun s => (addrOffset s, world s))
      (swift_generic_destroy (RT := resolvingRuntime) 3 1000 2
         (emptyWorld (wordAt 1000 0x7000))).
Proof.
  apply (destroy_through_resolved_layout (RT := resolvingRuntime) 3 1000 1 2
           (emptyWorld (wordAt 1000 0x7000)) nativeAndResilient 0
           exampleHeader [] exampleHeader []).
  - reflexivity.
  - reflexivity.
  - reflexivity.
  - reflexivity.
  - intros fn args. apply u64_range.
  - repeat constructor; cbn; lia.
  - lia.
Defined.

Example destroy_unresolved_and_resolved :
  outcome (swift_generic_destroy (RT := resolvingRuntime) 3 1000 1
             (emptyWorld (wordAt 1000 0x7000)))
  = Some (24, [vw_destroy 4384 1016; swift_release 0x7000])
  /\ outcome (swift_generic_destroy (RT := resolvingRuntime) 3 1000 2
                (emptyWorld (wordAt 1000 0x7000)))
     = Some (24, [vw_destroy 4384 1016; swift_release 0x7000]).
Proof. split; vm_compute; reflexivity. Qed.

(** ** Take and assign in terms of copy and destroy *)

Lemma assignsOf_net {RT : Runtime} object dest src m fields :
  forall cursor,
    netRefcountChange object (assignsOf dest src m cursor fields)
    = netRefcountChange object (releasesOf dest m cursor fields)
      + netRefcountChange object (retainsOf src m cursor fields).
Proof.
  unfold assignsOf, releasesOf, retainsOf.
  induction fields as [|[kind gap] rest IH]; intros cursor;
    cbn [fieldsAt flat_map map app fst snd]; [reflexivity|].
  rewrite !netRefcountChange_cons, IH. lia.
Qed.

Lemma copiedBetween_same m0 dest src lo c m m' :
  copiedBetween m0 dest src lo c m -> copiedBetween m0 dest src lo c m' ->
  forall x, u8 (m x) = u8 (m' x).
Proof.
  intros H H' x.
  destruct (Z.lt_ge_cases x (dest + lo)); [rewrite (proj2 (H x)), (proj2 (H' x)) by lia; reflexivity|].
  destruct (Z.lt_ge_cases x (dest + c)); [|rewrite (proj2 (H x)), (proj2 (H' x)) by lia; reflexivity].
  rewrite (proj1 (H x)), (proj1 (H' x)) by lia. reflexivity.
Qed.

(** X20. A take is a copy followed by the destruction of the source. On a
    struct of error, native, unowned or unknown references, with operands
    that do not overlap, [swift_generic_initWithCopy] followed by
    [swift_generic_destroy] of the source and [swift_generic_initWithTake]
    alone all return, and they leave every object with the same reference
    count and every byte of storage with the same value. *)
Theorem take_is_copy_then_destroy_of_source {RT : Runtime} :
  forall (fuel : nat) (dest src metadata : Z) (w : World) fields endOffset,
    countingLeavesStorage ->
    structOf metadata fields endOffset ->
    Forall strongField fields ->
    Forall bitwiseField fields ->
    0 <= endOffset < 2 ^ 56 ->
    (length fields < fuel)%nat ->
    vw_size metadata = structSize fields endOffset ->
    structSize fields endOffset < 2 ^ 64 ->
    dest + structSize fields endOffset <= src \/ src + structSize fields endOffset <= dest ->
    exists s1 s2 s3,
      swift_generic_initWithCopy fuel dest src metadata w = Some s1
      /\ swift_generic_destroy fuel src metadata (world s1) = Some s2
      /\ swift_generic_initWithTake fuel dest src metadata w = Some s3
      /\ (forall object, netRefcountChange object (trace (world s2))
                         = netRefcountChange object (trace (world s3)))
      /\ (forall x, u8 (mem (world s2) x) = u8 (mem (world s3) x)).
Proof.
  intros fuel dest src metadata w fields endOffset Hq Hs Hf Hb He Hfuel Hvw Hsize Hov.
  pose proof Hs as (header & rest & Hls & Hh).
  pose proof (structSize_nonneg (fun k => strongKind k = true) _ _ Hf (proj1 He)) as Hn.
  destruct (copy_struct (ls := getLayoutString metadata) metadata dest src Hq
              fields fuel header endOffset rest (start 0 w) (mem w) 0 Hls
              (structOf_start _ _ _ Hh) Hf He Hfuel)
    as (m' & Hrun & Hm'); cbn [start addrOffset world]; try lia.
  { apply copiedBetween_start. }
  assert (Htake : exists s3,
             swift_generic_initWithTake fuel dest src metadata w = Some s3
             /\ world s3 = {| mem := memcpy (mem w) dest src (structSize fields endOffset);
                              trace := trace w |}).
  { unfold swift_generic_initWithTake. destruct (isBitwiseTakable metadata).
    - rewrite Hvw. eexists. split; reflexivity.
    - unfold run.
      rewrite (take_struct (ls := getLayoutString metadata) metadata dest src
                 fields fuel header endOffset rest (start 0 w) (mem w) Hls
                 (structOf_start _ _ _ Hh) Hb He Hfuel);
        cbn [start addrOffset world mem trace]; try lia.
      + eexists. split; reflexivity.
      + symmetry. apply memcpy_zero. }
  destruct Htake as (s3 & Htake & Hw3).
  unfold swift_generic_initWithCopy, swift_generic_destroy, run. rewrite Hrun.
  eexists. eexists. exists s3. split; [reflexivity|]. cbn [world].
  rewrite (destroy_struct (ls := getLayoutString metadata) metadata src Hq
             fields fuel header endOffset rest _ Hls (structOf_start _ _ _ Hh) Hf He Hfuel).
  split; [reflexivity|]. split; [exact Htake|].
  rewrite Hw3. cbn [addrOffset world trace mem start] in *. split.
  - intros object.
    rewrite !netRefcountChange_app, !netRefcountChange_rev.
    assert (Hbytes : forall x, src <= x < src + (0 + structSize fields endOffset) ->
                               u8 (m' x) = u8 (mem w (src + (x - src)))).
    { intros x Hx. rewrite (proj2 (Hm' x)) by lia. do 2 f_equal. lia. }
    pose proof (copy_then_destroy_balanced object src src (mem w) m'
                  (0 + structSize fields endOffset) endOffset fields Hbytes Hf (proj1 He)
                  0 ltac:(lia) ltac:(lia) ltac:(lia)).
    lia.
  - intros x. unfold memcpy.
    destruct (Z.leb_spec dest x); destruct (Z.ltb_spec x (dest + structSize fields endOffset));
      cbn [andb].
    + apply Hm'. lia.
    + rewrite (proj2 (Hm' x)) by lia. reflexivity.
    + rewrite (proj2 (Hm' x)) by lia. reflexivity.
    + rewrite (proj2 (Hm' x)) by lia. reflexivity.
Qed.

(** X21. A copy-assignment is a destruction of the destination followed
    by a copy-initialisation. On a struct of strong single-word references,
    of a type whose size is that of the struct, assigned to itself or to a
    destination that does not overlap the source,
    [swift_generic_assignWithCopy] alone and [swift_generic_destroy] of the
    destination followed by [swift_generic_initWithCopy] all return, the
    assignment and the copy with the cursor at the size of the type, as
    these entry points assert; and they leave every object with the same
    reference count and every byte of storage with the same value. *)
Theorem assign_is_destroy_then_copy {RT : Runtime} :
  forall (fuel : nat) (dest src metadata : Z) (w : World) fields endOffset,
    countingLeavesStorage ->
    structOf metadata fields endOffset ->
    Forall strongField fields ->
    0 <= endOffset < 2 ^ 56 ->
    (length fields < fuel)%nat ->
    vw_size metadata = structSize fields endOffset ->
    structSize fields endOffset < 2 ^ 64 ->
    dest = src \/ dest + structSize fields endOffset <= src
    \/ src + structSize fields endOffset <= dest ->
    exists s s1 s2,
      swift_generic_assignWithCopy fuel dest src metadata w = Some s
      /\ swift_generic_destroy fuel dest metadata w = Some s1
      /\ swift_generic_initWithCopy fuel dest src metadata (world s1) = Some s2
      /\ addrOffset s = vw_size metadata
      /\ addrOffset s2 = vw_size metadata
      /\ (forall object, netRefcountChange object (trace (world s))
                         = netRefcountChange object (trace (world s2)))
      /\ (forall x, u8 (mem (world s) x) = u8 (mem (world s2) x)).
Proof.
  intros fuel dest src metadata w fields endOffset Hq Hs Hf He Hfuel Hvw Hsize Hov.
  pose proof Hs as (header & rest & Hls & Hh).
  pose proof (structSize_nonneg (fun k => strongKind k = true) _ _ Hf (proj1 He)) as Hn.
  destruct (assign_struct (ls := getLayoutString metadata) metadata dest src Hq
              fields fuel header endOffset rest (start 0 w) (mem w) 0 Hls
              (structOf_start _ _ _ Hh) Hf He Hfuel)
    as (ma & Hassign & Hma); cbn [start addrOffset world]; try lia.
  { apply copiedBetween_start. }
  destruct (copy_struct (ls := getLayoutString metadata) metadata dest src Hq
              fields fuel header endOffset rest
              (start 0 {| mem := mem w;
                          trace := rev (releasesOf dest (mem w) 0 fields) ++ trace w |})
              (mem w) 0 Hls (structOf_start _ _ _ Hh) Hf He Hfuel)
    as (mc & Hcopy & Hmc); cbn [start addrOffset world mem]; try lia.
  { apply copiedBetween_start. }
  unfold swift_generic_assignWithCopy, swift_generic_destroy, swift_generic_initWithCopy,
    run.
  rewrite Hassign.
  rewrite (destroy_struct (ls := getLayoutString metadata) metadata dest Hq
             fields fuel header endOffset rest _ Hls (structOf_start _ _ _ Hh) Hf He Hfuel).
  cbn [world start addrOffset mem trace] in *.
  eexists. eexists. eexists. split; [reflexivity|]. split; [reflexivity|].
  cbn [world]. rewrite Hcopy.
  split; [reflexivity|]. cbn [addrOffset world trace mem] in *.
  split; [symmetry; exact Hvw|]. split; [symmetry; exact Hvw|]. split.
  - intros object.
    rewrite !netRefcountChange_app, !netRefcountChange_rev, assignsOf_net. lia.
  - exact (copiedBetween_same _ _ _ _ _ _ _ Hma Hmc).
Qed.

Lemma take_is_copy_then_destroy_of_source_witness :
  exists s1 s2 s3,
    swift_generic_initWithCopy (RT := wordRuntime false) 2 2000 1000 0 pairWorld = Some s1
    /\ swift_generic_destroy (RT := wordRuntime false) 2 1000 0 (world s1) = Some s2
    /\ swift_generic_initWithTake (RT := wordRuntime false) 2 2000 1000 0 pairWorld = Some s3
    /\ (forall object, netRefcountChange object (trace (world s2))
                       = netRefcountChange object (trace (world s3)))
    /\ (forall x, u8 (mem (world s2) x) = u8 (mem (world s3) x)).
Proof.
  apply (take_is_copy_then_destroy_of_source (RT := wordRuntime false)
           2 2000 1000 0 pairWorld oneNative 0).
  - apply exampleRuntime_countingLeavesStorage.
  - exact (exampleRuntime_structOf oneNative 0 false 0).
  - exact oneNative_strong.
  - exact oneNative_bitwise.
  - lia.
  - cbn. lia.
  - reflexivity.
  - cbn. lia.
  - cbn. lia.
Defined.

Lemma assign_is_destroy_then_copy_witness :
  exists s s1 s2,
    swift_generic_assignWithCopy (RT := pairRuntime) 3 2000 1000 0 pairWorld = Some s
    /\ swift_generic_destroy (RT := pairRuntime) 3 2000 0 pairWorld = Some s1
    /\ swift_generic_initWithCopy (RT := pairRuntime) 3 2000 1000 0 (world s1) = Some s2
    /\ addrOffset s = vw_size (Runtime := pairRuntime) 0
    /\ addrOffset s2 = vw_size (Runtime := pairRuntime) 0
    /\ (forall object, netRefcountChange object (trace (world s))
                       = netRefcountChange object (trace (world s2)))
    /\ (forall x, u8 (mem (world s) x) = u8 (mem (world s2) x)).
Proof.
  apply (assign_is_destroy_then_copy (RT := pairRuntime)
           3 2000 1000 0 pairWorld nativeAndError 4).
  - apply sizedRuntime_countingLeavesStorage.
  - exact (sizedRuntime_structOf nativeAndError 4 28 0).
  - exact nativeAndError_strong.
  - lia.
  - cbn. lia.
  - reflexivity.
  - cbn. lia.
  - cbn. lia.
Defined.
